(** * pigz 1.8 -- parallel gzip: a shallow embedding of [pigz.c]

    The development follows the layout of the source file:
    - [Comb]: the check combiners [crc32_comb] and [adler32_comb], together
      with the zlib check functions [crc32] and [adler32] they combine;
    - [Framing]: [put_header] and [put_trailer] for gzip, zlib and zip;
    - [Deflate]: the interface of the zlib encoder the program drives;
    - [Serial]: [single_gzip];
    - [Inflate]: [get_header], [outb] and [infchk];
    - [Pipeline]: [compress_thread], [write_thread] and [read_thread] as an
      interleaving semantics over the ring of work units.

    C integers are modelled as [Z]; a store into an [unsigned char] keeps the
    value modulo 256, an [unsigned long] accumulator wraps modulo [2^64]. *)

From Stdlib Require Import ZArith Lia Bool String Ascii.
From stdpp Require Import base list.

Local Open Scope Z_scope.

(** ** Machine integers *)

(** A store into an [unsigned char]. *)
Definition u8 (x : Z) : Z := x mod 256.

(** Conversion to [unsigned] (32 bits). *)
Definition u32 (x : Z) : Z := x mod 2 ^ 32.

(** Arithmetic in [unsigned long] (LP64: 64 bits, "overflow ok"). *)
Definition ulong (x : Z) : Z := x mod 2 ^ 64.

(** The value of an [int] shifted left: wrapped into 32 bits, sign and
    all, as the conversion to [unsigned long] sees it. *)
Definition int_shl (x n : Z) : Z :=
  (Z.shiftl x n + 2 ^ 31) mod 2 ^ 32 - 2 ^ 31.

(** A read of an [unsigned char] out of a buffer of the model. *)
Definition rd8 (b : Z) : Z := Z.land b 255.

(** The length of a buffer as a C length. *)
Definition zlen {A} (l : list A) : Z := Z.of_nat (length l).

(** ** The check combiners *)

Module Comb.

(** *** zlib's check functions

    [crc32] and [adler32] belong to zlib; the program only calls them.  They
    are given here by their defining algorithms (RFC 1952 section 8 and
    RFC 1950 section 9), with the running value as first argument as in
    zlib's interface. *)

Definition POLY : Z := 0xedb88320.

(** Shift one zero bit through the CRC register. *)
Definition crc_shift (c : Z) : Z :=
  Z.lxor (Z.shiftr c 1) (if Z.odd c then POLY else 0).

Definition crc_byte (c b : Z) : Z :=
  Nat.iter 8 crc_shift (Z.lxor c (rd8 b)).

Definition crc32 (crc : Z) (buf : list Z) : Z :=
  Z.lxor (fold_left crc_byte buf (Z.lxor crc 0xffffffff)) 0xffffffff.

Definition BASE : Z := 65521.
Definition LOW16 : Z := 0xffff.

Definition adler_byte (s : Z * Z) (b : Z) : Z * Z :=
  let s1 := (fst s + rd8 b) mod BASE in
  (s1, (snd s + s1) mod BASE).

Definition adler32 (adler : Z) (buf : list Z) : Z :=
  let s := fold_left adler_byte buf
             (Z.land adler LOW16, Z.land (Z.shiftr adler 16) LOW16) in
  Z.lor (Z.shiftl (snd s) 16) (fst s).

(** *** [gf2_matrix_times], [gf2_matrix_square], [crc32_comb] *)

(** [while (vec) { if (vec & 1) sum ^= *mat; vec >>= 1; mat++; }] -- the
    matrix is the list of its 32 columns; running past its end (which needs
    [vec >= 2^32]) leaves the sum as it is. *)
Fixpoint gf2_matrix_times_loop (mat : list Z) (vec sum : Z) : Z :=
  if vec =? 0 then sum else
  match mat with
  | [] => sum
  | m :: mat' =>
      gf2_matrix_times_loop mat' (Z.shiftr vec 1)
        (if Z.land vec 1 =? 0 then sum else Z.lxor sum m)
  end.

Definition gf2_matrix_times (mat : list Z) (vec : Z) : Z :=
  gf2_matrix_times_loop mat vec 0.

(** [for (n = 0; n < 32; n++) square[n] = gf2_matrix_times(mat, mat[n]);] *)
Definition gf2_matrix_square (mat : list Z) : list Z :=
  map (gf2_matrix_times mat) mat.

(** [odd[0] = 0xedb88320UL; row = 1;
     for (n = 1; n < 32; n++) { odd[n] = row; row <<= 1; }] *)
Fixpoint odd_rows (n : nat) (row : Z) : list Z :=
  match n with
  | O => []
  | S n' => row :: odd_rows n' (Z.shiftl row 1)
  end.

Definition odd_init : list Z := POLY :: odd_rows 31 1.

(** The [do ... while (len2 != 0)] loop of [crc32_comb].  [even] is dead on
    entry of each round (it is overwritten first), so only [odd] is carried.
    Each round shifts [len2] right by two bits; the counter [n] bounds the
    number of rounds. *)
Fixpoint crc32_comb_loop (n : nat) (odd : list Z) (crc1 len2 : Z) : Z :=
  match n with
  | O => crc1
  | S n' =>
      let even := gf2_matrix_square odd in
      let crc1 := if Z.land len2 1 =? 0 then crc1
                  else gf2_matrix_times even crc1 in
      let len2 := Z.shiftr len2 1 in
      if len2 =? 0 then crc1 else
      let odd := gf2_matrix_square even in
      let crc1 := if Z.land len2 1 =? 0 then crc1
                  else gf2_matrix_times odd crc1 in
      let len2 := Z.shiftr len2 1 in
      if len2 =? 0 then crc1 else
      crc32_comb_loop n' odd crc1 len2
  end.

(** The number of bits of [len2]: more rounds than the loop can make. *)
Definition rounds (len2 : Z) : nat := S (Z.to_nat (Z.log2 len2)).

Definition crc32_comb (crc1 crc2 len2 : Z) : Z :=
  if len2 =? 0 then crc1 else
  let odd := odd_init in
  let even := gf2_matrix_square odd in
  let odd := gf2_matrix_square even in
  let crc1 := crc32_comb_loop (rounds len2) odd crc1 len2 in
  Z.lxor crc1 crc2.

(** *** [adler32_comb] *)

Definition adler32_comb (adler1 adler2 len2 : Z) : Z :=
  let rem := u32 (len2 mod BASE) in
  let sum1 := Z.land adler1 LOW16 in
  let sum2 := (rem * sum1) mod BASE in
  let sum1 := sum1 + (Z.land adler2 LOW16 + BASE - 1) in
  let sum2 := sum2 + (Z.land (Z.shiftr adler1 16) LOW16
                      + Z.land (Z.shiftr adler2 16) LOW16 + BASE - rem) in
  let sum1 := if sum1 >? BASE then sum1 - BASE else sum1 in
  let sum1 := if sum1 >? BASE then sum1 - BASE else sum1 in
  let sum2 := if sum2 >? Z.shiftl BASE 1 then sum2 - Z.shiftl BASE 1 else sum2 in
  let sum2 := if sum2 >? BASE then sum2 - BASE else sum2 in
  Z.lor sum1 (Z.shiftl sum2 16).

End Comb.


(** ** Globals

    The globals of the program that the modelled functions read.  [name] is
    the string without its terminating NUL, or [None] for [NULL]; [out] is
    the output file name, [None] for [NULL]. *)

Record globals := Globals {
  verbosity : Z;              (* 0 = quiet, 1 = normal, 2 = verbose *)
  form : Z;                   (* gzip = 0, zlib = 1, zip = 2 or 3 *)
  name : option (list Z);     (* name for gzip header *)
  mtime : Z;                  (* time stamp from input file *)
  listing : Z;                (* [list]: true to list files *)
  decode : Z;                 (* 0 to compress, 1 to decompress, 2 to test *)
  level : Z;                  (* compression level *)
  procs : nat;                (* number of compression threads *)
  dict : bool;                (* true to initialize dictionary in each thread *)
  size : Z;                   (* uncompressed input size per thread (>= 32K) *)
  in_name : string;           (* [in]: input file name *)
  out : option string         (* output file name *)
}.

(** Assignments to single globals. *)
Definition set_form (f : Z) (g : globals) : globals :=
  {| verbosity := verbosity g; form := f; name := name g; mtime := mtime g;
     listing := listing g; decode := decode g; level := level g;
     procs := procs g; dict := dict g; size := size g;
     in_name := in_name g; out := out g |}.

Definition set_level (l : Z) (g : globals) : globals :=
  {| verbosity := verbosity g; form := form g; name := name g; mtime := mtime g;
     listing := listing g; decode := decode g; level := l;
     procs := procs g; dict := dict g; size := size g;
     in_name := in_name g; out := out g |}.

Definition set_dict (d : bool) (g : globals) : globals :=
  {| verbosity := verbosity g; form := form g; name := name g; mtime := mtime g;
     listing := listing g; decode := decode g; level := level g;
     procs := procs g; dict := d; size := size g;
     in_name := in_name g; out := out g |}.

Definition set_procs (n : nat) (g : globals) : globals :=
  {| verbosity := verbosity g; form := form g; name := name g; mtime := mtime g;
     listing := listing g; decode := decode g; level := level g;
     procs := n; dict := dict g; size := size g;
     in_name := in_name g; out := out g |}.

Definition set_decode (d : Z) (g : globals) : globals :=
  {| verbosity := verbosity g; form := form g; name := name g; mtime := mtime g;
     listing := listing g; decode := d; level := level g;
     procs := procs g; dict := dict g; size := size g;
     in_name := in_name g; out := out g |}.

Definition set_verbosity (v : Z) (g : globals) : globals :=
  {| verbosity := v; form := form g; name := name g; mtime := mtime g;
     listing := listing g; decode := decode g; level := level g;
     procs := procs g; dict := dict g; size := size g;
     in_name := in_name g; out := out g |}.

Definition set_out (o : option string) (g : globals) : globals :=
  {| verbosity := verbosity g; form := form g; name := name g; mtime := mtime g;
     listing := listing g; decode := decode g; level := level g;
     procs := procs g; dict := dict g; size := size g;
     in_name := in_name g; out := o |}.

Definition Z_DEFAULT_COMPRESSION : Z := -1.

(** [CHECK(a,b,c)] and [COMB(a,b,c)]. *)
Definition CHECK (g : globals) (a : Z) (b : list Z) : Z :=
  if form g =? 1 then Comb.adler32 a b else Comb.crc32 a b.

Definition COMB (g : globals) (a b c : Z) : Z :=
  if form g =? 1 then Comb.adler32_comb a b c else Comb.crc32_comb a b c.

(** [CHECK(0L, Z_NULL, 0)]: with a null buffer zlib's functions return the
    initial value of the check, 1 for Adler-32 and 0 for CRC-32. *)
Definition CHECK_init (g : globals) : Z :=
  if form g =? 1 then 1 else 0.

(** ** Container framing *)

Module Framing.

(** The broken-down time of the C library. *)
Record tm := Tm {
  tm_year : Z; tm_mon : Z; tm_mday : Z; tm_hour : Z; tm_min : Z; tm_sec : Z
}.

(** The C library's clock: [time(NULL)], [localtime] and [mktime]. *)
Record clock := Clock {
  time_now : Z; localtime : Z -> tm; mktime : tm -> Z
}.

(** [time2dos].  Each shift is made in [int] and its value added into the
    [unsigned long] [dos]: from 2044 on the year shifted by 25 is negative
    as an [int], and the bits above the low 32 of the result are set. *)
Definition time2dos (c : clock) (t : Z) : Z :=
  let t := if t =? 0 then time_now c else t in
  let tm := localtime c t in
  if (tm_year tm <? 80) || (tm_year tm >? 207) then 0 else
  let dos := ulong (int_shl (tm_year tm - 80) 25) in
  let dos := ulong (dos + int_shl (tm_mon tm + 1) 21) in
  let dos := ulong (dos + int_shl (tm_mday tm) 16) in
  let dos := ulong (dos + int_shl (tm_hour tm) 11) in
  let dos := ulong (dos + int_shl (tm_min tm) 5) in
  let dos := ulong (dos + Z.shiftr (tm_sec tm + 1) 1) in
  dos.

(** [PUT2L], [PUT4L], [PUT4M] on a byte array [a], at offset [o]. *)
Definition PUT2L (a : list Z) (o : nat) (b : Z) : list Z :=
  <[S o := u8 (Z.shiftr b 8)]> (<[o := u8 (Z.land b 0xff)]> a).

Definition PUT4L (a : list Z) (o : nat) (b : Z) : list Z :=
  PUT2L (PUT2L a o (Z.land b 0xffff)) (o + 2)%nat (Z.shiftr b 16).

Definition PUT4M (a : list Z) (o : nat) (b : Z) : list Z :=
  <[(o + 3)%nat := u8 b]> (<[(o + 2)%nat := u8 (Z.shiftr b 8)]>
    (<[(o + 1)%nat := u8 (Z.shiftr b 16)]> (<[o := u8 (Z.shiftr b 24)]> a))).

(** [writen(outd, buf, len)]: the bytes that reach the output. *)
Definition writen (buf : list Z) (len : nat) : list Z := take len buf.

(** [strlen(name)], and the name as written with its terminating NUL. *)
Definition strlen (nm : list Z) : Z := zlen nm.

(** [put_header]: the bytes written and the header length returned. *)
Definition put_header (c : clock) (g : globals) : list Z * Z :=
  let head := replicate 30 0 in
  if form g >? 1 then                     (* zip *)
    let head := PUT4L head 0 0x04034b50 in
    let head := PUT2L head 4 20 in
    let head := PUT2L head 6 8 in
    let head := PUT2L head 8 8 in
    let head := PUT4L head 10 (time2dos c (mtime g)) in
    let head := PUT4L head 14 0 in
    let head := PUT4L head 18 0 in
    let head := PUT4L head 22 0 in
    let head := PUT2L head 26 (match name g with None => 1
                               | Some nm => strlen nm end) in
    let head := PUT2L head 28 9 in
    let w1 := writen head 30 in
    let len := 30 in
    let w2 := match name g with None => [45] | Some nm => nm end in
    let len := len + match name g with None => 1 | Some nm => strlen nm end in
    let head := PUT2L head 0 0x5455 in
    let head := PUT2L head 2 5 in
    let head := <[4%nat := 1]> head in
    let head := PUT4L head 5 (mtime g) in
    let w3 := writen head 9 in
    let len := len + 9 in
    (w1 ++ w2 ++ w3, len)
  else if negb (form g =? 0) then         (* zlib *)
    let head := <[0%nat := 0x78]> head in
    let h1 := u8 (Z.shiftl
                (if level g =? 9 then 3 else
                 if level g =? 1 then 0 else
                 if (level g >=? 6) || (level g =? Z_DEFAULT_COMPRESSION)
                 then 1 else 2) 6) in
    let h1 := u8 (h1 + (31 - (Z.shiftl 0x78 8 + h1) mod 31)) in
    let head := <[1%nat := h1]> head in
    (writen head 2, 2)
  else                                    (* gzip *)
    let head := <[0%nat := 31]> head in
    let head := <[1%nat := 139]> head in
    let head := <[2%nat := 8]> head in
    let head := <[3%nat := match name g with Some _ => 8 | None => 0 end]> head in
    let head := PUT4L head 4 (mtime g) in
    let head := <[8%nat := if level g =? 9 then 2 else
                           if level g =? 1 then 4 else 0]> head in
    let head := <[9%nat := 3]> head in
    let w1 := writen head 10 in
    let len := 10 in
    match name g with
    | Some nm => (w1 ++ (nm ++ [0]), len + (strlen nm + 1))
    | None => (w1, len)
    end.

(** [put_trailer]: the bytes written. *)
Definition put_trailer (c : clock) (g : globals)
    (ulen clen check head : Z) : list Z :=
  let tail := replicate 46 0 in
  if form g >? 1 then                     (* zip *)
    let tail := PUT4L tail 0 check in
    let tail := PUT4L tail 4 clen in
    let tail := PUT4L tail 8 ulen in
    let w1 := writen tail 12 in
    let tail := PUT4L tail 0 0x02014b50 in
    let tail := <[4%nat := 63]> tail in
    let tail := <[5%nat := 255]> tail in
    let tail := PUT2L tail 6 20 in
    let tail := PUT2L tail 8 8 in
    let tail := PUT2L tail 10 8 in
    let tail := PUT4L tail 12 (time2dos c (mtime g)) in
    let tail := PUT4L tail 16 check in
    let tail := PUT4L tail 20 clen in
    let tail := PUT4L tail 24 ulen in
    let tail := PUT2L tail 28 (match name g with None => 1
                               | Some nm => strlen nm end) in
    let tail := PUT2L tail 30 9 in
    let tail := PUT2L tail 32 0 in
    let tail := PUT2L tail 34 0 in
    let tail := PUT2L tail 36 0 in
    let tail := PUT4L tail 38 0 in
    let tail := PUT4L tail 42 0 in
    let w2 := writen tail 46 in
    let cent := 46 in
    let w3 := match name g with None => [45] | Some nm => nm end in
    let cent := cent + match name g with None => 1 | Some nm => strlen nm end in
    let tail := PUT2L tail 0 0x5455 in
    let tail := PUT2L tail 2 5 in
    let tail := <[4%nat := 1]> tail in
    let tail := PUT4L tail 5 (mtime g) in
    let w4 := writen tail 9 in
    let cent := cent + 9 in
    let tail := PUT4L tail 0 0x06054b50 in
    let tail := PUT2L tail 4 0 in
    let tail := PUT2L tail 6 0 in
    let tail := PUT2L tail 8 1 in
    let tail := PUT2L tail 10 1 in
    let tail := PUT4L tail 12 cent in
    let tail := PUT4L tail 16 (head + clen + 12) in
    let tail := PUT2L tail 20 0 in
    let w5 := writen tail 22 in
    w1 ++ w2 ++ w3 ++ w4 ++ w5
  else if negb (form g =? 0) then         (* zlib *)
    let tail := PUT4M tail 0 check in
    writen tail 4
  else                                    (* gzip *)
    let tail := PUT4L tail 0 check in
    let tail := PUT4L tail 4 ulen in
    writen tail 8.

End Framing.

(** ** The deflate engine

    zlib's encoder is outside the program.  A stream is modelled by the calls
    made on it since its last reset, oldest first; the encoder itself is any
    function from the compression level and that history to the bytes the
    latest [deflate] call emits.  [deflateReset] makes the stream as good as
    new, so it empties the history.  Where the program repeats a [deflate]
    call only to drain its output buffer ([while (strm->avail_out == 0)]),
    the model has the one call with all of its output. *)

Module Deflate.

Inductive flush := Z_NO_FLUSH | Z_SYNC_FLUSH | Z_FULL_FLUSH | Z_FINISH.

Inductive zcall :=
| SetDictionary (dictionary : list Z)
| Deflate (input : list Z) (f : flush).

Definition z_stream := list zcall.

Definition encoder := Z -> z_stream -> list Z.

Definition deflateReset (strm : z_stream) : z_stream := [].

Definition deflateSetDictionary (strm : z_stream) (d : list Z) : z_stream :=
  strm ++ [SetDictionary d].

(** [deflate(strm, f)] with [input] the [avail_in] bytes at [next_in]: the
    stream after the call and the bytes put at [next_out]. *)
Definition deflate (enc : encoder) (lvl : Z) (strm : z_stream)
    (input : list Z) (f : flush) : z_stream * list Z :=
  let strm := strm ++ [Deflate input f] in
  (strm, enc lvl strm).

(** Sliding dictionary size for deflate. *)
Definition DICT : Z := 32768.

(** [((((unsigned)-1) >> 1) + 1)]. *)
Definition MAX : Z := Z.shiftr (u32 (-1)) 1 + 1.

End Deflate.

(** [readn(ind, buf, len)] on the input that is left: the bytes read, and the
    input after them.  [read] is taken to deliver until the end of input. *)
Definition readn (ind : list Z) (len : Z) : list Z * list Z :=
  (take (Z.to_nat len) ind, drop (Z.to_nat len) ind).

(** ** The serial fallback *)

Module Serial.
Import Deflate.

(** The locals of [single_gzip], the stream of [jobs] and the output. *)
Record state := State {
  strm : z_stream;
  next_in : list Z;           (* the bytes from [strm->next_in] on *)
  ulen : Z;
  clen : Z;
  check : Z;
  outd : list Z               (* all that was written to [outd] *)
}.

(** One [deflate] call, its output written and counted. *)
Definition deflate_write (enc : encoder) (g : globals) (st : state)
    (avail_in : Z) (f : flush) : state :=
  let input := take (Z.to_nat avail_in) (next_in st) in
  let '(strm', o) := deflate enc (level g) (strm st) input f in
  {| strm := strm';
     next_in := drop (Z.to_nat avail_in) (next_in st);
     ulen := ulen st;
     clen := ulong (clen st + zlen o);
     check := check st;
     outd := outd st ++ o |}.

Definition set_check (st : state) (c : Z) : state :=
  {| strm := strm st; next_in := next_in st; ulen := ulen st;
     clen := clen st; check := c; outd := outd st |}.

(** [while (got > MAX) { ...; got -= MAX; }] -- at most [n] rounds. *)
Fixpoint max_chunks (n : nat) (enc : encoder) (g : globals)
    (st : state) (got : Z) : state * Z :=
  match n with
  | O => (st, got)
  | S n' =>
      if got >? MAX then
        let st := set_check st
                    (CHECK g (check st) (take (Z.to_nat MAX) (next_in st))) in
        let st := deflate_write enc g st MAX Z_NO_FLUSH in
        max_chunks n' enc g st (got - MAX)
      else (st, got)
  end.

(** The body of the [do ... while (got == size)] loop: the state after it,
    the input left, and [got] as the loop test sees it. *)
Definition round (enc : encoder) (g : globals) (ind : list Z) (st : state)
    : state * list Z * Z :=
  let '(buf, ind) := readn ind (size g) in
  let got := zlen buf in
  let st := {| strm := strm st; next_in := buf;
               ulen := ulong (ulen st + got);
               clen := clen st; check := check st; outd := outd st |} in
  let '(st, got) := max_chunks (Z.to_nat (got / MAX)) enc g st got in
  let st := if got =? 0 then st
            else set_check st
                   (CHECK g (check st) (take (Z.to_nat got) (next_in st))) in
  let st := deflate_write enc g st got
              (if got <? size g then Z_FINISH
               else if dict g then Z_NO_FLUSH else Z_FULL_FLUSH) in
  (st, ind, got).

(** The loop, for at most [n] rounds; [None] when they do not suffice. *)
Fixpoint rounds (n : nat) (enc : encoder) (g : globals) (ind : list Z)
    (st : state) : option state :=
  match n with
  | O => None
  | S n' =>
      let '(st, ind, got) := round enc g ind st in
      if got =? size g then rounds n' enc g ind st else Some st
  end.

(** [single_gzip]: the final state, with the whole output in [outd]. *)
Definition single_gzip (enc : encoder) (c : Framing.clock) (g : globals)
    (ind : list Z) : option state :=
  let '(hd, head) := Framing.put_header c g in
  let st := {| strm := deflateReset []; next_in := [];
               ulen := 0; clen := 0; check := CHECK_init g; outd := hd |} in
  match rounds (S (length ind)) enc g ind st with
  | None => None
  | Some st =>
      Some {| strm := strm st; next_in := next_in st; ulen := ulen st;
              clen := clen st; check := check st;
              outd := outd st
                      ++ Framing.put_trailer c g (ulen st) (clen st)
                           (check st) head |}
  end.

End Serial.

(** ** Decompression: buffered input and [get_header] *)

Module Inflate.

(** A call of [show_info]: its arguments and [in_tot] at the call.  The
    layout of the listing is not modelled. *)
Record listed := Listed {
  l_method : Z; l_check : Z; l_len : Z; l_cont : Z; l_in_tot : Z
}.

(** The globals of decompression.  The input buffer [in_buf], [in_next],
    [in_left] and the file behind it are one list, [ind]: the bytes not yet
    consumed; [LOAD] refills the buffer from it and finds the end of input
    when it is empty. *)
Record state := State {
  glob : globals;             (* the option globals; [form] is set here *)
  ind : list Z;               (* input not yet consumed *)
  in_eof : bool;              (* true if reached end of file on input *)
  out_tot : Z;                (* total bytes written to output *)
  out_check : Z;              (* check value of output *)
  stamp : Z;                  (* time stamp from gzip header *)
  hname : option (list Z);    (* name from header *)
  zip_crc : Z;                (* local header crc *)
  zip_clen : Z;               (* local header compressed length *)
  zip_ulen : Z;               (* local header uncompressed length *)
  outd : list Z;              (* all that was written to [outd] *)
  removed : list string;      (* the files unlinked *)
  stderr : list string;       (* the lines written to [stderr] *)
  stdout : list listed        (* the calls of [show_info] *)
}.

Definition set_glob v s := State v (ind s) (in_eof s) (out_tot s) (out_check s)
  (stamp s) (hname s) (zip_crc s) (zip_clen s) (zip_ulen s) (outd s)
  (removed s) (stderr s) (stdout s).
Definition set_ind v s := State (glob s) v (in_eof s) (out_tot s) (out_check s)
  (stamp s) (hname s) (zip_crc s) (zip_clen s) (zip_ulen s) (outd s)
  (removed s) (stderr s) (stdout s).
Definition set_in_eof v s := State (glob s) (ind s) v (out_tot s) (out_check s)
  (stamp s) (hname s) (zip_crc s) (zip_clen s) (zip_ulen s) (outd s)
  (removed s) (stderr s) (stdout s).
Definition set_out_tot v s := State (glob s) (ind s) (in_eof s) v (out_check s)
  (stamp s) (hname s) (zip_crc s) (zip_clen s) (zip_ulen s) (outd s)
  (removed s) (stderr s) (stdout s).
Definition set_out_check v s := State (glob s) (ind s) (in_eof s) (out_tot s) v
  (stamp s) (hname s) (zip_crc s) (zip_clen s) (zip_ulen s) (outd s)
  (removed s) (stderr s) (stdout s).
Definition set_stamp v s := State (glob s) (ind s) (in_eof s) (out_tot s)
  (out_check s) v (hname s) (zip_crc s) (zip_clen s) (zip_ulen s) (outd s)
  (removed s) (stderr s) (stdout s).
Definition set_hname v s := State (glob s) (ind s) (in_eof s) (out_tot s)
  (out_check s) (stamp s) v (zip_crc s) (zip_clen s) (zip_ulen s) (outd s)
  (removed s) (stderr s) (stdout s).
Definition set_zip_crc v s := State (glob s) (ind s) (in_eof s) (out_tot s)
  (out_check s) (stamp s) (hname s) v (zip_clen s) (zip_ulen s) (outd s)
  (removed s) (stderr s) (stdout s).
Definition set_zip_clen v s := State (glob s) (ind s) (in_eof s) (out_tot s)
  (out_check s) (stamp s) (hname s) (zip_crc s) v (zip_ulen s) (outd s)
  (removed s) (stderr s) (stdout s).
Definition set_zip_ulen v s := State (glob s) (ind s) (in_eof s) (out_tot s)
  (out_check s) (stamp s) (hname s) (zip_crc s) (zip_clen s) v (outd s)
  (removed s) (stderr s) (stdout s).
Definition set_outd v s := State (glob s) (ind s) (in_eof s) (out_tot s)
  (out_check s) (stamp s) (hname s) (zip_crc s) (zip_clen s) (zip_ulen s) v
  (removed s) (stderr s) (stdout s).
Definition set_removed v s := State (glob s) (ind s) (in_eof s) (out_tot s)
  (out_check s) (stamp s) (hname s) (zip_crc s) (zip_clen s) (zip_ulen s)
  (outd s) v (stderr s) (stdout s).
Definition set_stderr v s := State (glob s) (ind s) (in_eof s) (out_tot s)
  (out_check s) (stamp s) (hname s) (zip_crc s) (zip_clen s) (zip_ulen s)
  (outd s) (removed s) v (stdout s).
Definition set_stdout v s := State (glob s) (ind s) (in_eof s) (out_tot s)
  (out_check s) (stamp s) (hname s) (zip_crc s) (zip_clen s) (zip_ulen s)
  (outd s) (removed s) (stderr s) v.

(** A step of a C function on the globals: it goes on with a value, or the
    function returns. *)
Inductive step (A : Type) :=
| Go (a : A)
| Return (r : Z).
Arguments Go {A} a.
Arguments Return {A} r.

Definition M (A : Type) : Type := state -> step A * state.

Definition ret {A} (a : A) : M A := fun s => (Go a, s).

Definition bind {A B} (m : M A) (k : A -> M B) : M B :=
  fun s => match m s with
           | (Go a, s') => k a s'
           | (Return r, s') => (Return r, s')
           end.

Definition return_ {A} (r : Z) : M A := fun s => (Return r, s).

Definition get {A} (f : state -> A) : M A := fun s => (Go (f s), s).

Definition modify (f : state -> state) : M unit := fun s => (Go tt, f s).

(** A call of a function: its return value, however it returned. *)
Definition call (m : M Z) : state -> Z * state :=
  fun s => match m s with
           | (Go r, s') | (Return r, s') => (r, s')
           end.

(** A call whose return value is dropped. *)
Definition call_ (m : M Z) : M unit :=
  fun s => (Go tt, snd (call m s)).

Definition when (c : bool) (m : M unit) : M unit := if c then m else ret tt.

Notation "'let*' x := m 'in' k" := (bind m (fun x => k))
  (at level 10, x name, m at level 100, k at level 200).
Notation "m ;; k" := (bind m (fun _ => k))
  (at level 100, k at level 200, right associativity).

Definition EOF : Z := -1.
Definition LOW32 : Z := 0xffffffff.

(** [GET()]: the next byte, or [EOF]; the end of input is found at the first
    [GET] past the last byte. *)
Definition GET : M Z := fun s =>
  if in_eof s then (Go EOF, s) else
  match ind s with
  | [] => (Go EOF, set_in_eof true s)
  | b :: rest => (Go (rd8 b), set_ind rest s)
  end.

(** [GET2()]: [tmp2] is [unsigned]. *)
Definition GET2 : M Z :=
  let* tmp2 := GET in let* hi := GET in ret (u32 (u32 tmp2 + Z.shiftl hi 8)).

(** [GET4()]: [tmp4] is [unsigned long]. *)
Definition GET4 : M Z :=
  let* tmp4 := GET2 in let* hi := GET2 in ret (ulong (tmp4 + Z.shiftl hi 16)).

(** [SKIP(dist)]: past [dist] bytes, or [return -1] from the function at the
    end of input. *)
Definition SKIP (dist : Z) : M unit := fun s =>
  if dist <=? zlen (ind s) then (Go tt, set_ind (drop (Z.to_nat dist) (ind s)) s)
  else (Return (-1), set_in_eof true (set_ind [] s)).

(** The bytes before the first NUL, and the bytes after it if there is one. *)
Fixpoint upto_nul (l : list Z) : list Z * option (list Z) :=
  match l with
  | [] => ([], None)
  | b :: rest =>
      if rd8 b =? 0 then ([], Some rest)
      else let '(nm, after) := upto_nul rest in (rd8 b :: nm, after)
  end.

(** [while (GET() != 0) if (in_eof) return -3;] *)
Definition skip_string : M unit := fun s =>
  if in_eof s then (Return (-3), s) else
  match snd (upto_nul (ind s)) with
  | Some rest => (Go tt, set_ind rest s)
  | None => (Return (-3), set_in_eof true (set_ind [] s))
  end.

(** The [do ... while (end == NULL)] loop that copies the gzip header name
    into [hname]. *)
Definition read_string : M unit := fun s =>
  if in_eof s then (Return (-3), set_hname (Some []) s) else
  match upto_nul (ind s) with
  | (nm, Some rest) => (Go tt, set_hname (Some nm) (set_ind rest s))
  | (nm, None) =>
      (Return (-3), set_hname (Some nm) (set_in_eof true (set_ind [] s)))
  end.

(** The copy of the [fname] bytes of the zip header name into [hname]. *)
Definition read_name (fname : Z) : M unit := fun s =>
  if fname <=? zlen (ind s)
  then (Go tt, set_hname (Some (map rd8 (take (Z.to_nat fname) (ind s))))
                 (set_ind (drop (Z.to_nat fname) (ind s)) s))
  else (Return (-3), set_hname (Some (map rd8 (ind s)))
                       (set_in_eof true (set_ind [] s))).

(** [dos2time]. *)
Definition dos2time (c : Framing.clock) (dos : Z) : Z :=
  if dos =? 0 then Framing.time_now c else
  Framing.mktime c
    {| Framing.tm_year := Z.land (Z.shiftr dos 25) 0x7f + 80;
       Framing.tm_mon := Z.land (Z.shiftr dos 21) 0xf - 1;
       Framing.tm_mday := Z.land (Z.shiftr dos 16) 0x1f;
       Framing.tm_hour := Z.land (Z.shiftr dos 11) 0x1f;
       Framing.tm_min := Z.land (Z.shiftr dos 5) 0x3f;
       Framing.tm_sec := Z.land (Z.shiftl dos 1) 0x3e |}.

(** [tolong]. *)
Definition tolong (val : Z) : Z :=
  Z.land val 0x7fffffff - Z.land val 0x80000000.

(** One round of the [while (len >= 4)] loop of [read_extra] after its
    test: the length left, or [None] after [break]. *)
Definition read_extra_block (len : Z) (save : bool) : M (option Z) :=
  let* id := GET2 in
  let* size := GET2 in
  let* eof := get in_eof in
  if (eof : bool) then return_ (-1) else
  let len := len - 4 in
  if size >? len then ret None else
  let len := len - size in
  let* size :=
    if id =? 0x0001 then
      let* ulen := get zip_ulen in
      let* size :=
        if (ulen =? LOW32) && (size >=? 8) then
          let* v := GET4 in modify (set_zip_ulen v) ;; SKIP 4 ;; ret (size - 8)
        else ret size in
      let* clen := get zip_clen in
      if (clen =? LOW32) && (size >=? 8) then
        let* v := GET4 in modify (set_zip_clen v) ;; SKIP 4 ;; ret (size - 8)
      else ret size
    else ret size in
  let* size :=
    if save then
      let* size :=
        if ((id =? 0x000d) || (id =? 0x5855)) && (size >=? 8) then
          SKIP 4 ;; let* v := GET4 in
          modify (set_stamp (tolong v)) ;; ret (size - 8)
        else ret size in
      if (id =? 0x5455) && (size >=? 5) then
        let size := size - 1 in
        let* b := GET in
        if Z.land b 1 =? 0 then ret size
        else let* v := GET4 in modify (set_stamp (tolong v)) ;; ret (size - 4)
      else ret size
    else ret size in
  SKIP size ;;
  ret (Some len).

(** [read_extra]: the loop runs at most [n] rounds, each taking four bytes
    or more off [len]. *)
Fixpoint read_extra_loop (n : nat) (len : Z) (save : bool) : M Z :=
  match n with
  | O => ret len
  | S n' =>
      if len >=? 4 then
        let* r := read_extra_block len save in
        match r with
        | None => ret (len - 4)
        | Some len => read_extra_loop n' len save
        end
      else ret len
  end.

Definition read_extra (len : Z) (save : bool) : M Z :=
  let* len := read_extra_loop (Z.to_nat len) len save in
  SKIP len ;;
  ret 0.

(** [get_header]. *)
Definition get_header (c : Framing.clock) (save : bool) : M Z :=
  when save (modify (set_stamp 0) ;; modify (set_hname None)) ;;
  modify (fun s => set_glob (set_form 0 (glob s)) s) ;;
  let* b := GET in
  let magic := u32 (Z.shiftl b 8) in
  let* eof := get in_eof in
  if (eof : bool) then return_ (-1) else
  let* b := GET in
  let magic := u32 (magic + b) in
  let* eof := get in_eof in
  if (eof : bool) then return_ (-2) else
  if magic mod 31 =? 0 then             (* it's zlib *)
    modify (fun s => set_glob (set_form 1 (glob s)) s) ;;
    ret (Z.land (Z.shiftr magic 8) 0xf)
  else
  if magic =? 0x1f9d then ret 256 else  (* it's lzw *)
  if magic =? 0x504b then               (* it's zip *)
    let* b := GET in
    if negb (b =? 3) then return_ (-3) else
    let* b := GET in
    if negb (b =? 4) then return_ (-3) else
    SKIP 2 ;;
    let* flags := GET2 in
    let* eof := get in_eof in
    if (eof : bool) then return_ (-3) else
    if negb (Z.land flags 0xfff0 =? 0) then return_ (-4) else
    let* method := GET2 in
    let method := if negb (Z.land flags 1 =? 0) then 255 else method in
    let* eof := get in_eof in
    if (eof : bool) then return_ (-3) else
    (if save then let* v := GET4 in modify (set_stamp (dos2time c v))
     else SKIP 4) ;;
    let* v := GET4 in modify (set_zip_crc v) ;;
    let* v := GET4 in modify (set_zip_clen v) ;;
    let* v := GET4 in modify (set_zip_ulen v) ;;
    let* fname := GET2 in
    let* extra := GET2 in
    (if save then read_name fname else SKIP fname) ;;
    call_ (read_extra extra save) ;;
    modify (fun s => set_glob
                       (set_form (2 + Z.shiftr (Z.land flags 8) 3) (glob s)) s) ;;
    let* eof := get in_eof in
    ret (if (eof : bool) then -3 else method)
  else
  if negb (magic =? 0x1f8b) then return_ (-2) else
  let* method := GET in
  let* flags := GET in
  let* eof := get in_eof in
  if (eof : bool) then return_ (-1) else
  if negb (Z.land flags 0xe0 =? 0) then return_ (-4) else
  (if save then let* v := GET4 in modify (set_stamp (tolong v)) else SKIP 4) ;;
  SKIP 2 ;;
  when (negb (Z.land flags 4 =? 0))
    (let* extra := GET2 in
     let* eof := get in_eof in
     if (eof : bool) then return_ (-3) else SKIP extra) ;;
  when (negb (Z.land flags 8 =? 0))
    (if save then read_string else skip_string) ;;
  when (negb (Z.land flags 16 =? 0)) skip_string ;;
  when (negb (Z.land flags 2 =? 0)) (SKIP 2) ;;
  ret method.

(** *** [outb], [run_check] *)

(** The check value work unit. *)
Record do_check := Do_check { check : Z; buf : list Z; len : Z }.

(** The body of the check value computation thread. *)
Definition run_check (g : globals) (work : do_check) : do_check :=
  {| check := CHECK g (check work) (take (Z.to_nat (len work)) (buf work));
     buf := buf work; len := len work |}.

(** [outb] as compiled with [NOTHREAD]. *)
Definition outb_nothread (s : state) (buf : list Z) : state :=
  let len := zlen buf in
  let s := set_out_tot (out_tot s + len) s in
  let s := set_out_check
             (CHECK (glob s) (out_check s) (take (Z.to_nat len) buf)) s in
  if decode (glob s) =? 1 then set_outd (outd s ++ take (Z.to_nat len) buf) s
  else s.

(** [outb] as compiled with threads.  The thread made by [pthread_create]
    works on [work] alone, at any time up to [pthread_join]: [early] tells
    whether it does so before or after the main thread writes the chunk. *)
Definition outb (early : bool) (s : state) (buf : list Z) : state :=
  let len := zlen buf in
  let s := set_out_tot (out_tot s + len) s in
  if (1 <? procs (glob s))%nat then
    let work := {| check := out_check s; buf := buf; len := len |} in
    let work := if early then run_check (glob s) work else work in
    let s := if decode (glob s) =? 1
             then set_outd (outd s ++ take (Z.to_nat len) buf) s else s in
    let work := if early then work else run_check (glob s) work in
    set_out_check (check work) s
  else
    let s := set_out_check
               (CHECK (glob s) (out_check s) (take (Z.to_nat len) buf)) s in
    if decode (glob s) =? 1 then set_outd (outd s ++ take (Z.to_nat len) buf) s
    else s.

(** *** [bail], [infchk] *)

(** [bail]: the output file is unlinked, the diagnostic is written unless
    quiet, and the process exits with status 1, which is how control leaves
    the calling function. *)
Definition bail {A} (why what : string) : M A := fun s =>
  let s := match out (glob s) with
           | Some o => set_removed (removed s ++ [o]) s
           | None => s
           end in
  let s := if verbosity (glob s) >? 0
           then set_stderr
                  (stderr s ++ [("pigz abort: " ++ why ++ what)%string]) s
           else s in
  (Return 1, s).

(** zlib's [inflateBack] on the input that is left: the chunks it hands to
    [outb], in order, and the input after the end of the deflate stream --
    or [None] when it returns anything but [Z_STREAM_END]. *)
Definition inflater := list Z -> list (list Z) * option (list Z).

Definition Z_STREAM_END : Z := 1.

(** [outb] on the chunks of a stream; [sched] has the schedule of the check
    thread of each chunk. *)
Fixpoint outb_all (sched : nat -> bool) (k : nat) (chunks : list (list Z))
    (s : state) : state :=
  match chunks with
  | [] => s
  | ch :: chunks => outb_all sched (S k) chunks (outb (sched k) s ch)
  end.

(** The trailer of a stream is read and checked; [clen] is the compressed
    length.  The result is the stored check value. *)
Definition read_trailer (clen : Z) : M Z :=
  let in_ s := in_name (glob s) in
  let* f := get (fun s => form (glob s)) in
  if f >? 1 then                          (* zip local trailer (if any) *)
    when (f =? 3)
      (let* v := GET4 in modify (set_zip_crc v) ;;
       let* v := GET4 in modify (set_zip_clen v) ;;
       let* v := GET4 in modify (set_zip_ulen v) ;;
       let* eof := get in_eof in
       let* nm := get in_ in
       if (eof : bool) then bail "corrupted zip entry -- missing trailer: " nm
       else
       let* crc := get zip_crc in
       let* chk := get out_check in
       when (negb (crc =? chk))
         (let* cl := get zip_clen in
          if negb (crc =? 0x08074b50) || negb (cl =? chk)
          then bail "corrupted zip entry -- crc32 mismatch: " nm
          else
          modify (set_zip_crc cl) ;;
          let* ul := get zip_ulen in modify (set_zip_clen ul) ;;
          let* v := GET4 in modify (set_zip_ulen v)) ;;
       let* ul := get zip_ulen in
       let* tot := get out_tot in
       when (negb (ul =? Z.land tot LOW32))
         (let* v := GET4 in modify (set_zip_ulen v) ;;
          let* _ := GET4 in ret tt) ;;
       let* eof := get in_eof in
       if (eof : bool) then bail "corrupted zip entry -- missing trailer: " nm
       else ret tt) ;;
    let* cl := get zip_clen in
    let* ul := get zip_ulen in
    let* tot := get out_tot in
    let* nm := get in_ in
    if negb (cl =? Z.land clen LOW32) || negb (ul =? Z.land tot LOW32)
    then bail "corrupted zip entry -- length mismatch: " nm
    else get zip_crc
  else if f =? 1 then                     (* zlib (big-endian) trailer *)
    let* b := GET in
    let check := ulong (int_shl b 24) in
    let* b := GET in
    let check := ulong (check + int_shl b 16) in
    let* b := GET in
    let check := ulong (check + int_shl b 8) in
    let* b := GET in
    let check := ulong (check + b) in
    let* eof := get in_eof in
    let* chk := get out_check in
    let* nm := get in_ in
    if (eof : bool) then bail "corrupted zlib stream -- missing trailer: " nm
    else if negb (check =? chk)
    then bail "corrupted zlib stream -- adler32 mismatch: " nm
    else ret check
  else                                    (* gzip trailer *)
    let* check := GET4 in
    let* len := GET4 in
    let* eof := get in_eof in
    let* chk := get out_check in
    let* tot := get out_tot in
    let* nm := get in_ in
    if (eof : bool) then bail "corrupted gzip stream -- missing trailer: " nm
    else if negb (check =? chk)
    then bail "corrupted gzip stream -- crc32 mismatch: " nm
    else if negb (len =? Z.land tot LOW32)
    then bail "corrupted gzip stream -- length mismatch: " nm
    else ret check.

(** [show_info], as far as it is modelled: the call is recorded. *)
Definition show_info (method check len cont in_tot : Z) : M unit :=
  modify (fun s => set_stdout (stdout s ++ [Listed method check len cont in_tot]) s).

(** The body of the [do ... while] loop of [infchk]: one stream is
    decompressed, its trailer read and checked, and the stream listed. *)
Definition infchk_stream (inflateBack : inflater) (sched : nat -> bool)
    (cont : Z) : M Z :=
  modify (set_out_tot 0) ;;
  modify (fun s => set_out_check (CHECK_init (glob s)) s) ;;
  let* in0 := get ind in
  let '(chunks, rest) := inflateBack in0 in
  modify (outb_all sched 0 chunks) ;;
  let* nm := get (fun s => in_name (glob s)) in
  match rest with
  | None => bail "corrupted input -- invalid deflate data: " nm
  | Some rest =>
      modify (set_ind rest) ;;
      let clen := zlen in0 - zlen rest in
      let* check := read_trailer clen in
      let* l := get (fun s => listing (glob s)) in
      if negb (l =? 0) then
        let* tot := get out_tot in
        show_info 8 check tot cont clen ;; ret 1
      else ret cont
  end.

(** A call of a function from a function of the model. *)
Definition do_call (m : M Z) : M Z := fun s =>
  let '(r, s') := call m s in (Go r, s').

(** The loop of [infchk], for at most [n] streams: the value of [ret] when
    the loop has ended, or [None] when [n] streams were not enough. *)
Fixpoint infchk_loop (n : nat) (c : Framing.clock) (inflateBack : inflater)
    (sched : nat -> bool) (cont : Z) : M (option Z) :=
  match n with
  | O => ret None
  | S n' =>
      let* cont := infchk_stream inflateBack sched cont in
      let* f := get (fun s => form (glob s)) in
      if f <? 2 then
        let* r := do_call (get_header c false) in
        let* f := get (fun s => form (glob s)) in
        if (r =? 8) && (f <? 2)
        then infchk_loop n' c inflateBack sched cont
        else ret (Some r)
      else ret (Some Z_STREAM_END)
  end.

(** How a run of [infchk] ends. *)
Inductive ending := Exited (status : Z) | Returned.

(** [infchk].  Every stream takes its header or trailer off the input, so
    there are no more streams than bytes; the result is [None] if the loop
    has not ended by then. *)
Definition infchk (c : Framing.clock) (inflateBack : inflater)
    (sched : nat -> bool) (s : state) : option (ending * state) :=
  match infchk_loop (S (length (ind s))) c inflateBack sched 0 s with
  | (Go None, _) => None
  | (Go (Some r), s) =>
      Some (Returned,
            if negb (r =? -1) && (form (glob s) <? 2)
            then set_stderr
                   (stderr s ++ [(in_name (glob s)
                      ++ " OK, has trailing junk which was ignored")%string]) s
            else s)
  | (Return status, s) => Some (Exited status, s)
  end.

End Inflate.

(** ** The parallel pipeline

    [compress_thread] is a function on its work unit; [read_thread], the one
    [write_thread] and the compress threads run interleaved, one action at a
    time, on the shared ring [jobs].  An action is a stretch of one thread's
    code that touches the shared state once: a flag operation, a thread
    creation or join, or a block of reads and writes of a work unit. *)

Module Pipeline.
Import Deflate.

(** Busy flag values. *)
Definition IDLE : Z := 0.
Definition COMP : Z := 1.
Definition WRITE : Z := 2.

(** A [pthread_t]: no thread behind it (never created, or joined), a thread
    that has not run its body yet, or one that has. *)
Inductive thread := Absent | Running | Finished.

(** [struct work].  [out] holds the bytes from [job->out] up to
    [strm.next_out]; [busy] is the value of the flag. *)
Record work := Work {
  len : Z;
  check : Z;
  buf : option (list Z);
  out : list Z;
  strm : z_stream;
  busy : Z;
  comp : thread
}.

Definition set_len v j := Work v (check j) (buf j) (out j) (strm j) (busy j) (comp j).
Definition set_buf v j := Work (len j) (check j) v (out j) (strm j) (busy j) (comp j).
Definition set_busy v j := Work (len j) (check j) (buf j) (out j) (strm j) v (comp j).
Definition set_comp v j := Work (len j) (check j) (buf j) (out j) (strm j) (busy j) v.

(** [NEXT(n)] and [PREV(n)]. *)
Definition NEXT (g : globals) (n : nat) : nat :=
  if (n =? procs g - 1)%nat then 0%nat else S n.
Definition PREV (g : globals) (n : nat) : nat :=
  if (n =? 0)%nat then (procs g - 1)%nat else (n - 1)%nat.

(** [jobs_new]: a pool that is there is kept; a new one has [procs] units,
    without buffers and idle. *)
Definition jobs_new (g : globals) (jobs : option (list work)) : list work :=
  match jobs with
  | Some jobs => jobs
  | None => replicate (procs g) (Work 0 0 None [] [] IDLE Absent)
  end.

(** [job_init]; [fresh] is what the new input buffer happens to hold. *)
Definition job_init (g : globals) (fresh : list Z) (job : work) : work :=
  Work (len job) (check job) (Some fresh) [] [] (busy job) (comp job).

(** The running state of [compress_thread]. *)
Record compressing := Compressing {
  c_strm : z_stream;
  c_next_in : list Z;
  c_out : list Z;
  c_check : Z
}.

(** One [deflate] call of [compress_thread] on [avail_in] bytes, after the
    check value has taken them in. *)
Definition check_deflate (enc : encoder) (g : globals) (st : compressing)
    (avail_in : Z) (f : flush) : compressing :=
  let input := take (Z.to_nat avail_in) (c_next_in st) in
  let chk := CHECK g (c_check st) input in
  let '(strm', o) := deflate enc (level g) (c_strm st) input f in
  {| c_strm := strm'; c_next_in := drop (Z.to_nat avail_in) (c_next_in st);
     c_out := c_out st ++ o; c_check := chk |}.

(** [while (len > MAX) { ...; len -= MAX; }] -- at most [n] rounds. *)
Fixpoint max_chunks (n : nat) (enc : encoder) (g : globals)
    (st : compressing) (len : Z) : compressing * Z :=
  match n with
  | O => (st, len)
  | S n' =>
      if len >? MAX then
        max_chunks n' enc g (check_deflate enc g st MAX Z_NO_FLUSH) (len - MAX)
      else (st, len)
  end.

(** [compress_thread] on the work unit [job], with [prev] the unit before
    it in the ring. *)
Definition compress_thread (enc : encoder) (g : globals) (job prev : work)
    : work :=
  let strm := deflateReset (strm job) in
  let next_in := match buf job with Some b => b | None => [] end in
  let len := len job in
  let check := CHECK_init g in
  let strm :=
    match buf prev with
    | Some pb =>
        if dict g && negb (len =? 0)
        then deflateSetDictionary strm
               (take (Z.to_nat DICT) (drop (Z.to_nat (size g - DICT)) pb))
        else strm
    | None => strm
    end in
  let st := {| c_strm := strm; c_next_in := next_in; c_out := [];
               c_check := check |} in
  let '(st, len) := max_chunks (Z.to_nat (len / MAX)) enc g st len in
  let st := check_deflate enc g st len
              (if Pipeline.len job <? size g then Z_FINISH else Z_SYNC_FLUSH) in
  Work (Pipeline.len job) (c_check st) (buf job) (c_out st) (c_strm st)
       (busy job) (comp job).

(** Where [read_thread] stands. *)
Inductive rloc :=
| R_start        (* [pthread_create(&write, ...)], [n = 0] *)
| R_init         (* [if (jobs[n].buf == NULL) job_init(jobs + n)] *)
| R_wait_self    (* [flag_wait_not(&(jobs[n].busy), COMP)] *)
| R_wait_next    (* [flag_wait_not(&(jobs[NEXT(n)].busy), COMP)] *)
| R_read         (* [got = readn(ind, jobs[n].buf, size)] *)
| R_wait_idle    (* [flag_wait(&(jobs[n].busy), IDLE)] *)
| R_len          (* [jobs[n].len = got] *)
| R_create       (* [pthread_create(&(jobs[n].comp), ...)] *)
| R_set          (* [flag_set(&(jobs[n].busy), COMP)], [n = NEXT(n)], test *)
| R_join         (* [pthread_join(write, NULL)] *)
| R_done.

(** Where [write_thread] stands. *)
Inductive wloc :=
| W_absent       (* not created yet *)
| W_header       (* [head = put_header()], the locals set up *)
| W_wait         (* [flag_wait(&(jobs[n].busy), COMP)] *)
| W_join         (* [pthread_join(jobs[n].comp, NULL)] *)
| W_set_write    (* [flag_set(&(jobs[n].busy), WRITE)] *)
| W_write        (* [writen], [len], [ulen], [clen], [check] *)
| W_release      (* [flag_set(&(jobs[n].busy), IDLE)], [n = NEXT(n)], test *)
| W_trailer      (* [put_trailer(ulen, clen, check, head)] *)
| W_finished.

(** The shared state, the locals of the two long-lived threads, and the two
    files. *)
Record state := State {
  jobs : list work;
  ind : list Z;               (* input not yet read *)
  outd : list Z;              (* all that was written to [outd] *)
  rpc : rloc;
  rn : nat;                   (* [n] of [read_thread] *)
  got : Z;
  wpc : wloc;
  wn : nat;                   (* [n] of [write_thread] *)
  wlen : Z;                   (* [len] of [write_thread] *)
  head : Z;
  ulen : Z;
  clen : Z;
  wcheck : Z                  (* [check] of [write_thread] *)
}.

Definition set_jobs v s := State v (ind s) (outd s) (rpc s) (rn s) (got s)
  (wpc s) (wn s) (wlen s) (head s) (ulen s) (clen s) (wcheck s).
Definition set_rpc v s := State (jobs s) (ind s) (outd s) v (rn s) (got s)
  (wpc s) (wn s) (wlen s) (head s) (ulen s) (clen s) (wcheck s).
Definition set_wpc v s := State (jobs s) (ind s) (outd s) (rpc s) (rn s) (got s)
  v (wn s) (wlen s) (head s) (ulen s) (clen s) (wcheck s).

(** What the environment contributes: the encoder, the clock, and the
    contents of newly allocated input buffers. *)
Record world := World {
  enc : encoder;
  clk : Framing.clock;
  fresh : list Z
}.

(** [read_thread] after [jobs_new], before its first action. *)
Definition init (g : globals) (pool : option (list work)) (input : list Z)
    : state :=
  {| jobs := jobs_new g pool; ind := input; outd := [];
     rpc := R_start; rn := 0; got := 0;
     wpc := W_absent; wn := 0; wlen := 0; head := 0; ulen := 0; clen := 0;
     wcheck := 0 |}.

(** The data read into a buffer over what it held. *)
Definition fill (data : list Z) (old : option (list Z)) : option (list Z) :=
  Some (data ++ drop (length data) (default [] old)).

(** The next action of [read_thread]; [None] when it is blocked or done. *)
Definition reader (w : world) (g : globals) (s : state) : option state :=
  match rpc s with
  | R_start =>
      Some (set_wpc W_header
             (State (jobs s) (ind s) (outd s) R_init 0 (got s)
                (wpc s) (wn s) (wlen s) (head s) (ulen s) (clen s) (wcheck s)))
  | R_init =>
      j ← jobs s !! rn s;
      Some (set_rpc R_wait_self
             (match buf j with
              | None => set_jobs (<[rn s := job_init g (fresh w) j]> (jobs s)) s
              | Some _ => s
              end))
  | R_wait_self =>
      j ← jobs s !! rn s;
      if busy j =? COMP then None else Some (set_rpc R_wait_next s)
  | R_wait_next =>
      j ← jobs s !! NEXT g (rn s);
      if busy j =? COMP then None else Some (set_rpc R_read s)
  | R_read =>
      j ← jobs s !! rn s;
      let '(data, rest) := readn (ind s) (size g) in
      Some (State (<[rn s := set_buf (fill data (buf j)) j]> (jobs s)) rest
              (outd s) R_wait_idle (rn s) (zlen data)
              (wpc s) (wn s) (wlen s) (head s) (ulen s) (clen s) (wcheck s))
  | R_wait_idle =>
      j ← jobs s !! rn s;
      if busy j =? IDLE then Some (set_rpc R_len s) else None
  | R_len =>
      j ← jobs s !! rn s;
      Some (set_rpc R_create
              (set_jobs (<[rn s := set_len (got s) j]> (jobs s)) s))
  | R_create =>
      j ← jobs s !! rn s;
      Some (set_rpc R_set
              (set_jobs (<[rn s := set_comp Running j]> (jobs s)) s))
  | R_set =>
      j ← jobs s !! rn s;
      Some (State (<[rn s := set_busy COMP j]> (jobs s)) (ind s) (outd s)
              (if got s =? size g then R_init else R_join)
              (NEXT g (rn s)) (got s)
              (wpc s) (wn s) (wlen s) (head s) (ulen s) (clen s) (wcheck s))
  | R_join =>
      match wpc s with
      | W_finished => Some (set_rpc R_done s)
      | _ => None
      end
  | R_done => None
  end.

(** The next action of [write_thread]. *)
Definition writer (w : world) (g : globals) (s : state) : option state :=
  match wpc s with
  | W_absent => None
  | W_header =>
      let '(hd, hlen) := Framing.put_header (clk w) g in
      Some (State (jobs s) (ind s) (outd s ++ hd) (rpc s) (rn s) (got s)
              W_wait 0 (wlen s) hlen 0 0 (CHECK_init g))
  | W_wait =>
      j ← jobs s !! wn s;
      if busy j =? COMP then Some (set_wpc W_join s) else None
  | W_join =>
      j ← jobs s !! wn s;
      match comp j with
      | Finished =>
          Some (set_wpc W_set_write
                  (set_jobs (<[wn s := set_comp Absent j]> (jobs s)) s))
      | _ => None
      end
  | W_set_write =>
      j ← jobs s !! wn s;
      Some (set_wpc W_write
              (set_jobs (<[wn s := set_busy WRITE j]> (jobs s)) s))
  | W_write =>
      j ← jobs s !! wn s;
      let len := len j in
      Some (State (jobs s) (ind s) (outd s ++ out j) (rpc s) (rn s) (got s)
              W_release (wn s) len (head s)
              (ulong (ulen s + len)) (ulong (clen s + zlen (out j)))
              (COMB g (wcheck s) (check j) len))
  | W_release =>
      j ← jobs s !! wn s;
      Some (State (<[wn s := set_busy IDLE j]> (jobs s)) (ind s) (outd s)
              (rpc s) (rn s) (got s)
              (if wlen s =? size g then W_wait else W_trailer)
              (NEXT g (wn s)) (wlen s) (head s) (ulen s) (clen s) (wcheck s))
  | W_trailer =>
      Some (State (jobs s) (ind s)
              (outd s ++ Framing.put_trailer (clk w) g (ulen s) (clen s)
                           (wcheck s) (head s))
              (rpc s) (rn s) (got s)
              W_finished (wn s) (wlen s) (head s) (ulen s) (clen s) (wcheck s))
  | W_finished => None
  end.

(** The body of the compress thread of unit [k], run in one go. *)
Definition compressor (w : world) (g : globals) (k : nat) (s : state)
    : option state :=
  j ← jobs s !! k;
  p ← jobs s !! PREV g k;
  match comp j with
  | Running =>
      Some (set_jobs
              (<[k := set_comp Finished (compress_thread (enc w) g j p)]>
                 (jobs s)) s)
  | _ => None
  end.

(** The threads that may be scheduled. *)
Inductive action := Reader | Writer | Compressor (k : nat).

Definition act (w : world) (g : globals) (a : action) (s : state)
    : option state :=
  match a with
  | Reader => reader w g s
  | Writer => writer w g s
  | Compressor k => compressor w g k s
  end.

(** One step of the pipeline, and runs of it. *)
Definition step (w : world) (g : globals) (s s' : state) : Prop :=
  exists a, act w g a s = Some s'.

Inductive steps (w : world) (g : globals) : nat -> state -> state -> Prop :=
| steps_O s : steps w g 0 s s
| steps_S n s s' s'' :
    steps w g n s s' -> step w g s' s'' -> steps w g (S n) s s''.

(** A run under a given schedule. *)
Fixpoint run (w : world) (g : globals) (sched : list action) (s : state)
    : option state :=
  match sched with
  | [] => Some s
  | a :: sched => s' ← act w g a s; run w g sched s'
  end.

End Pipeline.

(** ** Vocabulary of the statements *)

(** Four bytes, least significant first, of a value taken modulo [2^32]. *)
Definition le32 (x : Z) : list Z :=
  let x := x mod 2 ^ 32 in
  [x mod 256; x / 2 ^ 8 mod 256; x / 2 ^ 16 mod 256; x / 2 ^ 24 mod 256].

(** Four bytes, most significant first, of a value taken modulo [2^32]. *)
Definition be32 (x : Z) : list Z := rev (le32 x).

(** The level bits of the zlib header as the specification lists them. *)
Definition spec_zlib_level_bits (lvl : Z) : Z :=
  if lvl =? 9 then 3 else
  if lvl =? 1 then 0 else
  if (lvl =? 6) || (lvl =? Z_DEFAULT_COMPRESSION) then 1 else 2.

(** The level bits of the zlib header as [put_header] computes them. *)
Definition zlib_level_bits (lvl : Z) : Z :=
  if lvl =? 9 then 3 else
  if lvl =? 1 then 0 else
  if (6 <=? lvl) || (lvl =? Z_DEFAULT_COMPRESSION) then 1 else 2.

(** The globals of an ordinary run: gzip format, default level, two
    compression threads, blocks of 32K. *)
Definition default_globals : globals :=
  {| verbosity := 1; form := 0; name := None; mtime := 0; listing := 0;
     decode := 0; level := Z_DEFAULT_COMPRESSION; procs := 2; dict := true;
     size := 32768; in_name := "<stdin>"; out := None |}.

(** The input cut into blocks of [sz] bytes, up to and with the first block
    that is shorter (which may be empty). *)
Fixpoint split_blocks (n sz : nat) (inp : list Z) : list (list Z) :=
  match n with
  | O => []
  | S n' =>
      if (length inp <? sz)%nat then [inp]
      else take sz inp :: split_blocks n' sz (drop sz inp)
  end.

Definition blocks (sz : Z) (inp : list Z) : list (list Z) :=
  split_blocks (S (length inp)) (Z.to_nat sz) inp.

(** The terminating flush of a block in the serial fallback. *)
Definition serial_flush (g : globals) (b : list Z) : Deflate.flush :=
  if zlen b <? size g then Deflate.Z_FINISH
  else if dict g then Deflate.Z_NO_FLUSH else Deflate.Z_FULL_FLUSH.

(** A call on a stream in short: the length of the bytes passed, and the
    flush of a [deflate] call. *)
Definition call_summary (c : Deflate.zcall) : Z * option Deflate.flush :=
  match c with
  | Deflate.SetDictionary d => (zlen d, None)
  | Deflate.Deflate input f => (zlen input, Some f)
  end.

(** An encoder that emits nothing, for running the models. *)
Definition null_encoder : Deflate.encoder := fun _ _ => [].

(** 32K zero bytes: one full block at the smallest block size. *)
Definition zero_block : list Z := replicate (Z.to_nat 32768) 0.

(** The state of decompression before the first stream: nothing read or
    written yet. *)
Definition inflate_start (g : globals) (input : list Z) : Inflate.state :=
  {| Inflate.glob := g; Inflate.ind := input; Inflate.in_eof := false;
     Inflate.out_tot := 0; Inflate.out_check := 0; Inflate.stamp := 0;
     Inflate.hname := None; Inflate.zip_crc := 0; Inflate.zip_clen := 0;
     Inflate.zip_ulen := 0; Inflate.outd := []; Inflate.removed := [];
     Inflate.stderr := []; Inflate.stdout := [] |}.

(** The 32-bit value stored in the first four bytes of a list, least
    significant byte first. *)
Definition stored32 (l : list Z) : Z :=
  match l with
  | b0 :: b1 :: b2 :: b3 :: _ =>
      rd8 b0 + 2 ^ 8 * rd8 b1 + 2 ^ 16 * rd8 b2 + 2 ^ 24 * rd8 b3
  | _ => 0
  end.

(** The files, the messages and the option globals other than [form] are
    the same in two states of decompression. *)
Definition same_world (s s' : Inflate.state) : Prop :=
  Inflate.removed s' = Inflate.removed s /\
  Inflate.stderr s' = Inflate.stderr s /\
  set_form 0 (Inflate.glob s') = set_form 0 (Inflate.glob s).

(** The same, and [form] is the same too. *)
Definition same_globals (s s' : Inflate.state) : Prop :=
  Inflate.removed s' = Inflate.removed s /\
  Inflate.stderr s' = Inflate.stderr s /\
  Inflate.glob s' = Inflate.glob s.

(** A function of the model keeps a relation between the state at the call
    and the state at its end, however it ends; or whenever it goes on. *)
Definition preserves (F : Inflate.state -> Inflate.state -> Prop)
    {A} (m : Inflate.M A) : Prop :=
  forall s r s', m s = (r, s') -> F s s'.

Definition preserves_go (F : Inflate.state -> Inflate.state -> Prop)
    {A} (m : Inflate.M A) : Prop :=
  forall s a s', m s = (Inflate.Go a, s') -> F s s'.

(** What [bail] leaves behind. *)
Definition bailed (why : string) (s s' : Inflate.state) : Prop :=
  Inflate.removed s' = Inflate.removed s ++ match out (Inflate.glob s) with Some o => [o] | None => [] end /\
  Inflate.stderr s' = Inflate.stderr s ++
    (if verbosity (Inflate.glob s) >? 0
     then [("pigz abort: " ++ why ++ in_name (Inflate.glob s))%string] else []) /\
  Inflate.glob s' = Inflate.glob s.

(** The bytes that [GET] can still deliver, or -1 once the end of input has
    been found. *)
Definition avail (s : Inflate.state) : Z :=
  if Inflate.in_eof s then -1 else zlen (Inflate.ind s).

(** A stand-in for [inflateBack] that knows one deflate stream: the empty
    one, [03 00]. *)
Definition empty_inflater : Inflate.inflater := fun inp =>
  match inp with
  | 3 :: 0 :: rest => ([], Some rest)
  | _ => ([], None)
  end.

(** The empty deflate stream and the gzip trailer of the empty output. *)
Definition empty_gzip_body : list Z := [3; 0; 0; 0; 0; 0; 0; 0; 0; 0].

(** A zip local header: deflate, no name, no extra field. *)
Definition zip_local_header : list Z :=
  [0x50; 0x4b; 3; 4; 20; 0; 0; 0; 8; 0; 0; 0; 0; 0;
   0; 0; 0; 0; 0; 0; 0; 0; 0; 0; 0; 0; 0; 0; 0; 0].

(** What a run of [infchk] shows: how it ended, the lines on [stderr] and
    the files unlinked. *)
Definition infchk_shows (r : option (Inflate.ending * Inflate.state))
    : option (Inflate.ending * list string * list string) :=
  option_map (fun '(e, s) => (e, Inflate.stderr s, Inflate.removed s)) r.

(** The input has not grown. *)
Definition no_longer (s s' : Inflate.state) : Prop :=
  (length (Inflate.ind s') <= length (Inflate.ind s))%nat.

(** [inflateBack] takes the stream off the front of its input: what it
    leaves is no longer than what it was given. *)
Definition consumes (ib : Inflate.inflater) : Prop :=
  forall inp chunks rest,
    ib inp = (chunks, Some rest) -> (length rest <= length inp)%nat.

(** The starts of the streams of a run of [infchk] that begins in [s0]:
    the value of [cont] and the state at the top of the [do ... while] loop,
    for the first stream and for every stream that the loop goes on to,
    after a stream that was found right and a header of a further gzip or
    zlib deflate stream. *)
Inductive stream_start (c : Framing.clock) (ib : Inflate.inflater)
    (sched : nat -> bool) (s0 : Inflate.state)
    : Z -> Inflate.state -> Prop :=
| Stream_first : stream_start c ib sched s0 0 s0
| Stream_next cont s cont' sT s2 :
    stream_start c ib sched s0 cont s ->
    Inflate.infchk_stream ib sched cont s = (Inflate.Go cont', sT) ->
    form (Inflate.glob sT) < 2 ->
    Inflate.call (Inflate.get_header c false) sT = (8, s2) ->
    form (Inflate.glob s2) < 2 ->
    stream_start c ib sched s0 cont' s2.

(** *** The pipeline: what the ring holds

    Blocks are numbered from 0 in input order.  [R] counts the blocks that
    [read_thread] has handed over (flag set to [COMP]), [W] the blocks that
    [write_thread] has let go (flag set back to [IDLE]); the blocks from [W]
    up to [R] are in the ring. *)

Module Ring.
Import Deflate Pipeline.

(** The work unit of block [i]: [n] after [i] times [n = NEXT(n)]. *)
Fixpoint slot_of (g : globals) (i : nat) : nat :=
  match i with
  | O => 0%nat
  | S i' => NEXT g (slot_of g i')
  end.

(** The block among [W], ..., [W + n - 1] that is in unit [k]. *)
Fixpoint holder (g : globals) (W n k : nat) : option nat :=
  match n with
  | O => None
  | S n' => if (slot_of g W =? k)%nat then Some W else holder g (S W) n' k
  end.

(** What a work unit is in use for. *)
Inductive phase :=
| Free                (* idle, no thread *)
| Created (i : nat)   (* thread made for block [i], flag not yet set *)
| Busy (i : nat)      (* flag [COMP], thread there *)
| Joined (i : nat)    (* flag [COMP], thread joined *)
| Writing (i : nat)   (* flag [WRITE], output not yet written *)
| Written.            (* flag [WRITE], output written *)

(** The phase of the unit of block [W], by where [write_thread] stands. *)
Definition wphase (pc : wloc) (i : nat) : phase :=
  match pc with
  | W_set_write => Joined i
  | W_write => Writing i
  | W_release => Written
  | _ => Busy i
  end.

Definition is_R_set (pc : rloc) : bool :=
  match pc with R_set => true | _ => false end.

Definition phase_of (g : globals) (R W : nat) (rp : rloc) (wp : wloc)
    (k : nat) : phase :=
  match holder g W (R - W) k with
  | Some i => if (i =? W)%nat then wphase wp i else Busy i
  | None =>
      if is_R_set rp && (k =? slot_of g R)%nat then Created R else Free
  end.

Section Blocks.
Context (w : world) (g : globals) (input : list Z).

(** Unit [j] holds block [i], ready to be compressed. *)
Definition ready (i : nat) (j : work) : Prop :=
  exists data b,
    blocks (size g) input !! i = Some data /\
    len j = zlen data /\ buf j = Some b /\ take (length data) b = data.

(** Unit [j] has the results of [compress_thread] on block [i]. *)
Definition done_ (i : nat) (j : work) : Prop :=
  exists j0 p,
    ready i j0 /\
    let r := compress_thread (enc w) g j0 p in
    len j = len r /\ check j = check r /\ out j = out r /\ strm j = strm r.

Definition live (i : nat) (j : work) : Prop :=
  (comp j = Running /\ ready i j) \/ (comp j = Finished /\ done_ i j).

Definition job_ok (ph : phase) (j : work) : Prop :=
  match ph with
  | Free => busy j = IDLE /\ comp j = Absent
  | Created i => buf j <> None /\ busy j = IDLE /\ live i j
  | Busy i => buf j <> None /\ busy j = COMP /\ live i j
  | Joined i => buf j <> None /\ busy j = COMP /\ comp j = Absent /\ done_ i j
  | Writing i =>
      buf j <> None /\ busy j = WRITE /\ comp j = Absent /\ done_ i j
  | Written => buf j <> None /\ busy j = WRITE /\ comp j = Absent
  end.

(** What [write_thread] has accumulated over the results [rs]. *)
Definition outs (rs : list work) : list Z := concat (map out rs).

Definition ulen_of (rs : list work) : Z :=
  fold_left (fun a r => ulong (a + len r)) rs 0.

Definition clen_of (rs : list work) : Z :=
  fold_left (fun a r => ulong (a + zlen (out r))) rs 0.

Definition check_of (rs : list work) : Z :=
  fold_left (fun a r => COMB g a (check r) (len r)) rs (CHECK_init g).

Definition acc (rs : list work) (s : state) : Prop :=
  outd s = fst (Framing.put_header (clk w) g) ++ outs rs /\
  head s = snd (Framing.put_header (clk w) g) /\
  ulen s = ulen_of rs /\ clen s = clen_of rs /\ wcheck s = check_of rs.

(** The whole output for the results [rs]. *)
Definition stream_of (rs : list work) : list Z :=
  fst (Framing.put_header (clk w) g) ++ outs rs ++
  Framing.put_trailer (clk w) g (ulen_of rs) (clen_of rs) (check_of rs)
    (snd (Framing.put_header (clk w) g)).

(** The unit of the block being read is free of its last block. *)
Definition clear (R W : nat) (s : state) : Prop :=
  (R < W + procs g)%nat \/
  (R = W + procs g)%nat /\ (wpc s = W_write \/ wpc s = W_release).

Definition has_buf (s : state) : Prop :=
  exists j, jobs s !! rn s = Some j /\ buf j <> None.

Definition holds (R : nat) (s : state) : Prop :=
  exists j data b,
    jobs s !! rn s = Some j /\ blocks (size g) input !! R = Some data /\
    got s = zlen data /\ buf j = Some b /\ take (length data) b = data.

Definition reader_inv (R W : nat) (s : state) : Prop :=
  let B := blocks (size g) input in
  match rpc s with
  | R_start =>
      R = 0%nat /\ W = 0%nat /\ wpc s = W_absent /\ ind s = input /\ outd s = []
  | R_init =>
      (R < length B)%nat /\ rn s = slot_of g R /\ ind s = concat (drop R B)
  | R_wait_self =>
      (R < length B)%nat /\ rn s = slot_of g R /\ ind s = concat (drop R B) /\
      has_buf s
  | R_wait_next | R_read =>
      (R < length B)%nat /\ rn s = slot_of g R /\ ind s = concat (drop R B) /\
      has_buf s /\ clear R W s
  | R_wait_idle =>
      (R < length B)%nat /\ rn s = slot_of g R /\
      ind s = concat (drop (S R) B) /\ holds R s /\ clear R W s
  | R_len =>
      (R < length B)%nat /\ rn s = slot_of g R /\
      ind s = concat (drop (S R) B) /\ holds R s /\ (R < W + procs g)%nat
  | R_create =>
      (R < length B)%nat /\ rn s = slot_of g R /\
      ind s = concat (drop (S R) B) /\ holds R s /\ (R < W + procs g)%nat /\
      (exists j, jobs s !! rn s = Some j /\ len j = got s)
  | R_set =>
      (R < length B)%nat /\ rn s = slot_of g R /\
      ind s = concat (drop (S R) B) /\ (R < W + procs g)%nat /\
      (exists data, B !! R = Some data /\ got s = zlen data)
  | R_join => R = length B /\ wpc s <> W_absent
  | R_done => R = length B /\ wpc s = W_finished
  end.

Definition writer_inv (R W : nat) (rs : list work) (s : state) : Prop :=
  let B := blocks (size g) input in
  match wpc s with
  | W_absent => W = 0%nat /\ rs = [] /\ rpc s = R_start
  | W_header => W = 0%nat /\ rs = [] /\ outd s = []
  | W_wait =>
      (W < length B)%nat /\ wn s = slot_of g W /\ acc rs s /\ length rs = W
  | W_join | W_set_write | W_write =>
      (W < R)%nat /\ wn s = slot_of g W /\ acc rs s /\ length rs = W
  | W_release =>
      (W < R)%nat /\ wn s = slot_of g W /\ acc rs s /\ length rs = S W /\
      (exists data, B !! W = Some data /\ wlen s = zlen data)
  | W_trailer => W = length B /\ acc rs s /\ length rs = W
  | W_finished => W = length B /\ length rs = W /\ outd s = stream_of rs
  end.

(** The invariant of the pipeline. *)
Record inv (R W : nat) (rs : list work) (s : state) : Prop := Inv {
  inv_jobs : length (jobs s) = procs g;
  inv_RW : (W <= R <= length (blocks (size g) input))%nat /\
           (R <= W + procs g)%nat;
  inv_rs : forall i r, rs !! i = Some r -> done_ i r;
  inv_reader : reader_inv R W s;
  inv_writer : writer_inv R W rs s;
  inv_slots : forall k j, jobs s !! k = Some j ->
                job_ok (phase_of g R W (rpc s) (wpc s) k) j
}.

(** How far the threads are from their ends: every action brings the sum
    down. *)
Definition rweight (pc : rloc) : nat :=
  match pc with
  | R_start => 10 | R_init => 9 | R_wait_self => 8 | R_wait_next => 7
  | R_read => 6 | R_wait_idle => 5 | R_len => 4 | R_create => 3
  | R_set => 1 | R_join => 1 | R_done => 0
  end.

Definition wweight (pc : wloc) : nat :=
  match pc with
  | W_absent => 6 | W_header => 6 | W_wait => 5 | W_join => 4
  | W_set_write => 3 | W_write => 2 | W_release => 1 | W_trailer => 1
  | W_finished => 0
  end.

Definition is_running (j : work) : nat :=
  match comp j with Running => 1 | _ => 0 end.

Fixpoint running_in (js : list work) : nat :=
  match js with
  | [] => 0
  | j :: js => is_running j + running_in js
  end.

Definition running (s : state) : nat := running_in (jobs s).

Definition rank (R W : nat) (s : state) : nat :=
  let m := length (blocks (size g) input) in
  (10 * (m - R) + rweight (rpc s)) + (6 * (m - W) + wweight (wpc s))
  + running s.

End Blocks.

(** A pool as [read_thread] can find it: as many units as [procs], all idle
    and without threads. *)
Definition pool_ok (g : globals) (pool : option (list work)) : Prop :=
  match pool with
  | None => True
  | Some jobs =>
      length jobs = procs g /\
      Forall (fun j => busy j = IDLE /\ comp j = Absent) jobs
  end.

End Ring.

(** A pair of byte sequences on which [adler32_comb] goes wrong. *)
Definition adler_fail_A : list Z := replicate 256 0xff.
Definition adler_fail_B : list Z := [0xf0].

(** A clock stuck at 13 May 2007. *)
Definition some_clock : Framing.clock :=
  Framing.Clock 1179014400 (fun _ => Framing.Tm 107 4 13 0 0 0)
    (fun _ => 1179014400).

(** 32-bit words. *)
Definition word (x : Z) : Prop := 0 <= x < 2 ^ 32.

(** GF(2)-linear maps on words, and the matrices that represent them. *)
Definition linear (f : Z -> Z) : Prop :=
  forall a b, f (Z.lxor a b) = Z.lxor (f a) (f b).

Definition closed (f : Z -> Z) : Prop := forall a, word a -> word (f a).

Definition columns (M : list Z) (f : Z -> Z) : Prop :=
  length M = 32%nat /\
  forall i : nat, (i < 32)%nat -> M !! i = Some (f (2 ^ Z.of_nat i)).

(** Shifting [k] zero bits through the register. *)
Definition zeros (k : Z) : Z -> Z := Nat.iter (Z.to_nat k) Comb.crc_shift.

(** The flush arguments of the [deflate] calls made on a stream, the input
    they were given, and the dictionaries set, in the order of the calls. *)
Definition flushes (strm : Deflate.z_stream) : list Deflate.flush :=
  omap (fun c => match c with
                 | Deflate.Deflate _ f => Some f
                 | Deflate.SetDictionary _ => None
                 end) strm.

Definition inputs (strm : Deflate.z_stream) : list Z :=
  concat (map (fun c => match c with
                        | Deflate.Deflate i _ => i
                        | Deflate.SetDictionary _ => []
                        end) strm).

Definition dictionaries (strm : Deflate.z_stream) : list (list Z) :=
  omap (fun c => match c with
                 | Deflate.Deflate _ _ => None
                 | Deflate.SetDictionary d => Some d
                 end) strm.

(** What an encoder has emitted over the calls of a stream: the output of
    each [deflate] call, given the calls up to and with it. *)
Definition emit_call (e : Deflate.encoder) (lvl : Z)
    (st : Deflate.z_stream * list Z) (c : Deflate.zcall)
    : Deflate.z_stream * list Z :=
  let past := fst st ++ [c] in
  (past, snd st ++ match c with
                   | Deflate.Deflate _ _ => e lvl past
                   | Deflate.SetDictionary _ => []
                   end).

Definition emitted (e : Deflate.encoder) (lvl : Z) (strm : Deflate.z_stream)
    : list Z :=
  snd (fold_left (emit_call e lvl) strm ([], [])).

(** The flush that ends block [i] of [n]. *)
Definition block_flush (n i : nat) : Deflate.flush :=
  if (S i <? n)%nat then Deflate.Z_SYNC_FLUSH else Deflate.Z_FINISH.
(** The results in a work unit are those of compressing [data]: its
    length and check value, a stream that was given just these bytes, and
    the output that the encoder emitted for them. *)
Definition compressed (w : Pipeline.world) (g : globals) (data : list Z)
    (r : Pipeline.work) : Prop :=
  Pipeline.len r = zlen data /\
  Pipeline.check r = CHECK g (CHECK_init g) data /\
  inputs (Pipeline.strm r) = data /\
  Pipeline.out r = emitted (Pipeline.enc w) (level g) (Pipeline.strm r).

(** A world to run the pipeline in: new buffers hold zeros. *)
Definition some_world : Pipeline.world :=
  Pipeline.World null_encoder some_clock zero_block.

(** An input of one full block and three bytes more. *)
Definition short_tail : list Z := zero_block ++ [1; 2; 3].

(** A schedule for an input of two blocks and two work units: the threads
    by turns, each for as long as it can go. *)
Definition turns (a : Pipeline.action) (n : nat) : list Pipeline.action :=
  replicate n a.

Definition two_blocks_schedule : list Pipeline.action :=
  turns Pipeline.Reader 11 ++ turns Pipeline.Writer 2 ++
  [Pipeline.Compressor 0] ++ turns Pipeline.Writer 4 ++
  turns Pipeline.Reader 6 ++ [Pipeline.Writer; Pipeline.Compressor 1] ++
  turns Pipeline.Writer 5 ++ [Pipeline.Reader].

(** [write_thread] has returned. *)
Definition written (s : Pipeline.state) : bool :=
  match Pipeline.wpc s with Pipeline.W_finished => true | _ => false end.

(** The state at the end of a schedule that runs, and in which
    [write_thread] has returned. *)
Definition complete (w : Pipeline.world) (g : globals)
    (sched : list Pipeline.action) (input : list Z) : bool :=
  match Pipeline.run w g sched (Pipeline.init g None input) with
  | Some s => written s
  | None => false
  end.

(** Two empty gzip streams, the second with its header (the header of the
    first is read before [infchk] is called), and a byte more. *)
Definition two_gzip_and_junk : list Z :=
  empty_gzip_body ++ fst (Framing.put_header some_clock default_globals) ++
  empty_gzip_body ++ [7].

(** *** Further vocabulary *)

(** Two bytes, least significant first, of a value taken modulo [2^16]. *)
Definition le16 (x : Z) : list Z := [x mod 256; x / 2 ^ 8 mod 256].

(** The bytes of a C string: none is NUL, and each is an [unsigned char]. *)
Definition c_string (nm : list Z) : Prop := Forall (fun b => 0 < b < 256) nm.

(** The name in a zip entry, ["-"] for standard input. *)
Definition zip_name (g : globals) : list Z :=
  match name g with None => [45] | Some nm => nm end.
(** Globals with a name and a time stamp for the header. *)
Definition named_globals : globals :=
  {| verbosity := 1; form := 0; name := Some [112; 105; 103; 122];
     mtime := 1179014400; listing := 0; decode := 0;
     level := Z_DEFAULT_COMPRESSION; procs := 2; dict := true;
     size := 32768; in_name := "pigz"; out := None |}.
(** A state of decompression whose input stands [k] bytes after that of
    [s0], not at its end. *)
Definition at_ (s0 : Inflate.state) (k : Z) (s : Inflate.state) : Prop :=
  Inflate.in_eof s = false /\
  Inflate.ind s = drop (Z.to_nat k) (Inflate.ind s0).

(** A piece of [read_extra] that works on a block of [size] bytes: it takes
    some of them off the input and returns how many are left. *)
Definition eats (m : Inflate.M Z) (size : Z) : Prop :=
  forall s0 k s,
    at_ s0 k s -> 0 <= k -> 0 <= size -> k + size <= zlen (Inflate.ind s0) ->
    exists size' s',
      m s = (Inflate.Go size', s') /\
      at_ s0 (k + size - size') s' /\ 0 <= size' <= size.
(** A broken-down time as [localtime] gives it, leap seconds and all. *)
Definition tm_ok (tm : Framing.tm) : Prop :=
  0 <= Framing.tm_mon tm <= 11 /\ 1 <= Framing.tm_mday tm <= 31 /\
  0 <= Framing.tm_hour tm <= 23 /\ 0 <= Framing.tm_min tm <= 59 /\
  0 <= Framing.tm_sec tm <= 61.

(** What [single_gzip] has done when the bytes [done] have been compressed:
    the calls on the stream, the running check and lengths, and the output
    after the header [hd]. *)
Definition serial_inv (enc : Deflate.encoder) (g : globals) (hd done : list Z)
    (st : Serial.state) : Prop :=
  inputs (Serial.strm st) = done /\
  dictionaries (Serial.strm st) = [] /\
  Serial.check st = CHECK g (CHECK_init g) done /\
  Serial.ulen st = ulong (zlen done) /\
  Serial.outd st = hd ++ emitted enc (level g) (Serial.strm st) /\
  Serial.clen st = ulong (zlen (emitted enc (level g) (Serial.strm st))).

(** Globals with blocks of 3G bytes, for the serial fallback. *)
Definition big_block_globals : globals :=
  {| verbosity := 1; form := 0; name := None; mtime := 0; listing := 0;
     decode := 0; level := Z_DEFAULT_COMPRESSION; procs := 1; dict := true;
     size := 3221225472; in_name := "<stdin>"; out := None |}.

(** The sum of the bytes of a buffer, and the sum of its running sums: the
    two sums that Adler-32 keeps, before reduction. *)
Fixpoint byte_sum (buf : list Z) : Z :=
  match buf with
  | [] => 0
  | b :: buf => rd8 b + byte_sum buf
  end.

Fixpoint byte_sums (buf : list Z) : Z :=
  match buf with
  | [] => 0
  | b :: buf => (zlen buf + 1) * rd8 b + byte_sums buf
  end.

(** An Adler-32 value in which a half that is zero has become [BASE]. *)
Definition nonzero_half (x : Z) : Z := if x =? 0 then Comb.BASE else x.

Definition adler_skewed (t : Z) : Z :=
  Z.lor (nonzero_half (Z.land t Comb.LOW16))
        (Z.shiftl (nonzero_half (Z.land (Z.shiftr t 16) Comb.LOW16)) 16).

(** The parts of a zip trailer: the data descriptor, the central directory
    (one header, with name and extra field) and the end record. *)
Definition zip_descriptor (ulen clen check : Z) : list Z :=
  le32 check ++ le32 clen ++ le32 ulen.

Definition zip_central (c : Framing.clock) (g : globals)
    (ulen clen check : Z) : list Z :=
  [0x50; 0x4b; 1; 2; 63; 255; 20; 0; 8; 0; 8; 0]
    ++ le32 (Framing.time2dos c (mtime g))
    ++ le32 check ++ le32 clen ++ le32 ulen
    ++ le16 (zlen (zip_name g)) ++ [9; 0; 0; 0; 0; 0; 0; 0]
    ++ le32 0 ++ le32 0
    ++ zip_name g
    ++ [0x55; 0x54; 5; 0; 1] ++ le32 (mtime g).

Definition zip_end (cent offset : Z) : list Z :=
  [0x50; 0x4b; 5; 6; 0; 0; 0; 0; 1; 0; 1; 0]
    ++ le32 cent ++ le32 offset ++ [0; 0].

(** *** The pipeline: buffers and dictionaries

    [R] blocks have been handed over; the block that [read_thread] is at is
    counted with them from the moment the buffer is about to be read into
    ([reading]), or from the moment it has been read into ([read_in]). *)
Definition reading (R : nat) (pc : Pipeline.rloc) : nat :=
  match pc with
  | Pipeline.R_read | Pipeline.R_wait_idle | Pipeline.R_len
  | Pipeline.R_create | Pipeline.R_set => S R
  | _ => R
  end.

Definition read_in (R : nat) (pc : Pipeline.rloc) : nat :=
  match pc with
  | Pipeline.R_wait_idle | Pipeline.R_len
  | Pipeline.R_create | Pipeline.R_set => S R
  | _ => R
  end.

(** [read_thread] is never a full ring ahead of the blocks still being
    compressed: the unit after the one it reads into has been joined. *)
Definition room (g : globals) (R W : nat) (s : Pipeline.state) : Prop :=
  (reading R (Pipeline.rpc s) < W + procs g)%nat \/
  (reading R (Pipeline.rpc s) = W + procs g)%nat /\
  (Pipeline.wpc s = Pipeline.W_write \/ Pipeline.wpc s = Pipeline.W_release).

(** The last [procs] blocks read are still in their buffers; and until the
    last unit is read into, its buffer is the one it had at the start
    ([b0]), or a new one if it had none. *)
Definition kept (w : Pipeline.world) (g : globals) (input : list Z)
    (b0 : option (list Z)) (R : nat) (s : Pipeline.state) : Prop :=
  (forall i, (i < read_in R (Pipeline.rpc s))%nat ->
             (read_in R (Pipeline.rpc s) <= i + procs g)%nat ->
     exists j b data,
       Pipeline.jobs s !! Ring.slot_of g i = Some j /\
       Pipeline.buf j = Some b /\
       blocks (size g) input !! i = Some data /\
       take (length data) b = data) /\
  ((read_in R (Pipeline.rpc s) < procs g)%nat ->
   forall j, Pipeline.jobs s !! (procs g - 1)%nat = Some j ->
     Pipeline.buf j = b0 \/
     b0 = None /\ Pipeline.buf j = Some (Pipeline.fresh w)).

(** The dictionary that [compress_thread] sets from a buffer. *)
Definition dictionary_from (g : globals) (pb : option (list Z))
    (r : Pipeline.work) : list (list Z) :=
  match pb with
  | Some b =>
      if dict g && negb (Pipeline.len r =? 0)
      then [take (Z.to_nat Deflate.DICT)
              (drop (Z.to_nat (size g - Deflate.DICT)) b)]
      else []
  | None => []
  end.

(** The dictionary that the stream of block [i] was given: for every block
    but the first, the last [DICT] bytes of the block before it, if [dict]
    is on and the block is not empty; for the first block, what the buffer
    of the last unit held before any block was read into it. *)
Definition dict_ok (w : Pipeline.world) (g : globals) (input : list Z)
    (b0 : option (list Z)) (i : nat) (r : Pipeline.work) : Prop :=
  match i with
  | O =>
      exists pb, (pb = b0 \/ b0 = None /\ pb = Some (Pipeline.fresh w)) /\
                 dictionaries (Pipeline.strm r) = dictionary_from g pb r
  | S i' =>
      exists prev,
        blocks (size g) input !! i' = Some prev /\
        dictionaries (Pipeline.strm r) =
          if dict g && negb (Pipeline.len r =? 0)
          then [drop (Z.to_nat (size g - Deflate.DICT)) prev] else []
  end.

(** The results in the ring and the results written have the right
    dictionaries. *)
Definition dicts (w : Pipeline.world) (g : globals) (input : list Z)
    (b0 : option (list Z)) (R W : nat)
    (rs : list Pipeline.work) (s : Pipeline.state) : Prop :=
  (forall i j, (W <= i)%nat ->
     (i < R)%nat \/ i = R /\ Pipeline.rpc s = Pipeline.R_set ->
     Pipeline.jobs s !! Ring.slot_of g i = Some j ->
     Pipeline.comp j = Pipeline.Finished -> dict_ok w g input b0 i j) /\
  (Pipeline.wpc s = Pipeline.W_set_write \/
   Pipeline.wpc s = Pipeline.W_write ->
   forall j, Pipeline.jobs s !! Ring.slot_of g W = Some j ->
             dict_ok w g input b0 W j) /\
  (forall i r, rs !! i = Some r -> dict_ok w g input b0 i r).

(** A unit after a step has the results and the input that it had. *)
Definition same_results (j j' : Pipeline.work) : Prop :=
  Pipeline.strm j' = Pipeline.strm j /\ Pipeline.len j' = Pipeline.len j /\
  Pipeline.buf j' = Pipeline.buf j /\
  (Pipeline.comp j' = Pipeline.Finished -> Pipeline.comp j = Pipeline.Finished).

Definition ring_ok (w : Pipeline.world) (g : globals) (input : list Z)
    (b0 : option (list Z)) (R W : nat)
    (rs : list Pipeline.work) (s : Pipeline.state) : Prop :=
  room g R W s /\ kept w g input b0 R s /\ dicts w g input b0 R W rs s.

(** The buffer that the last unit of the pool has when [read_thread]
    starts: none in a new pool. *)
Definition pool_last_buf (g : globals) (pool : option (list Pipeline.work))
    : option (list Z) :=
  match Pipeline.jobs_new g pool !! (procs g - 1)%nat with
  | Some j => Pipeline.buf j
  | None => None
  end.

(** *** File names

    A C string is a [string] without its terminating NUL; a pointer into it
    is the string from that place on. *)

Module Names.

Definition strlen (s : string) : Z := Z.of_nat (String.length s).

(** [nm += k]. *)
Fixpoint advance (k : nat) (s : string) : string :=
  match k, s with
  | O, _ => s
  | S k', String _ s' => advance k' s'
  | S _, EmptyString => EmptyString
  end.

(** [compressed_suffix]: the three tests in their order, each on the end of
    the name that the one before has left. *)
Definition compressed_suffix (nm : string) : Z :=
  let len := strlen nm in
  let four := len >? 4 in
  let nm := if four then advance (Z.to_nat (len - 4)) nm else nm in
  let len := if four then 4 else len in
  if four && ((nm =? ".zip") || (nm =? ".ZIP"))%string then 4 else
  let three := len >? 3 in
  let nm := if three then advance (Z.to_nat (len - 3)) nm else nm in
  let len := if three then 3 else len in
  if three && ((nm =? ".gz") || (nm =? "-gz") ||
               (nm =? ".zz") || (nm =? "-zz"))%string then 3 else
  let two := len >? 2 in
  let nm := if two then advance (Z.to_nat (len - 2)) nm else nm in
  if two && ((nm =? ".z") || (nm =? "-z") ||
             (nm =? "_z") || (nm =? ".Z"))%string then 2 else
  0.

(** The loop of [justname], [while (--p >= path)] with a [break] at a
    slash, with [p] at offset [k]: the offset of [p + 1] at its end. *)
Fixpoint justname_scan (path : string) (k : nat) : nat :=
  match k with
  | O => O
  | S p =>
      match String.get p path with
      | Some c => if Ascii.eqb c "/" then S p else justname_scan path p
      | None => justname_scan path p
      end
  end.

Definition justname (path : string) : string :=
  advance (justname_scan path (String.length path)) path.

End Names.

(** The suffixes that [compressed_suffix] knows. *)
Definition suffixes : list string :=
  [".zip"; ".ZIP"; ".gz"; "-gz"; ".zz"; "-zz"; ".z"; "-z"; "_z"; ".Z"]%string.

(** The tests of [compressed_suffix] on the last four, three and two
    characters. *)
Definition is_zip (nm : string) : bool :=
  ((nm =? ".zip") || (nm =? ".ZIP"))%string.
Definition is_gz (nm : string) : bool :=
  ((nm =? ".gz") || (nm =? "-gz") || (nm =? ".zz") || (nm =? "-zz"))%string.
Definition is_z (nm : string) : bool :=
  ((nm =? ".z") || (nm =? "-z") || (nm =? "_z") || (nm =? ".Z"))%string.

(** The last [k] characters of a name. *)
Definition ending (k : nat) (nm : string) : string :=
  Names.advance (String.length nm - k) nm.

(** No character of the string is a slash. *)
Fixpoint no_slash (s : string) : bool :=
  match s with
  | EmptyString => true
  | String c s' => negb (Ascii.eqb c "/") && no_slash s'
  end.

(** *** The options

    The globals that [defaults] and [option] set, the static [get] of
    [option], the pool of work units that [jobs_free] lets go, and
    [stderr]. *)

Module Options.

Record state := State {
  level : Z                              (* compression level *);
  procs : Z                              (* number of compression threads *);
  size : Z                               (* uncompressed input size per thread *);
  rsync : Z                              (* true for rsync blocking *);
  dict : Z                               (* true to initialize dictionary in each thread *);
  verbosity : Z                          (* 0 = quiet, 1 = normal, 2 = verbose *);
  headis : Z                             (* 1 to store name, 2 to store date, 3 both *);
  pipeout : Z                            (* write output to stdout even if file *);
  sufx : string                          (* suffix to use *);
  decode : Z                             (* 0 to compress, 1 to decompress, 2 to test *);
  listing : Z                            (* [list]: true to list files *);
  keep : Z                               (* true to prevent deletion of input file *);
  force : Z                              (* true to overwrite, compress links *);
  recurse : Z                            (* true to dive down into directories *);
  form : Z                               (* gzip = 0, zlib = 1, zip = 2 or 3 *);
  get : Z                                (* the static [get] of [option] *);
  jobs : option (list Pipeline.work)     (* the pool of work units, [None] for [NULL] *);
  stderr : list string                   (* what was printed on [stderr] *)
}.

Definition set_level (v : Z) (s : state) : state :=
  State v (procs s) (size s) (rsync s) (dict s) (verbosity s) (headis s)
    (pipeout s) (sufx s) (decode s) (listing s) (keep s) (force s) (recurse
    s) (form s) (get s) (jobs s) (stderr s).
Definition set_procs (v : Z) (s : state) : state :=
  State (level s) v (size s) (rsync s) (dict s) (verbosity s) (headis s)
    (pipeout s) (sufx s) (decode s) (listing s) (keep s) (force s) (recurse
    s) (form s) (get s) (jobs s) (stderr s).
Definition set_size (v : Z) (s : state) : state :=
  State (level s) (procs s) v (rsync s) (dict s) (verbosity s) (headis s)
    (pipeout s) (sufx s) (decode s) (listing s) (keep s) (force s) (recurse
    s) (form s) (get s) (jobs s) (stderr s).
Definition set_rsync (v : Z) (s : state) : state :=
  State (level s) (procs s) (size s) v (dict s) (verbosity s) (headis s)
    (pipeout s) (sufx s) (decode s) (listing s) (keep s) (force s) (recurse
    s) (form s) (get s) (jobs s) (stderr s).
Definition set_dict (v : Z) (s : state) : state :=
  State (level s) (procs s) (size s) (rsync s) v (verbosity s) (headis s)
    (pipeout s) (sufx s) (decode s) (listing s) (keep s) (force s) (recurse
    s) (form s) (get s) (jobs s) (stderr s).
Definition set_verbosity (v : Z) (s : state) : state :=
  State (level s) (procs s) (size s) (rsync s) (dict s) v (headis s)
    (pipeout s) (sufx s) (decode s) (listing s) (keep s) (force s) (recurse
    s) (form s) (get s) (jobs s) (stderr s).
Definition set_headis (v : Z) (s : state) : state :=
  State (level s) (procs s) (size s) (rsync s) (dict s) (verbosity s) v
    (pipeout s) (sufx s) (decode s) (listing s) (keep s) (force s) (recurse
    s) (form s) (get s) (jobs s) (stderr s).
Definition set_pipeout (v : Z) (s : state) : state :=
  State (level s) (procs s) (size s) (rsync s) (dict s) (verbosity s)
    (headis s) v (sufx s) (decode s) (listing s) (keep s) (force s) (recurse
    s) (form s) (get s) (jobs s) (stderr s).
Definition set_sufx (v : string) (s : state) : state :=
  State (level s) (procs s) (size s) (rsync s) (dict s) (verbosity s)
    (headis s) (pipeout s) v (decode s) (listing s) (keep s) (force s)
    (recurse s) (form s) (get s) (jobs s) (stderr s).
Definition set_decode (v : Z) (s : state) : state :=
  State (level s) (procs s) (size s) (rsync s) (dict s) (verbosity s)
    (headis s) (pipeout s) (sufx s) v (listing s) (keep s) (force s)
    (recurse s) (form s) (get s) (jobs s) (stderr s).
Definition set_listing (v : Z) (s : state) : state :=
  State (level s) (procs s) (size s) (rsync s) (dict s) (verbosity s)
    (headis s) (pipeout s) (sufx s) (decode s) v (keep s) (force s) (recurse
    s) (form s) (get s) (jobs s) (stderr s).
Definition set_keep (v : Z) (s : state) : state :=
  State (level s) (procs s) (size s) (rsync s) (dict s) (verbosity s)
    (headis s) (pipeout s) (sufx s) (decode s) (listing s) v (force s)
    (recurse s) (form s) (get s) (jobs s) (stderr s).
Definition set_force (v : Z) (s : state) : state :=
  State (level s) (procs s) (size s) (rsync s) (dict s) (verbosity s)
    (headis s) (pipeout s) (sufx s) (decode s) (listing s) (keep s) v
    (recurse s) (form s) (get s) (jobs s) (stderr s).
Definition set_recurse (v : Z) (s : state) : state :=
  State (level s) (procs s) (size s) (rsync s) (dict s) (verbosity s)
    (headis s) (pipeout s) (sufx s) (decode s) (listing s) (keep s) (force
    s) v (form s) (get s) (jobs s) (stderr s).
Definition set_form (v : Z) (s : state) : state :=
  State (level s) (procs s) (size s) (rsync s) (dict s) (verbosity s)
    (headis s) (pipeout s) (sufx s) (decode s) (listing s) (keep s) (force
    s) (recurse s) v (get s) (jobs s) (stderr s).
Definition set_get (v : Z) (s : state) : state :=
  State (level s) (procs s) (size s) (rsync s) (dict s) (verbosity s)
    (headis s) (pipeout s) (sufx s) (decode s) (listing s) (keep s) (force
    s) (recurse s) (form s) v (jobs s) (stderr s).
Definition set_jobs (v : option (list Pipeline.work)) (s : state) : state :=
  State (level s) (procs s) (size s) (rsync s) (dict s) (verbosity s)
    (headis s) (pipeout s) (sufx s) (decode s) (listing s) (keep s) (force
    s) (recurse s) (form s) (get s) v (stderr s).
Definition set_stderr (v : list string) (s : state) : state :=
  State (level s) (procs s) (size s) (rsync s) (dict s) (verbosity s)
    (headis s) (pipeout s) (sufx s) (decode s) (listing s) (keep s) (force
    s) (recurse s) (form s) (get s) (jobs s) v.

(** What [option] takes from outside: the conversions of the C library and
    the lines of [helptext]. *)
Record env := Env {
  atol : string -> Z;
  atoi : string -> Z;
  helptext : list string
}.

(** How a call ends: [return r], [bail(why, what)], or [exit(0)]. *)
Inductive outcome :=
| Returns (r : Z)
| Bails (why what : string)
| Exits.

Definition nl : string := String (ascii_of_nat 10) "".

Definition VERSION : string := "pigz 1.8" ++ nl.

(** [jobs_free]: the units and the pool are freed, [jobs = NULL]. *)
Definition jobs_free (s : state) : state := set_jobs None s.

(** [defaults]. *)
Definition defaults (s : state) : state :=
  set_form 0 (set_recurse 0 (set_force 0 (set_keep 0 (set_listing 0
  (set_decode 0 (set_sufx ".gz" (set_pipeout 0 (set_headis 3
  (set_verbosity 1 (set_dict 1 (set_rsync 0 (set_size 131072
  (set_procs 32 (set_level Z_DEFAULT_COMPRESSION s)))))))))))))).

Definition longopts : list (string * string) :=
  [("LZW", "Z"); ("ascii", "a"); ("best", "9"); ("bits", "Z");
   ("blocksize", "b"); ("decompress", "d"); ("fast", "1"); ("force", "f");
   ("help", "h"); ("independent", "i"); ("keep", "k"); ("license", "L");
   ("list", "l"); ("name", "N"); ("no-name", "n"); ("no-time", "T");
   ("processes", "p"); ("quiet", "q"); ("recursive", "r"); ("rsyncable",
   "R"); ("silent", "q"); ("stdout", "c"); ("suffix", "s"); ("test", "t");
   ("to-stdout", "c"); ("uncompress", "d"); ("verbose", "v"); ("version",
   "V"); ("zip", "K"); ("zlib", "z")]%string.

(** [get & 1 ? "b" : (get & 2 ? "p" : "s")]. *)
Definition pending (get : Z) : string :=
  if negb (Z.land get 1 =? 0) then "b"
  else if negb (Z.land get 2 =? 0) then "p" else "s".

(** [help]: nothing when quiet, else the lines of [helptext], each with a
    newline, and [exit(0)]. *)
Definition help (e : env) (s : state) : option outcome * state :=
  if verbosity s =? 0 then (None, s)
  else (Some Exits,
        set_stderr (stderr s ++ map (fun l => (l ++ nl)%string) (helptext e))
          s).

(** The [switch] on the option letter [c]: the state after it, and how the
    call ends if it ends there. *)
Definition short_option (e : env) (c : ascii) (s : state)
    : option outcome * state :=
  let n := Z.of_nat (nat_of_ascii c) in
  if (48 <=? n) && (n <=? 57) then
    (None, set_level (n - 48) (jobs_free s))
  else if (c =? "K")%char then (None, set_sufx ".zip" (set_form 2 s))
  else if (c =? "L")%char then
    (Some Exits,
     set_stderr (stderr s ++
                 [VERSION; "Copyright (C) 2007 Mark Adler" ++ nl;
                  "Subject to the terms of the zlib license." ++ nl;
                  "No warranty is provided or implied." ++ nl]%string) s)
  else if (c =? "N")%char then (None, set_headis 3 s)
  else if (c =? "T")%char then
    (None, set_headis (Z.land (headis s) (Z.lnot 2)) s)
  else if (c =? "R")%char then
    (Some (Bails "rsyncable not implemented yet" ""), set_rsync 1 s)
  else if (c =? "V")%char then
    (Some Exits, set_stderr (stderr s ++ [VERSION]) s)
  else if (c =? "Z")%char then
    (Some (Bails "invalid option: LZW output not supported" ""), s)
  else if (c =? "a")%char then
    (Some (Bails "invalid option: ascii conversion not supported" ""), s)
  else if (c =? "b")%char then (None, set_get (Z.lor (get s) 1) s)
  else if (c =? "c")%char then (None, set_pipeout 1 s)
  else if (c =? "d")%char then (None, set_headis 0 (set_decode 1 s))
  else if (c =? "f")%char then (None, set_force 1 s)
  else if (c =? "h")%char then help e s
  else if (c =? "i")%char then (None, set_dict 0 s)
  else if (c =? "k")%char then (None, set_keep 1 s)
  else if (c =? "l")%char then (None, set_listing 1 s)
  else if (c =? "n")%char then
    (None, set_headis (Z.land (headis s) (Z.lnot 1)) s)
  else if (c =? "p")%char then (None, set_get (Z.lor (get s) 2) s)
  else if (c =? "q")%char then (None, set_verbosity 0 s)
  else if (c =? "r")%char then (None, set_recurse 1 s)
  else if (c =? "s")%char then (None, set_get (Z.lor (get s) 4) s)
  else if (c =? "t")%char then (None, set_decode 2 s)
  else if (c =? "v")%char then (None, set_verbosity (verbosity s + 1) s)
  else if (c =? "z")%char then (None, set_sufx ".zz" (set_form 1 s))
  else (Some (Bails "invalid option: -" (String c "")), s).

(** The [do ... while] loop over the option letters and the [return 0]
    after it, with [arg] at the letters that are left.  No call has [arg] at
    the end of the string. *)
Fixpoint short_options (e : env) (arg : string) (s : state)
    : outcome * state :=
  match arg with
  | EmptyString => (Bails "invalid option: -" "", s)
  | String c rest =>
      match short_option e c s with
      | (Some o, s') => (o, s')
      | (None, s') =>
          match rest with
          | EmptyString => (Returns 0, s')
          | String _ _ => short_options e rest s'
          end
      end
  end.

(** The parameter of [-b], [-p] or [-s]. *)
Definition parameter (e : env) (arg : string) (s : state)
    : outcome * state :=
  let g := get s in
  if negb (g =? 1) && negb (g =? 2) && negb (g =? 4) then
    (Bails "you need to separate "
       (if g =? 3 then "-b and -p"
        else if g =? 5 then "-b and -s" else "-p and -s"), s)
  else if g =? 1 then
    let s := set_size (ulong (Z.shiftl (ulong (atol e arg)) 10))
               (jobs_free s) in
    if size s <? Deflate.DICT
    then (Bails "block size too small (must be >= 32K)" "", s)
    else (Returns 0, set_get 0 s)
  else if g =? 2 then
    let s := set_procs (atoi e arg) (jobs_free s) in
    if procs s <? 1 then (Bails "need at least one process" "", s)
    else (Returns 0, set_get 0 s)
  else (Returns 0, set_get 0 (set_sufx arg s)).

(** An argument that is no option: the parameter that is waited for, or a
    file name. *)
Definition operand (e : env) (arg : string) (s : state) : outcome * state :=
  if negb (get s =? 0) then parameter e arg s else (Returns 1, s).

(** [option(arg)]; [None] is [NULL]. *)
Definition option (e : env) (arg : Datatypes.option string) (s : state)
    : outcome * state :=
  match arg with
  | None =>
      if negb (get s =? 0)
      then (Bails "missing option argument for -" (pending (get s)), s)
      else (Returns 0, s)
  | Some EmptyString => operand e EmptyString s
  | Some (String c rest) =>
      if (c =? "-")%char then
        if negb (get s =? 0)
        then (Bails "require parameter after -" (pending (get s)), s)
        else
          match rest with
          | EmptyString => (Returns 1, s)
          | String c' long =>
              if (c' =? "-")%char then
                match find (fun o => (long =? fst o)%string)
                        (rev longopts) with
                | Some o => short_options e (snd o) s
                | None => (Bails "invalid option: " (String c rest), s)
                end
              else short_options e rest s
          end
      else operand e (String c rest) s
  end.

End Options.

(** The options before [defaults], with nothing waited for and no pool. *)
Definition no_options : Options.state :=
  Options.State 0 0 0 0 0 0 0 0 "" 0 0 0 0 0 0 0 None [].

(** A stand-in for [atol] and [atoi]: the value of the leading decimal
    digits. *)
Fixpoint decimal (acc : Z) (s : string) : Z :=
  match s with
  | EmptyString => acc
  | String c rest =>
      let n := Z.of_nat (nat_of_ascii c) in
      if (48 <=? n) && (n <=? 57) then decimal (10 * acc + (n - 48)) rest
      else acc
  end.

Definition some_env : Options.env := Options.Env (decimal 0) (decimal 0) [].

(** A stand-in for [inflateBack] that knows one format: a length byte and
    that many literal bytes, delivered as one chunk. *)
Definition literal_inflater : Inflate.inflater := fun inp =>
  match inp with
  | n :: rest => ([take (Z.to_nat n) rest], Some (drop (Z.to_nat n) rest))
  | [] => ([], None)
  end.

(** Two gzip streams for [literal_inflater], without their first header:
    the bytes 1 2 and the bytes 3 4 5. *)
Definition two_streams : list Z :=
  [2; 1; 2] ++
  Framing.put_trailer some_clock default_globals 2 0 (Comb.crc32 0 [1; 2]) 10
  ++ fst (Framing.put_header some_clock default_globals) ++
  [3; 3; 4; 5] ++
  Framing.put_trailer some_clock default_globals 3 0
    (Comb.crc32 0 [3; 4; 5]) 10.

(** * Proofs *)

(** ** The CRC-32 combiner *)

Section CombCrc.
Import Comb.

Lemma lxor_bound n a b :
  0 <= n -> 0 <= a < 2 ^ n -> 0 <= b < 2 ^ n -> 0 <= Z.lxor a b < 2 ^ n.
Proof.
  intros Hn Ha Hb.
  assert (H0 : 0 <= Z.lxor a b) by (apply Z.lxor_nonneg; lia).
  split; [exact H0|].
  destruct (Z.eq_dec (Z.lxor a b) 0) as [->|Hne]; [lia|].
  assert (0 < n).
  { destruct (Z.eq_dec n 0) as [->|]; [|lia].
    assert (a = 0) by lia. assert (b = 0) by lia. subst. now destruct Hne. }
  apply Z.log2_lt_pow2; [lia|].
  pose proof (Z.log2_lxor a b ltac:(lia) ltac:(lia)) as Hl.
  assert (Z.log2 a < n).
  { destruct (Z.eq_dec a 0) as [->|]; [simpl; lia|apply Z.log2_lt_pow2; lia]. }
  assert (Z.log2 b < n).
  { destruct (Z.eq_dec b 0) as [->|]; [simpl; lia|apply Z.log2_lt_pow2; lia]. }
  lia.
Qed.

Lemma lxor_word a b : word a -> word b -> word (Z.lxor a b).
Proof. apply lxor_bound; lia. Qed.

Lemma linear_0 f : linear f -> f 0 = 0.
Proof.
  intros Hf. specialize (Hf 0 0). rewrite Z.lxor_0_l in Hf.
  rewrite Hf at 1. apply Z.lxor_nilpotent.
Qed.

Lemma crc_shift_linear : linear crc_shift.
Proof.
  intros a b. unfold crc_shift.
  rewrite Z.shiftr_lxor.
  rewrite <- !Z.bit0_odd, Z.lxor_spec.
  apply Z.bits_inj'; intros n Hn.
  destruct (Z.testbit a 0), (Z.testbit b 0); simpl;
    rewrite !Z.lxor_spec, ?Z.bits_0;
    destruct (Z.testbit (Z.shiftr a 1) n), (Z.testbit (Z.shiftr b 1) n),
      (Z.testbit POLY n); reflexivity.
Qed.

Lemma crc_shift_closed : closed crc_shift.
Proof.
  intros a [H0 H1]. unfold crc_shift. apply lxor_word.
  - rewrite Z.shiftr_div_pow2 by lia. change (2 ^ 1) with 2.
    unfold word. split; [apply Z.div_pos; lia|].
    apply Z.div_lt_upper_bound; lia.
  - destruct (Z.odd a); unfold word, POLY; lia.
Qed.

Lemma zeros_add a b x : 0 <= a -> 0 <= b -> zeros (a + b) x = zeros a (zeros b x).
Proof.
  intros Ha Hb. unfold zeros. rewrite Z2Nat.inj_add by lia.
  apply Nat.iter_add.
Qed.

Lemma zeros_0 x : zeros 0 x = x.
Proof. reflexivity. Qed.

Lemma zeros_linear k : linear (zeros k).
Proof.
  unfold zeros. induction (Z.to_nat k) as [|n IH]; intros a b; simpl.
  - reflexivity.
  - rewrite IH. apply crc_shift_linear.
Qed.

Lemma zeros_closed k : closed (zeros k).
Proof.
  unfold zeros. induction (Z.to_nat k) as [|n IH]; intros a Ha; simpl.
  - exact Ha.
  - apply crc_shift_closed, IH, Ha.
Qed.

Lemma shiftl_low_high k vec :
  0 <= k ->
  Z.shiftl vec k =
  Z.lxor (Z.shiftl (Z.land vec 1) k) (Z.shiftl (Z.shiftr vec 1) (k + 1)).
Proof.
  intros Hk. apply Z.bits_inj'; intros i Hi.
  rewrite Z.lxor_spec, !Z.shiftl_spec by lia.
  destruct (Z.lt_trichotomy i k) as [Hlt|[->|Hgt]].
  - rewrite !Z.testbit_neg_r by lia. reflexivity.
  - rewrite Z.sub_diag, Z.land_spec. change (Z.testbit 1 0) with true.
    rewrite (Z.testbit_neg_r _ (k - (k + 1))) by lia.
    now rewrite andb_true_r, xorb_false_r.
  - rewrite Z.land_spec, Z.shiftr_spec by lia.
    change 1 with (2 ^ 0) at 1. rewrite Z.pow2_bits_eqb by lia.
    replace (0 =? i - k) with false by (symmetry; apply Z.eqb_neq; lia).
    rewrite andb_false_r, xorb_false_l. f_equal. lia.
Qed.

(** [gf2_matrix_times] on the columns [k], [k+1], ... of a linear map. *)
Lemma gf2_matrix_times_loop_spec f : linear f ->
  forall mat (k : nat) vec sum,
    (forall i : nat, (i < length mat)%nat ->
                     mat !! i = Some (f (2 ^ Z.of_nat (k + i)))) ->
    0 <= vec < 2 ^ Z.of_nat (length mat) ->
    gf2_matrix_times_loop mat vec sum =
    Z.lxor sum (f (Z.shiftl vec (Z.of_nat k))).
Proof.
  intros Hf mat. induction mat as [|m mat IH]; intros k vec sum Hcol Hvec.
  - simpl in Hvec. assert (vec = 0) by lia. subst vec. simpl.
    rewrite Z.shiftl_0_l, (linear_0 f Hf), Z.lxor_0_r. reflexivity.
  - cbn [gf2_matrix_times_loop].
    destruct (Z.eqb_spec vec 0) as [->|Hne].
    { rewrite Z.shiftl_0_l, (linear_0 f Hf), Z.lxor_0_r. reflexivity. }
    rewrite (IH (S k)).
    + rewrite (shiftl_low_high (Z.of_nat k) vec) by lia.
      rewrite Hf. replace (Z.of_nat (S k)) with (Z.of_nat k + 1) by lia.
      rewrite <- Z.lxor_assoc. f_equal.
      pose proof (Hcol 0%nat ltac:(simpl; lia)) as H0. simpl in H0.
      injection H0 as ->. rewrite Nat.add_0_r.
      assert (Hb : Z.land vec 1 = vec mod 2) by (apply (Z.land_ones vec 1); lia).
      rewrite Hb.
      destruct (Z.eqb_spec (vec mod 2) 0) as [->|Hodd].
      * rewrite Z.shiftl_0_l, (linear_0 f Hf), Z.lxor_0_r. reflexivity.
      * replace (vec mod 2) with 1 by (pose proof (Z.mod_pos_bound vec 2); lia).
        rewrite Z.shiftl_1_l. reflexivity.
    + intros i Hi. specialize (Hcol (S i) ltac:(simpl; lia)). simpl in Hcol.
      rewrite Hcol. do 3 f_equal. lia.
    + rewrite Z.shiftr_div_pow2 by lia. change (2 ^ 1) with 2.
      simpl length in Hvec. rewrite Nat2Z.inj_succ, Z.pow_succ_r in Hvec by lia.
      split; [apply Z.div_pos; lia|apply Z.div_lt_upper_bound; lia].
Qed.

Lemma gf2_matrix_times_spec M f vec :
  linear f -> columns M f -> word vec -> gf2_matrix_times M vec = f vec.
Proof.
  intros Hf [Hlen Hcol] Hvec. unfold gf2_matrix_times.
  rewrite (gf2_matrix_times_loop_spec f Hf M 0 vec 0).
  - now rewrite Z.lxor_0_l, Z.shiftl_0_r.
  - intros i Hi. rewrite Hlen in Hi. now apply Hcol.
  - rewrite Hlen. exact Hvec.
Qed.

Lemma pow2_word (i : nat) : (i < 32)%nat -> word (2 ^ Z.of_nat i).
Proof.
  intros Hi. split; [apply Z.pow_nonneg; lia|].
  apply Z.pow_lt_mono_r; lia.
Qed.

Lemma gf2_matrix_square_spec M f :
  linear f -> closed f -> columns M f ->
  columns (gf2_matrix_square M) (fun x => f (f x)).
Proof.
  intros Hf Hc HM. pose proof HM as [Hlen Hcol].
  unfold gf2_matrix_square. split; [now rewrite length_map|].
  intros i Hi. rewrite list_lookup_fmap, (Hcol i Hi). simpl. f_equal.
  apply gf2_matrix_times_spec; auto. apply Hc, pow2_word, Hi.
Qed.

Lemma columns_ext M f g : (forall x, f x = g x) -> columns M f -> columns M g.
Proof.
  intros Hfg [Hlen Hcol]. split; [exact Hlen|].
  intros i Hi. rewrite <- Hfg. now apply Hcol.
Qed.

Lemma columns_square_zeros M k :
  0 <= k -> columns M (zeros k) -> columns (gf2_matrix_square M) (zeros (2 * k)).
Proof.
  intros Hk HM.
  apply (columns_ext _ (fun x => zeros k (zeros k x))).
  - intros x. rewrite <- zeros_add by lia. f_equal. lia.
  - apply gf2_matrix_square_spec; auto using zeros_linear, zeros_closed.
Qed.

Lemma odd_init_columns : columns odd_init (zeros 1).
Proof.
  split; [reflexivity|]. intros i Hi.
  do 32 (destruct i as [|i]; [vm_compute; reflexivity|]). lia.
Qed.

Lemma land_1_mod2 x : Z.land x 1 = x mod 2.
Proof. apply (Z.land_ones x 1). lia. Qed.

Lemma shiftr_1_div2 x : Z.shiftr x 1 = x / 2.
Proof. now rewrite Z.shiftr_div_pow2 by lia. Qed.

(** One conditional application of the operator held in a matrix. *)
Lemma apply_bit M k crc bit :
  0 <= k -> columns M (zeros k) -> word crc -> 0 <= bit < 2 ->
  (if bit =? 0 then crc else gf2_matrix_times M crc) = zeros (k * bit) crc.
Proof.
  intros Hk HM Hcrc Hbit. destruct (Z.eqb_spec bit 0) as [->|Hne].
  - now rewrite Z.mul_0_r.
  - replace bit with 1 by lia. rewrite Z.mul_1_r.
    apply gf2_matrix_times_spec; auto using zeros_linear.
Qed.

(** The loop applies [len2] times the operator that is twice the one in
    [odd]: with [odd] holding four zero bits, [len2] zero bytes. *)
Lemma crc32_comb_loop_spec n : forall odd k crc1 len2,
  0 <= k -> columns odd (zeros k) -> word crc1 ->
  0 < len2 < 4 ^ Z.of_nat n ->
  crc32_comb_loop n odd crc1 len2 = zeros (2 * k * len2) crc1.
Proof.
  induction n as [|n IH]; intros odd k crc1 len2 Hk Hodd Hcrc Hlen.
  - simpl in Hlen. lia.
  - cbn [crc32_comb_loop]. cbv zeta.
    assert (Heven := columns_square_zeros odd k Hk Hodd).
    assert (Hodd' := columns_square_zeros _ (2 * k) ltac:(lia) Heven).
    rewrite !land_1_mod2, !shiftr_1_div2.
    pose proof (Z.mod_pos_bound len2 2 ltac:(lia)) as Hb0.
    pose proof (Z.mod_pos_bound (len2 / 2) 2 ltac:(lia)) as Hb1.
    pose proof (Z.div_mod len2 2 ltac:(lia)) as E0.
    pose proof (Z.div_mod (len2 / 2) 2 ltac:(lia)) as E1.
    rewrite (apply_bit _ (2 * k) crc1 (len2 mod 2)) by (auto; lia).
    assert (Hcrc' : word (zeros (2 * k * (len2 mod 2)) crc1))
      by now apply zeros_closed.
    destruct (Z.eqb_spec (len2 / 2) 0) as [Hz|Hnz].
    { f_equal. nia. }
    rewrite (apply_bit _ (2 * (2 * k)) _ (len2 / 2 mod 2)) by (auto; lia).
    rewrite <- zeros_add by nia.
    destruct (Z.eqb_spec (len2 / 2 / 2) 0) as [Hz'|Hnz'].
    { f_equal. nia. }
    rewrite (IH _ (2 * (2 * k))); auto.
    + rewrite <- zeros_add by nia. f_equal. nia.
    + lia.
    + now apply zeros_closed.
    + rewrite Nat2Z.inj_succ, Z.pow_succ_r in Hlen by lia.
      assert (0 <= len2 / 2 / 2) by (apply Z.div_pos; [apply Z.div_pos|]; lia).
      split; [lia|]. nia.
Qed.

Lemma rounds_enough len2 : 0 < len2 -> len2 < 4 ^ Z.of_nat (rounds len2).
Proof.
  intros H. unfold rounds.
  rewrite Nat2Z.inj_succ, Z2Nat.id by apply Z.log2_nonneg.
  pose proof (Z.log2_spec len2 H) as [_ Hlt].
  eapply Z.lt_le_trans; [exact Hlt|].
  apply Z.pow_le_mono_l. lia.
Qed.

(** What [crc32_comb] computes for a length that is not zero: [crc1] pushed
    through [len2] zero bytes, exclusive-or [crc2]. *)
Lemma crc32_comb_zeros crc1 crc2 len2 :
  word crc1 -> 0 < len2 ->
  crc32_comb crc1 crc2 len2 = Z.lxor (zeros (8 * len2) crc1) crc2.
Proof.
  intros Hcrc Hlen. unfold crc32_comb.
  destruct (Z.eqb_spec len2 0) as [->|Hne]; [lia|].
  cbv zeta. f_equal.
  rewrite (crc32_comb_loop_spec _ _ 4).
  - f_equal; lia.
  - lia.
  - apply (columns_square_zeros _ 2); [lia|].
    apply (columns_square_zeros _ 1); [lia|]. apply odd_init_columns.
  - exact Hcrc.
  - split; [lia|]. apply rounds_enough. lia.
Qed.

Lemma crc_byte_zeros c b : crc_byte c b = zeros 8 (Z.lxor c (rd8 b)).
Proof. unfold crc_byte, zeros. change (Z.to_nat 8) with 8%nat. reflexivity. Qed.

Lemma crc_byte_lxor c d b :
  crc_byte (Z.lxor c d) b = Z.lxor (crc_byte c b) (zeros 8 d).
Proof.
  rewrite !crc_byte_zeros, <- (zeros_linear 8). f_equal.
  rewrite !Z.lxor_assoc. f_equal. apply Z.lxor_comm.
Qed.

Lemma zlen_nil {A} : zlen (@nil A) = 0.
Proof. reflexivity. Qed.

Lemma zlen_cons {A} (a : A) l : zlen (a :: l) = zlen l + 1.
Proof. unfold zlen. rewrite length_cons. lia. Qed.

Lemma zlen_nonneg {A} (l : list A) : 0 <= zlen l.
Proof. unfold zlen. lia. Qed.

Lemma zeros_cons (b : Z) (buf : list Z) d :
  zeros (8 * zlen buf) (zeros 8 d) = zeros (8 * zlen (b :: buf)) d.
Proof.
  pose proof (zlen_nonneg buf).
  rewrite <- (zeros_add (8 * zlen buf) 8) by lia.
  rewrite zlen_cons. f_equal. lia.
Qed.

Lemma zeros_nil d : zeros (8 * zlen (@nil Z)) d = d.
Proof. rewrite (@zlen_nil Z). change (8 * 0) with 0. apply zeros_0. Qed.

Lemma fold_left_cons {A B} (f : A -> B -> A) b l a :
  fold_left f (b :: l) a = fold_left f l (f a b).
Proof. reflexivity. Qed.

(** The register after a buffer is affine in the register before it. *)
Lemma crc_bytes_lxor buf : forall c d,
  fold_left crc_byte buf (Z.lxor c d) =
  Z.lxor (fold_left crc_byte buf c) (zeros (8 * zlen buf) d).
Proof.
  induction buf as [|b buf IH]; intros c d.
  - now rewrite zeros_nil.
  - rewrite !fold_left_cons, crc_byte_lxor, IH, (zeros_cons b). reflexivity.
Qed.

Lemma rd8_word b : word (rd8 b).
Proof.
  unfold rd8. change 255 with (Z.ones 8). rewrite Z.land_ones by lia.
  pose proof (Z.mod_pos_bound b (2 ^ 8) ltac:(lia)). unfold word. lia.
Qed.

Lemma crc_byte_word c b : word c -> word (crc_byte c b).
Proof.
  intros Hc. rewrite crc_byte_zeros.
  apply zeros_closed. apply lxor_word; [exact Hc|apply rd8_word].
Qed.

Lemma crc_bytes_word buf : forall c, word c -> word (fold_left crc_byte buf c).
Proof.
  induction buf as [|b buf IH]; intros c Hc; [exact Hc|].
  apply IH, crc_byte_word, Hc.
Qed.

Lemma crc32_word buf : word (crc32 0 buf).
Proof.
  unfold crc32. apply lxor_word; [|unfold word; lia].
  apply crc_bytes_word. change (Z.lxor 0 0xffffffff) with 0xffffffff.
  unfold word. lia.
Qed.

(** The CRC of a concatenation, from the CRCs of the parts. *)
Lemma crc32_app A B :
  crc32 0 (A ++ B) = Z.lxor (zeros (8 * zlen B) (crc32 0 A)) (crc32 0 B).
Proof.
  unfold crc32 at 1. rewrite fold_left_app.
  set (F := 0xffffffff). change (Z.lxor 0 F) with F.
  assert (EA : fold_left crc_byte A F = Z.lxor F (crc32 0 A)).
  { unfold crc32. change (Z.lxor 0 0xffffffff) with F.
    rewrite (Z.lxor_comm _ F), <- Z.lxor_assoc, Z.lxor_nilpotent.
    now rewrite Z.lxor_0_l. }
  rewrite EA, crc_bytes_lxor. clear EA.
  generalize (zeros (8 * zlen B) (crc32 0 A)); intros y.
  unfold crc32. change (Z.lxor 0 0xffffffff) with F.
  now rewrite (Z.lxor_comm _ y), Z.lxor_assoc.
Qed.

Lemma crc32_comb_app A B :
  crc32_comb (crc32 0 A) (crc32 0 B) (zlen B) = crc32 0 (A ++ B).
Proof.
  destruct B as [|b B].
  - rewrite app_nil_r. reflexivity.
  - rewrite crc32_comb_zeros, crc32_app; auto using crc32_word.
    unfold zlen. simpl length. lia.
Qed.

Lemma crc32_comb_fold Bs : forall A,
  fold_left (fun c B => crc32_comb c (crc32 0 B) (zlen B)) Bs (crc32 0 A) =
  crc32 0 (A ++ concat Bs).
Proof.
  induction Bs as [|B Bs IH]; intros A; simpl.
  - now rewrite app_nil_r.
  - rewrite crc32_comb_app, IH, app_assoc. reflexivity.
Qed.

(** C2.  [crc32_comb] applied to the CRC-32 values of two byte sequences and
    the length of the second is the CRC-32 of their concatenation, for every
    length, zero included; hence folding [crc32_comb] over the CRC-32 values
    of the blocks of any partition, in block order and starting from the
    CRC-32 of the empty sequence, gives the CRC-32 of the whole. *)
Theorem crc32_comb_correct :
  (forall A B : list Z,
      crc32_comb (crc32 0 A) (crc32 0 B) (zlen B) = crc32 0 (A ++ B)) /\
  (forall Bs : list (list Z),
      fold_left (fun c B => crc32_comb c (crc32 0 B) (zlen B)) Bs (crc32 0 [])
      = crc32 0 (concat Bs)).
Proof.
  split.
  - exact crc32_comb_app.
  - intros Bs. apply (crc32_comb_fold Bs []).
Qed.

End CombCrc.


(** ** The Adler-32 combiner *)

Section CombAdler.
Import Comb.

(** C3 does not hold of the code.  For [A] = 256 bytes [0xff] and [B] = the
    byte [0xf0], the Adler-32 of [A ++ B] has low half 0 (the bytes sum to
    65520, one less than [BASE]), while [adler32_comb] leaves [BASE] itself
    in the low half: its reductions test [sum > BASE] where [sum >= BASE] is
    needed. *)
Theorem adler32_comb_failing_input :
  adler32_comb (adler32 1 adler_fail_A) (adler32 1 adler_fail_B)
    (zlen adler_fail_B) = 0x0800fff1 /\
  adler32 1 (adler_fail_A ++ adler_fail_B) = 0x08000000.
Proof. split; vm_compute; reflexivity. Qed.

End CombAdler.

(** ** Container framing *)

Section FramingFacts.
Import Framing.

Lemma PUT2L_app pre b0 b1 post x :
  PUT2L (pre ++ b0 :: b1 :: post) (length pre) x =
  pre ++ u8 (Z.land x 0xff) :: u8 (Z.shiftr x 8) :: post.
Proof.
  unfold PUT2L.
  rewrite (insert_app_r_alt pre _ (length pre)) by lia.
  rewrite (insert_app_r_alt pre _ (S (length pre))) by lia.
  replace (S (length pre) - length pre)%nat with 1%nat by lia.
  now rewrite Nat.sub_diag.
Qed.

Lemma PUT4L_le32 pre post b0 b1 b2 b3 x :
  PUT4L (pre ++ b0 :: b1 :: b2 :: b3 :: post) (length pre) x =
  pre ++ le32 x ++ post.
Proof.
  unfold PUT4L. rewrite PUT2L_app.
  change (pre ++ ?a :: ?b :: b2 :: b3 :: post)
    with (pre ++ [a; b] ++ b2 :: b3 :: post).
  rewrite app_assoc.
  replace (length pre + 2)%nat with (length (pre ++ [u8
    (Z.land (Z.land x 0xffff) 0xff); u8 (Z.shiftr (Z.land x 0xffff) 8)]))
    by (rewrite length_app; reflexivity).
  rewrite PUT2L_app, <- app_assoc. f_equal.
  unfold le32, app, u8.
  rewrite !Z.shiftr_div_pow2 by lia.
  change 0xff with (Z.ones 8). change 0xffff with (Z.ones 16).
  rewrite !Z.land_ones by lia.
  change (2 ^ 32) with 4294967296. change (2 ^ 24) with 16777216.
  change (2 ^ 16) with 65536. change (2 ^ 8) with 256.
  repeat match goal with |- _ :: _ = _ :: _ => f_equal end;
    Z.div_mod_to_equations; lia.
Qed.

Lemma put_header_gzip c g : form g = 0 ->
  put_header c g =
    ([0x1f; 0x8b; 8; match name g with Some _ => 8 | None => 0 end]
       ++ le32 (mtime g)
       ++ [if level g =? 9 then 2 else if level g =? 1 then 4 else 0; 3]
       ++ match name g with Some nm => nm ++ [0] | None => [] end,
     10 + match name g with Some nm => zlen nm + 1 | None => 0 end).
Proof.
  intros Hf. unfold put_header. rewrite Hf.
  change (0 >? 1) with false. change (negb (0 =? 0)) with false. cbv iota.
  cbn [replicate insert list_insert].
  set (flg := match name g with Some _ => 8 | None => 0 end).
  set (xfl := if level g =? 9 then 2 else if level g =? 1 then 4 else 0).
  pose proof (PUT4L_le32 [31; 139; 8; flg] (replicate 22 0) 0 0 0 0 (mtime g))
    as E.
  cbn [app replicate length] in E. rewrite E. clear E.
  unfold le32, writen, strlen. cbn [app insert list_insert take].
  destruct (name g); cbn [app]; f_equal; lia.
Qed.

Lemma put_trailer_gzip c g ulen clen check head : form g = 0 ->
  put_trailer c g ulen clen check head = le32 check ++ le32 ulen.
Proof.
  intros Hf. unfold put_trailer. rewrite Hf.
  change (0 >? 1) with false. change (negb (0 =? 0)) with false. cbv iota.
  cbn [replicate].
  pose proof (PUT4L_le32 [] (replicate 42 0) 0 0 0 0 check) as E.
  cbn [app replicate length] in E. rewrite E. clear E.
  pose proof (PUT4L_le32 (le32 check) (replicate 38 0) 0 0 0 0 ulen) as E.
  change (length (le32 check)) with 4%nat in E.
  cbn [replicate] in E. rewrite E. clear E.
  unfold le32, writen. reflexivity.
Qed.

(** C7.  In gzip format the header is [1F 8B 08 FLG MTIME XFL 03] with
    [MTIME] the four bytes of the time stamp, least significant first; [FLG]
    is 8 and the name with a NUL follows when a name is set, and is 0 with
    nothing following otherwise; [XFL] is 2 at level 9, 4 at level 1, else 0.
    The trailer is the check value then the uncompressed length, each as four
    bytes, least significant first, of the value modulo [2^32]. *)
Theorem gzip_framing c g : form g = 0 ->
  put_header c g =
    ([0x1f; 0x8b; 8; match name g with Some _ => 8 | None => 0 end]
       ++ le32 (mtime g)
       ++ [if level g =? 9 then 2 else if level g =? 1 then 4 else 0; 3]
       ++ match name g with Some nm => nm ++ [0] | None => [] end,
     10 + match name g with Some nm => zlen nm + 1 | None => 0 end) /\
  forall ulen clen check head,
    put_trailer c g ulen clen check head = le32 check ++ le32 ulen.
Proof.
  intros Hf. split.
  - now apply put_header_gzip.
  - intros. now apply put_trailer_gzip.
Qed.

Lemma gzip_framing_witness :
  form default_globals = 0 /\
  fst (put_header some_clock default_globals) = [31; 139; 8; 0; 0; 0; 0; 0; 0; 3].
Proof.
  split; [reflexivity|].
  rewrite (proj1 (gzip_framing some_clock default_globals eq_refl)).
  reflexivity.
Defined.

(** C6 as the specification has it fails: at level 7 the code writes level
    bits 1 where the specification asks for 2. *)
Lemma zlib_header_level7_counterexample :
  ~ (forall c g, form g = 1 ->
       exists b, fst (put_header c g) = [0x78; b] /\
                 Z.shiftr b 6 = spec_zlib_level_bits (level g)).
Proof.
  intros H.
  destruct (H some_clock (set_level 7 (set_form 1 default_globals)) eq_refl)
    as (b & Hb & Hbits).
  vm_compute in Hb. injection Hb as <-. vm_compute in Hbits. discriminate.
Qed.

(** C6, amended.  In zlib format the header is two bytes: [0x78], then a byte
    whose top two bits are 3 at level 9, 0 at level 1, 1 at every other level
    from 6 up and at the default level, and 2 at the remaining levels, and
    whose low bits make the big-endian 16-bit value a multiple of 31; at
    level 9 the header is [78 DA]. *)
Theorem zlib_header c g : form g = 1 ->
  exists b,
    put_header c g = ([0x78; b], 2) /\
    0 <= b < 256 /\
    Z.shiftr b 6 = zlib_level_bits (level g) /\
    (0x78 * 256 + b) mod 31 = 0 /\
    (level g = 9 -> b = 0xda).
Proof.
  intros Hf. unfold put_header. rewrite Hf.
  change (1 >? 1) with false. change (negb (1 =? 0)) with true. cbv iota.
  unfold zlib_level_bits. rewrite Z.geb_leb.
  destruct (Z.eqb_spec (level g) 9) as [E9|N9].
  { exists 0xda. repeat split; reflexivity || lia. }
  destruct (Z.eqb_spec (level g) 1) as [E1|N1].
  { exists 0x01. repeat split; reflexivity || lia. }
  destruct ((6 <=? level g) || (level g =? Z_DEFAULT_COMPRESSION)).
  - exists 0x5e. repeat split; reflexivity || lia.
  - exists 0x9c. repeat split; reflexivity || lia.
Qed.

Lemma zlib_header_witness :
  form (set_level 9 (set_form 1 default_globals)) = 1 /\
  exists b,
    put_header some_clock (set_level 9 (set_form 1 default_globals))
      = ([0x78; b], 2) /\ b = 0xda.
Proof.
  split; [reflexivity|].
  destruct (zlib_header some_clock (set_level 9 (set_form 1 default_globals))
              eq_refl) as (b & Hh & _ & _ & _ & H9).
  exists b. split; [exact Hh|]. apply H9. reflexivity.
Defined.

End FramingFacts.


(** ** Blocks *)

Section Blocks.

Lemma split_blocks_spec sz : (0 < sz)%nat -> forall n inp,
  (length inp < n)%nat ->
  concat (split_blocks n sz inp) = inp /\
  exists full last,
    split_blocks n sz inp = full ++ [last] /\
    Forall (fun b => length b = sz) full /\ (length last < sz)%nat.
Proof.
  intros Hsz. induction n as [|n IH]; intros inp Hn; [lia|].
  cbn [split_blocks]. destruct (Nat.ltb_spec (length inp) sz) as [Hlt|Hge].
  - split; [simpl; apply app_nil_r|].
    exists [], inp. auto.
  - destruct (IH (drop sz inp)) as (Hc & full & last & E & Hfull & Hlast).
    { rewrite length_drop. lia. }
    split.
    + cbn [concat]. rewrite Hc. apply take_drop.
    + exists (take sz inp :: full), last. rewrite E. repeat split; auto.
      constructor; [|exact Hfull]. rewrite length_take. lia.
Qed.

(** The blocks are the input, all of them full but the last, which is
    short. *)
Lemma blocks_spec sz inp : 0 < sz ->
  concat (blocks sz inp) = inp /\
  exists full last,
    blocks sz inp = full ++ [last] /\
    Forall (fun b => zlen b = sz) full /\ zlen last < sz.
Proof.
  intros Hsz. unfold blocks.
  destruct (split_blocks_spec (Z.to_nat sz) ltac:(lia) (S (length inp)) inp
              ltac:(lia)) as (Hc & full & last & E & Hfull & Hlast).
  split; [exact Hc|]. exists full, last. repeat split; auto.
  - eapply Forall_impl; [exact Hfull|]. unfold zlen. intros b Hb. simpl in Hb. lia.
  - unfold zlen. lia.
Qed.

Lemma split_blocks_fuel sz : (0 < sz)%nat -> forall n m inp,
  (length inp < n)%nat -> (length inp < m)%nat ->
  split_blocks n sz inp = split_blocks m sz inp.
Proof.
  intros Hsz. induction n as [|n IH]; intros m inp Hn Hm; [lia|].
  destruct m as [|m]; [lia|]. cbn [split_blocks].
  destruct (Nat.ltb_spec (length inp) sz); [reflexivity|].
  f_equal. apply IH; rewrite length_drop; lia.
Qed.

End Blocks.

(** ** The serial fallback *)

Section SerialFacts.
Import Deflate Serial.

Lemma MAX_eq : MAX = 2 ^ 31.
Proof. reflexivity. Qed.

Lemma max_chunks_small n enc g st got :
  got <= MAX -> max_chunks n enc g st got = (st, got).
Proof.
  intros H. destruct n; [reflexivity|]. cbn [max_chunks].
  destruct (Z.gtb_spec got MAX); [lia|reflexivity].
Qed.

Lemma strm_set_check st c : strm (set_check st c) = strm st.
Proof. reflexivity. Qed.

(** With blocks of at most [MAX] bytes a round makes one [deflate] call. *)
Lemma round_spec enc g ind st : 0 < size g <= MAX ->
  let b := take (Z.to_nat (size g)) ind in
  exists st',
    round enc g ind st = (st', drop (Z.to_nat (size g)) ind, zlen b) /\
    strm st' = strm st ++ [Deflate b (serial_flush g b)].
Proof.
  intros Hsz b. unfold round, readn. fold b.
  assert (Hb : zlen b <= size g).
  { unfold zlen, b. rewrite length_take. lia. }
  rewrite max_chunks_small by lia.
  eexists. split; [reflexivity|].
  unfold deflate_write, deflate. cbn [strm].
  assert (E : take (Z.to_nat (zlen b)) b = b).
  { unfold zlen. rewrite Nat2Z.id. apply firstn_all. }
  destruct (zlen b =? 0); cbn [strm next_in set_check];
    rewrite E; reflexivity.
Qed.

Lemma rounds_spec enc g : 0 < size g <= MAX -> forall n ind st,
  (length ind < n)%nat ->
  exists st',
    rounds n enc g ind st = Some st' /\
    strm st' = strm st ++
      map (fun b => Deflate b (serial_flush g b))
          (split_blocks n (Z.to_nat (size g)) ind).
Proof.
  intros Hsz. induction n as [|n IH]; intros ind st Hn; [lia|].
  cbn [rounds split_blocks].
  destruct (round_spec enc g ind st Hsz) as (st1 & -> & Hst1).
  assert (Hlen : zlen (take (Z.to_nat (size g)) ind) =
                 Z.of_nat (Nat.min (Z.to_nat (size g)) (length ind))).
  { unfold zlen. now rewrite length_take. }
  destruct (Nat.ltb_spec (length ind) (Z.to_nat (size g))) as [Hlt|Hge].
  - destruct (Z.eqb_spec (zlen (take (Z.to_nat (size g)) ind)) (size g)); [lia|].
    exists st1. split; [reflexivity|]. rewrite Hst1. cbn [map].
    now rewrite firstn_all2 by lia.
  - destruct (Z.eqb_spec (zlen (take (Z.to_nat (size g)) ind)) (size g)); [|lia].
    destruct (IH (drop (Z.to_nat (size g)) ind) st1) as (st2 & -> & Hst2).
    { rewrite length_drop. lia. }
    exists st2. split; [reflexivity|].
    rewrite Hst2, Hst1, <- app_assoc. reflexivity.
Qed.

(** C5 as the specification has it fails: with the dictionary off, a full
    block in mid-stream is ended by a full flush, not by finish. *)
Lemma single_gzip_full_flush_counterexample :
  let g := set_dict false (set_procs 1 default_globals) in
  option_map (fun st => map call_summary (strm st))
    (single_gzip null_encoder some_clock g zero_block) =
  Some [(32768, Some Z_FULL_FLUSH); (0, Some Z_FINISH)].
Proof. vm_compute. reflexivity. Qed.

(** C5, amended.  In the serial fallback, with a block size of at most [MAX]
    (2^31, the most one [deflate] call is given), every read makes one
    [deflate] call on the bytes read: a full read of [size] bytes is ended by
    no-flush when [dict] is on and by a full flush when it is off, a short
    read by finish; the reads are full up to the last one, which is short and
    ends the loop, so finish is used once, at the end of input, whatever
    [dict] is. *)
Theorem single_gzip_flushes enc c g ind : 0 < size g <= MAX ->
  exists st full last,
    single_gzip enc c g ind = Some st /\
    blocks (size g) ind = full ++ [last] /\
    Forall (fun b => zlen b = size g) full /\ zlen last < size g /\
    strm st =
      map (fun b => Deflate b (if dict g then Z_NO_FLUSH else Z_FULL_FLUSH)) full
      ++ [Deflate last Z_FINISH].
Proof.
  intros Hsz. unfold single_gzip.
  destruct (Framing.put_header c g) as [hd head].
  match goal with |- context [rounds _ _ _ _ ?s] => set (st0 := s) end.
  destruct (rounds_spec enc g Hsz (S (length ind)) ind st0
              (Nat.lt_succ_diag_r _)) as (st1 & -> & Hst1).
  destruct (blocks_spec (size g) ind (proj1 Hsz))
    as (_ & full & last & E & Hfull & Hlast).
  eexists _, full, last. split; [reflexivity|]. repeat split; auto.
  cbn [strm]. rewrite Hst1. fold (blocks (size g) ind). rewrite E.
  subst st0. cbn [strm deflateReset app]. rewrite map_app. cbn [map].
  f_equal.
  - apply map_ext_Forall. eapply Forall_impl; [exact Hfull|].
    intros b Hb. simpl in Hb |- *. unfold serial_flush.
    destruct (Z.ltb_spec (zlen b) (size g)); [lia|reflexivity].
  - unfold serial_flush.
    destruct (Z.ltb_spec (zlen last) (size g)); [reflexivity|lia].
Qed.

Lemma single_gzip_flushes_witness :
  0 < size default_globals <= MAX /\
  exists st full last,
    single_gzip null_encoder some_clock default_globals zero_block = Some st /\
    blocks (size default_globals) zero_block = full ++ [last] /\
    strm st = map (fun b => Deflate b Z_NO_FLUSH) full ++ [Deflate last Z_FINISH].
Proof.
  split; [vm_compute; split; [reflexivity|discriminate]|].
  destruct (single_gzip_flushes null_encoder some_clock default_globals
              zero_block) as (st & full & last & H1 & H2 & _ & _ & H3).
  { vm_compute; split; [reflexivity|discriminate]. }
  exists st, full, last. auto.
Defined.

End SerialFacts.

(** ** Decompression: the output call-back *)

Section OutbFacts.
Import Inflate.

Lemma take_zlen (buf : list Z) : take (Z.to_nat (zlen buf)) buf = buf.
Proof. unfold zlen. rewrite Nat2Z.id. apply firstn_all. Qed.

(** Whenever the check thread runs, and whatever [procs] is, [outb] does
    what the single-threaded [outb] does. *)
Lemma outb_outb_nothread early s buf : outb early s buf = outb_nothread s buf.
Proof.
  unfold outb, outb_nothread, run_check.
  destruct s as [g i e tot chk st hn zc zcl zul od rm se so].
  cbn [glob set_out_tot set_out_check set_outd out_tot out_check outd
       check len Inflate.buf].
  destruct (1 <? procs g)%nat, early, (decode g =? 1); reflexivity.
Qed.

Lemma outb_all_fold sched chunks : forall k s,
  outb_all sched k chunks s = fold_left outb_nothread chunks s.
Proof.
  induction chunks as [|ch chunks IH]; intros k s; [reflexivity|].
  cbn [outb_all fold_left]. now rewrite IH, outb_outb_nothread.
Qed.

Lemma outb_nothread_procs n s buf :
  outb_nothread (set_glob (set_procs n (glob s)) s) buf =
  set_glob (set_procs n (glob s)) (outb_nothread s buf).
Proof.
  unfold outb_nothread.
  destruct s as [g i e tot chk st hn zc zcl zul od rm se so].
  cbn [glob set_glob set_out_tot set_out_check set_outd out_tot out_check
       outd set_procs decode].
  unfold CHECK. cbn [form set_procs]. destruct (decode g =? 1); reflexivity.
Qed.

Lemma fold_outb_nothread_procs n chunks : forall s,
  fold_left outb_nothread chunks (set_glob (set_procs n (glob s)) s) =
  set_glob (set_procs n (glob s)) (fold_left outb_nothread chunks s).
Proof.
  induction chunks as [|ch chunks IH]; intros s; [reflexivity|].
  cbn [fold_left]. rewrite outb_nothread_procs.
  replace (set_procs n (glob s)) with (set_procs n (glob (outb_nothread s ch))).
  - apply IH.
  - unfold outb_nothread. destruct s. cbn. destruct (decode _ =? 1); reflexivity.
Qed.

(** C9.  With more than one worker configured, the output call-back hands
    the check of every chunk to a thread that it joins before it returns;
    over any sequence of chunks and for any schedule of those threads, the
    running check value, the total length and the bytes written come out as
    with the call-back that updates the check inline -- [outb] with one
    worker configured, and [outb] compiled without threads. *)
Theorem outb_threads_refine (sched sched1 : nat -> bool)
    (chunks : list (list Z)) (s : state) :
  (1 < procs (glob s))%nat ->
  let threaded := outb_all sched 0 chunks s in
  let inline := outb_all sched1 0 chunks (set_glob (set_procs 1 (glob s)) s) in
  let nothread := fold_left outb_nothread chunks s in
  (out_check threaded = out_check inline /\
   out_tot threaded = out_tot inline /\
   outd threaded = outd inline) /\
  (out_check threaded = out_check nothread /\
   out_tot threaded = out_tot nothread /\
   outd threaded = outd nothread).
Proof.
  intros _. cbv zeta.
  rewrite !outb_all_fold, fold_outb_nothread_procs.
  repeat split; reflexivity.
Qed.

Lemma outb_threads_refine_witness :
  let s := inflate_start (set_procs 2 (set_decode 1 default_globals)) [] in
  (1 < procs (glob s))%nat /\
  out_check (outb_all (fun _ => true) 0 [[1; 2]; [3]] s) =
  out_check (fold_left outb_nothread [[1; 2]; [3]] s).
Proof.
  split; [vm_compute; lia|].
  apply (outb_threads_refine (fun _ => true) (fun _ => false) [[1; 2]; [3]]
           (inflate_start (set_procs 2 (set_decode 1 default_globals)) [])).
  vm_compute. lia.
Defined.

End OutbFacts.

(** ** Decompression: [get_header] and [infchk] *)

Section InfchkFacts.
Import Inflate.

Lemma set_form_form g : set_form (form g) g = g.
Proof. now destruct g. Qed.

Lemma set_form_set_form f f' g : set_form f (set_form f' g) = set_form f g.
Proof. reflexivity. Qed.

#[local] Instance same_globals_preorder : PreOrder same_globals.
Proof.
  split.
  - intros s. repeat split.
  - intros s1 s2 s3 (A1 & A2 & A3) (B1 & B2 & B3).
    repeat split; congruence.
Qed.

#[local] Instance same_world_preorder : PreOrder same_world.
Proof.
  split.
  - intros s. repeat split.
  - intros s1 s2 s3 (A1 & A2 & A3) (B1 & B2 & B3).
    repeat split; congruence.
Qed.

Lemma same_globals_world s s' : same_globals s s' -> same_world s s'.
Proof. intros (A1 & A2 & A3). repeat split; congruence. Qed.

Section Frame.
Context (F : state -> state -> Prop) `{!PreOrder F}.

Lemma preserves_ret {A} (a : A) : preserves F (ret a).
Proof. intros s r s' E. injection E as <- <-. reflexivity. Qed.

Lemma preserves_return_ {A} r : preserves F (@return_ A r).
Proof. intros s r' s' E. injection E as <- <-. reflexivity. Qed.

Lemma preserves_get {A} (f : state -> A) : preserves F (get f).
Proof. intros s r s' E. injection E as <- <-. reflexivity. Qed.

Lemma preserves_modify f : (forall s, F s (f s)) -> preserves F (modify f).
Proof. intros Hf s r s' E. injection E as <- <-. apply Hf. Qed.

Lemma preserves_bind {A B} (m : M A) (k : A -> M B) :
  preserves F m -> (forall a, preserves F (k a)) -> preserves F (bind m k).
Proof.
  intros Hm Hk s r s' E. unfold bind in E.
  destruct (m s) as [[a|r0] s1] eqn:Em.
  - transitivity s1; [eapply Hm, Em|eapply Hk, E].
  - injection E as <- <-. eapply Hm, Em.
Qed.

Lemma preserves_when c (m : M unit) : preserves F m -> preserves F (when c m).
Proof. intros Hm. destruct c; [exact Hm|apply preserves_ret]. Qed.

Lemma preserves_call_ (m : M Z) : preserves F m -> preserves F (call_ m).
Proof.
  intros Hm s r s' E. unfold call_, call in E.
  destruct (m s) as [[a|r0] s1] eqn:Em; injection E as <- <-; eapply Hm, Em.
Qed.

Lemma preserves_do_call (m : M Z) : preserves F m -> preserves F (do_call m).
Proof.
  intros Hm s r s' E. unfold do_call, call in E.
  destruct (m s) as [[a|r0] s1] eqn:Em; injection E as <- <-; eapply Hm, Em.
Qed.

Lemma preserves_preserves_go {A} (m : M A) : preserves F m -> preserves_go F m.
Proof. intros Hm s a s' E. eapply Hm, E. Qed.

Lemma preserves_go_bind {A B} (m : M A) (k : A -> M B) :
  preserves_go F m -> (forall a, preserves_go F (k a)) ->
  preserves_go F (bind m k).
Proof.
  intros Hm Hk s b s' E. unfold bind in E.
  destruct (m s) as [[a|r0] s1] eqn:Em; [|discriminate].
  transitivity s1; [eapply Hm, Em|eapply Hk, E].
Qed.

Lemma preserves_go_bail {A} why what : preserves_go F (@bail A why what).
Proof. intros s a s' E. discriminate. Qed.

Lemma preserves_go_when c (m : M unit) :
  preserves_go F m -> preserves_go F (when c m).
Proof.
  intros Hm. destruct c; [exact Hm|].
  apply preserves_preserves_go, preserves_ret.
Qed.

End Frame.

(** The moves of the input buffer leave the world alone. *)
Lemma GET_same : preserves same_globals GET.
Proof.
  intros s r s' E. unfold GET in E.
  destruct (in_eof s); [injection E as <- <-; reflexivity|].
  destruct (ind s); injection E as <- <-; repeat split.
Qed.

Lemma SKIP_same dist : preserves same_globals (SKIP dist).
Proof.
  intros s r s' E. unfold SKIP in E.
  destruct (dist <=? zlen (ind s)); injection E as <- <-; repeat split.
Qed.

Lemma skip_string_same : preserves same_globals skip_string.
Proof.
  intros s r s' E. unfold skip_string in E.
  destruct (in_eof s); [injection E as <- <-; reflexivity|].
  destruct (snd (upto_nul (ind s))); injection E as <- <-; repeat split.
Qed.

Lemma read_string_same : preserves same_globals read_string.
Proof.
  intros s r s' E. unfold read_string in E.
  destruct (in_eof s); [injection E as <- <-; repeat split|].
  destruct (upto_nul (ind s)) as [nm [rest|]]; injection E as <- <-;
    repeat split.
Qed.

Lemma read_name_same fname : preserves same_globals (read_name fname).
Proof.
  intros s r s' E. unfold read_name in E.
  destruct (fname <=? zlen (ind s)); injection E as <- <-; repeat split.
Qed.

Lemma preserves_weaken (F G : state -> state -> Prop) {A} (m : M A) :
  (forall s s', F s s' -> G s s') -> preserves F m -> preserves G m.
Proof. intros HFG Hm s r s' E. eapply HFG, Hm, E. Qed.

Ltac frame_step :=
  lazymatch goal with
  | |- preserves _ (bind _ _) => apply preserves_bind; [try apply _|..|intros ?]
  | |- preserves _ (ret _) => apply preserves_ret; apply _
  | |- preserves _ (return_ _) => apply preserves_return_; apply _
  | |- preserves _ (get _) => apply preserves_get; apply _
  | |- preserves _ (when _ _) => apply preserves_when; [try apply _|..]
  | |- preserves _ (call_ _) => apply preserves_call_
  | |- preserves _ (modify _) =>
      apply preserves_modify; intros ?; repeat split
  | |- preserves same_globals GET => exact GET_same
  | |- preserves same_globals (SKIP _) => apply SKIP_same
  | |- preserves same_globals skip_string => exact skip_string_same
  | |- preserves same_globals read_string => exact read_string_same
  | |- preserves same_globals (read_name _) => apply read_name_same
  | |- preserves _ (if ?c then _ else _) => destruct c
  | |- preserves _ (match ?x with _ => _ end) => destruct x
  | |- preserves _ (let _ := _ in _) => cbv zeta
  end.

Lemma GET2_same : preserves same_globals GET2.
Proof. unfold GET2. repeat frame_step. Qed.

Lemma GET4_same : preserves same_globals GET4.
Proof.
  unfold GET4. repeat (frame_step || apply GET2_same).
Qed.

Lemma read_extra_block_same len save :
  preserves same_globals (read_extra_block len save).
Proof.
  unfold read_extra_block.
  repeat (frame_step || apply GET2_same || apply GET4_same).
Qed.

Lemma read_extra_loop_same n : forall len save,
  preserves same_globals (read_extra_loop n len save).
Proof.
  induction n as [|n IH]; intros len save; cbn [read_extra_loop].
  - repeat frame_step.
  - repeat (frame_step || apply read_extra_block_same || apply IH).
Qed.

Lemma read_extra_same len save : preserves same_globals (read_extra len save).
Proof.
  unfold read_extra. repeat (frame_step || apply read_extra_loop_same).
Qed.

Ltac world_step :=
  frame_step ||
  lazymatch goal with
  | |- preserves same_world GET =>
      apply (preserves_weaken same_globals), GET_same; apply same_globals_world
  | |- preserves same_world GET2 =>
      apply (preserves_weaken same_globals), GET2_same; apply same_globals_world
  | |- preserves same_world GET4 =>
      apply (preserves_weaken same_globals), GET4_same; apply same_globals_world
  | |- preserves same_world (SKIP _) =>
      apply (preserves_weaken same_globals), SKIP_same; apply same_globals_world
  | |- preserves same_world skip_string =>
      apply (preserves_weaken same_globals), skip_string_same;
      apply same_globals_world
  | |- preserves same_world read_string =>
      apply (preserves_weaken same_globals), read_string_same;
      apply same_globals_world
  | |- preserves same_world (read_name _) =>
      apply (preserves_weaken same_globals), read_name_same;
      apply same_globals_world
  | |- preserves same_world (read_extra _ _) =>
      apply (preserves_weaken same_globals), read_extra_same;
      apply same_globals_world
  end.

(** [get_header] unlinks nothing, writes no message, and of the option
    globals sets [form] only. *)
Lemma get_header_same c save : preserves same_world (get_header c save).
Proof. unfold get_header. repeat world_step. Qed.

Lemma rd8_range b : 0 <= rd8 b < 256.
Proof.
  unfold rd8. change 255 with (Z.ones 8). rewrite Z.land_ones by lia.
  apply Z.mod_pos_bound. lia.
Qed.

Lemma le_bytes x0 x1 x2 x3 :
  0 <= x0 < 256 -> 0 <= x1 < 256 -> 0 <= x2 < 256 -> 0 <= x3 < 256 ->
  ulong (u32 (u32 x0 + Z.shiftl x1 8)
         + Z.shiftl (u32 (u32 x2 + Z.shiftl x3 8)) 16) =
  x0 + 2 ^ 8 * x1 + 2 ^ 16 * x2 + 2 ^ 24 * x3.
Proof.
  intros H0 H1 H2 H3. unfold ulong, u32.
  rewrite !Z.shiftl_mul_pow2 by lia.
  rewrite (Z.mod_small x0), (Z.mod_small x2) by lia.
  rewrite (Z.mod_small (x0 + _)), (Z.mod_small (x2 + _)) by lia.
  rewrite Z.mod_small by lia. lia.
Qed.

(** [GET4] on four bytes or more: the stored value, the bytes consumed. *)
Lemma GET4_value s :
  in_eof s = false -> 4 <= zlen (ind s) ->
  GET4 s = (Go (stored32 (ind s)), set_ind (drop 4 (ind s)) s).
Proof.
  intros He Hl. destruct s as [g i e tot chk st hn zc zcl zul od rm se so].
  cbn [in_eof ind] in He, Hl. subst e.
  destruct i as [|b0 [|b1 [|b2 [|b3 i]]]];
    try (unfold zlen in Hl; simpl in Hl; lia).
  cbv [GET4 GET2 GET bind ret in_eof ind set_ind set_in_eof glob out_tot
       out_check stamp hname zip_crc zip_clen zip_ulen outd removed stderr
       stdout stored32 drop].
  rewrite le_bytes by apply rd8_range. reflexivity.
Qed.

(** Past the end of input [GET] finds the end, and goes on finding it. *)
Lemma GET_avail s : exists v s',
  GET s = (Go v, s') /\ avail s' = Z.max (-1) (avail s - 1) /\
  out_check s' = out_check s /\ out_tot s' = out_tot s.
Proof.
  unfold GET, avail. destruct s as [g i e tot chk st hn zc zcl zul od rm se so].
  cbn [in_eof ind]. destruct e.
  - eexists _, _. split; [reflexivity|]. cbn. repeat split; lia.
  - destruct i as [|b i].
    + eexists _, _. split; [reflexivity|]. cbn. repeat split; lia.
    + eexists _, _. split; [reflexivity|]. cbn. unfold zlen. simpl length.
      repeat split; lia.
Qed.

Lemma GET2_avail s : exists v s',
  GET2 s = (Go v, s') /\ avail s' = Z.max (-1) (avail s - 2) /\
  out_check s' = out_check s /\ out_tot s' = out_tot s.
Proof.
  unfold GET2, bind.
  destruct (GET_avail s) as (v1 & s1 & -> & A1 & C1 & T1).
  destruct (GET_avail s1) as (v2 & s2 & -> & A2 & C2 & T2).
  eexists _, _. split; [reflexivity|]. repeat split; [lia|congruence..].
Qed.

Lemma GET4_avail s : exists v s',
  GET4 s = (Go v, s') /\ avail s' = Z.max (-1) (avail s - 4) /\
  out_check s' = out_check s /\ out_tot s' = out_tot s.
Proof.
  unfold GET4, bind.
  destruct (GET2_avail s) as (v1 & s1 & -> & A1 & C1 & T1).
  destruct (GET2_avail s1) as (v2 & s2 & -> & A2 & C2 & T2).
  eexists _, _. split; [reflexivity|]. repeat split; [lia|congruence..].
Qed.

Lemma avail_eof s : avail s < 0 -> in_eof s = true.
Proof.
  unfold avail. destruct (in_eof s); [reflexivity|]. unfold zlen. lia.
Qed.

Lemma bail_bailed {A} why s0 s :
  same_globals s0 s ->
  exists s', @bail A why (in_name (glob s)) s = (Return 1, s') /\
             bailed why s0 s'.
Proof.
  intros (H1 & H2 & H3). unfold bail. eexists. split; [reflexivity|].
  unfold bailed. rewrite <- H1, <- H2, <- H3.
  destruct s as [g i e tot chk st hn zc zcl zul od rm se so].
  cbn [glob removed stderr set_removed set_stderr].
  destruct (out g); cbn [glob removed stderr set_removed set_stderr];
    destruct (verbosity g >? 0);
    cbn [glob removed stderr set_removed set_stderr];
    rewrite ?app_nil_r; repeat split.
Qed.

Lemma bind_get {A B} (f : state -> A) (k : A -> M B) s :
  bind (get f) k s = k (f s) s.
Proof. reflexivity. Qed.

Lemma bind_modify {B} f (k : unit -> M B) s :
  bind (modify f) k s = k tt (f s).
Proof. reflexivity. Qed.

Lemma bind_Go {A B} (m : M A) (k : A -> M B) s a s' :
  m s = (Go a, s') -> bind m k s = k a s'.
Proof. intros E. unfold bind. now rewrite E. Qed.

Lemma bind_Return {A B} (m : M A) (k : A -> M B) s r s' :
  m s = (Return r, s') -> bind m k s = (Return r, s').
Proof. intros E. unfold bind. now rewrite E. Qed.

Lemma zlen_drop {A} n (l : list A) :
  Z.of_nat n <= zlen l -> zlen (drop n l) = zlen l - Z.of_nat n.
Proof. unfold zlen. rewrite length_drop. lia. Qed.

(** The gzip trailer: read and found right, or fatal. *)
Lemma read_trailer_gzip clen s0 s :
  form (glob s) = 0 -> in_eof s = false -> same_globals s0 s ->
  if (8 <=? zlen (ind s)) && (stored32 (ind s) =? out_check s)
     && (stored32 (drop 4 (ind s)) =? out_tot s mod 2 ^ 32)
  then read_trailer clen s =
       (Go (stored32 (ind s)), set_ind (drop 8 (ind s)) s)
  else exists why s', read_trailer clen s = (Return 1, s') /\ bailed why s0 s'.
Proof.
  intros Hf He Hs0. unfold read_trailer. rewrite bind_get, Hf.
  change (0 >? 1) with false. change (0 =? 1) with false. cbv iota.
  destruct (Z.leb_spec 8 (zlen (ind s))) as [Hl|Hl].
  - (* the trailer is there *)
    rewrite (bind_Go _ _ _ _ _ (GET4_value s He ltac:(lia))).
    assert (He' : in_eof (set_ind (drop 4 (ind s)) s) = false)
      by (destruct s; exact He).
    assert (Hl' : 4 <= zlen (ind (set_ind (drop 4 (ind s)) s))).
    { destruct s; cbn [ind set_ind] in *. rewrite (zlen_drop 4); lia. }
    rewrite (bind_Go _ _ _ _ _ (GET4_value _ He' Hl')).
    set (s2 := set_ind _ (set_ind _ s)).
    assert (Es2 : s2 = set_ind (drop 8 (ind s)) s).
    { subst s2. destruct s; cbn [ind set_ind]. now rewrite drop_drop. }
    assert (Hs2 : same_globals s0 s2).
    { rewrite Es2. destruct Hs0 as (A1 & A2 & A3). destruct s; repeat split; assumption. }
    rewrite !bind_get.
    replace (in_eof s2) with false by (rewrite Es2; destruct s; now symmetry).
    replace (out_check s2) with (out_check s) by (rewrite Es2; now destruct s).
    replace (out_tot s2) with (out_tot s) by (rewrite Es2; now destruct s).
    replace (ind (set_ind (drop 4 (ind s)) s)) with (drop 4 (ind s))
      by now destruct s.
    change LOW32 with (Z.ones 32). rewrite Z.land_ones by lia.
    cbn [andb].
    destruct (Z.eqb_spec (stored32 (ind s)) (out_check s)); cbn [negb andb].
    + destruct (Z.eqb_spec (stored32 (drop 4 (ind s))) (out_tot s mod 2 ^ 32));
        cbn [negb].
      * unfold ret. now rewrite Es2.
      * eexists. apply (bail_bailed _ s0 s2 Hs2).
    + eexists. apply (bail_bailed _ s0 s2 Hs2).
  - (* the input ends within the trailer *)
    cbn [andb].
    destruct (GET4_avail s) as (v1 & s1 & E1 & A1 & _).
    destruct (GET4_avail s1) as (v2 & s2 & E2 & A2 & _).
    rewrite (bind_Go _ _ _ _ _ E1), (bind_Go _ _ _ _ _ E2), !bind_get.
    assert (Hav : avail s = zlen (ind s)) by (unfold avail; now rewrite He).
    rewrite (avail_eof s2) by lia.
    assert (Hs2 : same_globals s0 s2).
    { transitivity s; [exact Hs0|]. transitivity s1; eapply GET4_same; eauto. }
    eexists. apply (bail_bailed _ s0 s2 Hs2).
Qed.

Lemma outb_nothread_same s buf :
  same_globals s (outb_nothread s buf) /\
  in_eof (outb_nothread s buf) = in_eof s /\
  ind (outb_nothread s buf) = ind s.
Proof.
  unfold outb_nothread. destruct s. cbn.
  destruct (decode _ =? 1); repeat split.
Qed.

Lemma outb_all_same sched chunks : forall k s,
  same_globals s (outb_all sched k chunks s) /\
  in_eof (outb_all sched k chunks s) = in_eof s /\
  ind (outb_all sched k chunks s) = ind s.
Proof.
  induction chunks as [|ch chunks IH]; intros k s; cbn [outb_all].
  - repeat split.
  - destruct (IH (S k) (outb (sched k) s ch)) as (A & B & C).
    rewrite outb_outb_nothread in A, B, C |- *.
    destruct (outb_nothread_same s ch) as (A' & B' & C').
    split; [etransitivity; eassumption|]. split; congruence.
Qed.

Ltac go_step :=
  lazymatch goal with
  | |- preserves_go _ (bind _ _) =>
      apply preserves_go_bind; [try apply _|..|intros ?]
  | |- preserves_go _ (bail _ _) => apply preserves_go_bail
  | |- preserves_go _ (when _ _) => apply preserves_go_when; [try apply _|..]
  | |- preserves_go _ (if ?c then _ else _) => destruct c
  | |- preserves_go _ (match ?x with _ => _ end) => destruct x
  | |- preserves_go _ (let _ := _ in _) => cbv zeta
  | |- preserves_go _ GET4 =>
      apply preserves_preserves_go, GET4_same
  | |- preserves_go _ _ =>
      apply preserves_preserves_go; frame_step
  end.

Lemma read_trailer_same clen : preserves_go same_globals (read_trailer clen).
Proof. unfold read_trailer. repeat go_step. Qed.

(** A stream that is decoded and found right leaves the world alone (but
    for the listing). *)
Lemma infchk_stream_same ib sched cont :
  preserves_go same_globals (infchk_stream ib sched cont).
Proof.
  unfold infchk_stream, show_info.
  repeat (go_step || apply read_trailer_same); apply outb_all_same.
Qed.

(** C8 as the specification has it fails twice.  In quiet mode a trailer
    that does not match ends the run with status 1 and the output file
    unlinked, but without a diagnostic; and bytes after a gzip stream that
    are a zip local header, not a gzip or zlib header, end the run without
    any warning. *)
Lemma infchk_claim_counterexample :
  let g := set_out (Some "out"%string) (set_decode 1 default_globals) in
  infchk_shows
    (infchk some_clock empty_inflater (fun _ => false)
       (inflate_start (set_verbosity 0 g) [3; 0; 1; 0; 0; 0; 0; 0; 0; 0]))
  = Some (Exited 1, [], ["out"%string]) /\
  infchk_shows
    (infchk some_clock empty_inflater (fun _ => false)
       (inflate_start g (empty_gzip_body ++ zip_local_header)))
  = Some (Returned, [], []).
Proof. split; vm_compute; reflexivity. Qed.

(** *** The streams of a run

    What follows is there to speak of every stream that the loop of [infchk]
    comes to, not the first alone: the input only gets shorter, so the loop
    has a turn left for each of them. *)

#[local] Instance no_longer_preorder : PreOrder no_longer.
Proof.
  split.
  - intros s. apply Nat.le_refl.
  - intros s1 s2 s3 H1 H2. unfold no_longer in *. lia.
Qed.

Lemma upto_nul_length : forall l nm rest,
  upto_nul l = (nm, Some rest) -> (length rest <= length l)%nat.
Proof.
  induction l as [|b l IH]; intros nm rest E; cbn [upto_nul] in E.
  - discriminate.
  - destruct (rd8 b =? 0).
    + injection E as _ <-. cbn. lia.
    + destruct (upto_nul l) as [nm' after]. injection E as _ ->.
      specialize (IH nm' rest eq_refl). cbn. lia.
Qed.

Lemma GET_shorter : preserves no_longer GET.
Proof.
  intros s r s' E. unfold GET in E. unfold no_longer.
  destruct (in_eof s); [injection E as <- <-; lia|].
  destruct (ind s) eqn:Ei; injection E as <- <-; destruct s;
    cbn in *; subst; cbn; lia.
Qed.

Lemma SKIP_shorter dist : preserves no_longer (SKIP dist).
Proof.
  intros s r s' E. unfold SKIP in E. unfold no_longer.
  destruct (dist <=? zlen (ind s)); injection E as <- <-; destruct s;
    cbn; rewrite ?length_drop; lia.
Qed.

Lemma skip_string_shorter : preserves no_longer skip_string.
Proof.
  intros s r s' E. unfold skip_string in E. unfold no_longer.
  destruct (in_eof s); [injection E as <- <-; lia|].
  destruct (upto_nul (ind s)) as [nm [rest|]] eqn:Eu; cbn [snd] in E;
    injection E as <- <-.
  - apply upto_nul_length in Eu. destruct s; cbn in *. lia.
  - destruct s; cbn. lia.
Qed.

Lemma read_string_shorter : preserves no_longer read_string.
Proof.
  intros s r s' E. unfold read_string in E. unfold no_longer.
  destruct (in_eof s); [injection E as <- <-; destruct s; cbn; lia|].
  destruct (upto_nul (ind s)) as [nm [rest|]] eqn:Eu; injection E as <- <-.
  - apply upto_nul_length in Eu. destruct s; cbn in *. lia.
  - destruct s; cbn. lia.
Qed.

Lemma read_name_shorter fname : preserves no_longer (read_name fname).
Proof.
  intros s r s' E. unfold read_name in E. unfold no_longer.
  destruct (fname <=? zlen (ind s)); injection E as <- <-; destruct s;
    cbn; rewrite ?length_drop; lia.
Qed.

Lemma bail_shorter {A} why what : preserves no_longer (@bail A why what).
Proof.
  intros s r s' E. unfold bail in E. injection E as <- <-. unfold no_longer.
  destruct s as [g ? ? ? ? ? ? ? ? ? ? ? ? ?]. cbn.
  destruct (out g); cbn; destruct (verbosity g >? 0); cbn; lia.
Qed.

Ltac len_step :=
  lazymatch goal with
  | |- preserves _ (modify _) =>
      apply preserves_modify; intros []; apply Nat.le_refl
  | |- preserves no_longer GET => exact GET_shorter
  | |- preserves no_longer (SKIP _) => apply SKIP_shorter
  | |- preserves no_longer skip_string => exact skip_string_shorter
  | |- preserves no_longer read_string => exact read_string_shorter
  | |- preserves no_longer (read_name _) => apply read_name_shorter
  | |- preserves no_longer (bail _ _) => apply bail_shorter
  | |- preserves no_longer (show_info _ _ _ _ _) => unfold show_info
  | |- preserves _ (bind _ _) => apply preserves_bind; [try apply _|..|intros ?]
  | |- preserves _ (ret _) => apply preserves_ret; apply _
  | |- preserves _ (return_ _) => apply preserves_return_; apply _
  | |- preserves _ (get _) => apply preserves_get; apply _
  | |- preserves _ (when _ _) => apply preserves_when; [try apply _|..]
  | |- preserves _ (call_ _) => apply preserves_call_
  | |- preserves _ (if ?c then _ else _) => destruct c
  | |- preserves _ (match ?x with _ => _ end) => destruct x
  | |- preserves _ (let _ := _ in _) => cbv zeta
  end.

Lemma GET2_shorter : preserves no_longer GET2.
Proof. unfold GET2. repeat len_step. Qed.

Lemma GET4_shorter : preserves no_longer GET4.
Proof. unfold GET4. repeat (len_step || apply GET2_shorter). Qed.

Lemma read_extra_block_shorter len save :
  preserves no_longer (read_extra_block len save).
Proof.
  unfold read_extra_block.
  repeat (len_step || apply GET2_shorter || apply GET4_shorter).
Qed.

Lemma read_extra_loop_shorter n : forall len save,
  preserves no_longer (read_extra_loop n len save).
Proof.
  induction n as [|n IH]; intros len save; cbn [read_extra_loop].
  - repeat len_step.
  - repeat (len_step || apply read_extra_block_shorter || apply IH).
Qed.

Lemma read_extra_shorter len save :
  preserves no_longer (read_extra len save).
Proof.
  unfold read_extra. repeat (len_step || apply read_extra_loop_shorter).
Qed.

Lemma read_trailer_shorter clen : preserves no_longer (read_trailer clen).
Proof.
  unfold read_trailer.
  repeat (len_step || apply GET2_shorter || apply GET4_shorter).
Qed.

Ltac len_steps :=
  repeat (len_step || apply GET2_shorter || apply GET4_shorter
          || apply read_extra_shorter || apply read_trailer_shorter).

Lemma get_header_shorter c save : preserves no_longer (get_header c save).
Proof. unfold get_header. len_steps. Qed.

Lemma bind_inv {A B} (m : M A) (k : A -> M B) s r s' :
  bind m k s = (r, s') ->
  (exists a s1, m s = (Go a, s1) /\ k a s1 = (r, s')) \/
  (exists r0, m s = (Return r0, s') /\ r = Return r0).
Proof.
  unfold bind. destruct (m s) as [[a|r0] s1]; intros E.
  - left. eauto.
  - right. injection E as <- <-. eauto.
Qed.

(** A header that [get_header] takes for a deflate stream is at least a
    byte long. *)
Lemma get_header_takes c s s' :
  call (get_header c false) s = (8, s') ->
  (length (ind s') < length (ind s))%nat.
Proof.
  intros H.
  assert (E : exists r, get_header c false s = (r, s') /\
                        (r = Go 8 \/ r = Return 8)).
  { unfold call in H. destruct (get_header c false s) as [[r|r] s1];
      injection H as -> ->; eauto. }
  clear H. destruct E as (r & E & Hr).
  unfold get_header, when in E.
  apply bind_inv in E as [(a & s1 & E1 & E)|(r0 & E1 & _)];
    [|discriminate E1].
  injection E1 as _ <-.
  apply bind_inv in E as [(a1 & s1 & E1 & E)|(r0 & E1 & _)];
    [|discriminate E1].
  injection E1 as _ <-.
  apply bind_inv in E as [(b & s2 & E1 & E)|(r0 & E1 & _)].
  - cbv zeta in E.
    apply bind_inv in E as [(eof & s3 & E2 & E)|(r0 & E2 & _)];
      [|discriminate E2].
    injection E2 as <- <-. unfold GET in E1.
    destruct s as [g i e ot oc st hn zc zl zu od rm se so].
    cbn [in_eof ind set_glob glob] in E1.
    destruct e.
    + injection E1 as <- <-. cbn [in_eof] in E. injection E as <- _.
      destruct Hr; discriminate.
    + destruct i as [|b0 rest].
      * injection E1 as <- <-. cbn [in_eof set_in_eof] in E.
        injection E as <- _. destruct Hr; discriminate.
      * injection E1 as <- <-. cbn [in_eof set_ind] in E.
        match type of E with
        | ?m ?s2 = _ =>
            assert (P : preserves no_longer m) by len_steps;
            specialize (P _ _ _ E)
        end.
        unfold no_longer in P. cbn [ind set_ind] in P |- *. cbn in P.
        cbn. lia.
  - unfold GET in E1. destruct (in_eof _); [discriminate|].
    destruct (ind _); discriminate.
Qed.

(** A stream that is found right has left no more input than there was. *)
Lemma infchk_stream_shorter ib sched cont s cont' sT :
  consumes ib -> infchk_stream ib sched cont s = (Go cont', sT) ->
  no_longer s sT.
Proof.
  intros Hib H. unfold infchk_stream in H.
  rewrite !bind_modify, bind_get in H.
  assert (Ei : ind (set_out_check (CHECK_init (glob (set_out_tot 0 s)))
                      (set_out_tot 0 s)) = ind s) by now destruct s.
  rewrite Ei in H. destruct (ib (ind s)) as [chunks [rest|]] eqn:Eib.
  - rewrite bind_modify, bind_get, bind_modify in H.
    match type of H with
    | ?m ?sA = _ =>
        assert (P : preserves no_longer m) by len_steps;
        specialize (P _ _ _ H)
    end.
    unfold no_longer in *. apply Hib in Eib.
    assert (E : forall x, ind (set_ind rest x) = rest) by now intros [].
    rewrite E in P. lia.
  - rewrite bind_modify, bind_get in H. discriminate H.
Qed.

(** The loop goes on to the next stream. *)
Lemma infchk_loop_goes_on n c ib sched cont s cont' sT s2 :
  infchk_stream ib sched cont s = (Go cont', sT) ->
  form (glob sT) < 2 ->
  call (get_header c false) sT = (8, s2) ->
  form (glob s2) < 2 ->
  infchk_loop (S n) c ib sched cont s = infchk_loop n c ib sched cont' s2.
Proof.
  intros Hst Hf Hh Hf2. cbn [infchk_loop].
  rewrite (bind_Go _ _ _ _ _ Hst), bind_get.
  apply Z.ltb_lt in Hf, Hf2. rewrite Hf.
  assert (Ecall : do_call (get_header c false) sT = (Go 8, s2))
    by (unfold do_call; now rewrite Hh).
  rewrite (bind_Go _ _ _ _ _ Ecall), bind_get, Hf2. reflexivity.
Qed.

(** A run has fuel left for every stream that it comes to. *)
Lemma stream_start_loop c ib sched s0 cont s :
  consumes ib -> stream_start c ib sched s0 cont s ->
  exists m, (length (ind s) <= m)%nat /\
    infchk_loop (S (length (ind s0))) c ib sched 0 s0 =
    infchk_loop (S m) c ib sched cont s.
Proof.
  intros Hib H.
  induction H as [|cont s cont' sT s2 _ (m & Hm & IH) Hst Hf Hh Hf2].
  - exists (length (ind s0)). auto.
  - pose proof (infchk_stream_shorter ib sched cont s cont' sT Hib Hst) as H1.
    pose proof (get_header_takes c sT s2 Hh) as H2. unfold no_longer in H1.
    destruct m as [|m]; [lia|]. exists m. split; [lia|].
    rewrite IH. apply (infchk_loop_goes_on _ c ib sched cont s cont' sT s2);
      assumption.
Qed.

(** Up to the start of a stream nothing was unlinked and no message
    written, and the option globals but [form] are as they were. *)
Lemma stream_start_same c ib sched s0 cont s :
  stream_start c ib sched s0 cont s -> same_world s0 s.
Proof.
  intros H.
  induction H as [|cont s cont' sT s2 _ IH Hst Hf Hh Hf2]; [reflexivity|].
  etransitivity; [exact IH|].
  pose proof (infchk_stream_same ib sched cont s cont' sT Hst) as A.
  etransitivity; [apply same_globals_world; exact A|].
  unfold call in Hh.
  destruct (get_header c false sT) as [[a|r0] s3] eqn:E;
    injection Hh as _ <-; eapply (get_header_same c false), E.
Qed.

Lemma stream_start_form c ib sched s0 cont s :
  form (glob s0) < 2 -> stream_start c ib sched s0 cont s ->
  form (glob s) < 2.
Proof. intros H0 H. destruct H; assumption. Qed.

Lemma empty_inflater_consumes : consumes empty_inflater.
Proof.
  intros inp chunks rest H. unfold empty_inflater in H.
  repeat match type of H with
         | context [match ?x with _ => _ end] => destruct x; try discriminate H
         end.
  injection H as _ <-. cbn. lia.
Qed.

(** C8, amended.  At every gzip stream that a run of [infchk] comes to, the
    first and each one that follows, a trailer that is cut short, or whose
    stored check value differs from the computed one, or whose stored
    length differs from the decompressed length modulo [2^32], is fatal:
    [bail] unlinks the output file if there is one, writes the diagnostic
    unless quiet, and the run ends with status 1; a trailer that matches
    lets the stream end well.  And when a gzip or zlib stream, the first or
    a later one, has ended well and [get_header] does not find a further
    gzip or zlib deflate stream, [infchk] returns, having unlinked nothing,
    and has written the "trailing junk" warning exactly when [get_header]
    returned something other than -1 (end of input) and did not set [form]
    to zip.  Up to the start of each stream the run has unlinked nothing
    and written no message.  [inflateBack] is taken to leave no more input
    than it was given. *)
Theorem infchk_trailer_and_junk c ib sched s cont sk :
  consumes ib -> form (glob s) < 2 ->
  stream_start c ib sched s cont sk ->
  same_world s sk /\
  (forall chunks rest,
      form (glob sk) = 0 -> in_eof sk = false ->
      ib (ind sk) = (chunks, Some rest) ->
      let s1 := outb_all sched 0 chunks (set_out_check 0 (set_out_tot 0 sk)) in
      if (8 <=? zlen rest) && (stored32 rest =? out_check s1)
         && (stored32 (drop 4 rest) =? out_tot s1 mod 2 ^ 32)
      then exists cont' sT, infchk_stream ib sched cont sk = (Go cont', sT) /\
                            ind sT = drop 8 rest
      else exists why s', infchk c ib sched s = Some (Exited 1, s') /\
                          bailed why sk s') /\
  (forall cont' sT r s2,
      infchk_stream ib sched cont sk = (Go cont', sT) ->
      call (get_header c false) sT = (r, s2) ->
      ~ (r = 8 /\ form (glob s2) < 2) ->
      exists s', infchk c ib sched s = Some (Returned, s') /\
                 removed s' = removed s /\
                 stderr s' = stderr s ++
                   if negb (r =? -1) && (form (glob s2) <? 2)
                   then [(in_name (glob s)
                          ++ " OK, has trailing junk which was ignored")%string]
                   else []).
Proof.
  intros Hcons Hform0 Hstart.
  pose proof (stream_start_same c ib sched s cont sk Hstart) as Hsame0.
  pose proof (stream_start_form c ib sched s cont sk Hform0 Hstart) as Hform.
  destruct (stream_start_loop c ib sched s cont sk Hcons Hstart)
    as (m & _ & Hloop).
  split; [exact Hsame0|]. split.
  - (* the trailer *)
    intros chunks rest Hf He Hib s1.
    set (sA := set_ind rest s1).
    assert (Hs1 : same_globals sk s1 /\ in_eof s1 = false /\ ind s1 = ind sk).
    { destruct (outb_all_same sched chunks 0
                  (set_out_check 0 (set_out_tot 0 sk))) as (A & B & C).
      fold s1 in A, B, C. split; [|split].
      - etransitivity; [|exact A]. destruct sk; repeat split.
      - rewrite B. now destruct sk.
      - rewrite C. now destruct sk. }
    destruct Hs1 as (Hsame & He1 & Hi1).
    assert (HsA : same_globals sk sA).
    { etransitivity; [exact Hsame|]. subst sA. destruct s1; repeat split. }
    assert (HfA : form (glob sA) = 0).
    { destruct HsA as (_ & _ & ->). exact Hf. }
    assert (HeA : in_eof sA = false) by (subst sA; now destruct s1).
    assert (HiA : ind sA = rest) by (subst sA; now destruct s1).
    assert (HcA : out_check sA = out_check s1) by (subst sA; now destruct s1).
    assert (HtA : out_tot sA = out_tot s1) by (subst sA; now destruct s1).
    pose proof (read_trailer_gzip (zlen (ind sk) - zlen rest) sk sA HfA HeA HsA)
      as Htr.
    rewrite HiA, HcA, HtA in Htr.
    assert (Eunf : infchk_stream ib sched cont sk =
              bind (read_trailer (zlen (ind sk) - zlen rest))
                (fun check =>
                   bind (get (fun s => listing (glob s)))
                     (fun l => if negb (l =? 0)
                               then bind (get out_tot)
                                      (fun tot => bind
                                         (show_info 8 check tot cont
                                            (zlen (ind sk) - zlen rest))
                                         (fun _ => ret 1))
                               else ret cont)) sA).
    { unfold infchk_stream. rewrite !bind_modify, bind_get.
      assert (Ei : ind (set_out_check (CHECK_init (glob (set_out_tot 0 sk)))
                          (set_out_tot 0 sk)) = ind sk) by now destruct sk.
      rewrite Ei, Hib, bind_modify, bind_get, bind_modify.
      assert (Ec : CHECK_init (glob (set_out_tot 0 sk)) = 0).
      { unfold CHECK_init. replace (glob (set_out_tot 0 sk)) with (glob sk)
          by now destruct sk. now rewrite Hf. }
      rewrite Ec. reflexivity. }
    destruct ((8 <=? zlen rest) && (stored32 rest =? out_check s1)
              && (stored32 (drop 4 rest) =? out_tot s1 mod 2 ^ 32)).
    + rewrite Eunf, (bind_Go _ _ _ _ _ Htr), bind_get.
      destruct (negb (listing (glob (set_ind (drop 8 rest) sA)) =? 0)).
      * eexists _, _. split; [reflexivity|]. subst sA. now destruct s1.
      * eexists _, _. split; [reflexivity|]. subst sA. now destruct s1.
    + destruct Htr as (why & s' & Htr & Hb).
      exists why, s'. split; [|exact Hb].
      unfold infchk. rewrite Hloop. cbn [infchk_loop].
      rewrite (bind_Return _ _ _ _ _
                 (eq_trans Eunf (bind_Return _ _ _ _ _ Htr))).
      reflexivity.
  - (* the bytes after the stream *)
    intros cont' sT r s2 Hst Hgh Hjunk.
    pose proof (infchk_stream_same ib sched cont sk cont' sT Hst)
      as (A1 & A2 & A3).
    assert (Hgh' : preserves same_world (get_header c false))
      by apply get_header_same.
    assert (B : same_world sT s2).
    { unfold call in Hgh.
      destruct (get_header c false sT) as [[a|r0] s3] eqn:E;
        injection Hgh as <- <-; eapply Hgh', E. }
    destruct B as (B1 & B2 & B3).
    destruct Hsame0 as (C1 & C2 & C3).
    assert (Hname : in_name (glob s2) = in_name (glob s)).
    { change (in_name (set_form 0 (glob s2)) = in_name (set_form 0 (glob s))).
      rewrite B3, A3, C3. reflexivity. }
    eexists. split.
    + unfold infchk. rewrite Hloop. cbn [infchk_loop].
      rewrite (bind_Go _ _ _ _ _ Hst), bind_get, A3.
      destruct (Z.ltb_spec (form (glob sk)) 2) as [_|]; [|lia].
      assert (Ecall : do_call (get_header c false) sT = (Go r, s2))
        by (unfold do_call; now rewrite Hgh).
      rewrite (bind_Go _ _ _ _ _ Ecall), bind_get.
      assert (Hcond : (r =? 8) && (form (glob s2) <? 2) = false).
      { destruct (Z.eqb_spec r 8), (Z.ltb_spec (form (glob s2)) 2);
          try reflexivity. destruct Hjunk. auto. }
      rewrite Hcond. unfold ret. reflexivity.
    + rewrite Hname.
      destruct (negb (r =? -1) && (form (glob s2) <? 2));
        [destruct s2; cbn [removed stderr set_stderr] in *|];
        rewrite ?app_nil_r; split; congruence.
Qed.

Lemma infchk_trailer_and_junk_witness :
  let s := inflate_start (set_decode 1 default_globals) two_gzip_and_junk in
  form (glob s) < 2 /\
  exists cont sk s',
    stream_start some_clock empty_inflater (fun _ => false) s cont sk /\
    ind sk = empty_gzip_body ++ [7] /\
    infchk some_clock empty_inflater (fun _ => false) s
    = Some (Returned, s') /\
    stderr s' =
      ["<stdin> OK, has trailing junk which was ignored"%string].
Proof.
  intros s. split; [vm_compute; reflexivity|].
  set (sT := snd (infchk_stream empty_inflater (fun _ => false) 0 s)).
  set (sk := snd (call (get_header some_clock false) sT)).
  assert (Hstart : stream_start some_clock empty_inflater (fun _ => false)
                     s 0 sk).
  { apply (Stream_next _ _ _ _ 0 s 0 sT sk); [constructor|..];
      vm_compute; reflexivity. }
  set (sT2 := snd (infchk_stream empty_inflater (fun _ => false) 0 sk)).
  set (s2 := snd (call (get_header some_clock false) sT2)).
  destruct (infchk_trailer_and_junk some_clock empty_inflater (fun _ => false)
              s 0 sk empty_inflater_consumes ltac:(vm_compute; reflexivity)
              Hstart) as (_ & _ & H).
  destruct (H 0 sT2 (-2) s2) as (s' & E & _ & Hs').
  - vm_compute. reflexivity.
  - vm_compute. reflexivity.
  - intros [? _]. discriminate.
  - exists 0, sk, s'. split; [exact Hstart|]. split; [reflexivity|].
    split; [exact E|exact Hs'].
Defined.

End InfchkFacts.

(** ** The pipeline: the ring *)

Section RingFacts.
Import Deflate Pipeline Ring.
Context (g : globals) (HN : (0 < procs g)%nat).

Lemma slot_of_mod i : slot_of g i = (i mod procs g)%nat.
Proof.
  induction i as [|i IH]; cbn [slot_of].
  - symmetry. apply Nat.Div0.mod_0_l.
  - rewrite IH. unfold NEXT.
    pose proof (Nat.div_mod_eq i (procs g)) as E.
    pose proof (Nat.mod_upper_bound i (procs g) ltac:(lia)) as Hlt.
    destruct (Nat.eqb_spec (i mod procs g) (procs g - 1)) as [Hr|Hr].
    + apply (Nat.mod_unique _ _ (S (i / procs g))); [lia|]. nia.
    + apply (Nat.mod_unique _ _ (i / procs g)); [lia|]. nia.
Qed.

Lemma slot_lt i : (slot_of g i < procs g)%nat.
Proof. rewrite slot_of_mod. apply Nat.mod_upper_bound. lia. Qed.

Lemma slot_inj i i' :
  (i < i' < i + procs g)%nat -> slot_of g i <> slot_of g i'.
Proof.
  intros H. rewrite !slot_of_mod. intros E.
  pose proof (Nat.div_mod_eq i (procs g)).
  pose proof (Nat.div_mod_eq i' (procs g)).
  pose proof (Nat.mod_upper_bound i (procs g) ltac:(lia)).
  assert (i / procs g < i' / procs g \/ i' / procs g <= i / procs g)%nat
    as [|] by lia; nia.
Qed.

Lemma slot_period i : slot_of g (i + procs g) = slot_of g i.
Proof.
  rewrite !slot_of_mod.
  rewrite <- (Nat.Div0.add_mod_idemp_r i (procs g) (procs g)).
  rewrite Nat.Div0.mod_same, Nat.add_0_r. reflexivity.
Qed.

Lemma holder_Some W n k i :
  holder g W n k = Some i -> (W <= i < W + n)%nat /\ slot_of g i = k.
Proof.
  revert W. induction n as [|n IH]; intros W H; cbn [holder] in H.
  - discriminate.
  - destruct (Nat.eqb_spec (slot_of g W) k) as [E|E].
    + injection H as <-. split; [lia|exact E].
    + destruct (IH _ H). split; [lia|assumption].
Qed.

Lemma holder_None W n k :
  holder g W n k = None ->
  forall i, (W <= i < W + n)%nat -> slot_of g i <> k.
Proof.
  revert W. induction n as [|n IH]; intros W H i Hi; cbn [holder] in H.
  - lia.
  - destruct (Nat.eqb_spec (slot_of g W) k) as [E|E]; [discriminate|].
    destruct (Nat.eq_dec i W) as [->|]; [exact E|].
    apply (IH _ H). lia.
Qed.

Lemma holder_hit W n i :
  (n <= procs g)%nat -> (W <= i < W + n)%nat ->
  holder g W n (slot_of g i) = Some i.
Proof.
  intros Hn Hi.
  destruct (holder g W n (slot_of g i)) as [i'|] eqn:E.
  - destruct (holder_Some _ _ _ _ E) as [Hi' Es]. f_equal.
    destruct (Nat.lt_trichotomy i i') as [Hlt|[->|Hgt]]; [|reflexivity|].
    + destruct (slot_inj i i'); [lia|congruence].
    + destruct (slot_inj i' i); [lia|congruence].
  - destruct (holder_None _ _ _ E i Hi). reflexivity.
Qed.

Lemma holder_miss W n k :
  (forall i, (W <= i < W + n)%nat -> slot_of g i <> k) ->
  holder g W n k = None.
Proof.
  intros H. destruct (holder g W n k) as [i|] eqn:E; [|reflexivity].
  destruct (holder_Some _ _ _ _ E) as [Hi Es]. destruct (H i Hi Es).
Qed.

(** The phase of the unit of a block in the ring. *)
Lemma phase_of_window R W rp wp i :
  (W <= i < R)%nat -> (R <= W + procs g)%nat ->
  phase_of g R W rp wp (slot_of g i) =
  if (i =? W)%nat then wphase wp i else Busy i.
Proof.
  intros Hi HR. unfold phase_of. rewrite (holder_hit W (R - W) i) by lia.
  reflexivity.
Qed.

(** The phase of the unit of the block being read, when it is clear. *)
Lemma phase_of_reading R W rp wp :
  (W <= R < W + procs g)%nat ->
  phase_of g R W rp wp (slot_of g R) =
  if is_R_set rp then Created R else Free.
Proof.
  intros HR. unfold phase_of. rewrite holder_miss.
  - now rewrite Nat.eqb_refl, andb_true_r.
  - intros i Hi. apply slot_inj. lia.
Qed.

(** Where [write_thread] stands matters to the unit of block [W] only. *)
Lemma phase_of_wpc R W rp wp wp' k :
  k <> slot_of g W \/ wphase wp W = wphase wp' W ->
  phase_of g R W rp wp k = phase_of g R W rp wp' k.
Proof.
  intros H. unfold phase_of.
  destruct (holder g W (R - W) k) as [i|] eqn:E; [|reflexivity].
  destruct (Nat.eqb_spec i W) as [->|]; [|reflexivity].
  destruct H as [H|H]; [|exact H].
  destruct (holder_Some _ _ _ _ E) as [_ Es]. now destruct H.
Qed.

(** Where [read_thread] stands matters to the unit of block [R] only. *)
Lemma phase_of_rpc R W rp rp' wp k :
  k <> slot_of g R \/ is_R_set rp = is_R_set rp' ->
  phase_of g R W rp wp k = phase_of g R W rp' wp k.
Proof.
  intros H. unfold phase_of.
  destruct (holder g W (R - W) k) as [i|] eqn:E; [reflexivity|].
  destruct H as [H|H].
  - destruct (Nat.eqb_spec k (slot_of g R)); [now destruct H|].
    now rewrite !andb_false_r.
  - now rewrite H.
Qed.

(** A block handed over: the other units are as they were. *)
Lemma phase_of_hand_over R W rp' wp k :
  (W <= R < W + procs g)%nat -> is_R_set rp' = false ->
  k <> slot_of g R ->
  phase_of g (S R) W rp' wp k = phase_of g R W R_set wp k.
Proof.
  intros HR Hrp Hk. unfold phase_of.
  assert (E : holder g W (S R - W) k = holder g W (R - W) k).
  { destruct (holder g W (R - W) k) as [i|] eqn:E.
    - destruct (holder_Some _ _ _ _ E) as [Hi <-].
      apply holder_hit; lia.
    - apply holder_miss. intros i Hi.
      destruct (Nat.eq_dec i R) as [->|]; [congruence|].
      apply (holder_None _ _ _ E). lia. }
  rewrite E. destruct (holder g W (R - W) k); [reflexivity|].
  rewrite Hrp. cbn [is_R_set andb].
  destruct (Nat.eqb_spec k (slot_of g R)); [now destruct Hk|reflexivity].
Qed.

(** A block let go: the other units are as they were, its own is free. *)
Lemma phase_of_let_go R W rp wp' k :
  (W < R <= W + procs g)%nat -> wphase wp' (S W) = Busy (S W) ->
  k <> slot_of g W ->
  phase_of g R (S W) rp wp' k = phase_of g R W rp W_release k.
Proof.
  intros HR Hwp Hk. unfold phase_of.
  replace (R - W)%nat with (S (R - S W)) by lia. cbn [holder].
  destruct (Nat.eqb_spec (slot_of g W) k); [now destruct Hk|].
  destruct (holder g (S W) (R - S W) k) as [i|] eqn:E; [|reflexivity].
  destruct (holder_Some _ _ _ _ E) as [Hi _].
  destruct (Nat.eqb_spec i W); [lia|].
  destruct (Nat.eqb_spec i (S W)) as [->|]; [exact Hwp|reflexivity].
Qed.

Lemma phase_of_let_go_free R W rp wp' :
  (W < R <= W + procs g)%nat ->
  (is_R_set rp = true -> (R < W + procs g)%nat) ->
  phase_of g R (S W) rp wp' (slot_of g W) = Free.
Proof.
  intros HR Hrp. unfold phase_of. rewrite holder_miss.
  - destruct (is_R_set rp); [|reflexivity]. cbn [andb].
    destruct (Nat.eqb_spec (slot_of g W) (slot_of g R)) as [E|]; [|reflexivity].
    destruct (slot_inj W R); [specialize (Hrp eq_refl); lia|exact E].
  - intros i Hi E. destruct (slot_inj W i); [lia|congruence].
Qed.

End RingFacts.

(** ** The pipeline: the invariant *)

Section PipelineFacts.
Import Deflate Pipeline Ring.
Context (w : world) (g : globals) (input : list Z).
Context (HN : (0 < procs g)%nat) (Hsize : 0 < size g).

Local Abbreviation B := (blocks (size g) input).

Lemma blocks_nonempty : (0 < length B)%nat.
Proof.
  destruct (blocks_spec (size g) input Hsize) as (_ & full & last & E & _).
  rewrite E, length_app. simpl. lia.
Qed.

Lemma blocks_concat : concat B = input.
Proof. apply (blocks_spec (size g) input Hsize). Qed.

(** A block is full if and only if it is not the last. *)
Lemma block_full i data :
  B !! i = Some data ->
  (S i < length B -> zlen data = size g)%nat /\
  (S i = length B -> zlen data < size g).
Proof.
  destruct (blocks_spec (size g) input Hsize)
    as (_ & full & last & E & Hfull & Hlast).
  rewrite E, length_app. cbn [length]. intros Hi. split; intros Hlen.
  - rewrite lookup_app_l in Hi by lia.
    apply (proj1 (Forall_lookup _ _) Hfull _ _ Hi).
  - rewrite lookup_app_r in Hi by lia.
    replace (i - length full)%nat with 0%nat in Hi by lia.
    injection Hi as <-. exact Hlast.
Qed.

(** [readn] takes the next block off the input. *)
Lemma readn_block R data :
  B !! R = Some data ->
  readn (concat (drop R B)) (size g) = (data, concat (drop (S R) B)).
Proof.
  intros HR. rewrite (drop_S _ _ _ HR). cbn [concat]. unfold readn.
  destruct (block_full R data HR) as [Hfull Hlast].
  assert (HRlt : (R < length B)%nat) by (eapply lookup_lt_Some; eauto).
  destruct (Nat.eq_dec (S R) (length B)) as [E|NE].
  - rewrite (drop_ge B (S R)) by lia. cbn [concat]. rewrite app_nil_r.
    specialize (Hlast E). unfold zlen in Hlast.
    rewrite take_ge, drop_ge by lia. reflexivity.
  - specialize (Hfull ltac:(lia)). unfold zlen in Hfull.
    rewrite take_app_length', drop_app_length' by lia. reflexivity.
Qed.

Lemma compress_thread_keeps j p :
  let r := compress_thread (enc w) g j p in
  len r = len j /\ buf r = buf j /\ busy r = busy j /\ comp r = comp j.
Proof.
  unfold compress_thread.
  destruct (max_chunks _ _ _ _ _). repeat split.
Qed.

Lemma running_in_insert js k j j' :
  js !! k = Some j ->
  (running_in (<[k := j']> js) + is_running j
   = running_in js + is_running j')%nat.
Proof.
  revert k. induction js as [|j0 js IH]; intros k Hk; [discriminate|].
  destruct k as [|k].
  - injection Hk as ->. change (<[0%nat := j']> (j :: js)) with (j' :: js).
    cbn [running_in]. lia.
  - specialize (IH k Hk).
    change (<[S k := j']> (j0 :: js)) with (j0 :: <[k := j']> js).
    cbn [running_in]. lia.
Qed.

Lemma running_in_same js k j j' :
  js !! k = Some j -> comp j' = comp j ->
  running_in (<[k := j']> js) = running_in js.
Proof.
  intros Hk Hc. pose proof (running_in_insert _ k j j' Hk) as E.
  unfold is_running in E. rewrite Hc in E. lia.
Qed.

(** One unit changes, and with it at most its own phase. *)
Lemma slots_update (js : list work) k j' (ph ph' : nat -> phase) :
  (forall k0 j, js !! k0 = Some j -> job_ok w g input (ph k0) j) ->
  job_ok w g input (ph' k) j' ->
  (forall k0, k0 <> k -> ph' k0 = ph k0) ->
  forall k0 j, <[k := j']> js !! k0 = Some j -> job_ok w g input (ph' k0) j.
Proof.
  intros Hok Hk Hph k0 j Hl.
  destruct (Nat.eq_dec k0 k) as [->|Hne].
  - apply list_lookup_insert_Some in Hl as [(_ & <- & _)|[? _]]; [exact Hk|lia].
  - rewrite list_lookup_insert_ne in Hl by auto.
    rewrite Hph by auto. eauto.
Qed.

(** No unit changes, one phase may. *)
Lemma slots_rephase (js : list work) k (ph ph' : nat -> phase) :
  (forall k0 j, js !! k0 = Some j -> job_ok w g input (ph k0) j) ->
  (forall j, js !! k = Some j -> job_ok w g input (ph k) j ->
             job_ok w g input (ph' k) j) ->
  (forall k0, k0 <> k -> ph' k0 = ph k0) ->
  forall k0 j, js !! k0 = Some j -> job_ok w g input (ph' k0) j.
Proof.
  intros Hok Hk Hph k0 j Hl.
  destruct (Nat.eq_dec k0 k) as [->|Hne]; [eauto|].
  rewrite Hph by auto. eauto.
Qed.

Lemma job_ok_same_flags ph j j' :
  busy j' = busy j -> comp j' = comp j -> buf j' = buf j ->
  len j' = len j -> check j' = check j -> out j' = out j -> strm j' = strm j ->
  job_ok w g input ph j -> job_ok w g input ph j'.
Proof.
  intros Hb Hc Hbuf Hl Hch Ho Hs.
  assert (Hready : forall i, ready g input i j -> ready g input i j').
  { intros i (data & b & H1 & H2 & H3 & H4). exists data, b.
    repeat split; congruence. }
  assert (Hdone : forall i, done_ w g input i j -> done_ w g input i j').
  { intros i (j0 & p & H1 & H2 & H3 & H4 & H5). exists j0, p.
    split; [exact H1|]. cbv zeta. repeat split; congruence. }
  assert (Hlive : forall i, live w g input i j -> live w g input i j').
  { intros i [[H1 H2]|[H1 H2]]; [left|right]; split; auto; congruence. }
  destruct ph; cbn [job_ok]; rewrite ?Hb, ?Hc, ?Hbuf; intuition auto.
Qed.

(** A unit that is free stays so when it gets its buffers. *)
Lemma job_ok_init ph f j :
  buf j = None -> job_ok w g input ph j -> job_ok w g input ph (job_init g f j).
Proof.
  intros Hb. destruct ph; cbn [job_ok]; try (intros [H _]; now destruct H).
  intros [H1 H2]. split; assumption.
Qed.

(** New input in the buffer of a unit that has no thread. *)
Lemma job_ok_fill ph b j :
  comp j = Absent -> job_ok w g input ph j ->
  job_ok w g input ph (set_buf (Some b) j).
Proof.
  intros Hc.
  assert (Hdone : forall i, done_ w g input i j ->
                            done_ w g input i (set_buf (Some b) j)).
  { intros i (j0 & p & H1 & H2). exists j0, p. split; [exact H1|exact H2]. }
  assert (Hlive : forall i, live w g input i j -> False).
  { intros i [[H _]|[H _]]; congruence. }
  destruct ph; cbn [job_ok buf busy comp set_buf];
    try (intros (_ & _ & H); destruct (Hlive _ H));
    intuition (eauto; try discriminate).
Qed.

Lemma lookup_slot R W rs s k :
  inv w g input R W rs s -> (k < procs g)%nat -> exists j, jobs s !! k = Some j.
Proof.
  intros I Hk. apply lookup_lt_is_Some. rewrite (inv_jobs _ _ _ _ _ _ _ I). exact Hk.
Qed.

(** What [write_thread] relies on is not touched by the other threads. *)
Lemma writer_inv_frame R R' W rs s s' :
  writer_inv w g input R W rs s -> (R <= R')%nat ->
  wpc s <> W_absent -> wpc s' = wpc s ->
  outd s' = outd s -> wn s' = wn s -> wlen s' = wlen s -> head s' = head s ->
  ulen s' = ulen s -> clen s' = clen s -> wcheck s' = wcheck s ->
  writer_inv w g input R' W rs s'.
Proof.
  intros H HR Hne Hpc Ho Hn Hl Hh Hu Hc Hk.
  unfold writer_inv, acc in *. rewrite Hpc, Ho, Hn, Hl, Hh, Hu, Hc, Hk.
  destruct (wpc s); try exact H; try (now destruct Hne);
    (split; [lia|apply H]).
Qed.

(** What [read_thread] relies on is not touched by the other threads. *)
Lemma reader_inv_frame R W W' s s' :
  reader_inv g input R W s ->
  rpc s' = rpc s -> rn s' = rn s -> ind s' = ind s -> got s' = got s ->
  (forall j, jobs s !! rn s = Some j ->
     exists j', jobs s' !! rn s = Some j' /\ buf j' = buf j /\ len j' = len j) ->
  (W <= W')%nat ->
  (clear g R W s -> clear g R W' s') ->
  wpc s <> W_absent -> wpc s' <> W_absent -> wpc s <> W_finished ->
  reader_inv g input R W' s'.
Proof.
  intros H Hpc Hn Hi Hg Hj HW Hcl Hwa Hwa' Hwf.
  assert (Hhas : has_buf s -> has_buf s').
  { intros (j & H1 & H2). destruct (Hj _ H1) as (j' & H3 & H4 & _).
    exists j'. rewrite Hn. split; [exact H3|congruence]. }
  assert (Hholds : holds g input R s -> holds g input R s').
  { intros (j & data & b & H1 & H2 & H3 & H4 & H5).
    destruct (Hj _ H1) as (j' & H6 & H7 & _).
    exists j', data, b. rewrite Hn, Hg. repeat split; congruence. }
  unfold reader_inv in *. rewrite Hpc, Hn, Hi, Hg.
  destruct (rpc s);
    repeat match goal with H : _ /\ _ |- _ => destruct H end;
    repeat split; auto; try lia; try congruence.
  match goal with H : ex _ |- _ => destruct H as (j & Hl & Hlen) end.
  destruct (Hj _ Hl) as (j' & Hl' & _ & Hlen').
  exists j'. split; congruence.
Qed.

Lemma writer_started R W rs s :
  writer_inv w g input R W rs s -> rpc s <> R_start -> wpc s <> W_absent.
Proof.
  unfold writer_inv. intros H Hne E. rewrite E in H. now destruct Hne.
Qed.

(** The unit that [read_thread] may fill has no thread. *)
Lemma clear_phase R W rp wp :
  (W <= R <= W + procs g)%nat -> is_R_set rp = false ->
  ((R < W + procs g)%nat \/
   (R = W + procs g)%nat /\ (wp = W_write \/ wp = W_release)) ->
  phase_of g R W rp wp (slot_of g R) = Free \/
  phase_of g R W rp wp (slot_of g R) = Writing W \/
  phase_of g R W rp wp (slot_of g R) = Written.
Proof.
  intros HR Hrp [Hlt|[-> Hwp]].
  - left. rewrite phase_of_reading by (auto; lia). now rewrite Hrp.
  - right. rewrite slot_period by assumption.
    rewrite phase_of_window by (auto; lia). rewrite Nat.eqb_refl.
    destruct Hwp as [->| ->]; [left|right]; reflexivity.
Qed.

Lemma clear_absent ph j :
  ph = Free \/ ph = Writing 0 \/ ph = Written \/ (exists i, ph = Writing i) ->
  job_ok w g input ph j -> comp j = Absent /\ busy j <> COMP.
Proof.
  intros [->|[->|[->|[i ->]]]]; cbn [job_ok]; intros H;
    repeat match goal with H : _ /\ _ |- _ => destruct H end;
    split; try assumption; unfold IDLE, WRITE, COMP in *; lia.
Qed.

Ltac fields :=
  cbn [jobs ind outd rpc rn got wpc wn wlen head ulen clen wcheck
       set_jobs set_rpc set_wpc] in *.

Lemma reader_R_start R W rs s s' :
  inv w g input R W rs s -> rpc s = R_start -> reader w g s = Some s' ->
  inv w g input R W rs s' /\
  (rank g input R W s' < rank g input R W s)%nat.
Proof.
  intros [Hjobs HRW Hrs Hrd Hwr Hsl] Hpc Hstep.
  unfold reader in Hstep. unfold reader_inv in Hrd. unfold writer_inv in Hwr.
  rewrite Hpc in *. destruct Hrd as (-> & -> & Hwp & Hi & Ho).
  rewrite Hwp in *. destruct Hwr as (_ & -> & _).
  injection Hstep as <-. split; [split|].
  - exact Hjobs.
  - lia.
  - exact Hrs.
  - unfold reader_inv. fields. pose proof blocks_nonempty.
    rewrite Hi, drop_0, blocks_concat. auto.
  - unfold writer_inv. fields. auto.
  - fields. intros k j Hk. exact (Hsl k j Hk).
  - unfold rank, running. fields. rewrite Hpc, Hwp. cbn [rweight wweight]. lia.
Qed.

Lemma reader_R_init R W rs s s' :
  inv w g input R W rs s -> rpc s = R_init -> reader w g s = Some s' ->
  inv w g input R W rs s' /\
  (rank g input R W s' < rank g input R W s)%nat.
Proof.
  intros [Hjobs HRW Hrs Hrd Hwr Hsl] Hpc Hstep.
  assert (Hwa : wpc s <> W_absent)
    by (eapply writer_started; eauto; congruence).
  unfold reader in Hstep. unfold reader_inv in Hrd. rewrite Hpc in Hstep, Hrd.
  destruct Hrd as (HR & Hn & Hi).
  destruct (jobs s !! rn s) as [j|] eqn:Hj; [|discriminate].
  cbn [mbind option_bind] in Hstep. injection Hstep as <-.
  pose proof (Hsl _ _ Hj) as Hok.
  destruct (buf j) as [b|] eqn:Hb.
  - split; [split|]; fields.
    + exact Hjobs.
    + exact HRW.
    + exact Hrs.
    + unfold reader_inv. fields. repeat split; auto.
      exists j. split; [exact Hj|congruence].
    + eapply writer_inv_frame; eauto.
    + intros k j' Hk.
      rewrite (phase_of_rpc g R W _ (rpc s)) by (rewrite Hpc; auto). auto.
    + unfold rank, running. fields. rewrite Hpc. cbn [rweight]. lia.
  - split; [split|]; fields.
    + rewrite length_insert. exact Hjobs.
    + exact HRW.
    + exact Hrs.
    + unfold reader_inv. fields. repeat split; auto.
      exists (job_init g (fresh w) j). split; [|discriminate].
      apply list_lookup_insert_eq. eapply lookup_lt_Some; eauto.
    + eapply writer_inv_frame; eauto.
    + eapply slots_update; [exact Hsl| |].
      * apply job_ok_init; [exact Hb|].
        rewrite (phase_of_rpc g R W _ (rpc s)) by (rewrite Hpc; auto).
        exact Hok.
      * intros k _. apply phase_of_rpc. rewrite Hpc. auto.
    + unfold rank, running. fields. rewrite Hpc.
      rewrite (running_in_same _ _ j) by auto. cbn [rweight]. lia.
Qed.

(** A wait of [read_thread] that is over. *)
Lemma reader_moves R W rs s pc' :
  inv w g input R W rs s -> rpc s <> R_start ->
  is_R_set (rpc s) = false -> is_R_set pc' = false ->
  (rweight pc' < rweight (rpc s))%nat ->
  reader_inv g input R W (set_rpc pc' s) ->
  inv w g input R W rs (set_rpc pc' s) /\
  (rank g input R W (set_rpc pc' s) < rank g input R W s)%nat.
Proof.
  intros [Hjobs HRW Hrs Hrd Hwr Hsl] Hne Hset Hset' Hlt Hrd'.
  assert (Hwa : wpc s <> W_absent) by (eapply writer_started; eauto).
  split; [split|]; fields; auto.
  - eapply writer_inv_frame; eauto.
  - intros k j' Hk. rewrite (phase_of_rpc g R W _ (rpc s)) by (right; congruence).
    auto.
  - unfold rank, running. fields. lia.
Qed.

Lemma reader_R_wait_self R W rs s s' :
  inv w g input R W rs s -> rpc s = R_wait_self -> reader w g s = Some s' ->
  inv w g input R W rs s' /\
  (rank g input R W s' < rank g input R W s)%nat.
Proof.
  intros I Hpc Hstep. pose proof I as [Hjobs HRW Hrs Hrd Hwr Hsl].
  unfold reader in Hstep. unfold reader_inv in Hrd. rewrite Hpc in Hstep, Hrd.
  destruct Hrd as (HR & Hn & Hi & Hhas).
  destruct (jobs s !! rn s) as [j|] eqn:Hj; [|discriminate].
  cbn [mbind option_bind] in Hstep.
  destruct (Z.eqb_spec (busy j) COMP) as [|Hbusy]; [discriminate|].
  injection Hstep as <-.
  apply reader_moves; rewrite ?Hpc; auto; try discriminate.
  unfold reader_inv. fields. repeat split; auto.
  unfold clear. fields.
  destruct (Nat.eq_dec R (W + procs g)%nat) as [E|]; [right|left; lia].
  split; [exact E|]. pose proof (Hsl _ _ Hj) as Hok.
  rewrite Hn, E, slot_period, phase_of_window, Nat.eqb_refl in Hok
    by (auto; lia).
  destruct (wpc s); cbn [wphase job_ok] in Hok; auto;
    now destruct Hbusy.
Qed.

Lemma reader_R_wait_next R W rs s s' :
  inv w g input R W rs s -> rpc s = R_wait_next -> reader w g s = Some s' ->
  inv w g input R W rs s' /\
  (rank g input R W s' < rank g input R W s)%nat.
Proof.
  intros I Hpc Hstep. pose proof I as [Hjobs HRW Hrs Hrd Hwr Hsl].
  unfold reader in Hstep. unfold reader_inv in Hrd. rewrite Hpc in Hstep, Hrd.
  destruct (jobs s !! NEXT g (rn s)) as [j|] eqn:Hj; [|discriminate].
  cbn [mbind option_bind] in Hstep.
  destruct (busy j =? COMP); [discriminate|]. injection Hstep as <-.
  apply reader_moves; rewrite ?Hpc; auto; try discriminate.
Qed.

Lemma reader_R_wait_idle R W rs s s' :
  inv w g input R W rs s -> rpc s = R_wait_idle -> reader w g s = Some s' ->
  inv w g input R W rs s' /\
  (rank g input R W s' < rank g input R W s)%nat.
Proof.
  intros I Hpc Hstep. pose proof I as [Hjobs HRW Hrs Hrd Hwr Hsl].
  unfold reader in Hstep. unfold reader_inv in Hrd. rewrite Hpc in Hstep, Hrd.
  destruct Hrd as (HR & Hn & Hi & Hholds & Hclear).
  destruct (jobs s !! rn s) as [j|] eqn:Hj; [|discriminate].
  cbn [mbind option_bind] in Hstep.
  destruct (Z.eqb_spec (busy j) IDLE) as [Hbusy|]; [|discriminate].
  injection Hstep as <-.
  apply reader_moves; rewrite ?Hpc; auto; try discriminate.
  unfold reader_inv. fields. repeat split; auto.
  destruct Hclear as [Hlt|[E Hwp]]; [exact Hlt|].
  pose proof (Hsl _ _ Hj) as Hok.
  rewrite Hn, E, slot_period, phase_of_window, Nat.eqb_refl in Hok
    by (auto; lia).
  destruct Hwp as [Hwp|Hwp]; rewrite Hwp in Hok; cbn [wphase job_ok] in Hok;
    destruct Hok as (_ & Hbusy' & _); rewrite Hbusy in Hbusy'; discriminate.
Qed.

Lemma reader_R_join R W rs s s' :
  inv w g input R W rs s -> rpc s = R_join -> reader w g s = Some s' ->
  inv w g input R W rs s' /\
  (rank g input R W s' < rank g input R W s)%nat.
Proof.
  intros I Hpc Hstep. pose proof I as [Hjobs HRW Hrs Hrd Hwr Hsl].
  unfold reader in Hstep. unfold reader_inv in Hrd. rewrite Hpc in Hstep, Hrd.
  destruct (wpc s) eqn:Hwp; try discriminate. injection Hstep as <-.
  apply reader_moves; rewrite ?Hpc; auto; try discriminate.
  unfold reader_inv. fields. tauto.
Qed.

Lemma reader_R_read R W rs s s' :
  inv w g input R W rs s -> rpc s = R_read -> reader w g s = Some s' ->
  inv w g input R W rs s' /\
  (rank g input R W s' < rank g input R W s)%nat.
Proof.
  intros I Hpc Hstep. pose proof I as [Hjobs HRW Hrs Hrd Hwr Hsl].
  assert (Hwa : wpc s <> W_absent)
    by (eapply writer_started; eauto; congruence).
  unfold reader in Hstep. unfold reader_inv in Hrd. rewrite Hpc in Hstep, Hrd.
  destruct Hrd as (HR & Hn & Hi & Hhas & Hclear).
  destruct (jobs s !! rn s) as [j|] eqn:Hj; [|discriminate].
  cbn [mbind option_bind] in Hstep.
  destruct (lookup_lt_is_Some_2 _ _ HR) as [data Hdata].
  rewrite Hi, (readn_block _ _ Hdata) in Hstep. injection Hstep as <-.
  pose proof (Hsl _ _ Hj) as Hok.
  assert (Habs : comp j = Absent).
  { rewrite Hn in Hok.
    destruct (clear_phase R W (rpc s) (wpc s)) as [E|[E|E]];
      try rewrite E in Hok; auto; try lia; try (rewrite Hpc; reflexivity);
      cbn [job_ok] in Hok; tauto. }
  assert (Hlt : (rn s < length (jobs s))%nat) by (eapply lookup_lt_Some; eauto).
  split; [split|]; fields.
  - rewrite length_insert. exact Hjobs.
  - exact HRW.
  - exact Hrs.
  - unfold reader_inv. fields. repeat split; auto.
    eexists _, data, _. fields. rewrite list_lookup_insert_eq by exact Hlt.
    repeat split; auto. cbn [buf set_buf]. unfold fill.
    now rewrite take_app_length.
  - eapply writer_inv_frame; eauto.
  - eapply slots_update; [exact Hsl| |].
    + unfold fill. apply job_ok_fill; [exact Habs|].
      rewrite (phase_of_rpc g R W _ (rpc s)) by (rewrite Hpc; auto).
      exact Hok.
    + intros k _. apply phase_of_rpc. rewrite Hpc. auto.
  - unfold rank, running. fields. rewrite Hpc.
    rewrite (running_in_same _ _ j) by auto. cbn [rweight]. lia.
Qed.

Lemma reader_R_len R W rs s s' :
  inv w g input R W rs s -> rpc s = R_len -> reader w g s = Some s' ->
  inv w g input R W rs s' /\
  (rank g input R W s' < rank g input R W s)%nat.
Proof.
  intros I Hpc Hstep. pose proof I as [Hjobs HRW Hrs Hrd Hwr Hsl].
  assert (Hwa : wpc s <> W_absent)
    by (eapply writer_started; eauto; congruence).
  unfold reader in Hstep. unfold reader_inv in Hrd. rewrite Hpc in Hstep, Hrd.
  destruct Hrd as (HR & Hn & Hi & Hholds & HRlt).
  destruct (jobs s !! rn s) as [j|] eqn:Hj; [|discriminate].
  cbn [mbind option_bind] in Hstep. injection Hstep as <-.
  pose proof (Hsl _ _ Hj) as Hok.
  rewrite Hn, phase_of_reading, Hpc in Hok by (auto; lia).
  cbn [is_R_set job_ok] in Hok.
  assert (Hlt : (rn s < length (jobs s))%nat) by (eapply lookup_lt_Some; eauto).
  destruct Hholds as (j0 & data & b & Hj0 & Hdata & Hgot & Hbuf & Htake).
  rewrite Hj in Hj0. injection Hj0 as <-.
  split; [split|]; fields.
  - rewrite length_insert. exact Hjobs.
  - exact HRW.
  - exact Hrs.
  - unfold reader_inv. fields. repeat split; auto.
    + eexists _, data, b. fields. rewrite list_lookup_insert_eq by exact Hlt.
      repeat split; auto.
    + eexists. rewrite list_lookup_insert_eq by exact Hlt.
      split; reflexivity.
  - eapply writer_inv_frame; eauto.
  - eapply slots_update; [exact Hsl| |].
    + rewrite Hn, phase_of_reading by (auto; lia). exact Hok.
    + intros k _. apply phase_of_rpc. rewrite Hpc. auto.
  - unfold rank, running. fields. rewrite Hpc.
    rewrite (running_in_same _ _ j) by auto. cbn [rweight]. lia.
Qed.

Lemma reader_R_create R W rs s s' :
  inv w g input R W rs s -> rpc s = R_create -> reader w g s = Some s' ->
  inv w g input R W rs s' /\
  (rank g input R W s' < rank g input R W s)%nat.
Proof.
  intros I Hpc Hstep. pose proof I as [Hjobs HRW Hrs Hrd Hwr Hsl].
  assert (Hwa : wpc s <> W_absent)
    by (eapply writer_started; eauto; congruence).
  unfold reader in Hstep. unfold reader_inv in Hrd. rewrite Hpc in Hstep, Hrd.
  destruct Hrd as (HR & Hn & Hi & Hholds & HRlt & jl & Hjl & Hlen).
  destruct (jobs s !! rn s) as [j|] eqn:Hj; [|discriminate].
  cbn [mbind option_bind] in Hstep. injection Hstep as <-.
  injection Hjl as <-.
  pose proof (Hsl _ _ Hj) as Hok.
  rewrite Hn, phase_of_reading, Hpc in Hok by (auto; lia).
  cbn [is_R_set job_ok] in Hok. destruct Hok as [Hidle Habs].
  assert (Hlt : (rn s < length (jobs s))%nat) by (eapply lookup_lt_Some; eauto).
  destruct Hholds as (j0 & data & b & Hj0 & Hdata & Hgot & Hbuf & Htake).
  rewrite Hj in Hj0. injection Hj0 as <-.
  split; [split|]; fields.
  - rewrite length_insert. exact Hjobs.
  - exact HRW.
  - exact Hrs.
  - unfold reader_inv. fields. repeat split; auto. exists data. auto.
  - eapply writer_inv_frame; eauto.
  - eapply slots_update; [exact Hsl| |].
    + rewrite Hn, phase_of_reading by (auto; lia).
      cbn [is_R_set job_ok buf busy comp set_comp].
      split; [congruence|]. split; [exact Hidle|]. left.
      split; [reflexivity|]. exists data, b. cbn [len buf set_comp].
      repeat split; auto. congruence.
    + intros k Hk. apply phase_of_rpc. left. congruence.
  - unfold rank, running. fields. rewrite Hpc.
    pose proof (running_in_insert _ _ _ (set_comp Running j) Hj) as E.
    unfold is_running in E. rewrite Habs in E. cbn [comp set_comp] in E.
    cbn [rweight]. lia.
Qed.

Lemma reader_R_set R W rs s s' :
  inv w g input R W rs s -> rpc s = R_set -> reader w g s = Some s' ->
  inv w g input (S R) W rs s' /\
  (rank g input (S R) W s' < rank g input R W s)%nat.
Proof.
  intros I Hpc Hstep. pose proof I as [Hjobs HRW Hrs Hrd Hwr Hsl].
  assert (Hwa : wpc s <> W_absent)
    by (eapply writer_started; eauto; congruence).
  unfold reader in Hstep. unfold reader_inv in Hrd. rewrite Hpc in Hstep, Hrd.
  destruct Hrd as (HR & Hn & Hi & HRlt & data & Hdata & Hgot).
  destruct (jobs s !! rn s) as [j|] eqn:Hj; [|discriminate].
  cbn [mbind option_bind] in Hstep. injection Hstep as <-.
  pose proof (Hsl _ _ Hj) as Hok.
  rewrite Hn, phase_of_reading, Hpc in Hok by (auto; lia).
  cbn [is_R_set job_ok] in Hok. destruct Hok as (Hbuf & Hidle & Hlive).
  assert (Hlt : (rn s < length (jobs s))%nat) by (eapply lookup_lt_Some; eauto).
  destruct (block_full _ _ Hdata) as [Hfull Hlast].
  set (pc' := if got s =? size g then R_init else R_join).
  assert (Hpc' : is_R_set pc' = false) by (subst pc'; now destruct (_ =? _)).
  assert (Hw' : (rweight pc' <= 9)%nat)
    by (subst pc'; destruct (_ =? _); cbn [rweight]; lia).
  split; [split|]; fields.
  - rewrite length_insert. exact Hjobs.
  - lia.
  - exact Hrs.
  - unfold reader_inv. fields. subst pc'.
    destruct (Z.eqb_spec (got s) (size g)) as [E|NE].
    + assert (S R < length B)%nat.
      { destruct (Nat.eq_dec (S R) (length B)) as [El|]; [|lia].
        specialize (Hlast El). lia. }
      cbn [slot_of]. rewrite Hn. auto.
    + split; [|exact Hwa].
      destruct (Nat.eq_dec (S R) (length B)) as [El|]; [exact El|].
      assert (zlen data = size g) by (apply Hfull; lia). congruence.
  - eapply writer_inv_frame; eauto.
  - eapply slots_update; [exact Hsl| |].
    + rewrite Hn, phase_of_window by (auto; lia).
      assert (Hb : job_ok w g input (Busy R) (set_busy COMP j)).
      { cbn [job_ok buf busy set_busy]. split; [exact Hbuf|].
        split; [reflexivity|].
        destruct Hlive as [[Hc Hr]|[Hc Hd]]; [left|right];
          (split; [exact Hc|]); [exact Hr|exact Hd]. }
      destruct (Nat.eqb_spec R W) as [->|]; [|exact Hb].
      unfold writer_inv in Hwr.
      destruct (wpc s); cbn [wphase]; try exact Hb; lia.
    + intros k Hk. rewrite Hpc.
      apply phase_of_hand_over; auto; try lia.
  - unfold rank, running. fields. rewrite Hpc.
    rewrite (running_in_same _ _ j) by auto. cbn [rweight]. lia.
Qed.

Lemma reader_step R W rs s s' :
  inv w g input R W rs s -> reader w g s = Some s' ->
  exists R', inv w g input R' W rs s' /\
             (rank g input R' W s' < rank g input R W s)%nat.
Proof.
  intros I Hstep. destruct (rpc s) eqn:Hpc.
  - exists R. now apply reader_R_start.
  - exists R. now apply reader_R_init.
  - exists R. now apply reader_R_wait_self.
  - exists R. now apply reader_R_wait_next.
  - exists R. now apply reader_R_read.
  - exists R. now apply reader_R_wait_idle.
  - exists R. now apply reader_R_len.
  - exists R. now apply reader_R_create.
  - exists (S R). now apply reader_R_set.
  - exists R. now apply reader_R_join.
  - unfold reader in Hstep. rewrite Hpc in Hstep. discriminate.
Qed.

(** A unit changed in its flag or thread only looks the same to
    [read_thread]. *)
Lemma insert_keeps (js : list work) k j j' n :
  js !! k = Some j -> buf j' = buf j -> len j' = len j ->
  forall j0, js !! n = Some j0 ->
    exists j0', <[k := j']> js !! n = Some j0' /\
                buf j0' = buf j0 /\ len j0' = len j0.
Proof.
  intros Hk Hb Hl j0 Hn. destruct (Nat.eq_dec k n) as [<-|Hne].
  - exists j'. rewrite list_lookup_insert_eq by (eapply lookup_lt_Some; eauto).
    rewrite Hk in Hn. injection Hn as <-. auto.
  - exists j0. rewrite list_lookup_insert_ne by exact Hne. auto.
Qed.

Lemma outs_snoc rs j : outs (rs ++ [j]) = outs rs ++ out j.
Proof.
  unfold outs. rewrite map_app, concat_app. cbn [map concat].
  now rewrite app_nil_r.
Qed.

Lemma done_len i j :
  done_ w g input i j -> exists data, B !! i = Some data /\ len j = zlen data.
Proof.
  intros (j0 & p & (data & b & Hd & Hl & _) & Hlen & _).
  exists data. split; [exact Hd|].
  rewrite Hlen. destruct (compress_thread_keeps j0 p) as [-> _]. exact Hl.
Qed.

Lemma writer_W_header R W rs s s' :
  inv w g input R W rs s -> wpc s = W_header -> writer w g s = Some s' ->
  inv w g input R W rs s' /\
  (rank g input R W s' < rank g input R W s)%nat.
Proof.
  intros I Hpc Hstep. pose proof I as [Hjobs HRW Hrs Hrd Hwr Hsl].
  unfold writer in Hstep. unfold writer_inv in Hwr. rewrite Hpc in Hstep, Hwr.
  destruct Hwr as (-> & -> & Ho).
  destruct (Framing.put_header (clk w) g) as [hd hlen] eqn:Hh.
  injection Hstep as <-. split; [split|]; fields; auto.
  - eapply reader_inv_frame; eauto; fields; rewrite ?Hpc; try discriminate.
    unfold clear. fields. rewrite Hpc. intros [?|[_ [?|?]]]; auto; discriminate.
  - unfold writer_inv, acc. fields. rewrite Hh, Ho. cbn [fst snd length].
    pose proof blocks_nonempty. repeat split; auto.
    unfold outs. cbn [map concat]. now rewrite app_nil_r.
  - intros k j Hk. rewrite (phase_of_wpc g HN R 0 _ W_wait (wpc s)); auto.
    rewrite Hpc. auto.
  - unfold rank, running. fields. rewrite Hpc. cbn [wweight]. lia.
Qed.

Lemma writer_W_wait R W rs s s' :
  inv w g input R W rs s -> wpc s = W_wait -> writer w g s = Some s' ->
  inv w g input R W rs s' /\
  (rank g input R W s' < rank g input R W s)%nat.
Proof.
  intros I Hpc Hstep. pose proof I as [Hjobs HRW Hrs Hrd Hwr Hsl].
  unfold writer in Hstep. unfold writer_inv in Hwr. rewrite Hpc in Hstep, Hwr.
  destruct Hwr as (HW & Hn & Hacc & Hlen).
  destruct (jobs s !! wn s) as [j|] eqn:Hj; [|discriminate].
  cbn [mbind option_bind] in Hstep.
  destruct (Z.eqb_spec (busy j) COMP) as [Hbusy|]; [|discriminate].
  injection Hstep as <-.
  assert (HWR : (W < R)%nat).
  { destruct (Nat.eq_dec W R) as [E|]; [|lia]. exfalso.
    pose proof (Hsl _ _ Hj) as Hok.
    rewrite Hn, E, phase_of_reading in Hok by (auto; lia).
    destruct (is_R_set (rpc s)); cbn [job_ok] in Hok;
      [destruct Hok as (_ & Hok & _)|destruct Hok as (Hok & _)];
      rewrite Hbusy in Hok; discriminate. }
  split; [split|]; fields; auto.
  - eapply reader_inv_frame; eauto; fields; rewrite ?Hpc; try discriminate.
    unfold clear. fields. rewrite Hpc. intros [?|[_ [?|?]]]; auto; discriminate.
  - unfold writer_inv, acc. fields. auto.
  - intros k j' Hk. rewrite (phase_of_wpc g HN R W _ W_join (wpc s)); auto.
    rewrite Hpc. auto.
  - unfold rank, running. fields. rewrite Hpc. cbn [wweight]. lia.
Qed.

Lemma writer_W_join R W rs s s' :
  inv w g input R W rs s -> wpc s = W_join -> writer w g s = Some s' ->
  inv w g input R W rs s' /\
  (rank g input R W s' < rank g input R W s)%nat.
Proof.
  intros I Hpc Hstep. pose proof I as [Hjobs HRW Hrs Hrd Hwr Hsl].
  unfold writer in Hstep. unfold writer_inv in Hwr. rewrite Hpc in Hstep, Hwr.
  destruct Hwr as (HW & Hn & Hacc & Hlen).
  destruct (jobs s !! wn s) as [j|] eqn:Hj; [|discriminate].
  cbn [mbind option_bind] in Hstep.
  destruct (comp j) eqn:Hcomp; try discriminate.
  injection Hstep as <-.
  pose proof (Hsl _ _ Hj) as Hok.
  rewrite Hn, phase_of_window, Nat.eqb_refl, Hpc in Hok by (auto; lia).
  cbn [wphase job_ok] in Hok. destruct Hok as (Hbuf & Hbusy & Hlive).
  assert (Hdone : done_ w g input W j).
  { destruct Hlive as [[Hc _]|[_ Hd]]; [congruence|exact Hd]. }
  split; [split|]; fields; auto.
  - now rewrite length_insert.
  - eapply reader_inv_frame; eauto; fields; rewrite ?Hpc; try discriminate.
    + eapply insert_keeps; eauto.
    + unfold clear. fields. rewrite Hpc.
      intros [?|[_ [?|?]]]; auto; discriminate.
  - unfold writer_inv, acc. fields. auto.
  - eapply slots_update; [exact Hsl| |].
    + rewrite Hn, phase_of_window, Nat.eqb_refl by (auto; lia).
      cbn [wphase job_ok buf busy comp set_comp]. auto.
    + intros k Hk. apply phase_of_wpc; auto. left. congruence.
  - unfold rank, running. fields. rewrite Hpc.
    pose proof (running_in_insert _ _ _ (set_comp Absent j) Hj) as E.
    unfold is_running in E. rewrite Hcomp in E. cbn [comp set_comp] in E.
    cbn [wweight]. lia.
Qed.

Lemma writer_W_set_write R W rs s s' :
  inv w g input R W rs s -> wpc s = W_set_write -> writer w g s = Some s' ->
  inv w g input R W rs s' /\
  (rank g input R W s' < rank g input R W s)%nat.
Proof.
  intros I Hpc Hstep. pose proof I as [Hjobs HRW Hrs Hrd Hwr Hsl].
  unfold writer in Hstep. unfold writer_inv in Hwr. rewrite Hpc in Hstep, Hwr.
  destruct Hwr as (HW & Hn & Hacc & Hlen).
  destruct (jobs s !! wn s) as [j|] eqn:Hj; [|discriminate].
  cbn [mbind option_bind] in Hstep. injection Hstep as <-.
  pose proof (Hsl _ _ Hj) as Hok.
  rewrite Hn, phase_of_window, Nat.eqb_refl, Hpc in Hok by (auto; lia).
  cbn [wphase job_ok] in Hok. destruct Hok as (Hbuf & Hbusy & Hcomp & Hdone).
  split; [split|]; fields; auto.
  - now rewrite length_insert.
  - eapply reader_inv_frame; eauto; fields; rewrite ?Hpc; try discriminate.
    + eapply insert_keeps; eauto.
    + unfold clear. fields. rewrite Hpc.
      intros [?|[_ [?|?]]]; auto; discriminate.
  - unfold writer_inv, acc. fields. auto.
  - eapply slots_update; [exact Hsl| |].
    + rewrite Hn, phase_of_window, Nat.eqb_refl by (auto; lia).
      cbn [wphase job_ok buf busy comp set_busy]. auto.
    + intros k Hk. apply phase_of_wpc; auto. left. congruence.
  - unfold rank, running. fields. rewrite Hpc.
    rewrite (running_in_same _ _ j) by auto. cbn [wweight]. lia.
Qed.

Lemma ulen_of_snoc rs j : ulen_of (rs ++ [j]) = ulong (ulen_of rs + len j).
Proof. unfold ulen_of. now rewrite fold_left_app. Qed.

Lemma clen_of_snoc rs j :
  clen_of (rs ++ [j]) = ulong (clen_of rs + zlen (out j)).
Proof. unfold clen_of. now rewrite fold_left_app. Qed.

Lemma check_of_snoc rs j :
  check_of g (rs ++ [j]) = COMB g (check_of g rs) (check j) (len j).
Proof. unfold check_of. now rewrite fold_left_app. Qed.

Lemma writer_W_write R W rs s s' :
  inv w g input R W rs s -> wpc s = W_write -> writer w g s = Some s' ->
  exists j, jobs s !! slot_of g W = Some j /\
    inv w g input R W (rs ++ [j]) s' /\
    (rank g input R W s' < rank g input R W s)%nat.
Proof.
  intros I Hpc Hstep. pose proof I as [Hjobs HRW Hrs Hrd Hwr Hsl].
  unfold writer in Hstep. unfold writer_inv in Hwr. rewrite Hpc in Hstep, Hwr.
  destruct Hwr as (HW & Hn & Hacc & Hlen).
  destruct (jobs s !! wn s) as [j|] eqn:Hj; [|discriminate].
  cbn [mbind option_bind] in Hstep. injection Hstep as <-.
  pose proof (Hsl _ _ Hj) as Hok.
  rewrite Hn, phase_of_window, Nat.eqb_refl, Hpc in Hok by (auto; lia).
  cbn [wphase job_ok] in Hok. destruct Hok as (Hbuf & Hbusy & Hcomp & Hdone).
  exists j. split; [now rewrite <- Hn|]. split; [split|]; fields; auto.
  - intros i r Hi. apply lookup_app_Some in Hi as [Hi|[Hge Hi]]; [eauto|].
    apply list_lookup_singleton_Some in Hi as [Hi <-].
    replace i with W by lia. exact Hdone.
  - eapply reader_inv_frame; eauto; fields; rewrite ?Hpc; try discriminate.
    unfold clear. fields. rewrite Hpc. intros [?|[? _]]; auto.
  - unfold writer_inv, acc in *. fields.
    destruct Hacc as (-> & Hh & -> & -> & ->).
    rewrite outs_snoc, ulen_of_snoc, clen_of_snoc, check_of_snoc, length_app.
    cbn [length]. rewrite app_assoc.
    repeat split; auto; try lia. now apply done_len.
  - eapply (slots_rephase _ (slot_of g W)); [exact Hsl| |].
    + intros j' Hj'.
      rewrite !phase_of_window, Nat.eqb_refl, Hpc by (auto; lia).
      cbn [wphase job_ok]. tauto.
    + intros k Hk. apply phase_of_wpc; auto.
  - unfold rank, running. fields. rewrite Hpc. cbn [wweight]. lia.
Qed.

Lemma writer_W_release R W rs s s' :
  inv w g input R W rs s -> wpc s = W_release -> writer w g s = Some s' ->
  inv w g input R (S W) rs s' /\
  (rank g input R (S W) s' < rank g input R W s)%nat.
Proof.
  intros I Hpc Hstep. pose proof I as [Hjobs HRW Hrs Hrd Hwr Hsl].
  unfold writer in Hstep. unfold writer_inv in Hwr. rewrite Hpc in Hstep, Hwr.
  destruct Hwr as (HW & Hn & Hacc & Hlen & data & Hdata & Hwlen).
  destruct (jobs s !! wn s) as [j|] eqn:Hj; [|discriminate].
  cbn [mbind option_bind] in Hstep. injection Hstep as <-.
  pose proof (Hsl _ _ Hj) as Hok.
  rewrite Hn, phase_of_window, Nat.eqb_refl, Hpc in Hok by (auto; lia).
  cbn [wphase job_ok] in Hok. destruct Hok as (Hbuf & Hbusy & Hcomp).
  destruct (block_full _ _ Hdata) as [Hfull Hlast].
  set (pc' := if wlen s =? size g then W_wait else W_trailer).
  assert (Hpc' : wphase pc' (S W) = Busy (S W))
    by (subst pc'; now destruct (_ =? _)).
  assert (Hw' : (wweight pc' <= 5)%nat)
    by (subst pc'; destruct (_ =? _); cbn [wweight]; lia).
  assert (Hset : is_R_set (rpc s) = true -> (R < W + procs g)%nat).
  { unfold reader_inv in Hrd. destruct (rpc s); try discriminate.
    intros _. apply Hrd. }
  split; [split|]; fields; auto.
  - now rewrite length_insert.
  - lia.
  - eapply reader_inv_frame; eauto; fields; rewrite ?Hpc; try discriminate.
    + eapply insert_keeps; eauto.
    + unfold clear. intros _. left. lia.
    + subst pc'. destruct (_ =? _); discriminate.
  - unfold writer_inv, acc in *. fields. subst pc'.
    destruct (Z.eqb_spec (wlen s) (size g)) as [E|NE].
    + assert (S W < length B)%nat.
      { destruct (Nat.eq_dec (S W) (length B)) as [El|]; [|lia].
        specialize (Hlast El). lia. }
      cbn [slot_of]. rewrite Hn. auto.
    + split; [|auto].
      destruct (Nat.eq_dec (S W) (length B)) as [El|]; [exact El|].
      assert (zlen data = size g) by (apply Hfull; lia). congruence.
  - eapply slots_update; [exact Hsl| |].
    + rewrite Hn, phase_of_let_go_free by (auto; lia).
      cbn [job_ok busy comp set_busy]. auto.
    + intros k Hk. rewrite Hpc.
      apply phase_of_let_go; auto; try lia.
  - unfold rank, running. fields. rewrite Hpc.
    rewrite (running_in_same _ _ j) by auto. cbn [wweight]. lia.
Qed.

Lemma writer_W_trailer R W rs s s' :
  inv w g input R W rs s -> wpc s = W_trailer -> writer w g s = Some s' ->
  inv w g input R W rs s' /\
  (rank g input R W s' < rank g input R W s)%nat.
Proof.
  intros I Hpc Hstep. pose proof I as [Hjobs HRW Hrs Hrd Hwr Hsl].
  unfold writer in Hstep. unfold writer_inv in Hwr. rewrite Hpc in Hstep, Hwr.
  destruct Hwr as (HW & Hacc & Hlen).
  injection Hstep as <-.
  split; [split|]; fields; auto.
  - eapply reader_inv_frame; eauto; fields; rewrite ?Hpc; try discriminate.
    unfold clear. fields. rewrite Hpc. intros [?|[_ [?|?]]]; auto; discriminate.
  - unfold writer_inv, acc, stream_of in *. fields.
    destruct Hacc as (-> & -> & -> & -> & ->).
    rewrite app_assoc. auto.
  - intros k j' Hk. rewrite (phase_of_wpc g HN R W _ W_finished (wpc s)); auto.
    rewrite Hpc. auto.
  - unfold rank, running. fields. rewrite Hpc. cbn [wweight]. lia.
Qed.

Lemma writer_step R W rs s s' :
  inv w g input R W rs s -> writer w g s = Some s' ->
  exists W' rs', inv w g input R W' rs' s' /\
                 (rank g input R W' s' < rank g input R W s)%nat.
Proof.
  intros I Hstep. destruct (wpc s) eqn:Hpc.
  - unfold writer in Hstep. rewrite Hpc in Hstep. discriminate.
  - exists W, rs. now apply writer_W_header.
  - exists W, rs. now apply writer_W_wait.
  - exists W, rs. now apply writer_W_join.
  - exists W, rs. now apply writer_W_set_write.
  - destruct (writer_W_write _ _ _ _ _ I Hpc Hstep) as (j & _ & H).
    exists W, (rs ++ [j]). exact H.
  - exists (S W), rs. now apply writer_W_release.
  - exists W, rs. now apply writer_W_trailer.
  - unfold writer in Hstep. rewrite Hpc in Hstep. discriminate.
Qed.

Lemma reader_inv_jobs R W s js' :
  reader_inv g input R W s ->
  (forall j, jobs s !! rn s = Some j ->
     exists j', js' !! rn s = Some j' /\ buf j' = buf j /\ len j' = len j) ->
  reader_inv g input R W (set_jobs js' s).
Proof.
  intros H Hj.
  assert (Hhas : has_buf s -> has_buf (set_jobs js' s)).
  { intros (j & H1 & H2). destruct (Hj _ H1) as (j' & H3 & H4 & _).
    exists j'. fields. split; [exact H3|congruence]. }
  assert (Hholds : holds g input R s -> holds g input R (set_jobs js' s)).
  { intros (j & data & b & H1 & H2 & H3 & H4 & H5).
    destruct (Hj _ H1) as (j' & H6 & H7 & _).
    exists j', data, b. fields. repeat split; congruence. }
  unfold reader_inv in *. fields.
  destruct (rpc s);
    repeat match goal with H : _ /\ _ |- _ => destruct H end;
    repeat split; auto.
  match goal with H : ex _ |- _ => destruct H as (j & Hl & Hlen) end.
  destruct (Hj _ Hl) as (j' & Hl' & _ & Hlen').
  exists j'. split; congruence.
Qed.

(** A compress thread runs. *)
Lemma compressor_step R W rs s s' k :
  inv w g input R W rs s -> compressor w g k s = Some s' ->
  inv w g input R W rs s' /\
  (rank g input R W s' < rank g input R W s)%nat.
Proof.
  intros I Hstep. pose proof I as [Hjobs HRW Hrs Hrd Hwr Hsl].
  unfold compressor in Hstep.
  destruct (jobs s !! k) as [j|] eqn:Hj; [|discriminate].
  cbn [mbind option_bind] in Hstep.
  destruct (jobs s !! PREV g k) as [p|] eqn:Hp; [|discriminate].
  cbn [mbind option_bind] in Hstep.
  destruct (comp j) eqn:Hcomp; try discriminate. injection Hstep as <-.
  pose proof (Hsl _ _ Hj) as Hok.
  destruct (compress_thread_keeps j p) as (Klen & Kbuf & Kbusy & Kcomp).
  set (r := compress_thread (enc w) g j p) in *.
  assert (Hlive : forall i, live w g input i j ->
                            live w g input i (set_comp Finished r)).
  { intros i [[_ Hr]|[Hc _]]; [|congruence]. right. split; [reflexivity|].
    exists j, p. split; [exact Hr|]. cbv zeta. fold r. auto. }
  split; [split|]; fields; auto.
  - now rewrite length_insert.
  - apply reader_inv_jobs; [exact Hrd|]. eapply insert_keeps; eauto.
  - eapply slots_update; [exact Hsl| |reflexivity].
    destruct (phase_of g R W (rpc s) (wpc s) k);
      cbn [job_ok buf busy comp set_comp] in *;
      rewrite ?Kbuf, ?Kbusy; try tauto;
      repeat match goal with H : _ /\ _ |- _ => destruct H end;
      try congruence; auto.
  - unfold rank, running. fields.
    pose proof (running_in_insert _ _ _ (set_comp Finished r) Hj) as E.
    unfold is_running in E. rewrite Hcomp in E. cbn [comp set_comp] in E.
    lia.
Qed.

(** Every action keeps the invariant and brings the rank down. *)
Lemma step_inv R W rs s s' :
  inv w g input R W rs s -> step w g s s' ->
  exists R' W' rs', inv w g input R' W' rs' s' /\
                    (rank g input R' W' s' < rank g input R W s)%nat.
Proof.
  intros I [[| |k] Hstep]; cbn [act] in Hstep.
  - destruct (reader_step _ _ _ _ _ I Hstep) as (R' & H). exists R', W, rs. exact H.
  - destruct (writer_step _ _ _ _ _ I Hstep) as (W' & rs' & H).
    exists R, W', rs'. exact H.
  - exists R, W, rs. eapply compressor_step; eauto.
Qed.

(** The pool as [read_thread] finds it. *)
Lemma pool_idle pool k j :
  pool_ok g pool -> jobs_new g pool !! k = Some j ->
  busy j = IDLE /\ comp j = Absent.
Proof.
  destruct pool as [js|]; cbn [pool_ok jobs_new].
  - intros [_ Hall] Hk. exact (proj1 (Forall_lookup _ _) Hall _ _ Hk).
  - intros _ Hk. apply lookup_replicate in Hk as [-> _]. auto.
Qed.

Lemma running_in_idle js :
  Forall (fun j => comp j = Absent) js -> running_in js = 0%nat.
Proof.
  induction 1 as [|j js Hj _ IH]; [reflexivity|].
  cbn [running_in]. unfold is_running. now rewrite Hj, IH.
Qed.

Lemma init_inv pool :
  pool_ok g pool -> inv w g input 0 0 [] (init g pool input).
Proof.
  intros Hpool. split; unfold init; fields.
  - destruct pool as [js|]; cbn [pool_ok jobs_new] in *;
      [apply Hpool|apply length_replicate].
  - lia.
  - intros i r Hi. discriminate.
  - unfold reader_inv. fields. auto.
  - unfold writer_inv. fields. auto.
  - intros k j Hk. unfold phase_of. cbn [Nat.sub holder is_R_set andb job_ok].
    eapply pool_idle; eauto.
Qed.

Lemma init_rank pool :
  pool_ok g pool ->
  rank g input 0 0 (init g pool input) = (16 * length B + 16)%nat.
Proof.
  intros Hpool. unfold rank, running, init. fields. cbn [rweight wweight].
  rewrite running_in_idle; [lia|].
  apply Forall_lookup. intros k j Hk. eapply pool_idle; eauto.
Qed.

(** Every state that the pipeline reaches satisfies the invariant, and the
    steps taken and the rank left add up to no more than the rank at the
    start. *)
Lemma steps_inv pool n s :
  pool_ok g pool -> steps w g n (init g pool input) s ->
  exists R W rs, inv w g input R W rs s /\
                 (n + rank g input R W s <= 16 * length B + 16)%nat.
Proof.
  intros Hpool Hsteps. remember (init g pool input) as s0 eqn:E.
  induction Hsteps as [s|n s s' s'' _ IH Hstep]; subst.
  - exists 0%nat, 0%nat, []. split; [now apply init_inv|].
    rewrite init_rank by assumption. lia.
  - destruct (IH eq_refl) as (R & W & rs & I & Hrank).
    destruct (step_inv _ _ _ _ _ I Hstep) as (R' & W' & rs' & I' & Hlt).
    exists R', W', rs'. split; [exact I'|lia].
Qed.

Lemma run_steps sched : forall s s',
  run w g sched s = Some s' -> steps w g (length sched) s s'.
Proof.
  induction sched as [|a sched IH] using rev_ind; intros s s' H.
  - injection H as <-. constructor.
  - rewrite length_app, Nat.add_comm. cbn [length Nat.add].
    assert (Hrun : forall l1 l2 s0,
      run w g (l1 ++ l2) s0 = s1 ← run w g l1 s0; run w g l2 s1).
    { induction l1 as [|a1 l1 IH1]; intros l2 s0; [reflexivity|].
      cbn [app run]. destruct (act w g a1 s0); [apply IH1|reflexivity]. }
    rewrite Hrun in H. destruct (run w g sched s) as [s1|] eqn:E; [|discriminate].
    cbn [mbind option_bind run] in H.
    destruct (act w g a s1) as [s2|] eqn:Ea; [|discriminate].
    injection H as <-. econstructor; [apply IH; exact E|]. exists a. exact Ea.
Qed.

Lemma NEXT_lt k : (k < procs g)%nat -> (NEXT g k < procs g)%nat.
Proof. unfold NEXT. destruct (Nat.eqb_spec k (procs g - 1)); lia. Qed.

Lemma PREV_lt k : (k < procs g)%nat -> (PREV g k < procs g)%nat.
Proof. unfold PREV. destruct (Nat.eqb_spec k 0); lia. Qed.

(** A unit that is not idle holds a block of the ring. *)
Lemma window_busy R W rs s k j :
  inv w g input R W rs s -> jobs s !! k = Some j -> busy j <> IDLE ->
  (W < R)%nat.
Proof.
  intros I Hk Hbusy. pose proof (inv_slots _ _ _ _ _ _ _ I _ _ Hk) as Hok.
  unfold phase_of in Hok. destruct (holder g W (R - W) k) as [i|] eqn:E.
  - apply (holder_Some g HN) in E. lia.
  - destruct (_ && _); cbn [job_ok] in Hok; tauto.
Qed.

(** While a block is in the ring, [write_thread] or the compress thread of
    the oldest block can go on. *)
Lemma writer_progress R W rs s :
  inv w g input R W rs s -> (W < R)%nat ->
  exists a s', act w g a s = Some s'.
Proof.
  intros I HWR. pose proof I as [Hjobs HRW Hrs Hrd Hwr Hsl].
  assert (Hslot : forall i, exists j, jobs s !! slot_of g i = Some j).
  { intros i. eapply lookup_slot; eauto. now apply slot_lt. }
  unfold writer_inv in Hwr. destruct (wpc s) eqn:Hpc.
  - destruct Hwr as (_ & _ & Hr). unfold reader_inv in Hrd.
    rewrite Hr in Hrd. lia.
  - exists Writer. cbn [act]. unfold writer. rewrite Hpc.
    destruct (Framing.put_header (clk w) g). eauto.
  - destruct Hwr as (_ & Hn & _). destruct (Hslot W) as [j Hj].
    pose proof (Hsl _ _ Hj) as Hok.
    rewrite phase_of_window, Nat.eqb_refl in Hok by (auto; lia).
    cbn [wphase job_ok] in Hok. destruct Hok as (_ & Hbusy & _).
    exists Writer. cbn [act]. unfold writer. rewrite Hpc, Hn, Hj.
    cbn [mbind option_bind]. rewrite Hbusy. cbn. eauto.
  - destruct Hwr as (_ & Hn & _). destruct (Hslot W) as [j Hj].
    pose proof (Hsl _ _ Hj) as Hok.
    rewrite phase_of_window, Nat.eqb_refl in Hok by (auto; lia).
    cbn [wphase job_ok] in Hok. destruct Hok as (_ & _ & [[Hc _]|[Hc _]]).
    + destruct (lookup_slot _ _ _ _ (PREV g (slot_of g W)) I) as [p Hp].
      { apply PREV_lt. now apply slot_lt. }
      exists (Compressor (slot_of g W)). cbn [act]. unfold compressor.
      rewrite Hj. cbn [mbind option_bind]. rewrite Hp.
      cbn [mbind option_bind]. rewrite Hc. eauto.
    + exists Writer. cbn [act]. unfold writer. rewrite Hpc, Hn, Hj.
      cbn [mbind option_bind]. rewrite Hc. eauto.
  - destruct Hwr as (_ & Hn & _). destruct (Hslot W) as [j Hj].
    exists Writer. cbn [act]. unfold writer. rewrite Hpc, Hn, Hj.
    cbn [mbind option_bind]. eauto.
  - destruct Hwr as (_ & Hn & _). destruct (Hslot W) as [j Hj].
    exists Writer. cbn [act]. unfold writer. rewrite Hpc, Hn, Hj.
    cbn [mbind option_bind]. eauto.
  - destruct Hwr as (_ & Hn & _). destruct (Hslot W) as [j Hj].
    exists Writer. cbn [act]. unfold writer. rewrite Hpc, Hn, Hj.
    cbn [mbind option_bind]. eauto.
  - exists Writer. cbn [act]. unfold writer. rewrite Hpc. eauto.
  - lia.
Qed.

(** The pipeline cannot get stuck before [read_thread] is done. *)
Lemma progress R W rs s :
  inv w g input R W rs s -> rpc s <> R_done ->
  exists a s', act w g a s = Some s'.
Proof.
  intros I Hne. pose proof I as [Hjobs HRW Hrs Hrd Hwr Hsl].
  assert (Hlook : forall k, (k < procs g)%nat -> exists j, jobs s !! k = Some j).
  { intros k Hk. eapply lookup_slot; eauto. }
  assert (Hgo : forall j, jobs s !! rn s = Some j \/
                          jobs s !! NEXT g (rn s) = Some j ->
                          busy j <> IDLE -> exists a s', act w g a s = Some s').
  { intros j [Hj|Hj] Hb; eapply writer_progress; eauto;
      eapply window_busy; eauto. }
  unfold reader_inv in Hrd. destruct (rpc s) eqn:Hpc.
  - exists Reader. cbn [act]. unfold reader. rewrite Hpc. eauto.
  - destruct Hrd as (_ & Hn & _). destruct (Hlook (rn s)) as [j Hj].
    { rewrite Hn. now apply slot_lt. }
    exists Reader. cbn [act]. unfold reader. rewrite Hpc, Hj.
    cbn [mbind option_bind]. eauto.
  - destruct Hrd as (_ & Hn & _). destruct (Hlook (rn s)) as [j Hj].
    { rewrite Hn. now apply slot_lt. }
    destruct (Z.eqb_spec (busy j) COMP) as [Hb|Hb].
    + apply (Hgo j); auto. rewrite Hb. discriminate.
    + exists Reader. cbn [act]. unfold reader. rewrite Hpc, Hj.
      cbn [mbind option_bind]. apply Z.eqb_neq in Hb. rewrite Hb. eauto.
  - destruct Hrd as (_ & Hn & _). destruct (Hlook (NEXT g (rn s))) as [j Hj].
    { apply NEXT_lt. rewrite Hn. now apply slot_lt. }
    destruct (Z.eqb_spec (busy j) COMP) as [Hb|Hb].
    + apply (Hgo j); auto. rewrite Hb. discriminate.
    + exists Reader. cbn [act]. unfold reader. rewrite Hpc, Hj.
      cbn [mbind option_bind]. apply Z.eqb_neq in Hb. rewrite Hb. eauto.
  - destruct Hrd as (_ & Hn & _). destruct (Hlook (rn s)) as [j Hj].
    { rewrite Hn. now apply slot_lt. }
    exists Reader. cbn [act]. unfold reader. rewrite Hpc, Hj.
    cbn [mbind option_bind]. destruct (readn _ _). eauto.
  - destruct Hrd as (_ & Hn & _). destruct (Hlook (rn s)) as [j Hj].
    { rewrite Hn. now apply slot_lt. }
    destruct (Z.eqb_spec (busy j) IDLE) as [Hb|Hb].
    + exists Reader. cbn [act]. unfold reader. rewrite Hpc, Hj.
      cbn [mbind option_bind]. rewrite Hb. cbn. eauto.
    + apply (Hgo j); auto.
  - destruct Hrd as (_ & Hn & _). destruct (Hlook (rn s)) as [j Hj].
    { rewrite Hn. now apply slot_lt. }
    exists Reader. cbn [act]. unfold reader. rewrite Hpc, Hj.
    cbn [mbind option_bind]. eauto.
  - destruct Hrd as (_ & Hn & _). destruct (Hlook (rn s)) as [j Hj].
    { rewrite Hn. now apply slot_lt. }
    exists Reader. cbn [act]. unfold reader. rewrite Hpc, Hj.
    cbn [mbind option_bind]. eauto.
  - destruct Hrd as (_ & Hn & _). destruct (Hlook (rn s)) as [j Hj].
    { rewrite Hn. now apply slot_lt. }
    exists Reader. cbn [act]. unfold reader. rewrite Hpc, Hj.
    cbn [mbind option_bind]. eauto.
  - destruct Hrd as [HR Hwa]. unfold writer_inv in Hwr.
    destruct (wpc s) eqn:Hw; try (now destruct Hwa);
      try (apply (writer_progress _ _ _ _ I); lia).
    + exists Writer. cbn [act]. unfold writer. rewrite Hw.
      destruct (Framing.put_header (clk w) g). eauto.
    + exists Writer. cbn [act]. unfold writer. rewrite Hw. eauto.
    + exists Reader. cbn [act]. unfold reader. rewrite Hpc, Hw. eauto.
  - now destruct Hne.
Qed.

End PipelineFacts.

(** ** [compress_thread] *)

Section CompressFacts.
Import Deflate Pipeline Ring.
Context (e : encoder) (g : globals).

Lemma flushes_app s1 s2 : flushes (s1 ++ s2) = flushes s1 ++ flushes s2.
Proof. apply omap_app. Qed.

Lemma inputs_app s1 s2 : inputs (s1 ++ s2) = inputs s1 ++ inputs s2.
Proof. unfold inputs. now rewrite map_app, concat_app. Qed.

Lemma dictionaries_app s1 s2 :
  dictionaries (s1 ++ s2) = dictionaries s1 ++ dictionaries s2.
Proof. apply omap_app. Qed.

(** The check of a buffer may be taken piece by piece. *)
Lemma crc32_chain c a b :
  Comb.crc32 (Comb.crc32 c a) b = Comb.crc32 c (a ++ b).
Proof.
  unfold Comb.crc32. rewrite fold_left_app. do 2 f_equal.
  now rewrite Z.lxor_assoc, Z.lxor_nilpotent, Z.lxor_0_r.
Qed.

Lemma adler_halves s1 s2 :
  0 <= s1 < 2 ^ 16 -> 0 <= s2 < 2 ^ 16 ->
  Z.land (Z.lor (Z.shiftl s2 16) s1) Comb.LOW16 = s1 /\
  Z.land (Z.shiftr (Z.lor (Z.shiftl s2 16) s1) 16) Comb.LOW16 = s2.
Proof.
  intros H1 H2. change Comb.LOW16 with (Z.ones 16).
  rewrite !Z.land_ones by lia. rewrite Z.shiftr_lor, Z.shiftr_shiftl_l by lia.
  change (16 - 16) with 0. rewrite Z.shiftl_0_r.
  rewrite (Z.shiftr_div_pow2 s1), (Z.div_small s1), Z.lor_0_r by lia.
  split; [|apply Z.mod_small; lia].
  rewrite <- Z.land_ones, Z.land_lor_distr_l, !Z.land_ones by lia.
  rewrite Z.shiftl_mul_pow2, Z.mod_mul, Z.lor_0_l by lia.
  apply Z.mod_small. lia.
Qed.

Lemma adler_bytes_range buf s :
  0 <= fst s < 2 ^ 16 -> 0 <= snd s < 2 ^ 16 ->
  0 <= fst (fold_left Comb.adler_byte buf s) < 2 ^ 16 /\
  0 <= snd (fold_left Comb.adler_byte buf s) < 2 ^ 16.
Proof.
  revert s. induction buf as [|b buf IH]; intros s H1 H2; [auto|].
  cbn [fold_left]. apply IH; unfold Comb.adler_byte; cbn [fst snd];
    match goal with |- _ <= ?x mod _ < _ =>
      pose proof (Z.mod_pos_bound x Comb.BASE eq_refl) end;
    unfold Comb.BASE in *; lia.
Qed.

Lemma adler32_chain c a b :
  Comb.adler32 (Comb.adler32 c a) b = Comb.adler32 c (a ++ b).
Proof.
  unfold Comb.adler32. rewrite fold_left_app. cbv zeta.
  set (s0 := (Z.land c Comb.LOW16, Z.land (Z.shiftr c 16) Comb.LOW16)).
  assert (H0 : 0 <= fst s0 < 2 ^ 16 /\ 0 <= snd s0 < 2 ^ 16).
  { subst s0. cbn [fst snd]. change Comb.LOW16 with (Z.ones 16).
    rewrite !Z.land_ones by lia.
    split; apply Z.mod_pos_bound; lia. }
  destruct (adler_bytes_range a s0 (proj1 H0) (proj2 H0)) as [H1 H2].
  destruct (adler_halves _ _ H1 H2) as [-> ->].
  now rewrite <- surjective_pairing.
Qed.

Lemma CHECK_chain c a b : CHECK g (CHECK g c a) b = CHECK g c (a ++ b).
Proof.
  unfold CHECK. destruct (form g =? 1);
    [apply adler32_chain|apply crc32_chain].
Qed.

Lemma check_deflate_strm st a f :
  c_strm (check_deflate e g st a f) =
  c_strm st ++ [Deflate (take (Z.to_nat a) (c_next_in st)) f].
Proof. reflexivity. Qed.

Lemma check_deflate_next_in st a f :
  c_next_in (check_deflate e g st a f) = drop (Z.to_nat a) (c_next_in st).
Proof. reflexivity. Qed.

Lemma check_deflate_check st a f :
  c_check (check_deflate e g st a f) =
  CHECK g (c_check st) (take (Z.to_nat a) (c_next_in st)).
Proof. reflexivity. Qed.

Lemma flushes_deflate i f : flushes [Deflate i f] = [f].
Proof. reflexivity. Qed.

Lemma dictionaries_deflate i f : dictionaries [Deflate i f] = [].
Proof. reflexivity. Qed.

Lemma inputs_deflate i f : inputs [Deflate i f] = i.
Proof. unfold inputs. cbn [map concat]. apply app_nil_r. Qed.

(** The [while (len > MAX)] loop of [compress_thread]: [m] rounds, each
    taking [MAX] bytes without a flush. *)
Lemma max_chunks_spec n : forall st len st' len',
  max_chunks n e g st len = (st', len') -> 0 <= len ->
  exists m : nat,
    len = Z.of_nat m * MAX + len' /\ 0 <= len' /\
    (len / MAX <= Z.of_nat n -> len' <= MAX) /\
    flushes (c_strm st') = flushes (c_strm st) ++ replicate m Z_NO_FLUSH /\
    dictionaries (c_strm st') = dictionaries (c_strm st) /\
    inputs (c_strm st') =
      inputs (c_strm st) ++ take (m * Z.to_nat MAX) (c_next_in st) /\
    c_next_in st' = drop (m * Z.to_nat MAX) (c_next_in st) /\
    forall x, CHECK g (c_check st') x =
              CHECK g (c_check st) (take (m * Z.to_nat MAX) (c_next_in st) ++ x).
Proof.
  assert (HM : 0 < MAX) by reflexivity.
  induction n as [|n IH]; intros st len st' len' H Hlen; cbn [max_chunks] in H.
  - injection H as <- <-. exists 0%nat. cbn [replicate Nat.mul take drop].
    rewrite !app_nil_r. repeat split; auto; try lia.
    intros Hd. assert (len / MAX = 0) as Hq by (pose proof (Z.div_pos len MAX); lia).
    apply Z.div_small_iff in Hq; lia.
  - destruct (Z.gtb_spec len MAX) as [Hgt|Hle].
    + destruct (IH _ _ _ _ H ltac:(lia))
        as (m & El & Hl' & Hfuel & Hf & Hd & Hi & Hn & Hc).
      clear IH H. exists (S m).
      rewrite check_deflate_strm in Hf, Hd, Hi.
      rewrite check_deflate_next_in in Hi, Hn, Hc.
      rewrite check_deflate_check in Hc.
      rewrite flushes_app in Hf. rewrite dictionaries_app in Hd.
      rewrite inputs_app in Hi.
      rewrite flushes_deflate in Hf. rewrite dictionaries_deflate in Hd.
      rewrite inputs_deflate in Hi. rewrite app_nil_r in Hd.
      rewrite Nat.mul_succ_l, (Nat.add_comm _ (Z.to_nat MAX)).
      rewrite <- take_take_drop, <- drop_drop.
      split; [clear - El; lia|].
      split; [exact Hl'|].
      split.
      { intros Hq. apply Hfuel. clear - Hq Hgt HM.
        replace len with ((len - MAX) + 1 * MAX) in Hq by lia.
        rewrite Z.div_add in Hq by lia. lia. }
      split; [rewrite Hf, <- app_assoc; reflexivity|].
      split; [exact Hd|].
      split; [rewrite Hi, <- !app_assoc; reflexivity|].
      split; [exact Hn|].
      intros x. rewrite Hc, CHECK_chain, <- app_assoc. reflexivity.
    + injection H as <- <-. exists 0%nat. cbn [replicate Nat.mul take drop].
      rewrite !app_nil_r. repeat split; auto; lia.
Qed.
Lemma max_chunks_exits st len :
  0 <= len -> snd (max_chunks (Z.to_nat (len / MAX)) e g st len) <= MAX.
Proof.
  intros Hlen. destruct (max_chunks _ e g st len) as [st' len'] eqn:E.
  destruct (max_chunks_spec _ _ _ _ _ E Hlen) as (m & _ & _ & H & _).
  cbn [snd]. apply H. pose proof (Z.div_pos len MAX Hlen eq_refl). lia.
Qed.

Lemma emit_past lvl cs : forall p o,
  fst (fold_left (emit_call e lvl) cs (p, o)) = p ++ cs.
Proof.
  induction cs as [|c cs IH]; intros p o; cbn [fold_left].
  - now rewrite app_nil_r.
  - unfold emit_call at 2. cbn [fst snd]. rewrite IH, <- app_assoc. reflexivity.
Qed.

Lemma emitted_deflate lvl s i f :
  emitted e lvl (s ++ [Deflate i f]) =
  emitted e lvl s ++ e lvl (s ++ [Deflate i f]).
Proof.
  unfold emitted. rewrite fold_left_app. cbn [fold_left].
  unfold emit_call at 1. cbn [snd]. now rewrite emit_past.
Qed.

Lemma emitted_dictionary lvl s d :
  emitted e lvl (s ++ [SetDictionary d]) = emitted e lvl s.
Proof.
  unfold emitted. rewrite fold_left_app. cbn [fold_left].
  unfold emit_call at 1. cbn [snd]. apply app_nil_r.
Qed.

Lemma check_deflate_out st a f :
  c_out st = emitted e (level g) (c_strm st) ->
  c_out (check_deflate e g st a f) =
  emitted e (level g) (c_strm (check_deflate e g st a f)).
Proof.
  intros H. rewrite check_deflate_strm, emitted_deflate, <- H. reflexivity.
Qed.

Lemma max_chunks_out n : forall st len,
  c_out st = emitted e (level g) (c_strm st) ->
  c_out (fst (max_chunks n e g st len)) =
  emitted e (level g) (c_strm (fst (max_chunks n e g st len))).
Proof.
  induction n as [|n IH]; intros st len H; cbn [max_chunks]; [exact H|].
  destruct (len >? MAX); [|exact H]. apply IH. now apply check_deflate_out.
Qed.

(** The output of a work unit is what the encoder emitted over the calls
    made on its stream. *)
Lemma compress_thread_out job prev :
  out (compress_thread e g job prev) =
  emitted e (level g) (strm (compress_thread e g job prev)).
Proof.
  unfold compress_thread.
  set (strm0 := match buf prev with Some _ => _ | None => _ end).
  assert (H0 : [] = emitted e (level g) strm0).
  { subst strm0. unfold deflateReset, deflateSetDictionary.
    destruct (buf prev); [|reflexivity]. destruct (_ && _); reflexivity. }
  clearbody strm0.
  set (st0 := {| c_strm := strm0; c_next_in := _; c_out := []; c_check := _ |}).
  pose proof (max_chunks_out (Z.to_nat (len job / MAX)) st0 (len job) H0) as H.
  destruct (max_chunks _ e g st0 (len job)) as [st' len'].
  cbn [fst] in H. cbn [out strm]. now apply check_deflate_out.
Qed.

(** A block of no bytes: one [deflate] call that finishes the stream, and
    no dictionary. *)
Lemma compress_thread_empty job prev :
  len job = 0 -> 0 < size g ->
  strm (compress_thread e g job prev) = [Deflate [] Z_FINISH].
Proof.
  intros Hl Hs. unfold compress_thread. rewrite Hl.
  change (0 =? 0) with true. rewrite andb_false_r.
  change (Z.to_nat (0 / MAX)) with 0%nat. cbn [max_chunks].
  destruct (Z.ltb_spec 0 (size g)) as [_|]; [|lia].
  rewrite check_deflate_strm. cbn [c_strm c_next_in strm].
  change (Z.to_nat 0) with 0%nat. cbn [take].
  unfold deflateReset. now destruct (buf prev).
Qed.

(** What [compress_thread] does with a block: the calls on the stream and
    the check value. *)
Lemma compress_thread_spec job prev :
  0 <= len job ->
  let r := compress_thread e g job prev in
  let data := take (Z.to_nat (len job)) (default [] (buf job)) in
  (exists m,
     flushes (strm r) =
       replicate m Z_NO_FLUSH ++
       [if len job <? size g then Z_FINISH else Z_SYNC_FLUSH]) /\
  inputs (strm r) = data /\
  check r = CHECK g (CHECK_init g) data /\
  dictionaries (strm r) =
    match buf prev with
    | Some pb =>
        if dict g && negb (len job =? 0)
        then [take (Z.to_nat DICT) (drop (Z.to_nat (size g - DICT)) pb)]
        else []
    | None => []
    end.
Proof.
  intros Hlen. cbv zeta. unfold compress_thread.
  change (match buf job with Some b => b | None => [] end)
    with (default [] (buf job)).
  set (b := default [] (buf job)).
  set (strm0 := match buf prev with Some _ => _ | None => _ end).
  assert (Hf0 : flushes strm0 = []).
  { subst strm0. destruct (buf prev); [|reflexivity].
    destruct (_ && _); reflexivity. }
  assert (Hi0 : inputs strm0 = []).
  { subst strm0. destruct (buf prev); [|reflexivity].
    destruct (_ && _); reflexivity. }
  assert (Hd0 : dictionaries strm0 =
    match buf prev with
    | Some pb =>
        if dict g && negb (len job =? 0)
        then [take (Z.to_nat DICT) (drop (Z.to_nat (size g - DICT)) pb)]
        else []
    | None => []
    end).
  { subst strm0. destruct (buf prev); [|reflexivity].
    destruct (_ && _); reflexivity. }
  clearbody strm0.
  destruct (max_chunks _ e g _ (len job)) as [st' len'] eqn:E.
  destruct (max_chunks_spec _ _ _ _ _ E Hlen)
    as (m & El & Hl' & _ & Hf & Hd & Hi & Hn & Hc).
  cbn [c_strm c_next_in c_check] in Hf, Hd, Hi, Hn, Hc.
  cbn [strm check].
  rewrite check_deflate_strm, check_deflate_check.
  rewrite flushes_app, inputs_app, dictionaries_app, Hf, Hi, Hd, Hn, Hc.
  rewrite flushes_deflate, inputs_deflate, dictionaries_deflate.
  rewrite Hf0, Hi0, Hd0, app_nil_r, !app_nil_l.
  assert (Et : take (m * Z.to_nat MAX) b
               ++ take (Z.to_nat len') (drop (m * Z.to_nat MAX) b)
               = take (Z.to_nat (len job)) b).
  { rewrite take_take_drop. f_equal. pose proof MAX_eq. nia. }
  rewrite Et. repeat split; auto. exists m. reflexivity.
Qed.

End CompressFacts.

(** ** The pipeline: what comes out *)

Section PipelineResults.
Import Deflate Pipeline Ring.
Context (w : world) (g : globals) (input : list Z).
Context (HN : (0 < procs g)%nat) (Hsize : 0 < size g).

Local Abbreviation B := (blocks (size g) input).

(** What the results of [compress_thread] on block [i] are. *)
Lemma done_compressed i r :
  done_ w g input i r ->
  exists data, B !! i = Some data /\ compressed w g data r /\
    (exists m, flushes (strm r) =
       replicate m Z_NO_FLUSH ++
       [if zlen data <? size g then Z_FINISH else Z_SYNC_FLUSH]) /\
    (zlen data = 0 -> strm r = [Deflate [] Z_FINISH]).
Proof.
  intros (j0 & p & (data & b & Hd & Hl & Hb & Ht) & Hlen & Hcheck & Hout & Hstrm).
  assert (H0 : 0 <= len j0) by (rewrite Hl; unfold zlen; lia).
  destruct (compress_thread_spec (enc w) g j0 p H0) as (Hf & Hi & Hc & _).
  assert (E : take (Z.to_nat (len j0)) (default [] (buf j0)) = data).
  { rewrite Hb, Hl. unfold zlen. rewrite Nat2Z.id. exact Ht. }
  rewrite E in Hi, Hc.
  destruct (compress_thread_keeps w g j0 p) as (Kl & _).
  exists data. split; [exact Hd|]. split; [|split].
  - unfold compressed. rewrite Hlen, Hcheck, Hout, Hstrm, Kl.
    repeat split; auto. apply compress_thread_out.
  - rewrite Hstrm, <- Hl. exact Hf.
  - intros Hz. rewrite Hstrm. apply compress_thread_empty; [congruence|exact Hsize].
Qed.

(** The state in which [write_thread] has finished. *)
Lemma pipeline_finished pool n s :
  pool_ok g pool -> steps w g n (init g pool input) s -> wpc s = W_finished ->
  exists rs, outd s = stream_of w g rs /\ length rs = length B /\
             forall i r, rs !! i = Some r -> done_ w g input i r.
Proof.
  intros Hpool Hsteps Hw.
  destruct (steps_inv w g input HN Hsize pool n s Hpool Hsteps)
    as (R & W & rs & I & _).
  pose proof (inv_writer _ _ _ _ _ _ _ I) as Hwr. unfold writer_inv in Hwr.
  rewrite Hw in Hwr. destruct Hwr as (-> & Hlen & Ho).
  exists rs. split; [exact Ho|]. split; [exact Hlen|].
  exact (inv_rs _ _ _ _ _ _ _ I).
Qed.

Lemma results_compressed rs :
  length rs = length B ->
  (forall i r, rs !! i = Some r -> done_ w g input i r) ->
  Forall2 (compressed w g) B rs.
Proof.
  intros Hlen Hrs. apply Forall2_same_length_lookup_2; [now symmetry|].
  intros i data r Hd Hr.
  destruct (done_compressed i r (Hrs _ _ Hr)) as (data' & Hd' & Hc & _).
  congruence.
Qed.

Lemma results_flushes rs i r :
  length rs = length B ->
  (forall i r, rs !! i = Some r -> done_ w g input i r) ->
  rs !! i = Some r ->
  exists m, flushes (strm r) =
            replicate m Z_NO_FLUSH ++ [block_flush (length rs) i].
Proof.
  intros Hlen Hrs Hr.
  destruct (done_compressed i r (Hrs _ _ Hr)) as (data & Hd & _ & [m Hf] & _).
  exists m. rewrite Hf. do 2 f_equal. unfold block_flush. rewrite Hlen.
  pose proof (lookup_lt_Some _ _ _ Hd) as Hi.
  destruct (block_full g input HN Hsize i data Hd) as [Hfull Hlast].
  destruct (Nat.ltb_spec (S i) (length B)) as [Hlt|Hge].
  - rewrite (Hfull Hlt). now rewrite Z.ltb_irrefl.
  - assert (Hz : zlen data < size g) by (apply Hlast; lia).
    apply Z.ltb_lt in Hz. now rewrite Hz.
Qed.

End PipelineResults.

(** ** The pipeline: the claims *)

Section PipelineClaims.
Import Deflate Pipeline Ring.

Lemma written_finished s : written s = true -> wpc s = W_finished.
Proof. unfold written. now destruct (wpc s). Qed.

Lemma complete_run w g sched input :
  complete w g sched input = true ->
  exists s, run w g sched (init g None input) = Some s /\ wpc s = W_finished.
Proof.
  unfold complete. destruct (run w g sched (init g None input)) as [s|];
    [|discriminate].
  intros H. exists s. split; [reflexivity|now apply written_finished].
Qed.

Lemma complete_short_tail :
  complete some_world default_globals two_blocks_schedule short_tail = true.
Proof. vm_compute. reflexivity. Qed.

Lemma complete_zero_block :
  complete some_world default_globals two_blocks_schedule zero_block = true.
Proof. vm_compute. reflexivity. Qed.

(** The input is a whole number of blocks: the last block is empty. *)
Lemma blocks_multiple sz inp k :
  0 < sz -> 0 <= k -> zlen inp = k * sz ->
  length (blocks sz inp) = S (Z.to_nat k) /\ last (blocks sz inp) = Some [].
Proof.
  intros Hsz Hk Hlen.
  destruct (blocks_spec sz inp Hsz) as (Hc & full & lst & E & Hfull & Hlast).
  assert (Hsum : zlen (concat full) = Z.of_nat (length full) * sz).
  { clear - Hfull. induction Hfull as [|b full Hb _ IH]; [reflexivity|].
    cbn [concat length]. unfold zlen in *. rewrite length_app. lia. }
  rewrite E in Hc. rewrite concat_app in Hc. cbn [concat] in Hc.
  rewrite app_nil_r in Hc. rewrite <- Hc in Hlen. unfold zlen in *.
  rewrite length_app in Hlen.
  assert (Z.of_nat (length lst) = (k - Z.of_nat (length full)) * sz) by lia.
  assert (k - Z.of_nat (length full) = 0) by nia.
  assert (length lst = 0)%nat by lia.
  rewrite E, length_app, last_snoc. cbn [length].
  destruct lst; [|discriminate]. split; [lia|reflexivity].
Qed.

(** C1.  With more than one compress thread, whatever the input and however
    the threads are scheduled, what [write_thread] has written when it
    returns is the header, then the output of the work units in the order of
    the blocks of the input, then the trailer.  The blocks are the input cut
    at every [size] bytes, up to and with the first block shorter than
    [size]; each output is that of compressing its block; the lengths and
    the check value in the trailer are folded over the blocks first to last,
    the check as [COMB(check, block check, block length)] from
    [CHECK(0L, Z_NULL, 0)].  The block size is at least [DICT], which the
    option parser sees to, and a pool of work units left from an earlier
    file has [procs] units, all idle. *)
Theorem pipeline_output w g input pool n s :
  (1 < procs g)%nat -> DICT <= size g -> pool_ok g pool ->
  steps w g n (init g pool input) s -> wpc s = W_finished ->
  exists full last rs,
    blocks (size g) input = full ++ [last] /\
    concat (full ++ [last]) = input /\
    Forall (fun b => zlen b = size g) full /\ zlen last < size g /\
    Forall2 (compressed w g) (full ++ [last]) rs /\
    outd s =
      fst (Framing.put_header (clk w) g) ++
      concat (map out rs) ++
      Framing.put_trailer (clk w) g
        (fold_left (fun a r => ulong (a + len r)) rs 0)
        (fold_left (fun a r => ulong (a + zlen (out r))) rs 0)
        (fold_left (fun a r => COMB g a (check r) (len r)) rs (CHECK_init g))
        (snd (Framing.put_header (clk w) g)).
Proof.
  intros HN Hsize Hpool Hsteps Hw.
  assert (HN' : (0 < procs g)%nat) by lia.
  assert (Hsize' : 0 < size g) by (unfold DICT in Hsize; lia).
  destruct (pipeline_finished w g input HN' Hsize' pool n s Hpool Hsteps Hw)
    as (rs & Ho & Hlen & Hrs).
  destruct (blocks_spec (size g) input Hsize')
    as (Hc & full & lst & E & Hfull & Hlast).
  exists full, lst, rs. rewrite <- E.
  repeat split; auto.
  now apply results_compressed.
Qed.

Lemma pipeline_output_witness :
  exists s,
    run some_world default_globals two_blocks_schedule
      (init default_globals None short_tail) = Some s /\
    exists full last rs,
      blocks 32768 short_tail = full ++ [last] /\
      concat (full ++ [last]) = short_tail /\
      Forall (fun b => zlen b = 32768) full /\ zlen last < 32768 /\
      Forall2 (compressed some_world default_globals) (full ++ [last]) rs /\
      outd s =
        fst (Framing.put_header some_clock default_globals) ++
        concat (map out rs) ++
        Framing.put_trailer some_clock default_globals
          (fold_left (fun a r => ulong (a + len r)) rs 0)
          (fold_left (fun a r => ulong (a + zlen (out r))) rs 0)
          (fold_left (fun a r => COMB default_globals a (check r) (len r)) rs
             (CHECK_init default_globals))
          (snd (Framing.put_header some_clock default_globals)).
Proof.
  destruct (complete_run _ _ _ _ complete_short_tail) as (s & Hrun & Hw).
  exists s. split; [exact Hrun|].
  apply (pipeline_output some_world default_globals short_tail None
           (length two_blocks_schedule) s).
  - cbn [procs default_globals]. lia.
  - cbn [size default_globals]. unfold DICT. lia.
  - exact I.
  - apply run_steps. exact Hrun.
  - exact Hw.
Defined.

(** C4.  On the parallel path the last [deflate] call that
    [compress_thread] makes for a block has [Z_SYNC_FLUSH] unless the block
    is shorter than [size], when it has [Z_FINISH]; the calls before it, made
    for pieces of [MAX] bytes, have [Z_NO_FLUSH].  So of the streams whose
    output [write_thread] has written when it returns, one for each block of
    the input, every one but the last ends with a sync flush and the last
    with a finish.  The block size is at least [DICT] and a
    pool left from an earlier file has [procs] idle units. *)
Theorem pipeline_flushes w g input pool n s :
  (1 < procs g)%nat -> DICT <= size g -> pool_ok g pool ->
  steps w g n (init g pool input) s -> wpc s = W_finished ->
  (forall job prev, 0 <= len job ->
     exists m, flushes (strm (compress_thread (enc w) g job prev)) =
               replicate m Z_NO_FLUSH ++
               [if len job <? size g then Z_FINISH else Z_SYNC_FLUSH]) /\
  exists rs,
    outd s = stream_of w g rs /\
    Forall2 (compressed w g) (blocks (size g) input) rs /\
    forall i r, rs !! i = Some r ->
      exists m, flushes (strm r) =
                replicate m Z_NO_FLUSH ++ [block_flush (length rs) i].
Proof.
  intros HN Hsize Hpool Hsteps Hw.
  assert (HN' : (0 < procs g)%nat) by lia.
  assert (Hsize' : 0 < size g) by (unfold DICT in Hsize; lia).
  split.
  - intros job prev Hlen.
    apply (compress_thread_spec (enc w) g job prev Hlen).
  - destruct (pipeline_finished w g input HN' Hsize' pool n s Hpool Hsteps Hw)
      as (rs & Ho & Hlen & Hrs).
    exists rs. split; [exact Ho|]. split; [now apply results_compressed|].
    intros i r Hr. eapply results_flushes; eauto.
Qed.

Lemma pipeline_flushes_witness :
  exists s,
    run some_world default_globals two_blocks_schedule
      (init default_globals None short_tail) = Some s /\
    exists rs,
      outd s = stream_of some_world default_globals rs /\
      Forall2 (compressed some_world default_globals)
        (blocks 32768 short_tail) rs /\
      forall i r, rs !! i = Some r ->
        exists m, flushes (strm r) =
                  replicate m Z_NO_FLUSH ++ [block_flush (length rs) i].
Proof.
  destruct (complete_run _ _ _ _ complete_short_tail) as (s & Hrun & Hw).
  exists s. split; [exact Hrun|].
  apply (pipeline_flushes some_world default_globals short_tail None
           (length two_blocks_schedule) s).
  - cbn [procs default_globals]. lia.
  - cbn [size default_globals]. unfold DICT. lia.
  - exact I.
  - apply run_steps. exact Hrun.
  - exact Hw.
Defined.

(** C10.  However the threads are scheduled, the pipeline makes no more than
    16 steps for each block and 16 more, and it can go on as long as
    [read_thread] has not returned, which it does only after [write_thread]
    has: both loops come to their ends.  The last stream whose output has
    been written is then that of a block shorter than [size], ended by a
    finish.  If the length of the input is [k] times [size] with [k]
    positive, that block is block [k], which [read_thread] got from a read
    of no bytes: its stream has had the one call [deflate] with no input
    and [Z_FINISH], and no dictionary.  The block size is at least [DICT] and
    a pool left from an earlier file has [procs] idle units. *)
Theorem final_block w g input pool n s :
  (1 < procs g)%nat -> DICT <= size g -> pool_ok g pool ->
  steps w g n (init g pool input) s ->
  (n <= 16 * length (blocks (size g) input) + 16)%nat /\
  (rpc s <> R_done -> exists a s', act w g a s = Some s') /\
  (rpc s = R_done -> wpc s = W_finished) /\
  (wpc s = W_finished ->
   exists rs r,
     outd s = stream_of w g (rs ++ [r]) /\
     Forall2 (compressed w g) (blocks (size g) input) (rs ++ [r]) /\
     len r < size g /\
     (exists m, flushes (strm r) = replicate m Z_NO_FLUSH ++ [Z_FINISH]) /\
     forall k, 0 < k -> zlen input = k * size g ->
       length rs = Z.to_nat k /\
       last (blocks (size g) input) = Some [] /\
       len r = 0 /\ strm r = [Deflate [] Z_FINISH]).
Proof.
  intros HN Hsize Hpool Hsteps.
  assert (HN' : (0 < procs g)%nat) by lia.
  assert (Hsize' : 0 < size g) by (unfold DICT in Hsize; lia).
  destruct (steps_inv w g input HN' Hsize' pool n s Hpool Hsteps)
    as (R & W & rs0 & I & Hrank).
  split; [lia|]. split; [now apply (progress w g input HN' R W rs0 s I)|].
  split.
  { intros Hr. pose proof (inv_reader _ _ _ _ _ _ _ I) as Hrd.
    unfold reader_inv in Hrd. rewrite Hr in Hrd. apply Hrd. }
  intros Hw.
  destruct (pipeline_finished w g input HN' Hsize' pool n s Hpool Hsteps Hw)
    as (rs & Ho & Hlen & Hrs).
  pose proof (blocks_nonempty g input HN' Hsize') as Hpos.
  destruct rs as [|r0 rs1] using rev_ind; [cbn [length] in Hlen; lia|].
  clear IHrs1. rename rs1 into rs', r0 into r.
  rewrite length_app in Hlen. cbn [length] in Hlen.
  assert (Hr : (rs' ++ [r]) !! length rs' = Some r).
  { rewrite lookup_app_r by lia. now rewrite Nat.sub_diag. }
  destruct (done_compressed w g input HN' Hsize' _ _ (Hrs _ _ Hr))
    as (data & Hd & Hc & [m Hf] & Hempty).
  destruct (block_full g input HN' Hsize' _ _ Hd) as [_ Hshort].
  specialize (Hshort ltac:(lia)).
  exists rs', r. split; [exact Ho|]. split.
  { apply results_compressed; auto. rewrite length_app. cbn [length]. lia. }
  split; [destruct Hc as [-> _]; exact Hshort|].
  split.
  { exists m. rewrite Hf. apply Z.ltb_lt in Hshort. now rewrite Hshort. }
  intros k Hk Hin.
  destruct (blocks_multiple (size g) input k Hsize' ltac:(lia) Hin)
    as [Hn Hl].
  assert (Hdata : data = []).
  { rewrite last_lookup in Hl. replace (length rs') with
      (pred (length (blocks (size g) input))) in Hd by lia. congruence. }
  subst data. split; [lia|]. split; [exact Hl|].
  split; [destruct Hc as [-> _]; reflexivity|]. now apply Hempty.
Qed.

Lemma final_block_witness :
  exists s,
    run some_world default_globals two_blocks_schedule
      (init default_globals None zero_block) = Some s /\
    wpc s = W_finished /\
    (length two_blocks_schedule <= 16 * length (blocks 32768 zero_block) + 16)%nat /\
    (rpc s <> R_done ->
     exists a s', act some_world default_globals a s = Some s') /\
    (rpc s = R_done -> wpc s = W_finished) /\
    (wpc s = W_finished ->
     exists rs r,
       outd s = stream_of some_world default_globals (rs ++ [r]) /\
       Forall2 (compressed some_world default_globals)
         (blocks 32768 zero_block) (rs ++ [r]) /\
       len r < 32768 /\
       (exists m, flushes (strm r) = replicate m Z_NO_FLUSH ++ [Z_FINISH]) /\
       forall k, 0 < k -> zlen zero_block = k * 32768 ->
         length rs = Z.to_nat k /\
         last (blocks 32768 zero_block) = Some [] /\
         len r = 0 /\ strm r = [Deflate [] Z_FINISH]).
Proof.
  destruct (complete_run _ _ _ _ complete_zero_block) as (s & Hrun & Hw).
  exists s. split; [exact Hrun|]. split; [exact Hw|].
  apply (final_block some_world default_globals zero_block None
           (length two_blocks_schedule) s).
  - cbn [procs default_globals]. lia.
  - cbn [size default_globals]. unfold DICT. lia.
  - exact I.
  - apply run_steps. exact Hrun.
Defined.

End PipelineClaims.


(** * Further properties *)

(** * Further properties *)

(** ** Reading the input *)

Ltac fields_in :=
  unfold Inflate.set_glob, Inflate.set_ind, Inflate.set_in_eof,
    Inflate.set_out_tot, Inflate.set_out_check, Inflate.set_stamp,
    Inflate.set_hname, Inflate.set_zip_crc, Inflate.set_zip_clen,
    Inflate.set_zip_ulen, Inflate.set_outd, Inflate.set_removed,
    Inflate.set_stderr, Inflate.set_stdout in *;
  cbn [Inflate.glob Inflate.ind Inflate.in_eof Inflate.out_tot
       Inflate.out_check Inflate.stamp Inflate.hname Inflate.zip_crc
       Inflate.zip_clen Inflate.zip_ulen Inflate.outd Inflate.removed
       Inflate.stderr Inflate.stdout] in *.

Section InputFacts.
Import Framing Inflate.

Lemma tolong_split x :
  0 <= x < 2 ^ 32 ->
  Z.land x 0x7fffffff = x mod 2 ^ 31 /\
  Z.land x 0x80000000 = x - x mod 2 ^ 31.
Proof.
  intros Hx.
  assert (E1 : Z.land x 0x7fffffff = x mod 2 ^ 31)
    by (change 0x7fffffff with (Z.ones 31); apply Z.land_ones; lia).
  split; [exact E1|].
  pose proof (Z.add_lor_land (Z.land x 0x7fffffff) (Z.land x 0x80000000)) as E.
  rewrite <- Z.land_lor_distr_r in E.
  change (Z.lor 0x7fffffff 0x80000000) with (Z.ones 32) in E.
  rewrite (Z.land_ones x 32), (Z.mod_small x (2 ^ 32)) in E by lia.
  replace (Z.land (Z.land x 0x7fffffff) (Z.land x 0x80000000)) with 0 in E.
  - lia.
  - rewrite Z.land_assoc, (Z.land_comm (Z.land x _) x), Z.land_assoc,
      Z.land_diag, <- Z.land_assoc.
    change (Z.land 0x7fffffff 0x80000000) with 0. now rewrite Z.land_0_r.
Qed.

(** X1.  [tolong] reads a 32-bit value as a two's complement number, and so gives
    back any time stamp that fits 32 bits. *)
Theorem tolong_signed x :
  0 <= x < 2 ^ 32 ->
  tolong x = (if x <? 2 ^ 31 then x else x - 2 ^ 32) /\
  -2 ^ 31 <= tolong x < 2 ^ 31 /\
  tolong x mod 2 ^ 32 = x /\
  forall m, -2 ^ 31 <= m < 2 ^ 31 -> m mod 2 ^ 32 = x -> tolong x = m.
Proof.
  intros Hx. unfold tolong. destruct (tolong_split x Hx) as [-> ->].
  assert (E : (if x <? 2 ^ 31 then x else x - 2 ^ 32)
              = x mod 2 ^ 31 - (x - x mod 2 ^ 31)).
  { destruct (Z.ltb_spec x (2 ^ 31)).
    - rewrite Z.mod_small by lia. lia.
    - replace x with ((x - 2 ^ 31) + 1 * 2 ^ 31) at 2 4 by lia.
      rewrite Z.mod_add, Z.mod_small by lia. lia. }
  rewrite <- E. clear E.
  destruct (Z.ltb_spec x (2 ^ 31)).
  - repeat split; try lia.
    + apply Z.mod_small. lia.
    + intros m Hm Em.
      destruct (Z.lt_ge_cases m 0).
      * replace m with ((m + 2 ^ 32) + (-1) * 2 ^ 32) in Em by lia.
        rewrite Z.mod_add, Z.mod_small in Em by lia. lia.
      * rewrite Z.mod_small in Em by lia. lia.
  - repeat split; try lia.
    + replace (x - 2 ^ 32) with (x + (-1) * 2 ^ 32) by lia.
      rewrite Z.mod_add by lia. apply Z.mod_small. lia.
    + intros m Hm Em.
      destruct (Z.lt_ge_cases m 0).
      * replace m with ((m + 2 ^ 32) + (-1) * 2 ^ 32) in Em by lia.
        rewrite Z.mod_add, Z.mod_small in Em by lia. lia.
      * rewrite Z.mod_small in Em by lia. lia.
Qed.

Lemma tolong_signed_witness :
  0 <= 0xffffffff < 2 ^ 32 /\ tolong 0xffffffff = -1.
Proof.
  split; [lia|].
  destruct (tolong_signed 0xffffffff ltac:(lia)) as (_ & _ & _ & H).
  apply H; [lia|reflexivity].
Defined.

Lemma rd8_byte b : 0 <= b < 256 -> rd8 b = b.
Proof.
  intros Hb. unfold rd8. change 255 with (Z.ones 8).
  rewrite Z.land_ones by lia. apply Z.mod_small. lia.
Qed.

Lemma GET_cons s b rest :
  in_eof s = false -> ind s = b :: rest ->
  GET s = (Go (rd8 b), set_ind rest s).
Proof. intros He Hi. unfold GET. now rewrite He, Hi. Qed.

Lemma GET_nil s :
  in_eof s = false -> ind s = [] -> GET s = (Go EOF, set_in_eof true s).
Proof. intros He Hi. unfold GET. now rewrite He, Hi. Qed.

Lemma GET_eof s : in_eof s = true -> GET s = (Go EOF, s).
Proof. intros He. unfold GET. now rewrite He. Qed.

Lemma GET2_cons s b0 b1 rest :
  in_eof s = false -> ind s = b0 :: b1 :: rest ->
  GET2 s = (Go (rd8 b0 + 2 ^ 8 * rd8 b1), set_ind rest s).
Proof.
  intros He Hi. unfold GET2.
  rewrite (bind_Go _ _ _ _ _ (GET_cons s b0 (b1 :: rest) He Hi)).
  rewrite (bind_Go _ _ _ _ _ (GET_cons (set_ind (b1 :: rest) s) b1 rest He eq_refl)).
  unfold ret. do 2 f_equal.
  pose proof (rd8_range b0). pose proof (rd8_range b1).
  unfold u32. rewrite Z.shiftl_mul_pow2 by lia.
  change (2 ^ 32) with 4294967296. change (2 ^ 8) with 256.
  rewrite (Z.mod_small (rd8 b0)) by lia. rewrite Z.mod_small; lia.
Qed.

Lemma GET4_cons s b0 b1 b2 b3 rest :
  in_eof s = false -> ind s = b0 :: b1 :: b2 :: b3 :: rest ->
  GET4 s = (Go (rd8 b0 + 2 ^ 8 * rd8 b1 + 2 ^ 16 * rd8 b2 + 2 ^ 24 * rd8 b3),
            set_ind rest s).
Proof.
  intros He Hi. rewrite GET4_value; [|exact He|].
  - now rewrite Hi.
  - rewrite Hi. unfold zlen. cbn [length]. lia.
Qed.

Lemma SKIP_app s pre rest dist :
  ind s = pre ++ rest -> zlen pre = dist ->
  SKIP dist s = (Go tt, set_ind rest s).
Proof.
  intros Hi <-. unfold SKIP. rewrite Hi.
  destruct (Z.leb_spec (zlen pre) (zlen (pre ++ rest))) as [_|H].
  - unfold zlen. rewrite Nat2Z.id, drop_app_length. reflexivity.
  - unfold zlen in H. rewrite length_app in H. lia.
Qed.

(** The value that [GET4] reads back from the bytes of [PUT4L]. *)
Lemma le32_value x :
  let b := le32 x in
  exists b0 b1 b2 b3, b = [b0; b1; b2; b3] /\
    rd8 b0 + 2 ^ 8 * rd8 b1 + 2 ^ 16 * rd8 b2 + 2 ^ 24 * rd8 b3 = x mod 2 ^ 32.
Proof.
  cbv zeta. unfold le32. eexists _, _, _, _. split; [reflexivity|].
  rewrite !rd8_byte by (apply Z.mod_pos_bound; lia).
  set (y := x mod 2 ^ 32).
  assert (0 <= y < 2 ^ 32) by (apply Z.mod_pos_bound; lia).
  change (2 ^ 32) with 4294967296 in *. change (2 ^ 24) with 16777216.
  change (2 ^ 16) with 65536. change (2 ^ 8) with 256.
  Z.div_mod_to_equations. lia.
Qed.

Lemma upto_nul_string nm rest :
  c_string nm -> upto_nul (nm ++ 0 :: rest) = (nm, Some rest).
Proof.
  induction 1 as [|b nm Hb _ IH]; cbn [app upto_nul].
  - reflexivity.
  - rewrite rd8_byte by lia. destruct (Z.eqb_spec b 0); [lia|].
    now rewrite IH.
Qed.

Lemma read_string_cons s nm rest :
  in_eof s = false -> ind s = nm ++ 0 :: rest -> c_string nm ->
  read_string s = (Go tt, set_hname (Some nm) (set_ind rest s)).
Proof.
  intros He Hi Hn. unfold read_string.
  now rewrite He, Hi, (upto_nul_string nm rest Hn).
Qed.

Lemma skip_string_cons s nm rest :
  in_eof s = false -> ind s = nm ++ 0 :: rest -> c_string nm ->
  skip_string s = (Go tt, set_ind rest s).
Proof.
  intros He Hi Hn. unfold skip_string.
  now rewrite He, Hi, (upto_nul_string nm rest Hn).
Qed.

Lemma bind_bind {A B C} (m : M A) (k : A -> M B) (k' : B -> M C) s :
  bind (bind m k) k' s = bind m (fun a => bind (k a) k') s.
Proof. unfold bind. destruct (m s) as [[a|r] s']; reflexivity. Qed.

Lemma bind_ret {A B} (a : A) (k : A -> M B) s : bind (ret a) k s = k a s.
Proof. reflexivity. Qed.

Lemma bind_return_ {A B} r (k : A -> M B) s :
  bind (return_ r) k s = (Return r, s).
Proof. reflexivity. Qed.

End InputFacts.

Ltac run_step :=
  first
  [ rewrite bind_bind
  | rewrite bind_get
  | rewrite bind_modify
  | rewrite bind_ret
  | rewrite bind_return_
  | erewrite (bind_Go Inflate.GET4) by (apply GET4_cons; reflexivity)
  | erewrite (bind_Go Inflate.GET2) by (apply GET2_cons; reflexivity)
  | erewrite (bind_Go Inflate.GET) by (apply GET_cons; reflexivity)
  | erewrite (bind_Go Inflate.GET) by (apply GET_nil; reflexivity)
  | erewrite (bind_Go Inflate.GET) by (apply GET_eof; reflexivity)
  | erewrite (bind_Go (Inflate.SKIP _)) by (eapply (SKIP_app _ []); reflexivity)
  | erewrite (bind_Go (Inflate.SKIP _)) by (eapply (SKIP_app _ [_; _]); reflexivity)
  | erewrite (bind_Go (Inflate.SKIP _)) by (eapply (SKIP_app _ [_; _; _; _]); reflexivity)
  ]; cbv beta zeta; fields_in.

Ltac eval_if :=
  match goal with
  | |- context [if ?c then _ else _] =>
      let v := eval vm_compute in c in
      match v with
      | true => change c with true
      | false => change c with false
      end; cbv iota
  end.

Ltac put_bytes :=
  cbn [replicate Framing.PUT4L Framing.PUT2L insert list_insert Nat.add
       Framing.writen take app].

Section HeaderFacts.
Import Framing Inflate.

(** X3.  What [put_header] writes in gzip format, [get_header] reads back: the
    method is deflate, the name and the time stamp are those of the header,
    and the input is left at the first byte after the header. *)
Theorem get_header_put_header_gzip c c' g s rest :
  form g = 0 -> (forall nm, name g = Some nm -> c_string nm) ->
  in_eof s = false -> ind s = fst (put_header c g) ++ rest ->
  exists s',
    get_header c' true s = (Go 8, s') /\
    ind s' = rest /\ in_eof s' = false /\
    hname s' = name g /\ stamp s' = tolong (mtime g mod 2 ^ 32) /\
    form (glob s') = 0.
Proof.
  intros Hf Hname He Hi. rewrite (put_header_gzip c g Hf) in Hi.
  cbn [fst] in Hi.
  destruct (le32_value (mtime g)) as (b0 & b1 & b2 & b3 & Eb & Ev).
  cbv zeta in Eb. rewrite Eb in Hi. clear Eb.
  destruct s as [gl i eof ot oc st hn zc zl zu od rm se so].
  fields_in. subst i eof. unfold get_header, when.
  destruct (name g) as [nm|] eqn:En; cbn [app] in *.
  - rewrite <- app_assoc. cbn [app].
    repeat run_step. repeat (eval_if || run_step).
    rewrite Ev.
    erewrite (bind_Go read_string)
      by (apply read_string_cons; [reflexivity|reflexivity|now apply Hname]).
    repeat (eval_if || run_step). unfold ret. fields_in.
    eexists. split; [reflexivity|]. fields_in. auto.
  - repeat run_step. repeat (eval_if || run_step).
    rewrite Ev. unfold ret.
    eexists. split; [reflexivity|]. fields_in. auto.
Qed.

Lemma get_header_put_header_gzip_witness :
  exists s',
    get_header some_clock true
      (inflate_start named_globals
         (fst (put_header some_clock named_globals) ++ [3; 0]))
    = (Go 8, s') /\
    ind s' = [3; 0] /\ hname s' = Some [112; 105; 103; 122] /\
    stamp s' = tolong 1179014400.
Proof.
  destruct (get_header_put_header_gzip some_clock some_clock named_globals
              (inflate_start named_globals
                 (fst (put_header some_clock named_globals) ++ [3; 0]))
              [3; 0]) as (s' & H1 & H2 & _ & H3 & H4 & _).
  - reflexivity.
  - intros nm E. injection E as <-. unfold c_string.
    repeat constructor; lia.
  - reflexivity.
  - reflexivity.
  - exists s'. auto.
Defined.

Lemma PUT2L_bytes x :
  u8 (Z.land x 0xff) = x mod 256 /\ u8 (Z.shiftr x 8) = x / 2 ^ 8 mod 256.
Proof.
  unfold u8. rewrite Z.shiftr_div_pow2 by lia.
  change 0xff with (Z.ones 8). rewrite Z.land_ones by lia.
  change (2 ^ 8) with 256. split; [apply Z.mod_mod; lia|reflexivity].
Qed.

Lemma PUT4L_bytes x :
  [u8 (Z.land (Z.land x 0xffff) 0xff); u8 (Z.shiftr (Z.land x 0xffff) 8);
   u8 (Z.land (Z.shiftr x 16) 0xff); u8 (Z.shiftr (Z.shiftr x 16) 8)]
  = le32 x.
Proof.
  pose proof (PUT4L_le32 [] [] 0 0 0 0 x) as E.
  rewrite app_nil_r in E. cbn [app length] in E. rewrite <- E.
  reflexivity.
Qed.

(** The zip local header as [put_header] lays it out. *)
Lemma put_header_zip c g : form g > 1 ->
  put_header c g =
    ([0x50; 0x4b; 3; 4; 20; 0; 8; 0; 8; 0]
       ++ le32 (time2dos c (mtime g))
       ++ le32 0 ++ le32 0 ++ le32 0
       ++ le16 (zlen (zip_name g)) ++ [9; 0]
       ++ zip_name g
       ++ [0x55; 0x54; 5; 0; 1] ++ le32 (mtime g),
     39 + zlen (zip_name g)).
Proof.
  intros Hf. unfold put_header.
  destruct (Z.gtb_spec (form g) 1) as [_|]; [|lia].
  set (n := match name g with None => 1 | Some nm => strlen nm end).
  assert (En : n = zlen (zip_name g))
    by (unfold n, zip_name, strlen; now destruct (name g)).
  put_bytes.
  destruct (PUT2L_bytes n) as [-> ->].
  change [u8 (Z.land (Z.land (time2dos c (mtime g)) 65535) 255);
          u8 (Z.shiftr (Z.land (time2dos c (mtime g)) 65535) 8);
          u8 (Z.land (Z.shiftr (time2dos c (mtime g)) 16) 255);
          u8 (Z.shiftr (Z.shiftr (time2dos c (mtime g)) 16) 8)]
    with ([u8 (Z.land (Z.land (time2dos c (mtime g)) 0xffff) 0xff);
           u8 (Z.shiftr (Z.land (time2dos c (mtime g)) 0xffff) 8);
           u8 (Z.land (Z.shiftr (time2dos c (mtime g)) 16) 0xff);
           u8 (Z.shiftr (Z.shiftr (time2dos c (mtime g)) 16) 8)]).
  f_equal; [|rewrite <- En; unfold n; destruct (name g); lia].
  fold (zip_name g). rewrite En. unfold le16.
  pose proof (PUT4L_bytes (time2dos c (mtime g))) as E1.
  pose proof (PUT4L_bytes (mtime g)) as E2.
  unfold le32 in *. cbn [app].
  injection E1 as -> -> -> ->. injection E2 as -> -> -> ->.
  reflexivity.
Qed.

Lemma put_header_zlib c g : form g <= 1 -> form g <> 0 ->
  exists b, put_header c g = ([0x78; b], 2) /\
            (b = 0xda \/ b = 0x01 \/ b = 0x5e \/ b = 0x9c).
Proof.
  intros Hf Hf0. unfold put_header.
  destruct (Z.gtb_spec (form g) 1) as [|_]; [lia|].
  destruct (Z.eqb_spec (form g) 0) as [|_]; [lia|]. cbn [negb].
  destruct (level g =? 9); [exists 0xda; auto|].
  destruct (level g =? 1); [exists 0x01; auto|].
  destruct ((level g >=? 6) || (level g =? Z_DEFAULT_COMPRESSION));
    [exists 0x5e|exists 0x9c]; auto 6.
Qed.

(** X4.  What [put_header] writes in zlib format, [get_header] takes for a zlib
    stream of method deflate, and leaves the input after the two bytes. *)
Theorem get_header_put_header_zlib c c' g save s rest :
  form g = 1 -> in_eof s = false -> ind s = fst (put_header c g) ++ rest ->
  exists s',
    get_header c' save s = (Go 8, s') /\
    ind s' = rest /\ in_eof s' = false /\ form (glob s') = 1.
Proof.
  intros Hf He Hi.
  destruct (put_header_zlib c g ltac:(lia) ltac:(lia)) as (b & Eh & Hb).
  rewrite Eh in Hi. cbn [fst app] in Hi.
  destruct s as [gl i eof ot oc st hn zc zl zu od rm se so].
  fields_in. subst i eof. unfold get_header, when.
  destruct save; destruct Hb as [->|[->|[->| ->]]];
    repeat run_step; repeat (eval_if || run_step); unfold ret;
    (eexists; split; [reflexivity|]); fields_in; auto.
Qed.

Lemma get_header_put_header_zlib_witness :
  exists s',
    get_header some_clock false
      (inflate_start default_globals
         (fst (put_header some_clock (set_form 1 default_globals)) ++ [3; 0]))
    = (Go 8, s') /\ ind s' = [3; 0] /\ form (glob s') = 1.
Proof.
  destruct (get_header_put_header_zlib some_clock some_clock
              (set_form 1 default_globals) false
              (inflate_start default_globals
                 (fst (put_header some_clock (set_form 1 default_globals))
                  ++ [3; 0]))
              [3; 0] eq_refl eq_refl eq_refl) as (s' & H1 & H2 & _ & H3).
  exists s'. auto.
Defined.

(** X2.  The length that [put_header] returns is the number of bytes it has
    written, in every format. *)
Theorem put_header_length c g :
  snd (put_header c g) = zlen (fst (put_header c g)).
Proof.
  destruct (Z.gtb_spec (form g) 1) as [Hz|Hz].
  - rewrite put_header_zip by lia. cbn [fst snd].
    unfold zlen, le32, le16. rewrite !length_app. cbn [length]. lia.
  - destruct (Z.eq_dec (form g) 0) as [H0|H0].
    + rewrite put_header_gzip by assumption. cbn [fst snd].
      unfold zlen, le32. rewrite !length_app.
      destruct (name g); cbn [length]; rewrite ?length_app; cbn [length]; lia.
    + destruct (put_header_zlib c g Hz H0) as (b & -> & _). reflexivity.
Qed.

Lemma read_name_app s nm rest fname :
  ind s = nm ++ rest -> zlen nm = fname -> c_string nm ->
  read_name fname s = (Go tt, set_hname (Some nm) (set_ind rest s)).
Proof.
  intros Hi <- Hn. unfold read_name. rewrite Hi.
  destruct (Z.leb_spec (zlen nm) (zlen (nm ++ rest))) as [_|H].
  - unfold zlen. rewrite Nat2Z.id, take_app_length, drop_app_length.
    replace (map rd8 nm) with nm; [reflexivity|].
    clear Hi. induction Hn as [|b nm Hb _ IH]; [reflexivity|].
    cbn [map]. rewrite rd8_byte by lia. now rewrite <- IH.
  - unfold zlen in H. rewrite length_app in H. lia.
Qed.

Lemma read_extra_loop_S n len save :
  read_extra_loop (S n) len save =
  if len >=? 4 then
    (let* r := read_extra_block len save in
     match r with
     | None => ret (len - 4)
     | Some len => read_extra_loop n len save
     end)
  else ret len.
Proof. reflexivity. Qed.

(** [read_extra] on the extended time stamp block that pigz writes. *)
Lemma read_extra_timestamp s b0 b1 b2 b3 rest :
  in_eof s = false ->
  ind s = 0x55 :: 0x54 :: 5 :: 0 :: 1 :: b0 :: b1 :: b2 :: b3 :: rest ->
  read_extra 9 true s =
  (Go 0, set_stamp
           (tolong (rd8 b0 + 2 ^ 8 * rd8 b1 + 2 ^ 16 * rd8 b2
                    + 2 ^ 24 * rd8 b3))
           (set_ind rest s)).
Proof.
  intros He Hi. destruct s as [gl i eof ot oc st hn zc zl zu od rm se so].
  fields_in. subst i eof. unfold read_extra.
  change (Z.to_nat 9) with 9%nat. rewrite read_extra_loop_S.
  change (9 >=? 4) with true. cbv iota. unfold read_extra_block.
  repeat run_step.
  change (rd8 85 + 2 ^ 8 * rd8 84) with 0x5455.
  change (rd8 5 + 2 ^ 8 * rd8 0) with 5.
  repeat (eval_if || run_step).
  rewrite read_extra_loop_S.
  repeat (eval_if || run_step). reflexivity.
Qed.

(** X5.  What [put_header] writes in zip format, [get_header] reads back: the
    method is deflate with a data descriptor to follow, the name and the
    time stamp are those of the header, the lengths and the check value
    are zero, and the input is left at the first byte after the header. *)
Theorem get_header_put_header_zip c c' g s rest :
  form g > 1 -> (forall nm, name g = Some nm -> c_string nm) ->
  zlen (zip_name g) < 2 ^ 16 ->
  in_eof s = false -> ind s = fst (put_header c g) ++ rest ->
  exists s',
    get_header c' true s = (Go 8, s') /\
    ind s' = rest /\ in_eof s' = false /\
    hname s' = Some (zip_name g) /\ stamp s' = tolong (mtime g mod 2 ^ 32) /\
    form (glob s') = 3 /\
    zip_crc s' = 0 /\ zip_clen s' = 0 /\ zip_ulen s' = 0.
Proof.
  intros Hf Hname Hlen He Hi. rewrite (put_header_zip c g Hf) in Hi.
  cbn [fst] in Hi.
  assert (Hn : c_string (zip_name g)).
  { unfold zip_name. destruct (name g) as [nm|]; [now apply Hname|].
    repeat constructor; lia. }
  destruct (le32_value (mtime g)) as (b0 & b1 & b2 & b3 & Eb & Ev).
  destruct (le32_value (time2dos c (mtime g)))
    as (d0 & d1 & d2 & d3 & Ed & _).
  cbv zeta in Eb, Ed. rewrite Eb, Ed in Hi. clear Eb Ed.
  rewrite <- !app_assoc in Hi.
  destruct s as [gl i eof ot oc st hn zc zl zu od rm se so].
  fields_in. subst i eof. unfold get_header, when.
  set (n := zlen (zip_name g)) in *.
  assert (Hn0 : 0 <= n) by (unfold n, zlen; lia).
  assert (En : rd8 (n mod 256) + 2 ^ 8 * rd8 (n / 2 ^ 8 mod 256) = n).
  { rewrite !rd8_byte by (apply Z.mod_pos_bound; lia).
    change (2 ^ 16) with 65536 in Hlen. change (2 ^ 8) with 256.
    Z.div_mod_to_equations. lia. }
  unfold le32, le16. cbn [app].
  repeat run_step. repeat (eval_if || run_step).
  rewrite En.
  erewrite (bind_Go (read_name n))
    by (apply (read_name_app _ (zip_name g)); [reflexivity|reflexivity|exact Hn]).
  cbv beta. fields_in.
  change (rd8 9 + 2 ^ 8 * rd8 0) with 9.
  unfold bind at 1. unfold call_, call.
  erewrite read_extra_timestamp by reflexivity.
  fields_in. cbn [snd]. repeat (eval_if || run_step).
  rewrite Ev. unfold ret.
  eexists. split; [reflexivity|]. fields_in.
  repeat split; reflexivity.
Qed.

Lemma get_header_put_header_zip_witness :
  exists s',
    get_header some_clock true
      (inflate_start default_globals
         (fst (put_header some_clock (set_form 2 named_globals)) ++ [3; 0]))
    = (Go 8, s') /\
    ind s' = [3; 0] /\ hname s' = Some [112; 105; 103; 122] /\
    stamp s' = tolong 1179014400 /\ form (glob s') = 3.
Proof.
  destruct (get_header_put_header_zip some_clock some_clock
              (set_form 2 named_globals)
              (inflate_start default_globals
                 (fst (put_header some_clock (set_form 2 named_globals))
                  ++ [3; 0]))
              [3; 0]) as (s' & H1 & H2 & _ & H3 & H4 & H5 & _).
  - reflexivity.
  - intros nm E. injection E as <-. unfold c_string.
    repeat constructor; lia.
  - reflexivity.
  - reflexivity.
  - reflexivity.
  - exists s'. auto.
Defined.

(** X6.  What [get_header] makes of input that is no header.  At the end of input
    it returns -1; after a single byte, or two bytes that are neither a
    multiple of 31 taken together nor the magic of lzw, zip or gzip, it
    returns -2; and after the gzip magic with less than two bytes to follow
    it returns -1, as at the end of input. *)
Theorem get_header_no_header c save s :
  in_eof s = false ->
  (ind s = [] ->
   exists s', get_header c save s = (Return (-1), s') /\ in_eof s' = true) /\
  (forall b, ind s = [b] ->
   exists s', get_header c save s = (Return (-2), s') /\ in_eof s' = true) /\
  (forall b0 b1 rest, ind s = b0 :: b1 :: rest ->
   let magic := 2 ^ 8 * rd8 b0 + rd8 b1 in
   magic mod 31 <> 0 -> magic <> 0x1f9d -> magic <> 0x504b ->
   magic <> 0x1f8b ->
   exists s', get_header c save s = (Return (-2), s') /\ ind s' = rest) /\
  (forall rest, ind s = 0x1f :: 0x8b :: rest -> zlen rest < 2 ->
   exists s', get_header c save s = (Return (-1), s') /\ in_eof s' = true).
Proof.
  intros He. destruct s as [gl i eof ot oc st hn zc zl zu od rm se so].
  fields_in. subst eof. repeat split.
  - intros ->. unfold get_header, when.
    destruct save; repeat run_step; repeat (eval_if || run_step);
      (eexists; split; [reflexivity|]); reflexivity.
  - intros b ->. unfold get_header, when.
    destruct save; repeat run_step; repeat (eval_if || run_step);
      (eexists; split; [reflexivity|]); reflexivity.
  - intros b0 b1 rest ->. set (magic := 2 ^ 8 * rd8 b0 + rd8 b1).
    intros H31 Hlzw Hzip Hgz.
    assert (Em : u32 (u32 (Z.shiftl (rd8 b0) 8) + rd8 b1) = magic).
    { pose proof (rd8_range b0). pose proof (rd8_range b1).
      unfold u32, magic. rewrite Z.shiftl_mul_pow2 by lia.
      change (2 ^ 32) with 4294967296. change (2 ^ 8) with 256.
      rewrite (Z.mod_small (rd8 b0 * 256)) by lia.
      rewrite Z.mod_small by lia. lia. }
    unfold get_header, when.
    destruct save; repeat run_step; rewrite Em;
      apply Z.eqb_neq in H31, Hlzw, Hzip, Hgz; rewrite H31, Hlzw, Hzip, Hgz;
      cbn [negb]; repeat run_step;
      (eexists; split; [reflexivity|]); reflexivity.
  - intros rest -> Hlen. unfold get_header, when.
    destruct rest as [|m [|f rest]];
      [| |unfold zlen in Hlen; cbn [length] in Hlen; lia];
      destruct save; repeat run_step; repeat (eval_if || run_step);
      (eexists; split; [reflexivity|]); reflexivity.
Qed.

Lemma get_header_no_header_witness :
  exists s',
    get_header some_clock false (inflate_start default_globals [0x1f; 0x8b; 8])
    = (Return (-1), s').
Proof.
  destruct (get_header_no_header some_clock false
              (inflate_start default_globals [0x1f; 0x8b; 8]) eq_refl)
    as (_ & _ & _ & H).
  destruct (H [8] eq_refl) as (s' & Hs & _); [reflexivity|].
  exists s'. exact Hs.
Defined.

End HeaderFacts.

(** ** The zip extra field *)

Section ExtraFacts.
Import Framing Inflate.

Lemma at_GET s0 k s :
  at_ s0 k s -> 0 <= k -> k + 1 <= zlen (ind s0) ->
  exists v s', GET s = (Go v, s') /\ at_ s0 (k + 1) s'.
Proof.
  intros [He Hi] Hk Hlen.
  assert (E : drop (Z.to_nat k) (ind s0)
              = take 1 (drop (Z.to_nat k) (ind s0))
                ++ drop (Z.to_nat (k + 1)) (ind s0)).
  { rewrite <- (take_drop 1 (drop _ _)) at 1. rewrite drop_drop.
    do 2 f_equal. lia. }
  destruct (take 1 (drop (Z.to_nat k) (ind s0))) as [|b [|? ?]] eqn:Et.
  - apply (f_equal length) in Et. rewrite length_take, length_drop in Et.
    unfold zlen in Hlen. cbn [length] in Et. lia.
  - exists (rd8 b), (set_ind (drop (Z.to_nat (k + 1)) (ind s0)) s).
    split; [|split; [exact He|reflexivity]].
    apply GET_cons; [exact He|]. now rewrite Hi, E.
  - apply (f_equal length) in Et. rewrite length_take in Et.
    cbn [length] in Et. lia.
Qed.

Lemma at_GET2 s0 k s :
  at_ s0 k s -> 0 <= k -> k + 2 <= zlen (ind s0) ->
  exists v s', GET2 s = (Go v, s') /\ at_ s0 (k + 2) s' /\ 0 <= v < 2 ^ 16.
Proof.
  intros Hat Hk Hlen. unfold GET2.
  destruct (at_GET s0 k s Hat Hk ltac:(lia)) as (v0 & s1 & E0 & H1).
  destruct (at_GET s0 (k + 1) s1 H1 ltac:(lia) ltac:(lia))
    as (v1 & s2 & E1 & H2).
  rewrite (bind_Go _ _ _ _ _ E0), (bind_Go _ _ _ _ _ E1).
  replace (k + 1 + 1) with (k + 2) in H2 by lia.
  eexists _, s2. split; [reflexivity|]. split; [exact H2|].
  assert (R : forall s v s', GET s = (Go v, s') -> in_eof s' = false ->
                             0 <= v < 256).
  { intros t v t' E Hf. unfold GET in E. destruct (in_eof t) eqn:Et.
    - injection E as <- <-. congruence.
    - destruct (ind t); injection E as <- <-; [discriminate Hf|].
      apply rd8_range. }
  pose proof (R _ _ _ E0 (proj1 H1)). pose proof (R _ _ _ E1 (proj1 H2)).
  unfold u32. rewrite Z.shiftl_mul_pow2 by lia.
  change (2 ^ 32) with 4294967296. change (2 ^ 8) with 256.
  change (2 ^ 16) with 65536.
  rewrite (Z.mod_small v0) by lia. rewrite Z.mod_small by lia. lia.
Qed.

Lemma at_GET4 s0 k s :
  at_ s0 k s -> 0 <= k -> k + 4 <= zlen (ind s0) ->
  exists v s', GET4 s = (Go v, s') /\ at_ s0 (k + 4) s'.
Proof.
  intros Hat Hk Hlen. unfold GET4.
  destruct (at_GET2 s0 k s Hat Hk ltac:(lia)) as (v0 & s1 & E0 & H1 & _).
  destruct (at_GET2 s0 (k + 2) s1 H1 ltac:(lia) ltac:(lia))
    as (v1 & s2 & E1 & H2 & _).
  rewrite (bind_Go _ _ _ _ _ E0), (bind_Go _ _ _ _ _ E1).
  replace (k + 2 + 2) with (k + 4) in H2 by lia.
  eexists _, s2. split; [reflexivity|exact H2].
Qed.

Lemma at_SKIP s0 k s d :
  at_ s0 k s -> 0 <= k -> 0 <= d -> k + d <= zlen (ind s0) ->
  exists s', SKIP d s = (Go tt, s') /\ at_ s0 (k + d) s'.
Proof.
  intros [He Hi] Hk Hd Hlen. unfold SKIP. rewrite Hi.
  destruct (Z.leb_spec d (zlen (drop (Z.to_nat k) (ind s0)))) as [_|H].
  - eexists. split; [reflexivity|]. split; [exact He|].
    cbn [ind set_ind]. rewrite drop_drop. f_equal. lia.
  - unfold zlen in *. rewrite length_drop in H. lia.
Qed.

Lemma at_modify s0 k s f :
  at_ s0 k s -> in_eof (f s) = in_eof s -> ind (f s) = ind s ->
  at_ s0 k (f s).
Proof. intros [He Hi] H1 H2. split; congruence. Qed.

Lemma eats_ret size : eats (ret size) size.
Proof.
  intros s0 k s Hat Hk Hs Hlen. exists size, s.
  split; [reflexivity|]. replace (k + size - size) with k by lia.
  split; [exact Hat|lia].
Qed.

Lemma eats_bind (m : M Z) (f : Z -> M Z) size :
  eats m size -> (forall size', 0 <= size' <= size -> eats (f size') size') ->
  eats (bind m f) size.
Proof.
  intros Hm Hf s0 k s Hat Hk Hs Hlen.
  destruct (Hm s0 k s Hat Hk Hs Hlen) as (size1 & s1 & E1 & H1 & R1).
  destruct (Hf size1 R1 s0 (k + size - size1) s1 H1 ltac:(lia) ltac:(lia)
              ltac:(lia)) as (size2 & s2 & E2 & H2 & R2).
  exists size2, s2. rewrite (bind_Go _ _ _ _ _ E1).
  split; [exact E2|]. split; [|lia].
  replace (k + size - size2) with (k + size - size1 + size1 - size2) by lia.
  exact H2.
Qed.

Lemma eats_get {A} (f : state -> A) (m : A -> M Z) size :
  (forall a, eats (m a) size) -> eats (bind (get f) m) size.
Proof. intros H s0 k s. rewrite bind_get. apply H. Qed.

(** Eight bytes of a zip64 block, with the length in the first four. *)
Lemma eats_zip64 set size :
  (forall v s, in_eof (set v s) = in_eof s /\ ind (set v s) = ind s) ->
  8 <= size ->
  eats (let* v := GET4 in modify (set v) ;; SKIP 4 ;; ret (size - 8)) size.
Proof.
  intros Hset H8 s0 k s Hat Hk Hs Hlen.
  destruct (at_GET4 s0 k s Hat Hk ltac:(lia)) as (v & s1 & E1 & H1).
  rewrite (bind_Go _ _ _ _ _ E1), bind_modify.
  assert (H2 : at_ s0 (k + 4) (set v s1))
    by (apply at_modify; [exact H1|apply Hset..]).
  destruct (at_SKIP s0 (k + 4) _ 4 H2 ltac:(lia) ltac:(lia) ltac:(lia))
    as (s3 & E3 & H3).
  rewrite (bind_Go _ _ _ _ _ E3). exists (size - 8), s3.
  split; [reflexivity|]. split; [|lia].
  replace (k + size - (size - 8)) with (k + 4 + 4) by lia. exact H3.
Qed.

Lemma eats_unix size :
  8 <= size ->
  eats (SKIP 4 ;; let* v := GET4 in
        modify (set_stamp (tolong v)) ;; ret (size - 8)) size.
Proof.
  intros H8 s0 k s Hat Hk Hs Hlen.
  destruct (at_SKIP s0 k s 4 Hat Hk ltac:(lia) ltac:(lia)) as (s1 & E1 & H1).
  destruct (at_GET4 s0 (k + 4) s1 H1 ltac:(lia) ltac:(lia))
    as (v & s2 & E2 & H2).
  rewrite (bind_Go _ _ _ _ _ E1), (bind_Go _ _ _ _ _ E2), bind_modify.
  eexists _, _. split; [reflexivity|]. split; [|lia].
  replace (k + size - (size - 8)) with (k + 4 + 4) by lia.
  apply at_modify; [exact H2|reflexivity..].
Qed.

Lemma eats_timestamp size :
  5 <= size ->
  eats (let* b := GET in
        if Z.land b 1 =? 0 then ret (size - 1)
        else let* v := GET4 in
             modify (set_stamp (tolong v)) ;; ret (size - 1 - 4)) size.
Proof.
  intros H5 s0 k s Hat Hk Hs Hlen.
  destruct (at_GET s0 k s Hat Hk ltac:(lia)) as (b & s1 & E1 & H1).
  rewrite (bind_Go _ _ _ _ _ E1).
  destruct (Z.land b 1 =? 0).
  - eexists _, _. split; [reflexivity|]. split; [|lia].
    replace (k + size - (size - 1)) with (k + 1) by lia. exact H1.
  - destruct (at_GET4 s0 (k + 1) s1 H1 ltac:(lia) ltac:(lia))
      as (v & s2 & E2 & H2).
    rewrite (bind_Go _ _ _ _ _ E2), bind_modify.
    eexists _, _. split; [reflexivity|]. split; [|lia].
    replace (k + size - (size - 1 - 4)) with (k + 1 + 4) by lia.
    apply at_modify; [exact H2|reflexivity..].
Qed.

Lemma eats_run (m : M Z) size s0 k s :
  eats m size -> at_ s0 k s -> 0 <= k -> 0 <= size ->
  k + size <= zlen (ind s0) ->
  exists size' s',
    (forall B (f : Z -> M B), bind m f s = f size' s') /\
    at_ s0 (k + size - size') s' /\ 0 <= size' <= size.
Proof.
  intros Hm Hat Hk Hs Hlen.
  destruct (Hm s0 k s Hat Hk Hs Hlen) as (size' & s' & E & H).
  exists size', s'. split; [|exact H].
  intros B f. apply bind_Go, E.
Qed.

(** One block of the extra field: whatever it holds, the input is left at
    its end, or after its four bytes of header if it claims to be longer
    than the field. *)
Lemma read_extra_block_takes len save s0 k s :
  at_ s0 k s -> 0 <= k -> 4 <= len -> k + len <= zlen (ind s0) ->
  exists r s',
    read_extra_block len save s = (Go r, s') /\
    match r with
    | None => at_ s0 (k + 4) s'
    | Some len' => 0 <= len' <= len - 4 /\ at_ s0 (k + len - len') s'
    end.
Proof.
  intros Hat Hk H4 Hlen. unfold read_extra_block.
  destruct (at_GET2 s0 k s Hat Hk ltac:(lia)) as (id & s1 & E1 & H1 & _).
  destruct (at_GET2 s0 (k + 2) s1 H1 ltac:(lia) ltac:(lia))
    as (size & s2 & E2 & H2 & Hsize).
  replace (k + 2 + 2) with (k + 4) in H2 by lia.
  rewrite (bind_Go _ _ _ _ _ E1), (bind_Go _ _ _ _ _ E2), bind_get.
  rewrite (proj1 H2). cbv zeta.
  destruct (Z.gtb_spec size (len - 4)) as [Hgt|Hle].
  { exists None, s2. split; [reflexivity|exact H2]. }
  assert (Hge : forall c x, c && (x >=? 8) = true -> 8 <= x).
  { intros c x H. apply andb_true_iff in H as [_ H].
    now apply Z.geb_le in H. }
  match goal with |- context [bind ?m _ s2] =>
    assert (Hm : eats m size) end.
  { destruct (id =? 1); [|apply eats_ret].
    apply eats_get. intros ulen. apply eats_bind.
    - destruct (_ && _) eqn:Ec; [|apply eats_ret].
      apply eats_zip64; [now intros|eauto].
    - intros size' Hs'. apply eats_get. intros clen.
      destruct (_ && _) eqn:Ec; [|apply eats_ret].
      apply eats_zip64; [now intros|eauto]. }
  destruct (eats_run _ size s0 (k + 4) s2 Hm H2 ltac:(lia) ltac:(lia)
              ltac:(lia)) as (size0 & s3 & E3 & H3 & R3).
  rewrite E3. clear E3 Hm.
  match goal with |- context [bind ?m _ s3] =>
    assert (Hm : eats m size0) end.
  { destruct save; [|apply eats_ret]. apply eats_bind.
    - destruct (_ && _) eqn:Ec; [|apply eats_ret].
      apply eats_unix. eauto.
    - intros size' Hs'. destruct (_ && _) eqn:Ec; [|apply eats_ret].
      apply eats_timestamp. apply andb_true_iff in Ec as [_ Ec].
      apply Z.geb_le in Ec. lia. }
  destruct (eats_run _ size0 s0 _ s3 Hm H3 ltac:(lia) ltac:(lia)
              ltac:(lia)) as (size1 & s4 & E4 & A4 & R4).
  rewrite E4. clear E4 Hm.
  destruct (at_SKIP s0 _ s4 size1 A4 ltac:(lia) ltac:(lia) ltac:(lia))
    as (s5 & E5 & H5).
  rewrite (bind_Go _ _ _ _ _ E5).
  eexists _, s5. split; [reflexivity|]. split; [lia|].
  replace (k + len - (len - 4 - size))
    with (k + 4 + size - size0 + size0 - size1 + size1) by lia.
  exact H5.
Qed.

Lemma read_extra_loop_takes n : forall len save s0 k s,
  at_ s0 k s -> 0 <= k -> 0 <= len -> k + len <= zlen (ind s0) ->
  exists len' s',
    read_extra_loop n len save s = (Go len', s') /\
    0 <= len' <= len /\ at_ s0 (k + len - len') s'.
Proof.
  induction n as [|n IH]; intros len save s0 k s Hat Hk Hl Hlen.
  - exists len, s. split; [reflexivity|]. split; [lia|].
    now replace (k + len - len) with k by lia.
  - rewrite read_extra_loop_S.
    destruct (Z.geb_spec len 4) as [H4|H4].
    + destruct (read_extra_block_takes len save s0 k s Hat Hk H4 Hlen)
        as ([len1|] & s1 & E1 & H1); rewrite (bind_Go _ _ _ _ _ E1).
      * destruct H1 as [R1 H1].
        destruct (IH len1 save s0 (k + len - len1) s1 H1 ltac:(lia)
                    ltac:(lia) ltac:(lia)) as (len' & s' & E & R & H).
        exists len', s'. split; [exact E|]. split; [lia|].
        now replace (k + len - len')
          with (k + len - len1 + len1 - len') by lia.
      * exists (len - 4), s1. split; [reflexivity|]. split; [lia|].
        now replace (k + len - (len - 4)) with (k + 4) by lia.
    + exists len, s. split; [reflexivity|]. split; [lia|].
      now replace (k + len - len) with k by lia.
Qed.

(** X7.  Whatever the extra field of a zip header holds, [read_extra] leaves the
    input at the first byte after the field, if the input has so many
    bytes. *)
Theorem read_extra_takes_field len save s :
  0 <= len -> in_eof s = false -> len <= zlen (ind s) ->
  exists s',
    read_extra len save s = (Go 0, s') /\
    ind s' = drop (Z.to_nat len) (ind s) /\ in_eof s' = false.
Proof.
  intros Hl He Hlen. unfold read_extra.
  assert (Hat : at_ s 0 s) by (split; [exact He|reflexivity]).
  destruct (read_extra_loop_takes (Z.to_nat len) len save s 0 s Hat
              ltac:(lia) Hl ltac:(lia)) as (len' & s1 & E1 & R1 & H1).
  rewrite (bind_Go _ _ _ _ _ E1).
  destruct (at_SKIP s _ s1 len' H1 ltac:(lia) ltac:(lia) ltac:(lia))
    as (s2 & E2 & [He2 Hi2]).
  rewrite (bind_Go _ _ _ _ _ E2). exists s2. split; [reflexivity|].
  split; [|exact He2]. rewrite Hi2. f_equal. lia.
Qed.

Lemma read_extra_takes_field_witness :
  exists s',
    read_extra 6 true (inflate_start default_globals [1; 0; 9; 9; 7; 7; 5])
    = (Go 0, s') /\ ind s' = [5].
Proof.
  destruct (read_extra_takes_field 6 true
              (inflate_start default_globals [1; 0; 9; 9; 7; 7; 5]))
    as (s' & H1 & H2 & _).
  - lia.
  - reflexivity.
  - unfold zlen. cbn. lia.
  - exists s'. split; [exact H1|exact H2].
Defined.

End ExtraFacts.

(** ** MS-DOS time stamps *)

Section DosTimeFacts.
Import Framing Inflate.

Lemma land_shiftl_sec dos : 0 <= dos ->
  Z.land (Z.shiftl dos 1) 0x3e = 2 * (dos mod 32).
Proof.
  intros Hd. change 0x3e with (Z.shiftl 31 1).
  rewrite <- Z.shiftl_land. change 31 with (Z.ones 5).
  rewrite Z.land_ones, Z.shiftl_mul_pow2 by lia.
  change (2 ^ 5) with 32. change (2 ^ 1) with 2. lia.
Qed.

Lemma u32_ulong a : u32 (ulong a) = u32 a.
Proof.
  unfold u32, ulong. change (2 ^ 64) with 18446744073709551616.
  change (2 ^ 32) with 4294967296. Z.div_mod_to_equations. lia.
Qed.

Lemma u32_int_shl x n : u32 (int_shl x n) = u32 (Z.shiftl x n).
Proof.
  unfold u32, int_shl. generalize (Z.shiftl x n). intros y.
  change (2 ^ 31) with 2147483648. change (2 ^ 32) with 4294967296.
  Z.div_mod_to_equations. lia.
Qed.

Lemma u32_add_shl a x n :
  u32 (ulong (a + int_shl x n)) = u32 (a + Z.shiftl x n).
Proof.
  unfold u32, ulong, int_shl. generalize (Z.shiftl x n). intros y.
  change (2 ^ 31) with 2147483648. change (2 ^ 32) with 4294967296.
  change (2 ^ 64) with 18446744073709551616. Z.div_mod_to_equations. lia.
Qed.

Lemma u32_add_low a a' b : u32 a = u32 a' -> u32 (a + b) = u32 (a' + b).
Proof.
  unfold u32. intros E.
  rewrite (Z.add_mod a), (Z.add_mod a'), E by discriminate. reflexivity.
Qed.

(** The low 32 bits of the MS-DOS time are those of the sum of the
    fields. *)
Lemma time2dos_low32 c t :
  let tm := localtime c (if t =? 0 then time_now c else t) in
  u32 (time2dos c t) =
  u32 (if (tm_year tm <? 80) || (tm_year tm >? 207) then 0
       else Z.shiftl (tm_year tm - 80) 25 + Z.shiftl (tm_mon tm + 1) 21
            + Z.shiftl (tm_mday tm) 16 + Z.shiftl (tm_hour tm) 11
            + Z.shiftl (tm_min tm) 5 + Z.shiftr (tm_sec tm + 1) 1).
Proof.
  intros tm. unfold time2dos. fold tm.
  destruct ((tm_year tm <? 80) || (tm_year tm >? 207)); [reflexivity|].
  cbv zeta. rewrite u32_ulong. apply u32_add_low.
  rewrite u32_add_shl. apply u32_add_low.
  rewrite u32_add_shl. apply u32_add_low.
  rewrite u32_add_shl. apply u32_add_low.
  rewrite u32_add_shl. apply u32_add_low.
  rewrite u32_ulong. apply u32_int_shl.
Qed.

(** X8.  [time2dos] and [dos2time], with the 32 bits of the MS-DOS time that a
    zip header holds between them: a time from 1980 to 2107 comes back with
    its seconds rounded up to an even number; a time outside these years is
    stored as 0 and comes back as the time of the reading. *)
Theorem dos2time_time2dos c c' t :
  let tm := localtime c (if t =? 0 then time_now c else t) in
  tm_ok tm ->
  (80 <= tm_year tm <= 207 ->
   u32 (time2dos c t) <> 0 /\
   dos2time c' (u32 (time2dos c t)) =
   mktime c' {| tm_year := tm_year tm; tm_mon := tm_mon tm;
                tm_mday := tm_mday tm; tm_hour := tm_hour tm;
                tm_min := tm_min tm;
                tm_sec := 2 * ((tm_sec tm + 1) / 2) |}) /\
  (~ 80 <= tm_year tm <= 207 ->
   time2dos c t = 0 /\ dos2time c' (u32 (time2dos c t)) = time_now c').
Proof.
  intros tm (Hmon & Hday & Hhour & Hmin & Hsec). split.
  - intros Hy. rewrite time2dos_low32. fold tm.
    destruct (Z.ltb_spec (tm_year tm) 80) as [|_]; [lia|].
    destruct (Z.gtb_spec (tm_year tm) 207) as [|_]; [lia|]. cbn [orb].
    rewrite !Z.shiftl_mul_pow2, Z.shiftr_div_pow2 by lia.
    set (dos := (tm_year tm - 80) * 2 ^ 25 + (tm_mon tm + 1) * 2 ^ 21
                + tm_mday tm * 2 ^ 16 + tm_hour tm * 2 ^ 11
                + tm_min tm * 2 ^ 5 + (tm_sec tm + 1) / 2 ^ 1).
    assert (Hs : 0 <= (tm_sec tm + 1) / 2 ^ 1 <= 31).
    { change (2 ^ 1) with 2. Z.div_mod_to_equations. lia. }
    assert (Hd : 0 < dos < 2 ^ 32).
    { subst dos. change (2 ^ 32) with 4294967296.
      change (2 ^ 25) with 33554432. change (2 ^ 21) with 2097152.
      change (2 ^ 16) with 65536. change (2 ^ 11) with 2048.
      change (2 ^ 5) with 32. lia. }
    unfold u32. rewrite (Z.mod_small dos) by lia.
    split; [lia|]. unfold dos2time.
    destruct (Z.eqb_spec dos 0) as [|_]; [lia|]. f_equal.
    rewrite land_shiftl_sec by lia.
    rewrite !Z.shiftr_div_pow2 by lia.
    change 0x7f with (Z.ones 7). change 0xf with (Z.ones 4).
    change 0x1f with (Z.ones 5). change 0x3f with (Z.ones 6).
    rewrite !Z.land_ones by lia.
    subst dos. change (2 ^ 25) with 33554432 in *.
    change (2 ^ 21) with 2097152 in *. change (2 ^ 16) with 65536 in *.
    change (2 ^ 11) with 2048 in *. change (2 ^ 5) with 32 in *.
    change (2 ^ 7) with 128. change (2 ^ 4) with 16. change (2 ^ 6) with 64.
    change (2 ^ 1) with 2 in *.
    set (h := (tm_sec tm + 1) / 2) in *.
    f_equal; Z.div_mod_to_equations; lia.
  - intros Hy. unfold time2dos. fold tm.
    assert (E : (tm_year tm <? 80) || (tm_year tm >? 207) = true).
    { destruct (Z.ltb_spec (tm_year tm) 80); [reflexivity|].
      destruct (Z.gtb_spec (tm_year tm) 207); [reflexivity|]. lia. }
    rewrite E. split; reflexivity.
Qed.

Lemma dos2time_time2dos_witness :
  u32 (time2dos some_clock 0) <> 0 /\
  dos2time some_clock (u32 (time2dos some_clock 0)) = 1179014400.
Proof.
  destruct (dos2time_time2dos some_clock some_clock 0) as [H _].
  - unfold tm_ok. cbn. lia.
  - destruct H as [H1 H2]; [cbn; lia|]. split; [exact H1|exact H2].
Defined.

End DosTimeFacts.


(** ** The output of decompression *)

Section OutputFacts.
Import Framing Inflate.

Lemma CHECK_empty g : CHECK g (CHECK_init g) [] = CHECK_init g.
Proof. unfold CHECK, CHECK_init. destruct (form g =? 1); reflexivity. Qed.

Lemma outb_nothread_accumulates s buf c0 pre :
  out_check s = CHECK (glob s) c0 pre ->
  let s' := outb_nothread s buf in
  glob s' = glob s /\
  out_tot s' = out_tot s + zlen buf /\
  out_check s' = CHECK (glob s) c0 (pre ++ buf) /\
  outd s' = outd s ++ (if decode (glob s) =? 1 then buf else []).
Proof.
  intros Hc. cbv zeta. unfold outb_nothread. rewrite take_zlen.
  destruct s as [gl i eof ot oc st hn zc zl zu od rm se so].
  fields_in. subst oc. rewrite CHECK_chain.
  destruct (decode gl =? 1); fields_in; rewrite ?app_nil_r; auto.
Qed.

Lemma fold_outb_accumulates chunks : forall s c0 pre,
  out_check s = CHECK (glob s) c0 pre ->
  let s' := fold_left outb_nothread chunks s in
  glob s' = glob s /\
  out_tot s' = out_tot s + zlen (concat chunks) /\
  out_check s' = CHECK (glob s) c0 (pre ++ concat chunks) /\
  outd s' = outd s ++ (if decode (glob s) =? 1 then concat chunks else []).
Proof.
  induction chunks as [|ch chunks IH]; intros s c0 pre Hc; cbv zeta.
  - cbn [fold_left concat]. rewrite !app_nil_r, Z.add_0_r.
    destruct (decode _ =? 1); rewrite ?app_nil_r; auto.
  - cbn [fold_left concat].
    destruct (outb_nothread_accumulates s ch c0 pre Hc) as (Hg & Ht & Hk & Ho).
    rewrite <- Hg in Hk.
    destruct (IH _ c0 (pre ++ ch) Hk) as (Hg' & Ht' & Hk' & Ho').
    rewrite Hg', Ht', Hk', Ho', Hg, Ht, Ho. unfold zlen.
    rewrite length_app, <- !app_assoc.
    destruct (decode (glob s) =? 1); rewrite ?app_nil_r;
      repeat split; auto; lia.
Qed.

(** X9.  The chunks that [outb] is given, with or without threads: the running
    length is that of all of the chunks, the running check value is the
    check of their concatenation, and when decompressing (not testing or
    listing) they are written in their order. *)
Theorem outb_all_accumulates sched chunks s :
  out_tot s = 0 -> out_check s = CHECK_init (glob s) ->
  let s' := outb_all sched 0 chunks s in
  out_tot s' = zlen (concat chunks) /\
  out_check s' = CHECK (glob s) (CHECK_init (glob s)) (concat chunks) /\
  outd s' = outd s ++ (if decode (glob s) =? 1 then concat chunks else []).
Proof.
  intros Ht Hc. cbv zeta. rewrite outb_all_fold.
  destruct (fold_outb_accumulates chunks s (CHECK_init (glob s)) [])
    as (_ & Ht' & Hc' & Ho').
  { now rewrite CHECK_empty. }
  rewrite Ht', Hc', Ho', Ht. auto.
Qed.

Lemma outb_all_accumulates_witness :
  let s := set_out_check 0
             (inflate_start (set_decode 1 default_globals) []) in
  outd (outb_all (fun _ => true) 0 [[1; 2]; []; [3]] s) = [1; 2; 3].
Proof.
  intros s.
  destruct (outb_all_accumulates (fun _ => true) [[1; 2]; []; [3]] s
              eq_refl eq_refl) as (_ & _ & H).
  exact H.
Defined.

Lemma stored32_le32 x l : stored32 (le32 x ++ l) = x mod 2 ^ 32.
Proof.
  destruct (le32_value x) as (b0 & b1 & b2 & b3 & E & V). cbv zeta in E.
  rewrite E. exact V.
Qed.

Lemma drop_le32 x l : drop 4 (le32 x ++ l) = l.
Proof. reflexivity. Qed.

Lemma le32_ulong x : le32 (ulong x) = le32 x.
Proof.
  unfold le32, ulong.
  replace (x mod 2 ^ 64 mod 2 ^ 32) with (x mod 2 ^ 32); [reflexivity|].
  change (2 ^ 64) with 18446744073709551616. change (2 ^ 32) with 4294967296.
  Z.div_mod_to_equations. lia.
Qed.

Lemma get_header_eof c s :
  in_eof s = false -> ind s = [] ->
  get_header c false s =
  (Return (-1), set_in_eof true (set_glob (set_form 0 (glob s)) s)).
Proof.
  intros He Hi. destruct s as [gl i eof ot oc st hn zc zl zu od rm se so].
  fields_in. subst eof i. unfold get_header, when.
  repeat run_step; repeat (eval_if || run_step). reflexivity.
Qed.

(** X10.  A gzip stream that ends the input, with the trailer that [put_trailer]
    writes for the data that [inflateBack] delivers: [infchk] takes it
    without a message, unlinks nothing and returns, and when decompressing
    it has written the data. *)
Theorem infchk_accepts_gzip c c0 g ib sched s chunks clen head :
  form g = 0 -> form (glob s) = 0 -> listing (glob s) = 0 ->
  in_eof s = false ->
  ib (ind s) =
    (chunks,
     Some (put_trailer c0 g (ulong (zlen (concat chunks))) clen
             (CHECK g (CHECK_init g) (concat chunks)) head)) ->
  exists s',
    infchk c ib sched s = Some (Returned, s') /\
    stderr s' = stderr s /\ removed s' = removed s /\
    outd s' = outd s ++ (if decode (glob s) =? 1 then concat chunks else []).
Proof.
  intros Hg Hf Hl He Hib. set (data := concat chunks) in *.
  rewrite (put_trailer_gzip c0 g _ _ _ _ Hg), le32_ulong in Hib.
  assert (Ecrc : CHECK g (CHECK_init g) data = Comb.crc32 0 data).
  { unfold CHECK, CHECK_init. now rewrite Hg. }
  rewrite Ecrc in Hib.
  set (s0 := set_out_check (CHECK_init (glob s)) (set_out_tot 0 s)).
  destruct (fold_outb_accumulates chunks s0 (CHECK_init (glob s0)) [])
    as (_ & Ht & Hc & Ho).
  { subst s0. cbn [out_check set_out_check]. now rewrite CHECK_empty. }
  cbv zeta in Ht, Hc, Ho. rewrite <- (outb_all_fold sched chunks 0%nat) in Ht, Hc, Ho.
  change (out_tot s0) with 0 in Ht. rewrite Z.add_0_l in Ht.
  rewrite app_nil_l in Hc. fold data in Ht, Hc, Ho.
  destruct (outb_all_same sched chunks 0 s0) as ((Hr & Hs & Hgl) & He1 & Hi1).
  set (s1 := outb_all sched 0 chunks s0) in *.
  assert (Hgl0 : glob s0 = glob s) by now destruct s.
  rewrite Hgl0 in *.
  assert (Hc1 : out_check s1 = Comb.crc32 0 data).
  { rewrite Hc. unfold CHECK, CHECK_init. now rewrite Hf. }
  set (tr := le32 (Comb.crc32 0 data) ++ le32 (zlen data)) in *.
  set (s2 := set_ind tr s1).
  assert (Htr : read_trailer (zlen (ind s) - zlen tr) s2 =
                (Go (Comb.crc32 0 data), set_ind [] s2)).
  { pose proof (read_trailer_gzip (zlen (ind s) - zlen tr) s2 s2) as H.
    assert (C : (8 <=? zlen (ind s2)) && (stored32 (ind s2) =? out_check s2)
                && (stored32 (drop 4 (ind s2)) =? out_tot s2 mod 2 ^ 32)
                = true).
    { subst s2. cbn [ind set_ind out_check out_tot]. subst tr.
      rewrite stored32_le32, drop_le32.
      rewrite <- (app_nil_r (le32 (zlen data))), stored32_le32.
      rewrite app_nil_r.
      change (8 <=? zlen (le32 _ ++ le32 _)) with true.
      rewrite Hc1, Ht. pose proof (crc32_word data) as Hw. unfold word in Hw.
      rewrite (Z.mod_small (Comb.crc32 0 data)) by lia.
      rewrite !Z.eqb_refl. reflexivity. }
    rewrite C in H. rewrite H.
    - subst s2 tr. cbn [ind set_ind]. rewrite stored32_le32.
      pose proof (crc32_word data) as Hw. unfold word in Hw.
      rewrite Z.mod_small by lia. reflexivity.
    - subst s2. cbn [glob set_ind]. congruence.
    - subst s2. cbn [in_eof set_ind]. subst s0. now rewrite He1.
    - repeat split. }
  set (s3 := set_ind [] s2) in *.
  set (s4 := set_in_eof true (set_glob (set_form 0 (glob s3)) s3)).
  assert (E4 : get_header c false s3 = (Return (-1), s4)).
  { apply get_header_eof; subst s3 s2; cbn [in_eof ind set_ind];
      [now rewrite He1|reflexivity]. }
  exists s4. split.
  - unfold infchk. cbn [infchk_loop]. unfold infchk_stream.
    repeat first [rewrite bind_bind | rewrite bind_modify].
    change (set_out_check (CHECK_init (glob (set_out_tot 0 s)))
              (set_out_tot 0 s)) with s0.
    rewrite bind_get. change (ind s0) with (ind s). rewrite Hib.
    repeat first [rewrite bind_bind | rewrite bind_modify]. fold s1.
    rewrite bind_get.
    repeat first [rewrite bind_bind | rewrite bind_modify]. fold s2.
    rewrite (bind_Go _ _ _ _ _ Htr). fold s3.
    rewrite bind_bind, bind_get.
    assert (Hl3 : listing (glob s3) = 0)
      by (subst s3 s2; cbn [glob set_ind]; congruence).
    rewrite Hl3. cbn [Z.eqb negb]. rewrite bind_ret, bind_get.
    assert (Hf3 : form (glob s3) = 0)
      by (subst s3 s2; cbn [glob set_ind]; congruence).
    rewrite Hf3. change (0 <? 2) with true. cbv iota.
    assert (Ecall : do_call (get_header c false) s3 = (Go (-1), s4))
      by (unfold do_call, call; now rewrite E4).
    rewrite (bind_Go _ _ _ _ _ Ecall), bind_get.
    change (-1 =? 8) with false. cbn [andb]. unfold ret.
    change (-1 =? -1) with true. cbn [negb andb]. reflexivity.
  - subst s4 s3 s2.
    cbn [removed stderr outd set_ind set_in_eof set_glob].
    rewrite Hr, Hs, Ho. subst s0.
    cbn [removed stderr outd glob set_out_check set_out_tot]. auto.
Qed.

Lemma infchk_accepts_gzip_witness :
  exists s',
    infchk some_clock
      (fun _ => ([[1; 2]; [3]],
                 Some (put_trailer some_clock default_globals 3 0
                         (Comb.crc32 0 [1; 2; 3]) 10)))
      (fun _ => false)
      (inflate_start (set_decode 1 default_globals) [7; 7])
    = Some (Returned, s') /\
    stderr s' = [] /\ outd s' = [1; 2; 3].
Proof.
  destruct (infchk_accepts_gzip some_clock some_clock default_globals
              (fun _ => ([[1; 2]; [3]],
                 Some (put_trailer some_clock default_globals 3 0
                         (Comb.crc32 0 [1; 2; 3]) 10)))
              (fun _ => false)
              (inflate_start (set_decode 1 default_globals) [7; 7])
              [[1; 2]; [3]] 0 10 eq_refl eq_refl eq_refl eq_refl eq_refl)
    as (s' & H1 & H2 & _ & H3).
  exists s'. split; [exact H1|]. split; [exact H2|exact H3].
Defined.

End OutputFacts.


(** ** The serial fallback: what is written *)

Section SerialOutput.
Import Deflate Serial.
Context (enc : encoder) (g : globals).

Lemma ulong_add_l a b : ulong (ulong a + b) = ulong (a + b).
Proof. unfold ulong. apply Z.add_mod_idemp_l. discriminate. Qed.

Lemma zlen_app {A} (a b : list A) : zlen (a ++ b) = zlen a + zlen b.
Proof. unfold zlen. rewrite length_app. lia. Qed.

(** One round of the loop in full, for blocks of at most [MAX] bytes. *)
Lemma round_fields ind st : 0 < size g <= MAX ->
  let b := take (Z.to_nat (size g)) ind in
  exists st',
    round enc g ind st = (st', drop (Z.to_nat (size g)) ind, zlen b) /\
    strm st' = strm st ++ [Deflate b (serial_flush g b)] /\
    check st' = (if zlen b =? 0 then check st else CHECK g (check st) b) /\
    ulen st' = ulong (ulen st + zlen b) /\
    outd st' = outd st ++ enc (level g) (strm st') /\
    clen st' = ulong (clen st + zlen (enc (level g) (strm st'))).
Proof.
  intros Hsz b. unfold round, readn. fold b.
  assert (Hb : zlen b <= size g).
  { unfold zlen, b. rewrite length_take. lia. }
  rewrite max_chunks_small by lia.
  eexists. split; [reflexivity|].
  unfold deflate_write, deflate.
  assert (E : take (Z.to_nat (zlen b)) b = b).
  { unfold zlen. rewrite Nat2Z.id. apply firstn_all. }
  destruct (zlen b =? 0);
    cbn [strm next_in check ulen clen outd set_check];
    rewrite E; repeat split; reflexivity.
Qed.

Lemma rounds_fields hd : 0 < size g <= MAX -> forall n ind st done,
  (length ind < n)%nat ->
  inputs (strm st) = done -> dictionaries (strm st) = [] ->
  check st = CHECK g (CHECK_init g) done ->
  ulen st = ulong (zlen done) ->
  outd st = hd ++ emitted enc (level g) (strm st) ->
  clen st = ulong (zlen (emitted enc (level g) (strm st))) ->
  exists st',
    rounds n enc g ind st = Some st' /\
    inputs (strm st') = done ++ ind /\ dictionaries (strm st') = [] /\
    check st' = CHECK g (CHECK_init g) (done ++ ind) /\
    ulen st' = ulong (zlen (done ++ ind)) /\
    outd st' = hd ++ emitted enc (level g) (strm st') /\
    clen st' = ulong (zlen (emitted enc (level g) (strm st'))).
Proof.
  intros Hsz. induction n as [|n IH]; intros ind st done Hn Hi Hd Hc Hu Ho Hl;
    [lia|].
  cbn [rounds].
  destruct (round_fields ind st Hsz) as (st1 & -> & Hs1 & Hc1 & Hu1 & Ho1 & Hl1).
  set (b := take (Z.to_nat (size g)) ind) in *.
  assert (Hlen : zlen b = Z.of_nat (Nat.min (Z.to_nat (size g)) (length ind))).
  { unfold zlen, b. now rewrite length_take. }
  assert (Hi1 : inputs (strm st1) = done ++ b).
  { rewrite Hs1, inputs_app, inputs_deflate, Hi. reflexivity. }
  assert (Hd1 : dictionaries (strm st1) = []).
  { rewrite Hs1, dictionaries_app, dictionaries_deflate, Hd. reflexivity. }
  assert (Hc1' : check st1 = CHECK g (CHECK_init g) (done ++ b)).
  { rewrite Hc1. destruct (Z.eqb_spec (zlen b) 0) as [Hz|Hz].
    - assert (b = []) as -> by (apply length_zero_iff_nil; unfold zlen in Hz; lia).
      now rewrite app_nil_r.
    - now rewrite Hc, CHECK_chain. }
  assert (Hu1' : ulen st1 = ulong (zlen (done ++ b))).
  { now rewrite Hu1, Hu, ulong_add_l, zlen_app. }
  assert (Ho1' : outd st1 = hd ++ emitted enc (level g) (strm st1)).
  { rewrite Ho1, Ho. rewrite Hs1 at 2. rewrite emitted_deflate, <- Hs1.
    now rewrite app_assoc. }
  assert (Hl1' : clen st1 = ulong (zlen (emitted enc (level g) (strm st1)))).
  { rewrite Hl1, Hl. rewrite Hs1 at 2. rewrite emitted_deflate, <- Hs1.
    now rewrite ulong_add_l, zlen_app. }
  destruct (Z.eqb_spec (zlen b) (size g)) as [Hfull|Hshort].
  - destruct (IH (drop (Z.to_nat (size g)) ind) st1 (done ++ b))
      as (st2 & E2 & H2); auto.
    { rewrite length_drop. lia. }
    exists st2. split; [exact E2|].
    unfold b in H2. rewrite <- !app_assoc, take_drop in H2. exact H2.
  - exists st1. split; [reflexivity|].
    assert (b = ind) as Eb by (unfold b; apply firstn_all2; lia).
    rewrite Eb in *. repeat split; assumption.
Qed.

(** X11.  The serial fallback, for blocks of at most [MAX] bytes, gives the whole
    input to one stream, in order and without a dictionary, and writes the
    header, what the encoder emitted over the calls on that stream, and the
    trailer for the length of the input, the length of what was emitted and
    the check value of the input. *)
Theorem single_gzip_output c ind : 0 < size g <= MAX ->
  exists st,
    single_gzip enc c g ind = Some st /\
    inputs (strm st) = ind /\ dictionaries (strm st) = [] /\
    let body := emitted enc (level g) (strm st) in
    outd st =
      fst (Framing.put_header c g) ++ body ++
      Framing.put_trailer c g (ulong (zlen ind)) (ulong (zlen body))
        (CHECK g (CHECK_init g) ind) (snd (Framing.put_header c g)).
Proof.
  intros Hsz. unfold single_gzip.
  destruct (Framing.put_header c g) as [hd head].
  match goal with |- context [rounds _ _ _ _ ?s] => set (st0 := s) end.
  destruct (rounds_fields hd Hsz (S (length ind)) ind st0 [])
    as (st1 & -> & Hi & Hd & Hc & Hu & Ho & Hl);
    try reflexivity.
  { lia. }
  { subst st0. cbn [check]. now rewrite CHECK_empty. }
  { subst st0. cbn [outd strm deflateReset]. unfold emitted. cbn.
    now rewrite app_nil_r. }
  eexists. split; [reflexivity|]. cbn [strm outd fst snd].
  rewrite app_nil_l in Hi, Hc, Hu.
  rewrite Hi, Hd, Ho, Hu, Hl, Hc, <- app_assoc. auto.
Qed.

Lemma deflate_write_strm st a f :
  strm (deflate_write enc g st a f) =
  strm st ++ [Deflate (take (Z.to_nat a) (next_in st)) f].
Proof. reflexivity. Qed.

Lemma deflate_write_next_in st a f :
  next_in (deflate_write enc g st a f) = drop (Z.to_nat a) (next_in st).
Proof. reflexivity. Qed.

Lemma deflate_write_check st a f :
  check (deflate_write enc g st a f) = check st.
Proof. reflexivity. Qed.

Lemma deflate_write_ulen st a f :
  ulen (deflate_write enc g st a f) = ulen st.
Proof. reflexivity. Qed.

Lemma deflate_write_emitted hd st a f :
  outd st = hd ++ emitted enc (level g) (strm st) ->
  clen st = ulong (zlen (emitted enc (level g) (strm st))) ->
  let st' := deflate_write enc g st a f in
  outd st' = hd ++ emitted enc (level g) (strm st') /\
  clen st' = ulong (zlen (emitted enc (level g) (strm st'))).
Proof.
  intros Ho Hl st'. subst st'. rewrite deflate_write_strm, emitted_deflate.
  unfold deflate_write, deflate. cbn [outd clen].
  rewrite Ho, Hl, ulong_add_l, zlen_app, app_assoc. auto.
Qed.

Lemma set_check_fields st c :
  next_in (set_check st c) = next_in st /\ ulen (set_check st c) = ulen st /\
  clen (set_check st c) = clen st /\ outd (set_check st c) = outd st /\
  check (set_check st c) = c.
Proof. repeat split. Qed.

(** The [while (got > MAX)] loop of [single_gzip]: [m] rounds, each taking
    [MAX] bytes without a flush. *)
Lemma serial_max_chunks_spec hd n : forall st got st' got',
  max_chunks n enc g st got = (st', got') -> 0 <= got ->
  outd st = hd ++ emitted enc (level g) (strm st) ->
  clen st = ulong (zlen (emitted enc (level g) (strm st))) ->
  exists m : nat,
    got = Z.of_nat m * MAX + got' /\ 0 <= got' /\
    (got / MAX <= Z.of_nat n -> got' <= MAX) /\
    (m = 0%nat -> st' = st) /\
    ((0 < m)%nat ->
     check st' = CHECK g (check st) (take (m * Z.to_nat MAX) (next_in st))) /\
    inputs (strm st') =
      inputs (strm st) ++ take (m * Z.to_nat MAX) (next_in st) /\
    dictionaries (strm st') = dictionaries (strm st) /\
    next_in st' = drop (m * Z.to_nat MAX) (next_in st) /\
    ulen st' = ulen st /\
    outd st' = hd ++ emitted enc (level g) (strm st') /\
    clen st' = ulong (zlen (emitted enc (level g) (strm st'))).
Proof.
  assert (HM : 0 < MAX) by reflexivity.
  induction n as [|n IH]; intros st got st' got' H Hgot Ho Hl;
    cbn [max_chunks] in H.
  - injection H as <- <-. exists 0%nat. cbn [Nat.mul take drop].
    rewrite app_nil_r. repeat split; auto; try lia.
    intros Hd. assert (got / MAX = 0) as Hq
      by (pose proof (Z.div_pos got MAX); lia).
    apply Z.div_small_iff in Hq; lia.
  - destruct (Z.gtb_spec got MAX) as [Hgt|Hle].
    + set (c1 := CHECK g (check st) (take (Z.to_nat MAX) (next_in st))) in *.
      destruct (deflate_write_emitted hd (set_check st c1) MAX Z_NO_FLUSH Ho Hl)
        as [Ho1 Hl1].
      destruct (IH _ _ _ _ H ltac:(lia) Ho1 Hl1)
        as (m & El & Hl' & Hfuel & Hm0 & Hc & Hi & Hd & Hn & Hu & Ho' & Hc').
      clear IH H Ho1 Hl1. exists (S m).
      rewrite deflate_write_strm in Hi, Hd.
      rewrite deflate_write_next_in in Hc, Hi, Hn.
      rewrite deflate_write_check in Hc. rewrite deflate_write_ulen in Hu.
      destruct (set_check_fields st c1) as (E1 & E2 & _ & _ & E5).
      rewrite E1 in Hc, Hi, Hn. rewrite E5 in Hc. rewrite E2 in Hu.
      rewrite strm_set_check in Hi, Hd.
      rewrite inputs_app, inputs_deflate in Hi.
      rewrite dictionaries_app, dictionaries_deflate, app_nil_r in Hd.
      rewrite Nat.mul_succ_l, (Nat.add_comm _ (Z.to_nat MAX)).
      rewrite <- take_take_drop, <- drop_drop.
      split; [clear - El; lia|].
      split; [exact Hl'|].
      split.
      { intros Hq. apply Hfuel. clear - Hq Hgt HM.
        replace got with ((got - MAX) + 1 * MAX) in Hq by lia.
        rewrite Z.div_add in Hq by lia. lia. }
      split; [intros Hm; discriminate Hm|].
      split.
      { intros _. destruct m as [|m'].
        - rewrite (Hm0 eq_refl), deflate_write_check, E5.
          rewrite Nat.mul_0_l, take_0, app_nil_r. reflexivity.
        - rewrite Hc by lia. subst c1. now rewrite CHECK_chain. }
      split; [rewrite Hi, <- app_assoc; reflexivity|].
      split; [exact Hd|].
      split; [exact Hn|].
      split; [exact Hu|]. split; [exact Ho'|exact Hc'].
    + injection H as <- <-. exists 0%nat. cbn [Nat.mul take drop].
      rewrite app_nil_r. repeat split; auto; lia.
Qed.

(** One round of the loop for any block size: the block read is compressed,
    and [got] is at most [MAX] when the loop test sees it. *)
Lemma round_any hd ind st done : 0 < size g ->
  serial_inv enc g hd done st ->
  let b := take (Z.to_nat (size g)) ind in
  exists st' got',
    round enc g ind st = (st', drop (Z.to_nat (size g)) ind, got') /\
    0 <= got' <= MAX /\ (zlen b <= MAX -> got' = zlen b) /\
    serial_inv enc g hd (done ++ b) st'.
Proof.
  intros Hsz (Hi & Hd & Hc & Hu & Ho & Hl) b. unfold round, readn. fold b.
  set (st0 := {| strm := strm st; next_in := b;
                 ulen := ulong (ulen st + zlen b); clen := clen st;
                 check := check st; outd := outd st |}).
  destruct (max_chunks (Z.to_nat (zlen b / MAX)) enc g st0 (zlen b))
    as [st1 got1] eqn:E.
  assert (Hb : 0 <= zlen b) by (unfold zlen; lia).
  assert (HP : 0 < MAX) by reflexivity.
  destruct (serial_max_chunks_spec hd _ _ _ _ _ E Hb Ho Hl)
    as (m & El & Hg1 & Hfuel & Hm0 & Hc1 & Hi1 & Hd1 & Hn1 & Hu1 & Ho1 & Hl1).
  change (strm st0) with (strm st) in Hi1, Hd1.
  change (next_in st0) with b in Hc1, Hi1, Hn1.
  change (check st0) with (check st) in Hc1.
  change (ulen st0) with (ulong (ulen st + zlen b)) in Hu1.
  assert (HM : got1 <= MAX).
  { apply Hfuel. pose proof (Z.div_pos (zlen b) MAX Hb eq_refl). lia. }
  assert (Hm : zlen b <= MAX -> m = 0%nat).
  { intros Hle. destruct m as [|m']; [reflexivity|].
    destruct (Z.eq_dec got1 0) as [Hz|Hz]; [|nia].
    assert (zlen b = MAX) by nia.
    assert (Hq : zlen b / MAX = 1) by (rewrite H; reflexivity).
    rewrite Hq in E. change (Z.to_nat 1) with 1%nat in E.
    cbn [max_chunks] in E. destruct (Z.gtb_spec (zlen b) MAX); [lia|].
    injection E as _ E. lia. }
  assert (Et : take (m * Z.to_nat MAX) b ++ take (Z.to_nat got1) (next_in st1)
               = b).
  { rewrite Hn1, take_take_drop. apply firstn_all2.
    pose proof MAX_eq. unfold zlen in El. nia. }
  assert (Hck : check (if got1 =? 0 then st1
                       else set_check st1
                              (CHECK g (check st1)
                                 (take (Z.to_nat got1) (next_in st1))))
                = CHECK g (CHECK_init g) (done ++ b)).
  { destruct (Z.eqb_spec got1 0) as [Hz|Hz].
    - destruct m as [|m'].
      + rewrite (Hm0 eq_refl). change (check st0) with (check st).
        assert (b = []) as ->
          by (apply length_zero_iff_nil; unfold zlen in El; lia).
        now rewrite app_nil_r.
      + rewrite Hc1 by lia. rewrite Hc, CHECK_chain. do 2 f_equal.
        rewrite <- Et at 2. rewrite Hz. change (Z.to_nat 0) with 0%nat.
        now rewrite take_0, app_nil_r.
    - destruct (set_check_fields st1
                  (CHECK g (check st1) (take (Z.to_nat got1) (next_in st1))))
        as (_ & _ & _ & _ & ->).
      destruct m as [|m'].
      + rewrite (Hm0 eq_refl) in *. change (check st0) with (check st).
        rewrite Nat.mul_0_l, take_0, app_nil_l in Et.
        now rewrite Et, Hc, CHECK_chain.
      + rewrite Hc1 by lia. rewrite Hc, !CHECK_chain, Et. reflexivity. }
  set (st2 := if got1 =? 0 then st1 else set_check st1 _) in *.
  assert (F2 : strm st2 = strm st1 /\ next_in st2 = next_in st1 /\
               ulen st2 = ulen st1 /\ outd st2 = outd st1 /\
               clen st2 = clen st1).
  { subst st2. destruct (got1 =? 0); repeat split. }
  destruct F2 as (Fs & Fn & Fu & Fo & Fl).
  rewrite <- Fs in Ho1, Hl1. rewrite <- Fo in Ho1. rewrite <- Fl in Hl1.
  set (f := if got1 <? size g then Z_FINISH else _).
  destruct (deflate_write_emitted hd st2 got1 f Ho1 Hl1) as [Ho2 Hl2].
  eexists _, got1. split; [reflexivity|].
  split; [lia|]. split.
  { intros Hle. rewrite (Hm Hle) in El. lia. }
  unfold serial_inv.
  rewrite deflate_write_strm, deflate_write_check, deflate_write_ulen in *.
  rewrite inputs_app, dictionaries_app, inputs_deflate, dictionaries_deflate.
  rewrite Fs, Fn, Fu, Hi1, Hd1, Hd, Hu1, Hi, Hu, Hck, <- app_assoc, Et.
  rewrite ulong_add_l, zlen_app.
  rewrite Fs, Fn in Ho2, Hl2. repeat split; assumption.
Qed.

(** X12.  With blocks of more than [MAX] bytes the serial fallback makes one read
    only: [got] is less than [size] after the pieces of [MAX] bytes, so the
    stream is finished and the loop left with the first block, whatever
    input is behind it. *)
Theorem single_gzip_big_blocks c ind : MAX < size g < 2 ^ 32 ->
  let data := take (Z.to_nat (size g)) ind in
  exists st,
    single_gzip enc c g ind = Some st /\
    inputs (strm st) = data /\
    let body := emitted enc (level g) (strm st) in
    outd st =
      fst (Framing.put_header c g) ++ body ++
      Framing.put_trailer c g (ulong (zlen data)) (ulong (zlen body))
        (CHECK g (CHECK_init g) data) (snd (Framing.put_header c g)).
Proof.
  intros Hsz data. unfold single_gzip.
  destruct (Framing.put_header c g) as [hd head].
  match goal with |- context [rounds _ _ _ _ ?s] => set (st0 := s) end.
  assert (H0 : serial_inv enc g hd [] st0).
  { subst st0. unfold serial_inv. cbn [strm check ulen clen outd deflateReset].
    rewrite CHECK_empty. unfold emitted. cbn [fold_left snd].
    rewrite app_nil_r. repeat split. }
  assert (HM : 0 < MAX) by reflexivity.
  destruct (round_any hd ind st0 [] ltac:(lia) H0)
    as (st1 & got1 & E & Hg & _ & Hi & _ & Hc & Hu & Ho & Hl).
  cbn [rounds]. rewrite E.
  destruct (Z.eqb_spec got1 (size g)) as [Heq|_]; [lia|].
  eexists. split; [reflexivity|]. cbn [strm outd fst snd].
  rewrite app_nil_l in Hi, Hc, Hu. fold data in Hi, Hc, Hu.
  rewrite Hi, Ho, Hu, Hl, Hc, <- app_assoc. auto.
Qed.

End SerialOutput.

Lemma single_gzip_output_witness :
  exists st,
    Serial.single_gzip null_encoder some_clock default_globals short_tail
      = Some st /\
    inputs (Serial.strm st) = short_tail.
Proof.
  destruct (single_gzip_output null_encoder default_globals some_clock
              short_tail) as (st & H1 & H2 & _).
  { vm_compute; split; [reflexivity|discriminate]. }
  exists st. split; [exact H1|exact H2].
Defined.


Lemma single_gzip_big_blocks_witness :
  exists st,
    Serial.single_gzip null_encoder some_clock big_block_globals [1; 2; 3]
      = Some st /\
    inputs (Serial.strm st) =
      take (Z.to_nat (size big_block_globals)) [1; 2; 3].
Proof.
  destruct (single_gzip_big_blocks null_encoder big_block_globals some_clock
              [1; 2; 3]) as (st & H1 & H2 & _).
  { split; [reflexivity|reflexivity]. }
  exists st. split; [exact H1|exact H2].
Defined.


(** ** The pipeline: termination and the trailer *)

Section PipelineSums.
Import Deflate Pipeline Ring.
Context (w : world) (g : globals).

Lemma ring_procs_pos : (1 < procs g)%nat -> (0 < procs g)%nat.
Proof. lia. Qed.

Lemma ring_size_pos : DICT <= size g -> 0 < size g.
Proof. unfold DICT. lia. Qed.

Lemma ulen_of_blocks : forall rs bs a,
  Forall2 (compressed w g) bs rs ->
  fold_left (fun a r => ulong (a + len r)) rs (ulong a) =
  ulong (a + zlen (concat bs)).
Proof.
  intros rs bs a H. revert a.
  induction H as [|b r bs rs (Hl & _) _ IH]; intros a; cbn [fold_left concat].
  - unfold zlen. cbn [length]. now rewrite Z.add_0_r.
  - rewrite ulong_add_l, IH, Hl, zlen_app. f_equal. lia.
Qed.

Lemma clen_of_outs : forall rs a,
  fold_left (fun a r => ulong (a + zlen (out r))) rs (ulong a) =
  ulong (a + zlen (concat (map out rs))).
Proof.
  induction rs as [|r rs IH]; intros a; cbn [fold_left map concat].
  - unfold zlen. cbn [length]. now rewrite Z.add_0_r.
  - rewrite ulong_add_l, IH, zlen_app. f_equal. lia.
Qed.

Lemma check_of_blocks : form g <> 1 -> forall rs bs A,
  Forall2 (compressed w g) bs rs ->
  fold_left (fun a r => COMB g a (check r) (len r)) rs (Comb.crc32 0 A) =
  Comb.crc32 0 (A ++ concat bs).
Proof.
  intros Hf rs bs A H. revert A. apply Z.eqb_neq in Hf.
  induction H as [|b r bs rs (Hl & Hc & _) _ IH]; intros A;
    cbn [fold_left concat].
  - now rewrite app_nil_r.
  - assert (E : COMB g (Comb.crc32 0 A) (check r) (len r) =
                 Comb.crc32 0 (A ++ b)).
    { rewrite Hl, Hc. unfold COMB, CHECK, CHECK_init. rewrite Hf.
      apply crc32_comb_app. }
    rewrite E, IH, app_assoc. reflexivity.
Qed.

End PipelineSums.

Section PipelineRuns.
Import Deflate Pipeline Ring.
Context (w : world) (g : globals) (input : list Z).
Context (Hprocs : (1 < procs g)%nat) (Hdict : DICT <= size g).

Local Abbreviation B := (blocks (size g) input).
Local Abbreviation HN := (ring_procs_pos g Hprocs).
Local Abbreviation Hsize := (ring_size_pos g Hdict).

Lemma steps_continue pool : pool_ok g pool -> forall k n s,
  (16 * length B + 16 <= n + k)%nat ->
  steps w g n (init g pool input) s ->
  exists m s', steps w g (n + m) (init g pool input) s' /\ rpc s' = R_done.
Proof.
  intros Hpool. induction k as [|k IH]; intros n s Hk Hsteps.
  - destruct (steps_inv w g input HN Hsize pool n s Hpool Hsteps)
      as (R & W & rs & I & Hrank).
    assert (Hdec : rpc s = R_done \/ rpc s <> R_done)
      by (destruct (rpc s); auto; right; discriminate).
    destruct Hdec as [Hd|Hd].
    + exists 0%nat, s. rewrite Nat.add_0_r. auto.
    + destruct (progress w g input HN R W rs s I Hd) as (a & s1 & Ha).
      assert (Hs1 : steps w g (S n) (init g pool input) s1).
      { econstructor; [exact Hsteps|]. exists a. exact Ha. }
      destruct (steps_inv w g input HN Hsize pool _ _ Hpool Hs1)
        as (R1 & W1 & rs1 & _ & Hrank1). lia.
  - destruct (steps_inv w g input HN Hsize pool n s Hpool Hsteps)
      as (R & W & rs & I & Hrank).
    assert (Hdec : rpc s = R_done \/ rpc s <> R_done)
      by (destruct (rpc s); auto; right; discriminate).
    destruct Hdec as [Hd|Hd].
    + exists 0%nat, s. rewrite Nat.add_0_r. auto.
    + destruct (progress w g input HN R W rs s I Hd) as (a & s1 & Ha).
      assert (Hs1 : steps w g (S n) (init g pool input) s1).
      { econstructor; [exact Hsteps|]. exists a. exact Ha. }
      destruct (IH (S n) s1 ltac:(lia) Hs1) as (m & s' & Hm & Hd').
      exists (S m), s'. rewrite <- Nat.add_succ_comm. auto.
Qed.

Lemma done_finished R W rs s :
  inv w g input R W rs s -> rpc s = R_done -> wpc s = W_finished.
Proof.
  intros I Hd. pose proof (inv_reader _ _ _ _ _ _ _ I) as Hrd.
  unfold reader_inv in Hrd. rewrite Hd in Hrd. tauto.
Qed.

(** X13.  However the threads are scheduled, the pipeline comes to its end: a run
    has at most 16 steps for each block and 16 more; as long as
    [read_thread] has not returned some thread can take a step; every run
    can be continued to a state in which it has returned; and when it has
    returned, [write_thread] has finished. *)
Theorem pipeline_terminates pool n s :
  pool_ok g pool -> steps w g n (init g pool input) s ->
  (n <= 16 * length B + 16)%nat /\
  (rpc s <> R_done -> exists s', step w g s s') /\
  (rpc s = R_done -> wpc s = W_finished) /\
  exists m s', steps w g (n + m) (init g pool input) s' /\
               rpc s' = R_done /\ wpc s' = W_finished.
Proof.
  intros Hpool Hsteps.
  destruct (steps_inv w g input HN Hsize pool n s Hpool Hsteps)
    as (R & W & rs & I & Hrank).
  split; [lia|]. split; [|split].
  - intros Hd. destruct (progress w g input HN R W rs s I Hd) as (a & s' & Ha).
    exists s', a. exact Ha.
  - apply (done_finished R W rs s I).
  - destruct (steps_continue pool Hpool (16 * length B + 16) n s ltac:(lia)
                Hsteps) as (m & s' & Hm & Hd).
    exists m, s'. split; [exact Hm|]. split; [exact Hd|].
    destruct (steps_inv w g input HN Hsize pool _ _ Hpool Hm)
      as (R' & W' & rs' & I' & _).
    apply (done_finished R' W' rs' s' I' Hd).
Qed.

(** X14.  When [write_thread] has finished and the check is a CRC-32 (gzip and
    zip), the trailer is the one for the length of the whole input, the
    length of all that was written between header and trailer, and the
    CRC-32 of the whole input. *)
Theorem pipeline_trailer pool n s :
  form g <> 1 -> pool_ok g pool ->
  steps w g n (init g pool input) s -> wpc s = W_finished ->
  exists body,
    outd s =
      fst (Framing.put_header (clk w) g) ++ body ++
      Framing.put_trailer (clk w) g (ulong (zlen input)) (ulong (zlen body))
        (Comb.crc32 0 input) (snd (Framing.put_header (clk w) g)).
Proof.
  intros Hf Hpool Hsteps Hw.
  destruct (pipeline_finished w g input HN Hsize pool n s Hpool Hsteps Hw)
    as (rs & Ho & Hlen & Hrs).
  pose proof (results_compressed w g input HN Hsize rs Hlen Hrs) as Hc.
  exists (concat (map out rs)). rewrite Ho. unfold stream_of, outs.
  do 3 f_equal.
  - unfold ulen_of. change 0 with (ulong 0) at 1.
    rewrite (ulen_of_blocks w g rs B 0 Hc), Z.add_0_l.
    now rewrite (blocks_concat g input Hsize).
  - unfold clen_of. change 0 with (ulong 0) at 1.
    now rewrite clen_of_outs, Z.add_0_l.
  - unfold check_of. assert (E : CHECK_init g = Comb.crc32 0 []).
    { unfold CHECK_init. apply Z.eqb_neq in Hf. now rewrite Hf. }
    rewrite E, (check_of_blocks w g Hf rs B [] Hc), app_nil_l.
    now rewrite (blocks_concat g input Hsize).
Qed.

End PipelineRuns.

Lemma pipeline_terminates_witness :
  exists m s',
    Pipeline.steps some_world default_globals m
      (Pipeline.init default_globals None short_tail) s' /\
    Pipeline.wpc s' = Pipeline.W_finished.
Proof.
  destruct (pipeline_terminates some_world default_globals short_tail
              ltac:(vm_compute; lia) ltac:(vm_compute; discriminate)
              None 0%nat
              (Pipeline.init default_globals None short_tail) I
              (Pipeline.steps_O _ _ _))
    as (_ & _ & _ & m & s' & H1 & _ & H2).
  exists m, s'. split; [exact H1|exact H2].
Defined.

Lemma pipeline_trailer_witness :
  exists s body,
    Pipeline.outd s =
      fst (Framing.put_header some_clock default_globals) ++ body ++
      Framing.put_trailer some_clock default_globals
        (ulong (zlen short_tail)) (ulong (zlen body))
        (Comb.crc32 0 short_tail)
        (snd (Framing.put_header some_clock default_globals)).
Proof.
  destruct (complete_run some_world default_globals two_blocks_schedule
              short_tail complete_short_tail) as (s & Hrun & Hw).
  destruct (pipeline_trailer some_world default_globals short_tail
              ltac:(vm_compute; lia) ltac:(vm_compute; discriminate)
              None _ s
              ltac:(discriminate) I
              (run_steps _ _ _ _ _ Hrun) Hw) as (body & H).
  exists s, body. exact H.
Defined.


(** ** The Adler-32 combiner, exactly *)

Section AdlerExact.
Import Comb.

Lemma byte_sum_app a b : byte_sum (a ++ b) = byte_sum a + byte_sum b.
Proof. induction a as [|x a IH]; cbn [app byte_sum]; lia. Qed.

Lemma byte_sums_app a b :
  byte_sums (a ++ b) = byte_sums a + zlen b * byte_sum a + byte_sums b.
Proof.
  induction a as [|x a IH]; cbn [app byte_sum byte_sums]; [lia|].
  rewrite IH, zlen_app. lia.
Qed.

(** Adler-32 in closed form. *)
Lemma adler_fold buf : forall x1 x2,
  0 <= x1 < BASE -> 0 <= x2 < BASE ->
  fold_left adler_byte buf (x1, x2) =
  ((x1 + byte_sum buf) mod BASE,
   (x2 + zlen buf * x1 + byte_sums buf) mod BASE).
Proof.
  induction buf as [|b buf IH]; intros x1 x2 H1 H2.
  - cbn [fold_left byte_sum byte_sums]. unfold zlen. cbn [length].
    f_equal; rewrite Z.mod_small; lia.
  - cbn [fold_left byte_sum byte_sums]. unfold adler_byte at 2.
    cbn [fst snd]. rewrite IH by (apply Z.mod_pos_bound; reflexivity).
    rewrite zlen_cons. f_equal.
    + rewrite Z.add_mod_idemp_l by discriminate. f_equal. lia.
    + set (s1 := (x1 + rd8 b) mod BASE).
      rewrite <- Z.add_assoc, Z.add_mod_idemp_l by discriminate.
      replace (x2 + s1 + (zlen buf * s1 + byte_sums buf))
        with ((zlen buf + 1) * s1 + (x2 + byte_sums buf)) by lia.
      rewrite <- Z.add_mod_idemp_l by discriminate. subst s1.
      rewrite Z.mul_mod_idemp_r by discriminate.
      rewrite Z.add_mod_idemp_l by discriminate. f_equal. lia.
Qed.

Lemma adler32_halves buf :
  adler32 1 buf =
  Z.lor (Z.shiftl ((zlen buf + byte_sums buf) mod BASE) 16)
        ((1 + byte_sum buf) mod BASE).
Proof.
  unfold adler32. change (Z.land 1 LOW16) with 1.
  change (Z.land (Z.shiftr 1 16) LOW16) with 0.
  rewrite adler_fold by (unfold BASE; lia). cbn [fst snd].
  do 3 f_equal. lia.
Qed.

Lemma base_halves s1 s2 : 0 <= s1 <= BASE -> 0 <= s2 <= BASE ->
  Z.land (Z.lor (Z.shiftl s2 16) s1) LOW16 = s1 /\
  Z.land (Z.shiftr (Z.lor (Z.shiftl s2 16) s1) 16) LOW16 = s2.
Proof. intros H1 H2. apply adler_halves; unfold BASE in *; lia. Qed.

(** [adler32_comb] on a first value with halves up to [BASE]. *)
Lemma adler32_comb_halves x1 x2 buf :
  0 <= x1 <= BASE -> 0 <= x2 <= BASE ->
  adler32_comb (Z.lor (Z.shiftl x2 16) x1) (adler32 1 buf) (zlen buf) =
  Z.lor (nonzero_half ((x1 + byte_sum buf) mod BASE))
        (Z.shiftl (nonzero_half
                     ((x2 + zlen buf * x1 + byte_sums buf) mod BASE)) 16).
Proof.
  intros H1 H2. unfold adler32_comb. rewrite adler32_halves.
  destruct (base_halves x1 x2 H1 H2) as [-> ->].
  set (b1 := (1 + byte_sum buf) mod BASE).
  set (b2 := (zlen buf + byte_sums buf) mod BASE).
  assert (Hb1 : 0 <= b1 < BASE) by (apply Z.mod_pos_bound; reflexivity).
  assert (Hb2 : 0 <= b2 < BASE) by (apply Z.mod_pos_bound; reflexivity).
  destruct (base_halves b1 b2 ltac:(lia) ltac:(lia)) as [-> ->].
  assert (Hn : 0 <= zlen buf) by (unfold zlen; lia).
  assert (Hrem : u32 (zlen buf mod BASE) = zlen buf mod BASE).
  { unfold u32. apply Z.mod_small.
    pose proof (Z.mod_pos_bound (zlen buf) BASE eq_refl).
    unfold BASE in *. lia. }
  rewrite Hrem. set (rem := zlen buf mod BASE).
  assert (Hr : 0 <= rem < BASE) by (apply Z.mod_pos_bound; reflexivity).
  set (p := (rem * x1) mod BASE).
  assert (Hp : 0 <= p < BASE) by (apply Z.mod_pos_bound; reflexivity).
  assert (Ep : (x2 + zlen buf * x1 + byte_sums buf) mod BASE =
               (x2 + p + byte_sums buf) mod BASE).
  { subst p rem. rewrite Z.mul_mod_idemp_l by discriminate.
    rewrite <- (Z.add_mod_idemp_l (x2 + _)) by discriminate.
    rewrite <- (Z.add_mod_idemp_r x2) by discriminate.
    rewrite (Z.add_mod_idemp_l (x2 + _)) by discriminate. reflexivity. }
  rewrite Ep. clearbody p.
  change (Z.shiftl BASE 1) with (2 * BASE).
  f_equal; [|f_equal]; unfold nonzero_half.
  - subst b1. unfold BASE in *.
    repeat match goal with
           | |- context [?a >? ?b] => destruct (Z.gtb_spec a b)
           | |- context [?a =? ?b] => destruct (Z.eqb_spec a b)
           end; Z.div_mod_to_equations; lia.
  - subst b2 rem. unfold BASE in *.
    repeat match goal with
           | |- context [?a >? ?b] => destruct (Z.gtb_spec a b)
           | |- context [?a =? ?b] => destruct (Z.eqb_spec a b)
           end; Z.div_mod_to_equations; lia.
Qed.

Lemma nonzero_half_range y :
  1 <= nonzero_half (y mod BASE) <= BASE.
Proof.
  unfold nonzero_half. pose proof (Z.mod_pos_bound y BASE eq_refl).
  destruct (Z.eqb_spec (y mod BASE) 0); unfold BASE in *; lia.
Qed.

Lemma nonzero_half_mod y :
  exists k, nonzero_half (y mod BASE) = y + k * BASE.
Proof.
  unfold nonzero_half. rewrite (Z.mod_eq y BASE) by discriminate.
  destruct (Z.eqb_spec (y - BASE * (y / BASE)) 0).
  - exists (1 - y / BASE). lia.
  - exists (- (y / BASE)). lia.
Qed.

Lemma adler_skewed_halves t1 t2 :
  0 <= t1 < BASE -> 0 <= t2 < BASE ->
  adler_skewed (Z.lor (Z.shiftl t2 16) t1) =
  Z.lor (nonzero_half t1) (Z.shiftl (nonzero_half t2) 16).
Proof.
  intros H1 H2. unfold adler_skewed.
  destruct (base_halves t1 t2 ltac:(lia) ltac:(lia)) as [-> ->]. reflexivity.
Qed.

Lemma adler_skewed_adler32 buf :
  adler_skewed (adler32 1 buf) =
  Z.lor (nonzero_half ((1 + byte_sum buf) mod BASE))
        (Z.shiftl (nonzero_half ((zlen buf + byte_sums buf) mod BASE)) 16).
Proof.
  rewrite adler32_halves.
  apply adler_skewed_halves; apply Z.mod_pos_bound; reflexivity.
Qed.

(** Equal up to a multiple of [BASE]. *)
Lemma mod_BASE_eq a b k : a = b + k * BASE -> a mod BASE = b mod BASE.
Proof. intros ->. apply Z_mod_plus_full. Qed.

(** X15.  C3 made exact.  [adler32_comb] applied to the Adler-32 values of two
    byte sequences and the length of the second gives the Adler-32 of their
    concatenation with every half that is zero replaced by [BASE]: so it is
    the Adler-32 of the concatenation if and only if neither half of that is
    zero. *)
Theorem adler32_comb_exact (A B : list Z) :
  let t := adler32 1 (A ++ B) in
  let r := adler32_comb (adler32 1 A) (adler32 1 B) (zlen B) in
  r = adler_skewed t /\
  (r = t <-> Z.land t LOW16 <> 0 /\ Z.land (Z.shiftr t 16) LOW16 <> 0).
Proof.
  cbv zeta.
  assert (E : adler32_comb (adler32 1 A) (adler32 1 B) (zlen B) =
              adler_skewed (adler32 1 (A ++ B))).
  { rewrite adler_skewed_adler32, (adler32_halves A).
    rewrite adler32_comb_halves
      by (split; try apply Z.mod_pos_bound; try reflexivity;
          apply Z.lt_le_incl, Z.mod_pos_bound; reflexivity).
    rewrite byte_sum_app, byte_sums_app, zlen_app.
    destruct (Z.mod_eq (1 + byte_sum A) BASE ltac:(discriminate)).
    destruct (Z.mod_eq (zlen A + byte_sums A) BASE ltac:(discriminate)).
    set (q1 := (1 + byte_sum A) / BASE).
    set (q2 := (zlen A + byte_sums A) / BASE).
    do 2 f_equal; [|f_equal].
    - apply (mod_BASE_eq _ _ (- q1)). rewrite Z.mod_eq by discriminate.
      fold q1. lia.
    - apply (mod_BASE_eq _ _ (- q2 - zlen B * q1)).
      rewrite !Z.mod_eq by discriminate. fold q1 q2. lia. }
  split; [exact E|]. rewrite E, adler32_halves.
  set (t1 := (1 + byte_sum (A ++ B)) mod BASE).
  set (t2 := (zlen (A ++ B) + byte_sums (A ++ B)) mod BASE).
  assert (H1 : 0 <= t1 < BASE) by (apply Z.mod_pos_bound; reflexivity).
  assert (H2 : 0 <= t2 < BASE) by (apply Z.mod_pos_bound; reflexivity).
  rewrite adler_skewed_halves by assumption.
  destruct (base_halves t1 t2 ltac:(lia) ltac:(lia)) as [-> ->].
  unfold nonzero_half. split.
  - intros H.
    assert (Hn1 : 0 <= (if t1 =? 0 then BASE else t1) <= BASE)
      by (destruct (t1 =? 0); unfold BASE in *; lia).
    assert (Hn2 : 0 <= (if t2 =? 0 then BASE else t2) <= BASE)
      by (destruct (t2 =? 0); unfold BASE in *; lia).
    rewrite Z.lor_comm in H.
    destruct (base_halves _ _ Hn1 Hn2) as [E1 E2]. rewrite H in E1, E2.
    destruct (base_halves t1 t2 ltac:(lia) ltac:(lia)) as [F1 F2].
    rewrite F1 in E1. rewrite F2 in E2.
    destruct (Z.eqb_spec t1 0), (Z.eqb_spec t2 0); unfold BASE in *; lia.
  - intros [N1 N2]. apply Z.eqb_neq in N1, N2. rewrite N1, N2.
    apply Z.lor_comm.
Qed.

End AdlerExact.

(** ** The pipeline: the zlib trailer *)

Section PipelineZlib.
Import Comb Deflate Pipeline Ring.
Context (w : world) (g : globals) (input : list Z).
Context (Hprocs : (1 < procs g)%nat) (Hdict : DICT <= size g).
Context (Hform : form g = 1).

Lemma COMB_adler x1 x2 data r :
  0 <= x1 <= BASE -> 0 <= x2 <= BASE -> compressed w g data r ->
  COMB g (Z.lor (Z.shiftl x2 16) x1) (check r) (len r) =
  Z.lor (Z.shiftl (nonzero_half
                     ((x2 + zlen data * x1 + byte_sums data) mod BASE)) 16)
        (nonzero_half ((x1 + byte_sum data) mod BASE)).
Proof.
  intros H1 H2 (Hl & Hc & _). rewrite Hl, Hc.
  unfold COMB, CHECK, CHECK_init. rewrite Hform. cbn [Z.eqb Pos.eqb].
  rewrite adler32_comb_halves by assumption. apply Z.lor_comm.
Qed.

Lemma check_of_adler : forall bs rs,
  Forall2 (compressed w g) bs rs ->
  forall b0 r0 x1 x2,
    0 <= x1 <= BASE -> 0 <= x2 <= BASE -> compressed w g b0 r0 ->
    let data := concat (b0 :: bs) in
    fold_left (fun a r => COMB g a (check r) (len r)) (r0 :: rs)
      (Z.lor (Z.shiftl x2 16) x1) =
    Z.lor (Z.shiftl (nonzero_half
                       ((x2 + zlen data * x1 + byte_sums data) mod BASE)) 16)
          (nonzero_half ((x1 + byte_sum data) mod BASE)).
Proof.
  induction 1 as [|b r bs rs Hbr _ IH]; intros b0 r0 x1 x2 H1 H2 H0;
    cbv zeta.
  - cbn [fold_left concat]. rewrite app_nil_r. now apply COMB_adler.
  - cbn [fold_left]. rewrite (COMB_adler x1 x2 b0 r0 H1 H2 H0).
    change (fold_left ?f rs (COMB g ?a (check r) (len r)))
      with (fold_left f (r :: rs) a).
    pose proof (nonzero_half_range (x1 + byte_sum b0)) as R1.
    pose proof (nonzero_half_range (x2 + zlen b0 * x1 + byte_sums b0)) as R2.
    rewrite (IH b r (nonzero_half ((x1 + byte_sum b0) mod BASE))
               (nonzero_half ((x2 + zlen b0 * x1 + byte_sums b0) mod BASE))
               ltac:(lia) ltac:(lia) Hbr).
    destruct (nonzero_half_mod (x1 + byte_sum b0)) as [k1 ->].
    destruct (nonzero_half_mod (x2 + zlen b0 * x1 + byte_sums b0))
      as [k2 ->].
    change (concat (b0 :: b :: bs)) with (b0 ++ concat (b :: bs)).
    set (rest := concat (b :: bs)).
    rewrite byte_sum_app, byte_sums_app, zlen_app.
    do 2 f_equal; [f_equal|].
    + apply (mod_BASE_eq _ _ (k2 + zlen rest * k1)). lia.
    + apply (mod_BASE_eq _ _ k1). lia.
Qed.

(** X16.  With the zlib format the parallel path combines Adler-32 values, and
    the check in the trailer is the Adler-32 of the whole input with every
    half that is zero replaced by [BASE]. *)
Theorem pipeline_trailer_zlib pool n s :
  pool_ok g pool ->
  steps w g n (init g pool input) s -> wpc s = W_finished ->
  exists body,
    outd s =
      fst (Framing.put_header (clk w) g) ++ body ++
      Framing.put_trailer (clk w) g (ulong (zlen input)) (ulong (zlen body))
        (adler_skewed (adler32 1 input))
        (snd (Framing.put_header (clk w) g)).
Proof.
  intros Hpool Hsteps Hw.
  pose proof (ring_procs_pos g Hprocs) as HN.
  pose proof (ring_size_pos g Hdict) as Hsize.
  destruct (pipeline_finished w g input HN Hsize pool n s Hpool Hsteps Hw)
    as (rs & Ho & Hlen & Hrs).
  pose proof (results_compressed w g input HN Hsize rs Hlen Hrs) as Hc.
  exists (concat (map out rs)). rewrite Ho. unfold stream_of, outs.
  do 3 f_equal.
  - unfold ulen_of. change 0 with (ulong 0) at 1.
    rewrite (ulen_of_blocks w g rs _ 0 Hc), Z.add_0_l.
    now rewrite (blocks_concat g input Hsize).
  - unfold clen_of. change 0 with (ulong 0) at 1.
    now rewrite clen_of_outs, Z.add_0_l.
  - unfold check_of.
    assert (E : CHECK_init g = Z.lor (Z.shiftl 0 16) 1).
    { unfold CHECK_init. now rewrite Hform. }
    rewrite E. pose proof (blocks_nonempty g input HN Hsize) as Hne.
    pose proof (blocks_concat g input Hsize) as Hcat. revert Hne Hcat.
    destruct Hc as [|b0 r0 bs rs' H0 Hrest]; intros Hne Hcat;
      [cbn [length] in Hne; lia|].
    rewrite (check_of_adler bs rs' Hrest b0 r0 1 0); try assumption;
      try (unfold BASE; lia).
    rewrite Hcat, adler_skewed_adler32.
    rewrite Z.lor_comm. do 4 f_equal. lia.
Qed.

End PipelineZlib.

Lemma pipeline_trailer_zlib_witness :
  exists s body,
    Pipeline.outd s =
      fst (Framing.put_header some_clock (set_form 1 default_globals)) ++
      body ++
      Framing.put_trailer some_clock (set_form 1 default_globals)
        (ulong (zlen short_tail)) (ulong (zlen body))
        (adler_skewed (Comb.adler32 1 short_tail))
        (snd (Framing.put_header some_clock (set_form 1 default_globals))).
Proof.
  assert (C : complete some_world (set_form 1 default_globals)
                two_blocks_schedule short_tail = true)
    by (vm_compute; reflexivity).
  destruct (complete_run some_world (set_form 1 default_globals)
              two_blocks_schedule short_tail C) as (s & Hrun & Hw).
  destruct (pipeline_trailer_zlib some_world (set_form 1 default_globals)
              short_tail ltac:(vm_compute; lia)
              ltac:(vm_compute; discriminate) eq_refl None _ s I
              (run_steps _ _ _ _ _ Hrun) Hw) as (body & H).
  exists s, body. exact H.
Defined.


(** ** Decompression: the zlib trailer *)

Section ZlibTrailer.
Import Framing Inflate.

Lemma put_trailer_zlib c g ulen clen check head : form g = 1 ->
  put_trailer c g ulen clen check head = be32 check.
Proof.
  intros Hf. unfold put_trailer. rewrite Hf.
  change (1 >? 1) with false. change (negb (1 =? 0)) with true. cbv iota.
  unfold be32, le32. cbn [rev app].
  cbv [PUT4M writen insert list_insert replicate Nat.add take u8].
  rewrite !Z.shiftr_div_pow2 by lia.
  change (2 ^ 32) with 4294967296. change (2 ^ 24) with 16777216.
  change (2 ^ 16) with 65536. change (2 ^ 8) with 256.
  f_equal; [|f_equal; [|f_equal; [|f_equal]]];
    Z.div_mod_to_equations; lia.
Qed.

Lemma adler32_word buf : 0 <= Comb.adler32 1 buf < 2 ^ 32.
Proof.
  rewrite adler32_halves.
  set (s1 := (1 + byte_sum buf) mod Comb.BASE).
  set (s2 := (zlen buf + byte_sums buf) mod Comb.BASE).
  assert (H1 : 0 <= s1 < 2 ^ 16)
    by (pose proof (Z.mod_pos_bound (1 + byte_sum buf) Comb.BASE eq_refl);
        unfold Comb.BASE in *; subst s1; lia).
  assert (H2 : 0 <= s2 < 2 ^ 16)
    by (pose proof (Z.mod_pos_bound (zlen buf + byte_sums buf) Comb.BASE
                      eq_refl); unfold Comb.BASE in *; subst s2; lia).
  clearbody s1 s2. split.
  - apply Z.lor_nonneg. split; [apply Z.shiftl_nonneg|]; lia.
  - apply Z.log2_lt_cancel. change (Z.log2 (2 ^ 32)) with 32.
    destruct (Z.eq_dec (Z.lor (Z.shiftl s2 16) s1) 0) as [->|Hne];
      [reflexivity|].
    rewrite Z.log2_lor by (try apply Z.shiftl_nonneg; lia).
    apply Z.max_lub_lt.
    + destruct (Z.eq_dec s2 0) as [->|N2]; [reflexivity|].
      rewrite Z.log2_shiftl by lia.
      assert (Z.log2 s2 < 16) by (apply Z.log2_lt_pow2; lia). lia.
    + destruct (Z.eq_dec s1 0) as [->|N1]; [reflexivity|].
      assert (Z.log2 s1 < 16) by (apply Z.log2_lt_pow2; lia). lia.
Qed.

(** The value that [read_trailer] makes of the four bytes of a zlib
    trailer: the shift of the first byte is done in [int]. *)
Lemma zlib_check_value x : 0 <= x < 2 ^ 32 ->
  exists b0 b1 b2 b3, be32 x = [b0; b1; b2; b3] /\
    ulong (ulong (ulong (ulong (int_shl (rd8 b0) 24) + int_shl (rd8 b1) 16)
                  + int_shl (rd8 b2) 8) + rd8 b3) =
    if x <? 2 ^ 31 then x else x + 2 ^ 64 - 2 ^ 32.
Proof.
  intros Hx. unfold be32, le32. cbn [rev app]. eexists _, _, _, _.
  split; [reflexivity|].
  rewrite !rd8_byte by (apply Z.mod_pos_bound; lia).
  rewrite (Z.mod_small x) by lia.
  unfold int_shl, ulong. rewrite !Z.shiftl_mul_pow2 by lia.
  destruct (Z.ltb_spec x (2 ^ 31)) as [Hlt|Hge];
    change (2 ^ 64) with 18446744073709551616 in *;
    change (2 ^ 32) with 4294967296 in *;
    change (2 ^ 31) with 2147483648 in *;
    change (2 ^ 24) with 16777216; change (2 ^ 16) with 65536;
    change (2 ^ 8) with 256; Z.div_mod_to_equations; lia.
Qed.

Lemma read_trailer_zlib clen s x rest :
  form (glob s) = 1 -> in_eof s = false -> 0 <= x < 2 ^ 32 ->
  ind s = be32 x ++ rest -> out_check s = x ->
  read_trailer clen s =
  if x <? 2 ^ 31 then (Go x, set_ind rest s)
  else bail "corrupted zlib stream -- adler32 mismatch: " (in_name (glob s))
         (set_ind rest s).
Proof.
  intros Hf He Hx Hi Hc.
  destruct (zlib_check_value x Hx) as (b0 & b1 & b2 & b3 & E & V).
  rewrite E in Hi. clear E.
  destruct s as [gl i eof ot oc st hn zc zl zu od rm se so].
  fields_in. subst eof i oc. unfold read_trailer.
  run_step. rewrite Hf. change (1 >? 1) with false. change (1 =? 1) with true.
  cbv iota. cbn [app]. repeat run_step. rewrite V.
  destruct (Z.ltb_spec x (2 ^ 31)) as [Hlt|Hge].
  - rewrite Z.eqb_refl. reflexivity.
  - destruct (Z.eqb_spec (x + 2 ^ 64 - 2 ^ 32) x) as [Heq|_]; [lia|].
    reflexivity.
Qed.

(** One stream of [infchk], given what [inflateBack] and [read_trailer]
    do. *)
Lemma infchk_stream_go ib sched cont s chunks rest check s3 :
  ib (ind s) = (chunks, Some rest) ->
  read_trailer (zlen (ind s) - zlen rest)
    (set_ind rest
       (outb_all sched 0 chunks
          (set_out_check (CHECK_init (glob s)) (set_out_tot 0 s))))
  = (Go check, s3) ->
  listing (glob s3) = 0 ->
  infchk_stream ib sched cont s = (Go cont, s3).
Proof.
  intros Hib Htr Hl. unfold infchk_stream.
  repeat first [rewrite bind_bind | rewrite bind_modify].
  rewrite bind_get.
  change (ind (set_out_check _ (set_out_tot 0 s))) with (ind s).
  rewrite Hib.
  repeat first [rewrite bind_bind | rewrite bind_modify]. rewrite bind_get.
  repeat first [rewrite bind_bind | rewrite bind_modify].
  change (set_glob (glob s) (set_out_tot 0 s)) with (set_out_tot 0 s).
  rewrite (bind_Go _ _ _ _ _ Htr), bind_get, Hl. reflexivity.
Qed.

Lemma infchk_stream_return ib sched cont s chunks rest r s3 :
  ib (ind s) = (chunks, Some rest) ->
  read_trailer (zlen (ind s) - zlen rest)
    (set_ind rest
       (outb_all sched 0 chunks
          (set_out_check (CHECK_init (glob s)) (set_out_tot 0 s))))
  = (Return r, s3) ->
  infchk_stream ib sched cont s = (Return r, s3).
Proof.
  intros Hib Htr. unfold infchk_stream.
  repeat first [rewrite bind_bind | rewrite bind_modify].
  rewrite bind_get.
  change (ind (set_out_check _ (set_out_tot 0 s))) with (ind s).
  rewrite Hib.
  repeat first [rewrite bind_bind | rewrite bind_modify]. rewrite bind_get.
  repeat first [rewrite bind_bind | rewrite bind_modify].
  apply bind_Return. exact Htr.
Qed.

(** The loop of [infchk] after a stream behind which the input ends. *)
Lemma infchk_last_stream c ib sched s cont s3 :
  infchk_stream ib sched 0 s = (Go cont, s3) ->
  (form (glob s3) <? 2) = true -> in_eof s3 = false -> ind s3 = [] ->
  infchk c ib sched s =
  Some (Returned, set_in_eof true (set_glob (set_form 0 (glob s3)) s3)).
Proof.
  intros Hst Hf He Hi. unfold infchk. cbn [infchk_loop].
  rewrite (bind_Go _ _ _ _ _ Hst), bind_get, Hf.
  assert (Ecall : do_call (get_header c false) s3 =
                  (Go (-1), set_in_eof true
                              (set_glob (set_form 0 (glob s3)) s3))).
  { unfold do_call, call. now rewrite get_header_eof. }
  rewrite (bind_Go _ _ _ _ _ Ecall), bind_get.
  change (-1 =? 8) with false. cbn [andb]. unfold ret.
  change (-1 =? -1) with true. cbn [negb andb]. reflexivity.
Qed.

Lemma infchk_stream_exit c ib sched s r s3 :
  infchk_stream ib sched 0 s = (Return r, s3) ->
  infchk c ib sched s = Some (Exited r, s3).
Proof.
  intros Hst. unfold infchk. cbn [infchk_loop].
  now rewrite (bind_Return _ _ _ _ _ Hst).
Qed.

(** X17.  A zlib stream that ends the input, with the trailer that [put_trailer]
    writes for the Adler-32 of the data that [inflateBack] delivers.  When
    the Adler-32 is below [2^31], [infchk] takes the stream without a
    message and returns, and when decompressing it has written the data.
    When it is [2^31] or more, the first byte of the trailer, shifted in
    [int], makes a negative value and with it a check value above 32 bits:
    [infchk] reports an Adler-32 mismatch and exits. *)
Theorem infchk_zlib_trailer c c0 g ib sched s chunks ulen clen head :
  form g = 1 -> form (glob s) = 1 -> listing (glob s) = 0 ->
  in_eof s = false ->
  ib (ind s) =
    (chunks,
     Some (put_trailer c0 g ulen clen
             (CHECK g (CHECK_init g) (concat chunks)) head)) ->
  (Comb.adler32 1 (concat chunks) < 2 ^ 31 ->
   exists s',
     infchk c ib sched s = Some (Returned, s') /\
     stderr s' = stderr s /\ removed s' = removed s /\
     outd s' = outd s ++ (if decode (glob s) =? 1 then concat chunks else []))
  /\
  (2 ^ 31 <= Comb.adler32 1 (concat chunks) ->
   exists s',
     infchk c ib sched s = Some (Exited 1, s') /\
     bailed "corrupted zlib stream -- adler32 mismatch: " s s').
Proof.
  intros Hg Hf Hl He Hib. set (data := concat chunks) in *.
  rewrite (put_trailer_zlib c0 g _ _ _ _ Hg) in Hib.
  assert (Eck : CHECK g (CHECK_init g) data = Comb.adler32 1 data).
  { unfold CHECK, CHECK_init. now rewrite Hg. }
  rewrite Eck in Hib. set (x := Comb.adler32 1 data) in *.
  pose proof (adler32_word data) as Hx. fold x in Hx.
  set (s0 := set_out_check (CHECK_init (glob s)) (set_out_tot 0 s)).
  destruct (fold_outb_accumulates chunks s0 (CHECK_init (glob s0)) [])
    as (_ & Ht & Hc & Ho).
  { subst s0. cbn [out_check set_out_check]. now rewrite CHECK_empty. }
  cbv zeta in Ht, Hc, Ho.
  rewrite <- (outb_all_fold sched chunks 0%nat) in Ht, Hc, Ho.
  rewrite app_nil_l in Hc. fold data in Ht, Hc, Ho.
  destruct (outb_all_same sched chunks 0 s0) as ((Hr & Hs & Hgl) & He1 & Hi1).
  set (s1 := outb_all sched 0 chunks s0) in *.
  assert (Hgl0 : glob s0 = glob s) by now destruct s.
  rewrite Hgl0 in *.
  assert (Hc1 : out_check s1 = x).
  { rewrite Hc. unfold CHECK, CHECK_init. now rewrite Hf. }
  set (s2 := set_ind (be32 x) s1).
  assert (He0 : in_eof s0 = false) by (subst s0; exact He).
  assert (Htr : read_trailer (zlen (ind s) - zlen (be32 x)) s2 =
                if x <? 2 ^ 31 then (Go x, set_ind [] s2)
                else bail "corrupted zlib stream -- adler32 mismatch: "
                       (in_name (glob s2)) (set_ind [] s2)).
  { apply read_trailer_zlib; subst s2; cbn [glob in_eof ind out_check set_ind];
      try congruence. now rewrite app_nil_r. }
  set (s3 := set_ind [] s2) in *.
  assert (Hib' : ib (ind s) = (chunks, Some (be32 x ++ []))).
  { now rewrite app_nil_r. }
  split.
  - intros Hlt. apply Z.ltb_lt in Hlt. rewrite Hlt in Htr.
    assert (Hst : infchk_stream ib sched 0 s = (Go 0, s3)).
    { apply (infchk_stream_go ib sched 0 s chunks (be32 x) x s3 Hib Htr).
      subst s3 s2. cbn [glob set_ind]. congruence. }
    eexists. split.
    + apply (infchk_last_stream c ib sched s 0 s3 Hst).
      * subst s3 s2. cbn [glob set_ind]. rewrite Hgl, Hf. reflexivity.
      * subst s3 s2. cbn [in_eof set_ind]. congruence.
      * reflexivity.
    + subst s3 s2. cbn [removed stderr outd set_ind set_in_eof set_glob].
      rewrite Hr, Hs, Ho. subst s0.
      cbn [removed stderr outd glob set_out_check set_out_tot]. auto.
  - intros Hge. apply Z.ltb_ge in Hge. rewrite Hge in Htr.
    eexists. split.
    + apply (infchk_stream_exit c ib sched s).
      apply (infchk_stream_return ib sched 0 s chunks (be32 x) _ _ Hib Htr).
    + unfold bailed. subst s3 s2. fields_in.
      destruct s1 as [gl1 i1 eof1 ot1 oc1 st1 hn1 zc1 zl1 zu1 od1 rm1 se1 so1].
      fields_in. subst s0. fields_in. subst gl1 rm1 se1.
      destruct (out (glob s)); fields_in;
        destruct (verbosity (glob s) >? 0); fields_in;
        rewrite ?app_nil_r; repeat split; reflexivity.
Qed.

End ZlibTrailer.

Lemma infchk_zlib_trailer_witness :
  let g := set_form 1 default_globals in
  let data := replicate 16 255 in
  exists s',
    Inflate.infchk some_clock
      (fun _ => ([data],
                 Some (Framing.put_trailer some_clock g 16 0
                         (CHECK g (CHECK_init g) (concat [data])) 2)))
      (fun _ => false) (inflate_start g [7; 7])
    = Some (Inflate.Exited 1, s') /\
    Inflate.stderr s' =
      ["pigz abort: corrupted zlib stream -- adler32 mismatch: <stdin>"%string].
Proof.
  intros g data.
  destruct (infchk_zlib_trailer some_clock some_clock g
              (fun _ => ([data],
                 Some (Framing.put_trailer some_clock g 16 0
                         (CHECK g (CHECK_init g) (concat [data])) 2)))
              (fun _ => false) (inflate_start g [7; 7])
              [data] 16 0 2 eq_refl eq_refl eq_refl eq_refl eq_refl)
    as [_ H].
  destruct H as (s' & H1 & _ & H2 & _).
  { vm_compute. discriminate. }
  exists s'. split; [exact H1|exact H2].
Defined.


(** ** The zip trailer *)

Section ZipTrailer.
Import Framing Inflate.

Lemma PUT4L_cons x rest :
  u8 (Z.land (Z.land x 0xffff) 0xff) :: u8 (Z.shiftr (Z.land x 0xffff) 8)
    :: u8 (Z.land (Z.shiftr x 16) 0xff) :: u8 (Z.shiftr (Z.shiftr x 16) 8)
    :: rest
  = le32 x ++ rest.
Proof. rewrite <- PUT4L_bytes. reflexivity. Qed.

Lemma PUT2L_cons x rest :
  u8 (Z.land x 0xff) :: u8 (Z.shiftr x 8) :: rest = le16 x ++ rest.
Proof. destruct (PUT2L_bytes x) as [-> ->]. reflexivity. Qed.

Lemma zip_central_length c g ulen clen check :
  zlen (zip_central c g ulen clen check) = 55 + zlen (zip_name g).
Proof.
  unfold zip_central, zlen. rewrite !length_app.
  change (length (le32 _)) with 4%nat. change (length (le16 _)) with 2%nat.
  cbn [length]. lia.
Qed.

Lemma put_trailer_zip c g ulen clen check head : form g > 1 ->
  put_trailer c g ulen clen check head =
  zip_descriptor ulen clen check ++ zip_central c g ulen clen check ++
  zip_end (zlen (zip_central c g ulen clen check)) (head + clen + 12).
Proof.
  intros Hf. unfold put_trailer.
  destruct (Z.gtb_spec (form g) 1) as [_|]; [|lia].
  set (n := match name g with None => 1 | Some nm => strlen nm end).
  assert (En : n = zlen (zip_name g))
    by (unfold n, zip_name, strlen; now destruct (name g)).
  put_bytes. fold (zip_name g).
  rewrite !PUT4L_cons, !PUT2L_cons.
  rewrite zip_central_length.
  replace (46 + n + 9) with (55 + zlen (zip_name g)) by lia. rewrite En.
  unfold zip_descriptor, zip_central, zip_end.
  generalize (le32 check) (le32 clen) (le32 ulen)
    (le32 (time2dos c (mtime g))) (le32 (mtime g))
    (le32 (55 + zlen (zip_name g))) (le32 (head + clen + 12))
    (le16 (zlen (zip_name g))) (zip_name g).
  intros l1 l2 l3 l4 l5 l6 l7 l8 l9.
  repeat rewrite <- app_assoc. reflexivity.
Qed.

Lemma land_LOW32 x : 0 <= x -> Z.land x LOW32 = x mod 2 ^ 32.
Proof.
  intros Hx. change LOW32 with (Z.ones 32). apply Z.land_ones. lia.
Qed.

(** [read_trailer] on the data descriptor that [put_trailer] writes. *)
Lemma read_trailer_zip clen s check ul cl rest :
  form (glob s) = 3 -> in_eof s = false ->
  ind s = zip_descriptor ul cl check ++ rest ->
  out_check s = check mod 2 ^ 32 ->
  cl mod 2 ^ 32 = Z.land clen LOW32 ->
  ul mod 2 ^ 32 = Z.land (out_tot s) LOW32 ->
  read_trailer clen s =
  (Go (check mod 2 ^ 32),
   set_zip_ulen (ul mod 2 ^ 32)
     (set_zip_clen (cl mod 2 ^ 32)
        (set_zip_crc (check mod 2 ^ 32) (set_ind rest s)))).
Proof.
  intros Hf He Hi Hc Hcl Hul. unfold zip_descriptor in Hi.
  destruct (le32_value check) as (c0 & c1 & c2 & c3 & E1 & V1).
  destruct (le32_value cl) as (l0 & l1 & l2 & l3 & E2 & V2).
  destruct (le32_value ul) as (u0 & u1 & u2 & u3 & E3 & V3).
  cbv zeta in E1, E2, E3. rewrite E1, E2, E3 in Hi. clear E1 E2 E3.
  cbn [app] in Hi.
  destruct s as [gl i eof ot oc st hn zc zl zu od rm se so].
  fields_in. subst eof i oc. unfold read_trailer, when.
  run_step. rewrite Hf. change (3 >? 1) with true. change (3 =? 3) with true.
  cbv iota. repeat run_step. rewrite V1, V2, V3.
  rewrite Z.eqb_refl. cbn [negb]. repeat run_step.
  rewrite Hul, Z.eqb_refl. cbn [negb]. repeat run_step.
  rewrite Hcl, !Z.eqb_refl. cbn [negb orb]. repeat run_step.
  reflexivity.
Qed.

Lemma infchk_zip_stream c ib sched s cont s3 :
  infchk_stream ib sched 0 s = (Go cont, s3) ->
  (form (glob s3) <? 2) = false ->
  infchk c ib sched s = Some (Returned, s3).
Proof.
  intros Hst Hf. unfold infchk. cbn [infchk_loop].
  rewrite (bind_Go _ _ _ _ _ Hst), bind_get, Hf. unfold ret.
  rewrite Hf. reflexivity.
Qed.

Lemma ulong_mod32 x : ulong x mod 2 ^ 32 = x mod 2 ^ 32.
Proof.
  unfold ulong.
  change (2 ^ 64) with 18446744073709551616. change (2 ^ 32) with 4294967296.
  Z.div_mod_to_equations. lia.
Qed.

(** X18.  A zip entry as [put_trailer] ends it, behind the deflate stream [body]
    that [inflateBack] takes: [infchk] reads the data descriptor, finds
    check value and lengths in agreement, and returns without a message;
    when decompressing it has written the data.  The central directory is
    left unread. *)
Theorem infchk_accepts_zip c c0 g ib sched s chunks body head :
  form g > 1 -> form (glob s) = 3 -> listing (glob s) = 0 ->
  in_eof s = false ->
  let data := concat chunks in
  let ulen := ulong (zlen data) in
  let clen := ulong (zlen body) in
  let check := CHECK g (CHECK_init g) data in
  ind s = body ++ put_trailer c0 g ulen clen check head ->
  ib (ind s) = (chunks, Some (put_trailer c0 g ulen clen check head)) ->
  exists s',
    infchk c ib sched s = Some (Returned, s') /\
    stderr s' = stderr s /\ removed s' = removed s /\
    outd s' = outd s ++ (if decode (glob s) =? 1 then data else []) /\
    ind s' = zip_central c0 g ulen clen check ++
             zip_end (zlen (zip_central c0 g ulen clen check))
               (head + clen + 12).
Proof.
  intros Hg Hf Hl He data ulen clen check Hi Hib.
  rewrite (put_trailer_zip c0 g _ _ _ _ Hg) in Hi, Hib.
  set (rest := zip_central c0 g ulen clen check ++ _) in *.
  assert (Eck : check = Comb.crc32 0 data).
  { unfold check, CHECK, CHECK_init.
    destruct (Z.eqb_spec (form g) 1); [lia|reflexivity]. }
  pose proof (crc32_word data) as Hw. unfold word in Hw.
  set (s0 := set_out_check (CHECK_init (glob s)) (set_out_tot 0 s)).
  destruct (fold_outb_accumulates chunks s0 (CHECK_init (glob s0)) [])
    as (_ & Ht & Hc & Ho).
  { subst s0. cbn [out_check set_out_check]. now rewrite CHECK_empty. }
  cbv zeta in Ht, Hc, Ho.
  rewrite <- (outb_all_fold sched chunks 0%nat) in Ht, Hc, Ho.
  rewrite app_nil_l in Hc. fold data in Ht, Hc, Ho.
  destruct (outb_all_same sched chunks 0 s0) as ((Hr & Hs & Hgl) & He1 & Hi1).
  set (s1 := outb_all sched 0 chunks s0) in *.
  assert (Hgl0 : glob s0 = glob s) by now destruct s.
  rewrite Hgl0 in *.
  assert (Hc1 : out_check s1 = check mod 2 ^ 32).
  { rewrite Hc, Eck. unfold CHECK, CHECK_init. rewrite Hf.
    change (3 =? 1) with false. cbv iota. symmetry. apply Z.mod_small. lia. }
  set (s2 := set_ind (zip_descriptor ulen clen check ++ rest) s1).
  assert (He0 : in_eof s0 = false) by (subst s0; exact He).
  assert (Hlen : zlen (ind s) - zlen (zip_descriptor ulen clen check ++ rest)
                 = zlen body).
  { rewrite Hi, zlen_app. lia. }
  assert (Htr : read_trailer
                  (zlen (ind s) - zlen (zip_descriptor ulen clen check ++ rest))
                  s2 =
                (Go (check mod 2 ^ 32),
                 set_zip_ulen (ulen mod 2 ^ 32)
                   (set_zip_clen (clen mod 2 ^ 32)
                      (set_zip_crc (check mod 2 ^ 32) (set_ind rest s2))))).
  { apply read_trailer_zip; subst s2;
      cbn [glob in_eof ind out_check out_tot set_ind]; try congruence.
    - rewrite Hlen, land_LOW32 by (unfold zlen; lia). apply ulong_mod32.
    - rewrite Ht, Z.add_0_l, land_LOW32 by (unfold zlen; lia).
      apply ulong_mod32. }
  set (s3 := set_zip_ulen _ _) in Htr.
  assert (Hst : infchk_stream ib sched 0 s = (Go 0, s3)).
  { apply (infchk_stream_go ib sched 0 s chunks _ _ s3 Hib Htr).
    subst s3 s2. cbn [glob set_ind set_zip_crc set_zip_clen set_zip_ulen].
    congruence. }
  exists s3. split.
  - apply (infchk_zip_stream c ib sched s 0 s3 Hst).
    subst s3 s2. cbn [glob set_ind set_zip_crc set_zip_clen set_zip_ulen].
    rewrite Hgl, Hf. reflexivity.
  - subst s3 s2.
    cbn [removed stderr outd ind set_ind set_zip_crc set_zip_clen
         set_zip_ulen].
    rewrite Hr, Hs, Ho. subst s0.
    cbn [removed stderr outd glob set_out_check set_out_tot]. auto.
Qed.

(** X19.  The end record of the zip trailer locates the central directory: it
    holds the length of the central directory and, when [head] is the
    length of the local header and [clen] that of the compressed data, the
    number of bytes written before it. *)
Theorem zip_directory_located c g ulen clen check body :
  form g > 1 -> zlen body = clen ->
  let hd := fst (put_header c g) in
  let before := hd ++ body ++ zip_descriptor ulen clen check in
  let central := zip_central c g ulen clen check in
  hd ++ body ++ put_trailer c g ulen clen check (snd (put_header c g)) =
  before ++ central ++ zip_end (zlen central) (zlen before).
Proof.
  intros Hf Hb. cbv zeta. rewrite (put_trailer_zip c g _ _ _ _ Hf).
  assert (Eh : snd (put_header c g) = zlen (fst (put_header c g))).
  { rewrite (put_header_zip c g Hf). cbn [fst snd].
    unfold zlen, le32, le16. rewrite !length_app. cbn [length]. lia. }
  rewrite Eh.
  replace (zlen (fst (put_header c g)) + clen + 12)
    with (zlen (fst (put_header c g) ++ body ++
                zip_descriptor ulen clen check)).
  - now rewrite <- !app_assoc.
  - rewrite !zlen_app, Hb. unfold zip_descriptor. rewrite !zlen_app.
    change (zlen (le32 _)) with 4. lia.
Qed.

End ZipTrailer.

Lemma infchk_accepts_zip_witness :
  let g := set_form 2 default_globals in
  let s := inflate_start (set_form 3 (set_decode 1 default_globals))
             ([3; 0] ++ Framing.put_trailer some_clock g (ulong 0) (ulong 2)
                          (CHECK g (CHECK_init g) []) 40) in
  exists s',
    Inflate.infchk some_clock empty_inflater (fun _ => false) s
    = Some (Inflate.Returned, s') /\ Inflate.stderr s' = [].
Proof.
  intros g s.
  destruct (infchk_accepts_zip some_clock some_clock g empty_inflater
              (fun _ => false) s [] [3; 0] 40
              ltac:(vm_compute; reflexivity) eq_refl eq_refl eq_refl
              eq_refl eq_refl) as (s' & H1 & H2 & _).
  exists s'. split; [exact H1|exact H2].
Defined.

Lemma zip_directory_located_witness :
  let g := set_form 2 default_globals in
  exists central,
    fst (Framing.put_header some_clock g) ++ [3; 0] ++
      Framing.put_trailer some_clock g 0 2 0
        (snd (Framing.put_header some_clock g)) =
    (fst (Framing.put_header some_clock g) ++ [3; 0] ++
       zip_descriptor 0 2 0) ++ central ++ zip_end 56 54.
Proof.
  intros g. exists (zip_central some_clock g 0 2 0).
  exact (zip_directory_located some_clock g 0 2 0 [3; 0]
           ltac:(vm_compute; reflexivity) eq_refl).
Defined.


(** ** The pipeline: buffers and dictionaries *)

Section RingBuffers.
Import Deflate Pipeline Ring.
Context (w : world) (g : globals) (input : list Z) (b0 : option (list Z)).
Context (Hprocs : (1 < procs g)%nat) (Hdict : DICT <= size g).

Local Abbreviation B := (blocks (size g) input).
Local Abbreviation HN := (ring_procs_pos g Hprocs).
Local Abbreviation Hsize := (ring_size_pos g Hdict).

Lemma PREV_slot i : PREV g (slot_of g (S i)) = slot_of g i.
Proof.
  cbn [slot_of]. pose proof (slot_lt g HN i) as Hlt.
  unfold PREV, NEXT.
  destruct (Nat.eqb_spec (slot_of g i) (procs g - 1)) as [E|E].
  - cbn [Nat.eqb]. lia.
  - cbn [Nat.eqb]. lia.
Qed.

Lemma dict_ok_same i j j' :
  strm j' = strm j -> len j' = len j -> dict_ok w g input b0 i j ->
  dict_ok w g input b0 i j'.
Proof.
  intros Hs Hl. destruct i as [|i]; cbn [dict_ok]; unfold dictionary_from;
    now rewrite Hs, Hl.
Qed.

(** The units of the blocks in the ring have their buffers. *)
Lemma window_buf R W rs s i j :
  inv w g input R W rs s -> (W <= i < R)%nat ->
  jobs s !! slot_of g i = Some j -> buf j <> None.
Proof.
  intros I Hi Hj. pose proof (inv_slots _ _ _ _ _ _ _ I _ _ Hj) as Hok.
  rewrite (phase_of_window g HN) in Hok
    by (destruct (inv_RW _ _ _ _ _ _ _ I); lia).
  destruct (i =? W)%nat; [destruct (wpc s)|]; cbn [wphase job_ok] in Hok;
    tauto.
Qed.

(** While [write_thread] writes or has written the oldest block, its unit
    has no thread. *)
Lemma oldest_joined R W rs s j :
  inv w g input R W rs s -> (W < R)%nat ->
  wpc s = W_set_write \/ wpc s = W_write \/ wpc s = W_release ->
  jobs s !! slot_of g W = Some j -> comp j = Absent.
Proof.
  intros I HW Hpc Hj. pose proof (inv_slots _ _ _ _ _ _ _ I _ _ Hj) as Hok.
  rewrite (phase_of_window g HN), Nat.eqb_refl in Hok
    by (destruct (inv_RW _ _ _ _ _ _ _ I); lia).
  destruct Hpc as [E|[E|E]]; rewrite E in Hok; cbn [wphase job_ok] in Hok;
    tauto.
Qed.

Lemma same_results_refl js : Forall2 same_results js js.
Proof. apply Forall_Forall2_diag, Forall_forall. intros j _. repeat split; auto. Qed.

Lemma same_results_insert js k j j' :
  js !! k = Some j -> same_results j j' ->
  Forall2 same_results js (<[k := j']> js).
Proof.
  intros Hk Hj. rewrite <- (list_insert_id js k j Hk) at 1.
  apply Forall2_insert; [apply same_results_refl|exact Hj].
Qed.

(** Steps that leave the results and the buffers alone. *)
Lemma ring_carry R R' W W' rs s s' :
  Forall2 same_results (jobs s) (jobs s') ->
  read_in R' (rpc s') = read_in R (rpc s) ->
  (forall i j', (W' <= i)%nat -> (i < R')%nat \/ i = R' /\ rpc s' = R_set ->
     jobs s' !! slot_of g i = Some j' -> comp j' = Finished ->
     (W <= i)%nat /\ ((i < R)%nat \/ i = R /\ rpc s = R_set)) ->
  (wpc s' = W_set_write \/ wpc s' = W_write ->
     W' = W /\ (wpc s = W_set_write \/ wpc s = W_write) \/
     (W <= W' < R)%nat /\ rpc s' = rpc s /\
     forall j, jobs s !! slot_of g W' = Some j -> comp j = Finished) ->
  kept w g input b0 R s -> dicts w g input b0 R W rs s ->
  kept w g input b0 R' s' /\ dicts w g input b0 R' W' rs s'.
Proof.
  intros Hjobs Hrd Hrange Hwpc [Hk Hk0] (D1 & D2 & D3).
  split; [split|split; [|split]].
  - intros i Hi1 Hi2. rewrite Hrd in Hi1, Hi2.
    destruct (Hk i Hi1 Hi2) as (j & b & data & Hj & Hb & Hd & Ht).
    destruct (Forall2_lookup_l _ _ _ _ _ Hjobs Hj) as (j' & Hj' & _ & _ & Eb & _).
    exists j', b, data. repeat split; auto. congruence.
  - rewrite Hrd. intros Hlt j' Hj'.
    destruct (Forall2_lookup_r _ _ _ _ _ Hjobs Hj') as (j & Hj & _ & _ & Eb & _).
    rewrite Eb. now apply Hk0.
  - intros i j' HW Hi Hj' Hc.
    destruct (Forall2_lookup_r _ _ _ _ _ Hjobs Hj') as (j & Hj & Es & El & _ & Ec).
    destruct (Hrange i j' HW Hi Hj' Hc) as [HW0 Hi0].
    apply (dict_ok_same i j j' Es El). apply (D1 i j HW0 Hi0 Hj (Ec Hc)).
  - intros Hpc j' Hj'.
    destruct (Forall2_lookup_r _ _ _ _ _ Hjobs Hj') as (j & Hj & Es & El & _).
    apply (dict_ok_same W' j j' Es El).
    destruct (Hwpc Hpc) as [[-> Hpc0]|(HW & Er & Hfin)].
    + apply (D2 Hpc0 j Hj).
    + apply (D1 W' j); [lia|left; lia|exact Hj|exact (Hfin j Hj)].
  - exact D3.
Qed.

Lemma dicts_snoc R W rs s j :
  dicts w g input b0 R W rs s -> dict_ok w g input b0 (length rs) j ->
  dicts w g input b0 R W (rs ++ [j]) s.
Proof.
  intros (D1 & D2 & D3) Hj. split; [exact D1|]. split; [exact D2|].
  intros i r Hr. apply lookup_app_Some in Hr as [Hr|[Hi Hr]]; [eauto|].
  apply list_lookup_singleton_Some in Hr as [Hz <-].
  replace i with (length rs) by lia. exact Hj.
Qed.

Ltac ring_fields :=
  cbn [jobs ind outd rpc rn got wpc wn wlen head ulen clen wcheck
       set_jobs set_rpc set_wpc reading read_in
       strm len buf comp busy set_busy set_comp set_len set_buf] in *.

(** The steps of [read_thread] that change no unit, or a flag or thread
    only. *)
Lemma reader_ring_easy R W rs s s' :
  inv w g input R W rs s -> ring_ok w g input b0 R W rs s ->
  reader w g s = Some s' ->
  rpc s <> R_init -> rpc s <> R_wait_next -> rpc s <> R_read ->
  rpc s <> R_len ->
  ring_ok w g input b0 (if is_R_set (rpc s) then S R else R) W rs s'.
Proof.
  intros I (HJ & HK & HD) Hstep N1 N2 N3 N4.
  pose proof I as [Hjobs HRW Hrs Hrd Hwr Hsl].
  unfold reader in Hstep. unfold reader_inv in Hrd. unfold room in HJ.
  destruct (rpc s) eqn:Hpc; try congruence; cbn [is_R_set];
    repeat match type of Hstep with
           | context [jobs s !! ?k] =>
               destruct (jobs s !! k) as [j|] eqn:Hj; [|discriminate];
               cbn [mbind option_bind] in Hstep
           end.
  - (* R_start *)
    injection Hstep as <-. destruct Hrd as (-> & -> & _).
    split; [|apply (ring_carry 0 0 0 0 rs s); ring_fields; auto].
    + left. ring_fields. lia.
    + apply same_results_refl.
    + now rewrite Hpc.
    + intros i j' _ [Hi|[_ Hi]]; [lia|discriminate].
    + intros [Hp|Hp]; discriminate.
  - (* R_wait_self *)
    destruct (busy j =? COMP); [discriminate|]. injection Hstep as <-.
    split; [|apply (ring_carry R R W W rs s); ring_fields; auto].
    + unfold room. ring_fields. exact HJ.
    + apply same_results_refl.
    + now rewrite Hpc.
    + intros i j' HW [Hi|[_ Hi]]; [auto|discriminate].
  - (* R_wait_idle *)
    destruct (busy j =? IDLE); [|discriminate]. injection Hstep as <-.
    split; [|apply (ring_carry R R W W rs s); ring_fields; auto].
    + unfold room. ring_fields. exact HJ.
    + apply same_results_refl.
    + now rewrite Hpc.
    + intros i j' HW [Hi|[_ Hi]]; [auto|discriminate].
  - (* R_create *)
    injection Hstep as <-. destruct Hrd as (HR & Hn & _ & _ & HRW' & _).
    split; [|apply (ring_carry R R W W rs s); ring_fields; auto].
    + unfold room. ring_fields. exact HJ.
    + apply (same_results_insert _ _ j); [exact Hj|].
      repeat split; ring_fields; auto. discriminate.
    + now rewrite Hpc.
    + intros i j' HW [Hi|[-> _]] Hj' Hc; [auto|].
      rewrite <- Hn, list_lookup_insert_eq in Hj'
        by (eapply lookup_lt_Some; eauto).
      injection Hj' as <-. discriminate Hc.
  - (* R_set *)
    injection Hstep as <-. destruct Hrd as (HR & Hn & _ & HRW' & _).
    split; [|apply (ring_carry R (S R) W W rs s); ring_fields; auto].
    + unfold room. ring_fields.
      destruct (got s =? size g); ring_fields; exact HJ.
    + apply (same_results_insert _ _ j); [exact Hj|].
      repeat split; ring_fields; auto.
    + rewrite Hpc. now destruct (got s =? size g).
    + intros i j' HW [Hi|[_ Hi]];
        [|destruct (got s =? size g); discriminate].
      intros _ _. split; [exact HW|]. rewrite Hpc.
      destruct (Nat.eq_dec i R); [right|left]; auto. lia.
  - (* R_join *)
    destruct (wpc s) eqn:Hw; try discriminate. injection Hstep as <-.
    split; [|apply (ring_carry R R W W rs s); ring_fields; auto].
    + unfold room. ring_fields. rewrite Hw in *. exact HJ.
    + apply same_results_refl.
    + now rewrite Hpc.
    + intros i j' HW [Hi|[_ Hi]]; [auto|discriminate].
Qed.

(** A change to a unit that holds no block of the ring. *)
Lemma ring_other_unit R W rs s s' k j' :
  inv w g input R W rs s ->
  jobs s' = <[k := j']> (jobs s) -> wpc s' = wpc s ->
  (rpc s' = R_set -> rpc s = R_set) ->
  (forall i, (W <= i < R)%nat -> slot_of g i <> k) ->
  (rpc s' = R_set -> slot_of g R = k -> comp j' <> Finished) ->
  (forall i, (i < read_in R (rpc s'))%nat ->
             (read_in R (rpc s') <= i + procs g)%nat ->
     if decide (slot_of g i = k)
     then exists b data, buf j' = Some b /\ B !! i = Some data /\
                         take (length data) b = data
     else (i < read_in R (rpc s))%nat /\
          (read_in R (rpc s) <= i + procs g)%nat) ->
  (read_in R (rpc s) <= read_in R (rpc s'))%nat ->
  ((read_in R (rpc s') < procs g)%nat -> k = (procs g - 1)%nat ->
   buf j' = b0 \/ b0 = None /\ buf j' = Some (fresh w)) ->
  kept w g input b0 R s -> dicts w g input b0 R W rs s ->
  kept w g input b0 R s' /\ dicts w g input b0 R W rs s'.
Proof.
  intros I Ej Ew Er Hk Hset Hbuf Hmono Hlast [HK HK0] (D1 & D2 & D3).
  assert (HWR : (wpc s = W_set_write \/ wpc s = W_write) -> (W < R)%nat).
  { intros Hp. pose proof (inv_writer _ _ _ _ _ _ _ I) as Hwr.
    unfold writer_inv in Hwr. destruct Hp as [E|E]; rewrite E in Hwr; tauto. }
  assert (Hlt : (k < length (jobs s))%nat -> forall x,
            <[k := j']> (jobs s) !! k = Some x -> x = j').
  { intros Hl x Hx. rewrite list_lookup_insert_eq in Hx by exact Hl.
    congruence. }
  split; [split|split; [|split]].
  - intros i Hi1 Hi2. rewrite Ej. specialize (Hbuf i Hi1 Hi2).
    destruct (decide (slot_of g i = k)) as [E|E].
    + destruct Hbuf as (b' & data' & Hb' & Hd' & Ht').
      exists j', b', data'. rewrite E, list_lookup_insert_eq; auto.
      rewrite (inv_jobs _ _ _ _ _ _ _ I), <- E. apply (slot_lt g HN).
    + destruct Hbuf as [Hi1' Hi2'].
      destruct (HK i Hi1' Hi2') as (j & b & data & Hj & Hb & Hd & Ht).
      exists j, b, data. rewrite list_lookup_insert_ne by auto. auto.
  - intros Hlt0 j0 Hj0. rewrite Ej in Hj0.
    destruct (Nat.eq_dec (procs g - 1)%nat k) as [E|E].
    + rewrite E in Hj0.
      assert (Hkl : (k < length (jobs s))%nat)
        by (rewrite (inv_jobs _ _ _ _ _ _ _ I); lia).
      rewrite (Hlt Hkl j0 Hj0). now apply Hlast.
    + rewrite list_lookup_insert_ne in Hj0 by auto.
      apply HK0; [lia|exact Hj0].
  - intros i j0 HW Hi Hj0 Hc. rewrite Ej in Hj0.
    destruct (Nat.eq_dec (slot_of g i) k) as [E|E].
    + destruct Hi as [Hi|[-> Hi]]; [destruct (Hk i ltac:(lia) E)|].
      rewrite E in Hj0. apply Hlt in Hj0.
      * subst j0. destruct (Hset Hi E Hc).
      * rewrite (inv_jobs _ _ _ _ _ _ _ I), <- E. apply (slot_lt g HN).
    + rewrite list_lookup_insert_ne in Hj0 by auto.
      apply (D1 i j0 HW); auto. destruct Hi as [Hi|[Hi1 Hi2]]; auto.
  - rewrite Ew, Ej. intros Hp j0 Hj0.
    rewrite list_lookup_insert_ne in Hj0
      by (apply not_eq_sym, Hk; specialize (HWR Hp); lia).
    eauto.
  - exact D3.
Qed.

Lemma reader_ring_init R W rs s s' :
  inv w g input R W rs s -> ring_ok w g input b0 R W rs s ->
  reader w g s = Some s' -> rpc s = R_init ->
  ring_ok w g input b0 R W rs s'.
Proof.
  intros I (HJ & HK & HD) Hstep Hpc.
  pose proof I as [Hjobs HRW Hrs Hrd Hwr Hsl].
  unfold reader in Hstep. unfold reader_inv in Hrd. unfold room in HJ.
  rewrite Hpc in Hstep, Hrd, HJ. destruct Hrd as (HR & Hn & _).
  destruct (jobs s !! rn s) as [j|] eqn:Hj; [|discriminate].
  cbn [mbind option_bind] in Hstep. injection Hstep as <-.
  destruct (buf j) as [b|] eqn:Hb.
  - split; [|apply (ring_carry R R W W rs s); ring_fields; auto].
    + unfold room. ring_fields. exact HJ.
    + apply same_results_refl.
    + now rewrite Hpc.
    + intros i j' HW [Hi|[_ Hi]]; [auto|discriminate].
  - split.
    + unfold room. ring_fields. exact HJ.
    + apply (ring_other_unit R W rs s _ (rn s) (job_init g (fresh w) j) I);
        ring_fields; auto; try discriminate.
      * intros i Hi E. rewrite <- E in Hj.
        destruct (window_buf R W rs s i j I Hi Hj). exact Hb.
      * rewrite Hpc. ring_fields. intros i Hi1 Hi2.
        destruct (decide (slot_of g i = rn s)) as [E|E]; [|auto].
        destruct (proj1 HK i) as (j0 & b1 & _ & Hj0 & Hb0 & _);
          [rewrite Hpc; exact Hi1|rewrite Hpc; exact Hi2|].
        congruence.
      * rewrite Hpc. ring_fields. lia.
      * intros HRp Hlast. right. split; [|reflexivity].
        rewrite Hlast in Hj.
        destruct (proj2 HK ltac:(rewrite Hpc; exact HRp) j Hj)
          as [E|(E & _)]; congruence.
Qed.

Lemma reader_ring_wait_next R W rs s s' :
  inv w g input R W rs s -> ring_ok w g input b0 R W rs s ->
  reader w g s = Some s' -> rpc s = R_wait_next ->
  ring_ok w g input b0 R W rs s'.
Proof.
  intros I (HJ & HK & HD) Hstep Hpc.
  pose proof I as [Hjobs HRW Hrs Hrd Hwr Hsl].
  unfold reader in Hstep. unfold reader_inv in Hrd. unfold room in HJ.
  rewrite Hpc in Hstep, Hrd, HJ. destruct Hrd as (HR & Hn & _).
  destruct (jobs s !! NEXT g (rn s)) as [j|] eqn:Hj; [|discriminate].
  cbn [mbind option_bind] in Hstep.
  destruct (Z.eqb_spec (busy j) COMP) as [|Hb]; [discriminate|].
  injection Hstep as <-.
  split; [|apply (ring_carry R R W W rs s); ring_fields; auto].
  - unfold room. ring_fields.
    destruct (Nat.lt_ge_cases (S R) (W + procs g)) as [Hlt|Hge]; [auto|].
    right. rewrite Hn in Hj. change (NEXT g (slot_of g R)) with
      (slot_of g (S R)) in Hj.
    assert (HRlt : (R < W + procs g)%nat).
    { destruct HJ as [HJ|[HJ _]]; [exact HJ|].
      (* the ring is full: the next unit holds block [W + 1] *)
      replace (S R) with (S W + procs g)%nat in Hj by lia.
      rewrite (slot_period g HN) in Hj.
      pose proof (Hsl _ _ Hj) as Hok.
      rewrite (phase_of_window g HN) in Hok by lia.
      destruct (Nat.eqb_spec (S W) W); [lia|].
      cbn [job_ok] in Hok. tauto. }
    split; [lia|].
    replace (S R) with (W + procs g)%nat in Hj by lia.
    rewrite (slot_period g HN) in Hj.
    pose proof (Hsl _ _ Hj) as Hok.
    rewrite (phase_of_window g HN), Nat.eqb_refl in Hok by lia.
    destruct (wpc s); cbn [wphase job_ok] in Hok; tauto.
  - apply same_results_refl.
  - now rewrite Hpc.
  - intros i j' HW [Hi|[_ Hi]]; [auto|discriminate].
Qed.

Lemma reader_ring_read R W rs s s' :
  inv w g input R W rs s -> ring_ok w g input b0 R W rs s ->
  reader w g s = Some s' -> rpc s = R_read ->
  ring_ok w g input b0 R W rs s'.
Proof.
  intros I (HJ & HK & HD) Hstep Hpc.
  pose proof I as [Hjobs HRW Hrs Hrd Hwr Hsl].
  unfold reader in Hstep. unfold reader_inv in Hrd. unfold room in HJ.
  rewrite Hpc in Hstep, Hrd, HJ. destruct Hrd as (HR & Hn & Hi & _).
  destruct (jobs s !! rn s) as [j|] eqn:Hj; [|discriminate].
  cbn [mbind option_bind] in Hstep.
  destruct (lookup_lt_is_Some_2 _ _ HR) as [data Hdata].
  rewrite Hi, (readn_block g input HN Hsize _ _ Hdata) in Hstep.
  injection Hstep as <-. ring_fields.
  assert (HRlt : (R < W + procs g)%nat) by lia.
  split.
  - unfold room. ring_fields. exact HJ.
  - apply (ring_other_unit R W rs s _ (rn s)
             (set_buf (fill data (buf j)) j) I);
      ring_fields; auto; try discriminate.
    + intros i Hi'. rewrite Hn. apply (slot_inj g HN). lia.
    + rewrite Hpc. ring_fields. intros i Hi1 Hi2.
      destruct (decide (slot_of g i = rn s)) as [E|E].
      * assert (i = R) as ->.
        { destruct (Nat.eq_dec i R) as [|Hne]; [assumption|].
          rewrite Hn in E. destruct (slot_inj g HN i R); [lia|exact E]. }
        eexists _, data. split; [reflexivity|]. split; [exact Hdata|].
        now rewrite take_app_length.
      * assert (i <> R) by (intros ->; auto). lia.
    + rewrite Hpc. ring_fields. lia.
    + intros Hlt E. rewrite Hn, (slot_of_mod g HN), Nat.mod_small in E; lia.
Qed.

Lemma reader_ring_len R W rs s s' :
  inv w g input R W rs s -> ring_ok w g input b0 R W rs s ->
  reader w g s = Some s' -> rpc s = R_len ->
  ring_ok w g input b0 R W rs s'.
Proof.
  intros I (HJ & HK & HD) Hstep Hpc.
  pose proof I as [Hjobs HRW Hrs Hrd Hwr Hsl].
  unfold reader in Hstep. unfold reader_inv in Hrd. unfold room in HJ.
  rewrite Hpc in Hstep, Hrd, HJ. destruct Hrd as (HR & Hn & _ & _ & HRlt).
  destruct (jobs s !! rn s) as [j|] eqn:Hj; [|discriminate].
  cbn [mbind option_bind] in Hstep. injection Hstep as <-.
  split.
  - unfold room. ring_fields. exact HJ.
  - apply (ring_other_unit R W rs s _ (rn s) (set_len (got s) j) I);
      ring_fields; auto; try discriminate.
    + intros i Hi'. rewrite Hn. apply (slot_inj g HN). lia.
    + rewrite Hpc. ring_fields. intros i Hi1 Hi2.
      destruct (decide (slot_of g i = rn s)) as [E|E]; [|auto].
      destruct (proj1 HK i) as (j0 & b1 & data & Hj0 & Hb0 & Hd0 & Ht0);
        [rewrite Hpc; exact Hi1|rewrite Hpc; exact Hi2|].
      exists b1, data. rewrite E in Hj0.
      repeat split; auto; congruence.
    + rewrite Hpc. ring_fields. lia.
    + intros Hlt E. apply (proj2 HK); [rewrite Hpc; exact Hlt|].
      now rewrite <- E.
Qed.

(** [read_thread] keeps the buffers and the dictionaries right. *)
Lemma reader_ring R W rs s s' :
  inv w g input R W rs s -> ring_ok w g input b0 R W rs s ->
  reader w g s = Some s' ->
  ring_ok w g input b0 (if is_R_set (rpc s) then S R else R) W rs s'.
Proof.
  intros I H Hstep.
  pose proof (reader_ring_easy R W rs s s' I H Hstep) as E.
  destruct (rpc s) eqn:Hpc; cbn [is_R_set] in *;
    first [ apply E; discriminate
          | apply (reader_ring_init R W rs s s' I H Hstep Hpc)
          | apply (reader_ring_wait_next R W rs s s' I H Hstep Hpc)
          | apply (reader_ring_read R W rs s s' I H Hstep Hpc)
          | apply (reader_ring_len R W rs s s' I H Hstep Hpc) ].
Qed.

(** [write_thread] keeps the buffers and the dictionaries right. *)
Lemma writer_ring R W rs s s' :
  inv w g input R W rs s -> ring_ok w g input b0 R W rs s ->
  writer w g s = Some s' ->
  match wpc s with
  | W_write =>
      forall j, jobs s !! slot_of g W = Some j ->
                ring_ok w g input b0 R W (rs ++ [j]) s'
  | W_release => ring_ok w g input b0 R (S W) rs s'
  | _ => ring_ok w g input b0 R W rs s'
  end.
Proof.
  intros I (HJ & HK & HD) Hstep.
  pose proof I as [Hjobs HRW Hrs Hrd Hwr Hsl].
  unfold writer in Hstep. unfold writer_inv in Hwr. unfold room in HJ.
  destruct (wpc s) eqn:Hpc; try discriminate;
    repeat match type of Hstep with
           | context [jobs s !! ?k] =>
               destruct (jobs s !! k) as [j|] eqn:Hj; [|discriminate];
               cbn [mbind option_bind] in Hstep
           end.
  - (* W_header *)
    destruct (Framing.put_header (clk w) g) as [hd hlen].
    injection Hstep as <-.
    split; [|apply (ring_carry R R W W rs s); ring_fields; auto].
    + unfold room. ring_fields. left.
      destruct HJ as [HJ|[_ [HJ|HJ]]]; [exact HJ|discriminate|discriminate].
    + apply same_results_refl.
    + intros [E|E]; discriminate.
  - (* W_wait *)
    destruct (busy j =? COMP); [|discriminate]. injection Hstep as <-.
    split; [|apply (ring_carry R R W W rs s); ring_fields; auto].
    + unfold room. ring_fields. left.
      destruct HJ as [HJ|[_ [HJ|HJ]]]; [exact HJ|discriminate|discriminate].
    + apply same_results_refl.
    + intros [E|E]; discriminate.
  - (* W_join *)
    destruct (comp j) eqn:Hc; try discriminate. injection Hstep as <-.
    destruct Hwr as (HWR & Hn & _).
    split; [|apply (ring_carry R R W W rs s); ring_fields; auto].
    + unfold room. ring_fields. left.
      destruct HJ as [HJ|[_ [HJ|HJ]]]; [exact HJ|discriminate|discriminate].
    + apply (same_results_insert _ _ j); [exact Hj|].
      repeat split; ring_fields; auto.
    + intros _. right. split; [lia|]. split; [reflexivity|].
      intros j0 Hj0. rewrite <- Hn in Hj0. congruence.
  - (* W_set_write *)
    injection Hstep as <-.
    split; [|apply (ring_carry R R W W rs s); ring_fields; auto].
    + unfold room. ring_fields. left.
      destruct HJ as [HJ|[_ [HJ|HJ]]]; [exact HJ|discriminate|discriminate].
    + apply (same_results_insert _ _ j); [exact Hj|].
      repeat split; ring_fields; auto.
  - (* W_write *)
    injection Hstep as <-. destruct Hwr as (HWR & Hn & _ & Hlen).
    intros j0 Hj0.
    destruct (ring_carry R R W W rs s
                (State (jobs s) (ind s) (outd s ++ out j) (rpc s) (rn s)
                   (got s) W_release (wn s) (len j) (head s)
                   (ulong (ulen s + len j))
                   (ulong (clen s + zlen (out j)))
                   (COMB g (wcheck s) (check j) (len j))))
      as [HK' HD']; ring_fields; auto.
    + apply same_results_refl.
    + split; [|split; [exact HK'|]].
      * unfold room. ring_fields. destruct HJ as [HJ|[HJ _]]; auto.
      * apply dicts_snoc; [exact HD'|]. rewrite Hlen.
        destruct HD as (_ & D2 & _). apply D2; auto.
  - (* W_release *)
    injection Hstep as <-. destruct Hwr as (HWR & Hn & _).
    split; [|apply (ring_carry R R W (S W) rs s); ring_fields; auto].
    + unfold room. ring_fields. left.
      destruct HJ as [HJ|[HJ _]]; lia.
    + apply (same_results_insert _ _ j); [exact Hj|].
      repeat split; ring_fields; auto.
    + intros i j' HW Hi _ _. split; [lia|exact Hi].
    + intros [E|E]; destruct (wlen s =? size g); discriminate.
  - (* W_trailer *)
    injection Hstep as <-.
    split; [|apply (ring_carry R R W W rs s); ring_fields; auto].
    + unfold room. ring_fields. left.
      destruct HJ as [HJ|[_ [HJ|HJ]]]; [exact HJ|discriminate|discriminate].
    + apply same_results_refl.
    + intros [E|E]; discriminate.
Qed.

(** The dictionary taken from a buffer that holds a full block. *)
Lemma dictionary_of_block (b prev : list Z) :
  take (length prev) b = prev -> zlen prev = size g ->
  take (Z.to_nat DICT) (drop (Z.to_nat (size g - DICT)) b) =
  drop (Z.to_nat (size g - DICT)) prev.
Proof.
  intros Ht Hl.
  assert (E : (Z.to_nat (size g - DICT) + Z.to_nat DICT)%nat = length prev)
    by (unfold zlen, DICT in *; lia).
  now rewrite take_drop_commute, E, Ht.
Qed.

(** A unit whose thread has not run yet is at work on a block of the
    ring, and knows a length. *)
Lemma running_unit R W rs s k j :
  inv w g input R W rs s -> jobs s !! k = Some j -> comp j = Running ->
  0 <= len j.
Proof.
  intros I Hj Hc. pose proof (inv_slots _ _ _ _ _ _ _ I _ _ Hj) as Hok.
  assert (Hlive : forall i, live w g input i j -> 0 <= len j).
  { intros i [[_ (data & b & _ & Hl & _)]|[H _]]; [|congruence].
    rewrite Hl. unfold zlen. lia. }
  destruct (phase_of g R W (rpc s) (wpc s) k); cbn [job_ok] in Hok;
    try (destruct Hok as (_ & _ & Hl); now apply (Hlive i));
    repeat match goal with H : _ /\ _ |- _ => destruct H end; congruence.
Qed.

(** A compress thread finds the block before its own in the buffer of the
    unit before its own. *)
Lemma compressor_ring R W rs s s' k :
  inv w g input R W rs s -> ring_ok w g input b0 R W rs s ->
  compressor w g k s = Some s' ->
  ring_ok w g input b0 R W rs s'.
Proof.
  intros I (HJ & HK & HD) Hstep.
  pose proof I as [Hjobs HRW Hrs Hrd Hwr Hsl].
  unfold compressor in Hstep.
  destruct (jobs s !! k) as [j|] eqn:Hj; [|discriminate].
  cbn [mbind option_bind] in Hstep.
  destruct (jobs s !! PREV g k) as [p|] eqn:Hp; [|discriminate].
  cbn [mbind option_bind] in Hstep.
  destruct (comp j) eqn:Hcomp; try discriminate. injection Hstep as <-.
  destruct (compress_thread_keeps w g j p) as (Klen & Kbuf & Kbusy & Kcomp).
  pose proof (running_unit R W rs s k j I Hj Hcomp) as Hlen.
  destruct (compress_thread_spec (enc w) g j p Hlen) as (_ & _ & _ & Hd).
  set (r := compress_thread (enc w) g j p) in *.
  assert (Hlt : (k < length (jobs s))%nat) by (eapply lookup_lt_Some; eauto).
  destruct HD as (D1 & D2 & D3).
  destruct HK as [HK HK0].
  assert (Hfirst : slot_of g 0%nat = k -> W = 0%nat ->
                   (read_in R (rpc s) < procs g)%nat).
  { intros E ->. cbn [slot_of] in E. subst k.
    assert (read_in R (rpc s) <= reading R (rpc s))%nat
      by (destruct (rpc s); cbn; lia).
    unfold room in HJ. destruct HJ as [HJ|[HJ Hw]]; [lia|exfalso].
    destruct (Nat.eq_dec R 0%nat) as [->|].
    - destruct (rpc s); cbn [reading] in HJ; lia.
    - change 0%nat with (slot_of g 0%nat) in Hj.
      rewrite (oldest_joined R 0%nat rs s j I) in Hcomp;
        [discriminate|lia|tauto|exact Hj]. }
  split; [exact HJ|]. split; [split|split; [|split]]; ring_fields.
  - (* the buffers *)
    intros i Hi1 Hi2.
    destruct (HK i Hi1 Hi2) as (j0 & b & data & Hj0 & Hb & Hdt & Ht).
    destruct (Nat.eq_dec (slot_of g i) k) as [E|E].
    + exists (set_comp Finished r), b, data.
      rewrite E, list_lookup_insert_eq by exact Hlt.
      repeat split; auto. ring_fields. rewrite Kbuf. congruence.
    + exists j0, b, data. rewrite list_lookup_insert_ne by auto. auto.
  - (* the buffer of the last unit *)
    intros Hlt0 j0 Hj0.
    destruct (Nat.eq_dec (procs g - 1)%nat k) as [E|E].
    + rewrite E, list_lookup_insert_eq in Hj0 by exact Hlt.
      injection Hj0 as <-. ring_fields. rewrite Kbuf. apply HK0; [exact Hlt0|].
      now rewrite E.
    + rewrite list_lookup_insert_ne in Hj0 by auto. now apply HK0.
  - (* the results in the ring *)
    intros i j0 HW Hi Hj0 Hc.
    destruct (Nat.eq_dec (slot_of g i) k) as [E|E];
      [|rewrite list_lookup_insert_ne in Hj0 by auto; eauto].
    rewrite E, list_lookup_insert_eq in Hj0 by exact Hlt.
    injection Hj0 as <-. destruct i as [|i'].
    { (* the first block *)
      cbn [dict_ok]. ring_fields. exists (buf p). split.
      - apply HK0; [apply Hfirst; [exact E|lia]|].
        rewrite <- E in Hp. cbn [slot_of] in Hp. exact Hp.
      - unfold dictionary_from. cbn [len set_comp]. rewrite Klen. exact Hd. }
    cbn [dict_ok]. ring_fields.
    assert (HiB : (S i' < length B)%nat).
    { destruct Hi as [Hi|[-> Hi]]; [lia|].
      unfold reader_inv in Hrd. rewrite Hi in Hrd. tauto. }
    assert (Hin : (i' < read_in R (rpc s))%nat).
    { assert (R <= read_in R (rpc s))%nat by (destruct (rpc s); cbn; lia).
      destruct Hi as [Hi|[Hi _]]; lia. }
    assert (Hroom : (read_in R (rpc s) <= i' + procs g)%nat).
    { assert (read_in R (rpc s) <= reading R (rpc s))%nat
        by (destruct (rpc s); cbn; lia).
      unfold room in HJ. destruct HJ as [HJ|[HJ Hw]]; [lia|].
      destruct (Nat.eq_dec W (S i')) as [EW|]; [exfalso|lia].
      destruct Hi as [Hi|[ER Hi]].
      - rewrite <- EW in E. rewrite <- E in Hj.
        rewrite (oldest_joined R W rs s j I) in Hcomp;
          [discriminate|lia|tauto|exact Hj].
      - rewrite Hi in HJ. cbn [reading] in HJ. lia. }
    destruct (HK i' Hin Hroom) as (p0 & b & prev & Hp0 & Hb & Hprev & Ht).
    rewrite <- E, PREV_slot in Hp.
    assert (p0 = p) as -> by congruence.
    destruct (block_full g input HN Hsize i' prev Hprev) as [Hfull _].
    exists prev. split; [exact Hprev|].
    rewrite Klen, Hd, Hb.
    destruct (dict g && negb (len j =? 0)); [|reflexivity].
    now rewrite (dictionary_of_block b prev Ht (Hfull HiB)).
  - (* the result being written *)
    intros Hpc j0 Hj0.
    assert (HWR : (W < R)%nat).
    { unfold writer_inv in Hwr. destruct Hpc as [E|E]; rewrite E in Hwr; tauto. }
    destruct (Nat.eq_dec (slot_of g W) k) as [E|E].
    + rewrite <- E in Hj.
      rewrite (oldest_joined R W rs s j I HWR) in Hcomp; [discriminate|tauto|exact Hj].
    + rewrite list_lookup_insert_ne in Hj0 by auto. eauto.
  - exact D3.
Qed.

Lemma reader_inv_step R W rs s s' :
  inv w g input R W rs s -> reader w g s = Some s' ->
  inv w g input (if is_R_set (rpc s) then S R else R) W rs s'.
Proof.
  intros I Hstep. pose proof HN as HN'. pose proof Hsize as Hsize'.
  destruct (rpc s) eqn:Hpc; cbn [is_R_set];
    try (unfold reader in Hstep; rewrite Hpc in Hstep; discriminate);
    eapply proj1;
    first [ eapply reader_R_start; eassumption
          | eapply reader_R_init; eassumption
          | eapply reader_R_wait_self; eassumption
          | eapply reader_R_wait_next; eassumption
          | eapply reader_R_read; eassumption
          | eapply reader_R_wait_idle; eassumption
          | eapply reader_R_len; eassumption
          | eapply reader_R_create; eassumption
          | eapply reader_R_set; eassumption
          | eapply reader_R_join; eassumption ].
Qed.

(** Every action keeps the invariant of the ring and that of its buffers
    and dictionaries. *)
Lemma step_ring R W rs s s' :
  inv w g input R W rs s -> ring_ok w g input b0 R W rs s -> step w g s s' ->
  exists R' W' rs',
    inv w g input R' W' rs' s' /\ ring_ok w g input b0 R' W' rs' s'.
Proof.
  intros I H [[| |k] Hstep]; cbn [act] in Hstep.
  - exists (if is_R_set (rpc s) then S R else R), W, rs. split.
    + now apply reader_inv_step.
    + now apply reader_ring.
  - pose proof (writer_ring R W rs s s' I H Hstep) as Hr.
    pose proof HN as HN'. pose proof Hsize as Hsize'.
    destruct (wpc s) eqn:Hpc;
      try (unfold writer in Hstep; rewrite Hpc in Hstep; discriminate).
    + exists R, W, rs. split; [|exact Hr].
      eapply proj1. eapply writer_W_header; eassumption.
    + exists R, W, rs. split; [|exact Hr].
      eapply proj1. eapply writer_W_wait; eassumption.
    + exists R, W, rs. split; [|exact Hr].
      eapply proj1. eapply writer_W_join; eassumption.
    + exists R, W, rs. split; [|exact Hr].
      eapply proj1. eapply writer_W_set_write; eassumption.
    + destruct (writer_W_write w g input HN' R W rs s s' I Hpc Hstep)
        as (j & Hj & I' & _).
      exists R, W, (rs ++ [j]). split; [exact I'|exact (Hr j Hj)].
    + exists R, (S W), rs. split; [|exact Hr].
      eapply proj1. eapply writer_W_release; eassumption.
    + exists R, W, rs. split; [|exact Hr].
      eapply proj1. eapply writer_W_trailer; eassumption.
  - exists R, W, rs. split.
    + eapply proj1. eapply compressor_step; [exact HN|eassumption..].
    + eapply compressor_ring; eassumption.
Qed.

Lemma init_ring pool :
  (forall j, jobs_new g pool !! (procs g - 1)%nat = Some j -> buf j = b0) ->
  ring_ok w g input b0 0 0 [] (init g pool input).
Proof.
  intros Hb0. unfold ring_ok, room, kept, dicts, init. ring_fields.
  split; [left; lia|]. split; [split|].
  - intros i Hi; lia.
  - intros _ j Hj. left. now apply Hb0.
  - split; [intros i j _ [Hi|[_ Hi]]; [lia|discriminate]|].
    split; [intros [E|E]; discriminate|]. intros i r Hr. discriminate.
Qed.

(** Every state that the pipeline reaches has the buffers and the
    dictionaries right. *)
Lemma steps_ring pool n s :
  pool_ok g pool ->
  (forall j, jobs_new g pool !! (procs g - 1)%nat = Some j -> buf j = b0) ->
  steps w g n (init g pool input) s ->
  exists R W rs, inv w g input R W rs s /\ ring_ok w g input b0 R W rs s.
Proof.
  intros Hpool Hb0 Hsteps. remember (init g pool input) as s0 eqn:E.
  induction Hsteps as [s|n s s' s'' _ IH Hstep]; subst.
  - exists 0%nat, 0%nat, [].
    split; [apply (init_inv w g input HN pool Hpool)|now apply init_ring].
  - destruct (IH eq_refl) as (R & W & rs & I & H).
    apply (step_ring R W rs s' s'' I H Hstep).
Qed.

End RingBuffers.

Section RingResults.
Import Deflate Pipeline Ring.
Context (w : world) (g : globals) (input : list Z).
Context (Hprocs : (1 < procs g)%nat) (Hdict : DICT <= size g).

Local Abbreviation B := (blocks (size g) input).
Local Abbreviation HN := (ring_procs_pos g Hprocs).
Local Abbreviation Hsize := (ring_size_pos g Hdict).

Lemma finished_ring pool n s :
  pool_ok g pool -> steps w g n (init g pool input) s ->
  wpc s = W_finished ->
  exists rs,
    outd s = stream_of w g rs /\ Forall2 (compressed w g) B rs /\
    forall i r, rs !! i = Some r ->
                dict_ok w g input (pool_last_buf g pool) i r.
Proof.
  intros Hpool Hsteps Hw.
  destruct (steps_ring w g input (pool_last_buf g pool) Hprocs Hdict
              pool n s Hpool) as (R & W & rs & I & _ & _ & _ & _ & D3);
    [|exact Hsteps|].
  { intros j Hj. unfold pool_last_buf. now rewrite Hj. }
  pose proof (inv_writer _ _ _ _ _ _ _ I) as Hwr. unfold writer_inv in Hwr.
  rewrite Hw in Hwr. destruct Hwr as (-> & Hlen & Ho).
  exists rs. split; [exact Ho|]. split; [|exact D3].
  apply (results_compressed w g input HN Hsize rs Hlen).
  exact (inv_rs _ _ _ _ _ _ _ I).
Qed.

(** X20.  Every block but the first is compressed with the last [DICT] bytes of
    the block before it as dictionary, when [dict] is on and the block is
    not empty, and with no dictionary otherwise -- for every schedule:
    [read_thread] does not read into a buffer before the compress thread
    that takes its dictionary from it has been joined. *)
Theorem pipeline_dictionaries pool n s :
  pool_ok g pool -> steps w g n (init g pool input) s ->
  wpc s = W_finished ->
  exists rs,
    outd s = stream_of w g rs /\ Forall2 (compressed w g) B rs /\
    forall i r prev, rs !! S i = Some r -> B !! i = Some prev ->
      zlen prev = size g /\
      dictionaries (strm r) =
        if dict g && negb (len r =? 0)
        then [drop (Z.to_nat (size g - DICT)) prev] else [].
Proof.
  intros Hpool Hsteps Hw.
  destruct (finished_ring pool n s Hpool Hsteps Hw) as (rs & Ho & Hc & Hd).
  exists rs. split; [exact Ho|]. split; [exact Hc|].
  intros i r prev Hr Hprev.
  destruct (Hd (S i) r Hr) as (prev' & Hprev' & E).
  assert (prev' = prev) as -> by congruence. split; [|exact E].
  apply (block_full g input HN Hsize i prev Hprev).
  pose proof (Forall2_length _ _ _ Hc) as Hlen.
  apply lookup_lt_Some in Hr. lia.
Qed.

Lemma first_block_nonempty data :
  input <> [] -> B !! 0%nat = Some data -> data <> [].
Proof.
  intros Hin H0.
  destruct (blocks_spec (size g) input Hsize)
    as (Hc & full & last & E & Hf & _).
  rewrite E in Hc, H0. destruct full as [|b full].
  - cbn in H0, Hc. injection H0 as <-. rewrite app_nil_r in Hc. congruence.
  - cbn in H0. injection H0 as <-. apply Forall_cons in Hf as [Hb _].
    intros ->. unfold zlen in Hb. cbn in Hb. pose proof Hsize. lia.
Qed.

(** X21.  The first block is compressed with a dictionary whenever the buffer of
    the last unit is there when its compress thread starts: the buffer left
    in the pool by an earlier file, or, if there is none, the one that
    [read_thread] has allocated in the meantime and not yet read into.  So
    with a pool whose last unit has a buffer, [dict] on and input that is
    not empty, the first block always has a dictionary. *)
Theorem first_block_dictionary pool n s :
  pool_ok g pool -> steps w g n (init g pool input) s ->
  wpc s = W_finished ->
  exists rs r0 data,
    outd s = stream_of w g rs /\ rs !! 0%nat = Some r0 /\
    B !! 0%nat = Some data /\ compressed w g data r0 /\
    (exists pb, (pb = pool_last_buf g pool \/
                 pool_last_buf g pool = None /\ pb = Some (fresh w)) /\
                dictionaries (strm r0) = dictionary_from g pb r0) /\
    (dict g = true -> input <> [] -> pool_last_buf g pool <> None ->
     dictionaries (strm r0) <> []).
Proof.
  intros Hpool Hsteps Hw.
  destruct (finished_ring pool n s Hpool Hsteps Hw) as (rs & Ho & Hc & Hd).
  pose proof (blocks_nonempty g input HN Hsize) as Hne.
  destruct (B !! 0%nat) as [data|] eqn:HB;
    [|apply lookup_ge_None in HB; lia].
  destruct (Forall2_lookup_l _ _ _ _ _ Hc HB) as (r0 & Hr0 & H0).
  exists rs, r0, data. split; [exact Ho|].
  split; [exact Hr0|]. split; [reflexivity|]. split; [exact H0|].
  destruct (Hd 0%nat r0 Hr0) as (pb & Hpb & E).
  split; [exists pb; auto|].
  intros Hdi Hin Hlast. rewrite E. unfold dictionary_from.
  assert (Hl : len r0 <> 0).
  { destruct H0 as (Hl & _). rewrite Hl. intros Hz.
    apply (first_block_nonempty data Hin HB).
    apply length_zero_iff_nil. unfold zlen in Hz. lia. }
  apply Z.eqb_neq in Hl. rewrite Hdi, Hl. cbn [negb andb].
  destruct Hpb as [->|(En & _)]; [|now destruct Hlast].
  destruct (pool_last_buf g pool); [discriminate|congruence].
Qed.

Lemma free_unit R W rs s i j :
  inv w g input R W rs s -> (R <= i)%nat -> (i < W + procs g)%nat ->
  i <> R \/ rpc s <> R_set ->
  jobs s !! slot_of g i = Some j -> busy j = IDLE /\ comp j = Absent.
Proof.
  intros I Hi Hlt Hne Hj.
  pose proof (inv_slots _ _ _ _ _ _ _ I _ _ Hj) as Hok.
  destruct (inv_RW _ _ _ _ _ _ _ I) as (HRW & _).
  unfold phase_of in Hok. rewrite (holder_miss g HN) in Hok.
  - assert (E : is_R_set (rpc s) && (slot_of g i =? slot_of g R)%nat = false).
    { destruct Hne as [Hne|Hne].
      - apply andb_false_intro2. apply Nat.eqb_neq. apply not_eq_sym.
        apply (slot_inj g HN). lia.
      - apply andb_false_intro1. destruct (rpc s); try reflexivity.
        now elim Hne. }
    rewrite E in Hok. exact Hok.
  - intros i' Hi'. apply (slot_inj g HN). lia.
Qed.

Lemma unit_there R W rs s i :
  inv w g input R W rs s -> exists j, jobs s !! slot_of g i = Some j.
Proof.
  intros I. apply lookup_lt_is_Some.
  rewrite (inv_jobs _ _ _ _ _ _ _ I). apply (slot_lt g HN).
Qed.

(** X22.  No buffer is used from two sides: when [read_thread] is about to read
    into the buffer of a unit, the compress thread of that unit, which
    took its input from the buffer, and the compress thread of the next
    unit, which took its dictionary from it, have been joined; when it is
    about to make a compress thread for a unit, the unit is idle and has no
    thread; when [write_thread] is about to write the output of a unit, the
    compress thread of the unit has been joined. *)
Theorem pipeline_exclusive pool n s :
  pool_ok g pool -> steps w g n (init g pool input) s ->
  (rpc s = R_read ->
   exists j jn,
     jobs s !! rn s = Some j /\ jobs s !! NEXT g (rn s) = Some jn /\
     comp j = Absent /\ comp jn = Absent) /\
  (rpc s = R_create ->
   exists j, jobs s !! rn s = Some j /\ busy j = IDLE /\ comp j = Absent) /\
  (wpc s = W_write ->
   exists j, jobs s !! wn s = Some j /\ busy j = WRITE /\ comp j = Absent).
Proof.
  intros Hpool Hsteps.
  destruct (steps_ring w g input (pool_last_buf g pool) Hprocs Hdict
              pool n s Hpool) as (R & W & rs & I & Hroom & _);
    [|exact Hsteps|].
  { intros j Hj. unfold pool_last_buf. now rewrite Hj. }
  pose proof (inv_reader _ _ _ _ _ _ _ I) as Hr. unfold reader_inv in Hr.
  pose proof (inv_writer _ _ _ _ _ _ _ I) as Hw. unfold writer_inv in Hw.
  destruct (inv_RW _ _ _ _ _ _ _ I) as (HRW & HRp).
  unfold room in Hroom.
  split; [|split]; intros Hpc; rewrite Hpc in *.
  - destruct Hr as (_ & Hrn & _). cbn [reading] in Hroom. rewrite Hrn.
    change (NEXT g (slot_of g R)) with (slot_of g (S R)).
    destruct (unit_there R W rs s R I) as (j & Hj).
    destruct (unit_there R W rs s (S R) I) as (jn & Hjn).
    exists j, jn. split; [exact Hj|]. split; [exact Hjn|]. split.
    + apply (free_unit R W rs s R j I); [lia|lia| |exact Hj].
      right. rewrite Hpc. discriminate.
    + destruct Hroom as [Hlt|(E & Hwp)].
      * apply (free_unit R W rs s (S R) jn I); [lia|lia| |exact Hjn].
        left. lia.
      * replace (S R) with (W + procs g)%nat in Hjn by lia.
        rewrite (slot_period g HN) in Hjn.
        apply (oldest_joined w g input Hprocs R W rs s jn I); [lia| |exact Hjn].
        tauto.
  - destruct Hr as (_ & Hrn & _ & _ & Hlt & _). rewrite Hrn.
    destruct (unit_there R W rs s R I) as (j & Hj).
    exists j. split; [exact Hj|].
    apply (free_unit R W rs s R j I); [lia|lia| |exact Hj].
    right. rewrite Hpc. discriminate.
  - destruct Hw as (Hlt & Hwn & _). rewrite Hwn.
    destruct (unit_there R W rs s W I) as (j & Hj).
    exists j. split; [exact Hj|].
    pose proof (inv_slots _ _ _ _ _ _ _ I _ _ Hj) as Hok.
    rewrite (phase_of_window g HN), Nat.eqb_refl in Hok by lia.
    rewrite Hpc in Hok. cbn [wphase job_ok] in Hok. tauto.
Qed.






End RingResults.

(** A pool left by an earlier file: two idle units with their buffers. *)
Lemma used_pool_ok :
  Ring.pool_ok default_globals
    (Some (replicate 2 (Pipeline.Work 0 0 (Some zero_block) [] []
                          Pipeline.IDLE Pipeline.Absent))).
Proof.
  split; [reflexivity|]. repeat constructor.
Qed.

Lemma pipeline_dictionaries_witness :
  exists s rs,
    Pipeline.outd s = Ring.stream_of some_world default_globals rs /\
    forall r, rs !! 1%nat = Some r ->
      dictionaries (Pipeline.strm r) =
        if dict default_globals && negb (Pipeline.len r =? 0)
        then [drop (Z.to_nat (size default_globals - Deflate.DICT)) zero_block]
        else [].
Proof.
  destruct (complete_run some_world default_globals two_blocks_schedule
              short_tail complete_short_tail) as (s & Hrun & Hw).
  destruct (pipeline_dictionaries some_world default_globals short_tail
              ltac:(vm_compute; lia) ltac:(vm_compute; discriminate)
              None _ s I (run_steps _ _ _ _ _ Hrun) Hw)
    as (rs & Ho & _ & H).
  exists s, rs. split; [exact Ho|]. intros r Hr.
  exact (proj2 (H 0%nat r zero_block Hr eq_refl)).
Defined.

Lemma first_block_dictionary_witness :
  exists s rs r0,
    Pipeline.outd s = Ring.stream_of some_world default_globals rs /\
    rs !! 0%nat = Some r0 /\
    dictionaries (Pipeline.strm r0) <> [].
Proof.
  pose (pool := Some (replicate 2 (Pipeline.Work 0 0 (Some zero_block) [] []
                                     Pipeline.IDLE Pipeline.Absent))).
  assert (Hp : (1 < procs default_globals)%nat) by (vm_compute; lia).
  assert (Hd : Deflate.DICT <= size default_globals)
    by (vm_compute; discriminate).
  destruct (steps_continue some_world default_globals short_tail Hp Hd pool
              used_pool_ok _ 0%nat _ (Nat.le_refl _)
              (Pipeline.steps_O _ _ _)) as (m & s & Hm & Hdone).
  destruct (steps_inv some_world default_globals short_tail
              (ring_procs_pos _ Hp) (ring_size_pos _ Hd) pool _ s
              used_pool_ok Hm) as (R & W & rs0 & Hinv & _).
  pose proof (done_finished some_world default_globals short_tail
                R W rs0 s Hinv Hdone) as Hw.
  destruct (first_block_dictionary some_world default_globals short_tail
              Hp Hd pool _ s used_pool_ok Hm Hw)
    as (rs & r0 & data & Ho & Hr0 & _ & _ & _ & H).
  exists s, rs, r0. split; [exact Ho|]. split; [exact Hr0|].
  apply H; [reflexivity|discriminate|discriminate].
Defined.

Lemma pipeline_exclusive_witness :
  exists s j jn,
    Pipeline.rpc s = Pipeline.R_read /\
    Pipeline.jobs s !! Pipeline.rn s = Some j /\
    Pipeline.jobs s !! Pipeline.NEXT default_globals (Pipeline.rn s)
      = Some jn /\
    Pipeline.comp j = Pipeline.Absent /\ Pipeline.comp jn = Pipeline.Absent.
Proof.
  assert (Hb : match Pipeline.run some_world default_globals
                       (turns Pipeline.Reader 4)
                       (Pipeline.init default_globals None short_tail) with
               | Some s => match Pipeline.rpc s with
                           | Pipeline.R_read => true
                           | _ => false
                           end
               | None => false
               end = true) by (vm_compute; reflexivity).
  destruct (Pipeline.run some_world default_globals
              (turns Pipeline.Reader 4)
              (Pipeline.init default_globals None short_tail))
    as [s|] eqn:Hrun; [|discriminate Hb].
  assert (Hpc : Pipeline.rpc s = Pipeline.R_read)
    by (destruct (Pipeline.rpc s); try discriminate Hb; reflexivity).
  destruct (pipeline_exclusive some_world default_globals short_tail
              ltac:(vm_compute; lia) ltac:(vm_compute; discriminate)
              None _ s I (run_steps _ _ _ _ _ Hrun)) as (H & _).
  destruct (H Hpc) as (j & jn & H1 & H2 & H3 & H4).
  exists s, j, jn. auto.
Defined.



(** ** File names *)

Section NameFacts.
Import Names.
Local Open Scope string_scope.

Lemma advance_app a b : advance (String.length a) (a ++ b) = b.
Proof. induction a as [|c a IH]; [reflexivity|exact IH]. Qed.

Lemma length_append a b :
  String.length (a ++ b) = (String.length a + String.length b)%nat.
Proof. induction a as [|c a IH]; [reflexivity|cbn; now rewrite IH]. Qed.

Lemma advance_split : forall k s, (k <= String.length s)%nat ->
  exists a, s = a ++ advance k s /\ String.length a = k.
Proof.
  induction k as [|k IH]; intros s Hk.
  - exists "". split; reflexivity.
  - destruct s as [|c s]; [cbn in Hk; lia|].
    destruct (IH s ltac:(cbn in Hk; lia)) as (a & E & Hl).
    exists (String c a). cbn. split; [now rewrite <- E|now rewrite Hl].
Qed.

Lemma advance_advance : forall k j s,
  advance j (advance k s) = advance (k + j) s.
Proof.
  induction k as [|k IH]; intros j s; [reflexivity|].
  destruct s as [|c s]; [now destruct j|]. cbn. apply IH.
Qed.

Lemma advance_length k s :
  (k <= String.length s)%nat ->
  String.length (advance k s) = (String.length s - k)%nat.
Proof.
  intros Hk. destruct (advance_split k s Hk) as (a & E & Hl).
  rewrite E at 2. rewrite length_append. lia.
Qed.

(** The three tests look at the last four, three and two characters, each
    only if the name is longer than that. *)
Lemma compressed_suffix_tests nm :
  compressed_suffix nm =
  if (strlen nm >? 4) && is_zip (ending 4 nm) then 4
  else if (strlen nm >? 3) && is_gz (ending 3 nm) then 3
  else if (strlen nm >? 2) && is_z (ending 2 nm) then 2
  else 0.
Proof.
  unfold compressed_suffix, ending, is_zip, is_gz, is_z, strlen.
  set (n := String.length nm).
  destruct (Z.gtb_spec (Z.of_nat n) 4) as [H4|H4].
  - change (4 >? 3) with true. change (3 >? 2) with true.
    replace (Z.of_nat n >? 3) with true by (symmetry; apply Z.gtb_lt; lia).
    replace (Z.of_nat n >? 2) with true by (symmetry; apply Z.gtb_lt; lia).
    rewrite !advance_advance.
    replace (Z.to_nat (Z.of_nat n - 4)) with (n - 4)%nat by lia.
    replace (n - 4 + Z.to_nat (4 - 3))%nat with (n - 3)%nat by lia.
    replace (n - 3 + Z.to_nat (3 - 2))%nat with (n - 2)%nat by lia.
    reflexivity.
  - cbn [andb]. destruct (Z.gtb_spec (Z.of_nat n) 3) as [H3|H3].
    + change (3 >? 2) with true.
      replace (Z.of_nat n >? 2) with true by (symmetry; apply Z.gtb_lt; lia).
      rewrite !advance_advance.
      replace (Z.to_nat (Z.of_nat n - 3)) with (n - 3)%nat by lia.
      replace (n - 3 + Z.to_nat (3 - 2))%nat with (n - 2)%nat by lia.
      reflexivity.
    + cbn [andb].
      replace (Z.to_nat (Z.of_nat n - 2)) with (n - 2)%nat by lia.
      destruct (Z.of_nat n >? 2); reflexivity.
Qed.

Lemma ending_app k stem suf :
  (String.length suf <= k)%nat ->
  (k <= String.length stem + String.length suf)%nat ->
  ending k (stem ++ suf) = ending (k - String.length suf) stem ++ suf.
Proof.
  intros H1 H2. unfold ending. rewrite length_append.
  set (j := (String.length stem - (k - String.length suf))%nat).
  destruct (advance_split j stem ltac:(lia)) as (a & E & Hl).
  replace (String.length stem + String.length suf - k)%nat with j by lia.
  rewrite E at 1. rewrite <- Hl at 1.
  replace ((a ++ advance j stem) ++ suf) with (a ++ advance j stem ++ suf).
  - apply advance_app.
  - clear. induction a as [|c a IH]; [reflexivity|cbn; now rewrite IH].
Qed.

Lemma ending_length k s :
  (k <= String.length s)%nat -> String.length (ending k s) = k.
Proof. intros H. unfold ending. rewrite advance_length; lia. Qed.

Lemma ending_split k s :
  (k <= String.length s)%nat ->
  exists a, s = a ++ ending k s /\
            String.length a = (String.length s - k)%nat.
Proof. intros H. apply advance_split. lia. Qed.

Lemma one_char t : String.length t = 1%nat -> exists c, t = String c "".
Proof.
  destruct t as [|c [|d t]]; try discriminate. intros _. now exists c.
Qed.

Lemma two_chars t :
  String.length t = 2%nat -> exists c d, t = String c (String d "").
Proof.
  destruct t as [|c [|d [|e t]]]; try discriminate. intros _. now exists c, d.
Qed.

Ltac eqb_chars :=
  cbn [String.eqb append];
  repeat match goal with
         | |- context [Ascii.eqb ?c ?d] =>
             is_var c; destruct (Ascii.eqb c d)
         end;
  reflexivity.

Lemma is_zip_cases suf :
  is_zip suf = true <-> suf = ".zip" \/ suf = ".ZIP".
Proof. unfold is_zip. now rewrite !orb_true_iff, !String.eqb_eq. Qed.

Lemma is_gz_cases suf :
  is_gz suf = true <->
  suf = ".gz" \/ suf = "-gz" \/ suf = ".zz" \/ suf = "-zz".
Proof. unfold is_gz. rewrite !orb_true_iff, !String.eqb_eq. tauto. Qed.

Lemma is_z_cases suf :
  is_z suf = true <-> suf = ".z" \/ suf = "-z" \/ suf = "_z" \/ suf = ".Z".
Proof. unfold is_z. rewrite !orb_true_iff, !String.eqb_eq. tauto. Qed.

Lemma gz_not_zip c suf :
  is_gz suf = true -> is_zip (String c "" ++ suf) = false.
Proof.
  intros H. apply is_gz_cases in H. unfold is_zip.
  destruct H as [->|[->|[->| ->]]]; eqb_chars.
Qed.

Lemma z_not_zip c d suf :
  is_z suf = true -> is_zip (String c (String d "") ++ suf) = false.
Proof.
  intros H. apply is_z_cases in H. unfold is_zip.
  destruct H as [->|[->|[->| ->]]]; eqb_chars.
Qed.

Lemma z_not_gz c suf :
  is_z suf = true -> is_gz (String c "" ++ suf) = false.
Proof.
  intros H. apply is_z_cases in H. unfold is_gz.
  destruct H as [->|[->|[->| ->]]]; eqb_chars.
Qed.

Lemma suffixes_cases suf :
  In suf suffixes <->
  is_zip suf = true \/ is_gz suf = true \/ is_z suf = true.
Proof.
  rewrite is_zip_cases, is_gz_cases, is_z_cases. unfold suffixes.
  cbn [In]. intuition congruence.
Qed.

Lemma strlen_append a b : strlen (a ++ b) = strlen a + strlen b.
Proof. unfold strlen. rewrite length_append. lia. Qed.

Lemma strlen_stem stem : stem <> "" -> 0 < strlen stem.
Proof. destruct stem; [congruence|]. unfold strlen. cbn. lia. Qed.

Lemma ending_suffix stem suf :
  ending (String.length suf) (stem ++ suf) = suf.
Proof.
  unfold ending. rewrite length_append.
  replace (String.length stem + String.length suf - String.length suf)%nat
    with (String.length stem) by lia.
  apply advance_app.
Qed.

Lemma is_zip_length suf : is_zip suf = true -> String.length suf = 4%nat.
Proof.
  intros H. apply is_zip_cases in H. destruct H as [->| ->]; reflexivity.
Qed.

Lemma is_gz_length suf : is_gz suf = true -> String.length suf = 3%nat.
Proof.
  intros H. apply is_gz_cases in H.
  destruct H as [->|[->|[->| ->]]]; reflexivity.
Qed.

Lemma is_z_length suf : is_z suf = true -> String.length suf = 2%nat.
Proof.
  intros H. apply is_z_cases in H.
  destruct H as [->|[->|[->| ->]]]; reflexivity.
Qed.

Lemma gz_no_zip stem suf :
  is_gz suf = true ->
  (strlen (stem ++ suf) >? 4) && is_zip (ending 4 (stem ++ suf)) = false.
Proof.
  intros Hz. pose proof (is_gz_length suf Hz) as Hl.
  destruct (Z.gtb_spec (strlen (stem ++ suf)) 4) as [H|H]; [|reflexivity].
  rewrite strlen_append in H. unfold strlen in H.
  rewrite (ending_app 4 stem suf) by lia. rewrite Hl.
  destruct (one_char (ending (4 - 3) stem)) as (c & ->).
  { apply ending_length. lia. }
  now rewrite (gz_not_zip c suf Hz).
Qed.

Lemma z_no_zip stem suf :
  is_z suf = true ->
  (strlen (stem ++ suf) >? 4) && is_zip (ending 4 (stem ++ suf)) = false.
Proof.
  intros Hz. pose proof (is_z_length suf Hz) as Hl.
  destruct (Z.gtb_spec (strlen (stem ++ suf)) 4) as [H|H]; [|reflexivity].
  rewrite strlen_append in H. unfold strlen in H.
  rewrite (ending_app 4 stem suf) by lia. rewrite Hl.
  destruct (two_chars (ending (4 - 2) stem)) as (c & d & ->).
  { apply ending_length. lia. }
  now rewrite (z_not_zip c d suf Hz).
Qed.

Lemma z_no_gz stem suf :
  is_z suf = true ->
  (strlen (stem ++ suf) >? 3) && is_gz (ending 3 (stem ++ suf)) = false.
Proof.
  intros Hz. pose proof (is_z_length suf Hz) as Hl.
  destruct (Z.gtb_spec (strlen (stem ++ suf)) 3) as [H|H]; [|reflexivity].
  rewrite strlen_append in H. unfold strlen in H.
  rewrite (ending_app 3 stem suf) by lia. rewrite Hl.
  destruct (one_char (ending (3 - 2) stem)) as (c & ->).
  { apply ending_length. lia. }
  now rewrite (z_not_gz c suf Hz).
Qed.

Lemma suffix_found k nm :
  (strlen nm >? Z.of_nat k) = true -> In (ending k nm) suffixes ->
  exists stem suf, nm = stem ++ suf /\ stem <> "" /\ In suf suffixes /\
                   Z.of_nat k = strlen suf.
Proof.
  intros Hgt Hin. apply Z.gtb_lt in Hgt. unfold strlen in Hgt.
  destruct (ending_split k nm ltac:(lia)) as (a & E & Hl).
  exists a, (ending k nm). split; [exact E|]. split.
  - intros ->. cbn in Hl. lia.
  - split; [exact Hin|]. unfold strlen. rewrite ending_length; lia.
Qed.

(** X24.  A name that is a stem, not empty, followed by one of the suffixes
    [.zip .ZIP .gz -gz .zz -zz .z -z _z .Z] has that suffix, and those are
    the names with a suffix; a name that is nothing but a suffix has
    none. *)
Theorem compressed_suffix_spec nm :
  (forall stem suf, nm = stem ++ suf -> stem <> "" -> In suf suffixes ->
                    compressed_suffix nm = strlen suf) /\
  (compressed_suffix nm <> 0 ->
   exists stem suf, nm = stem ++ suf /\ stem <> "" /\ In suf suffixes /\
                    compressed_suffix nm = strlen suf) /\
  (In nm suffixes -> compressed_suffix nm = 0).
Proof.
  split; [|split].
  - intros stem suf -> Hstem Hsuf. rewrite compressed_suffix_tests.
    pose proof (strlen_stem stem Hstem) as Hpos.
    apply suffixes_cases in Hsuf. destruct Hsuf as [Hz|[Hz|Hz]].
    + pose proof (is_zip_length suf Hz) as Hl.
      assert (E : ending 4 (stem ++ suf) = suf)
        by (rewrite <- Hl; apply ending_suffix).
      rewrite E, Hz, strlen_append. unfold strlen in *. rewrite Hl.
      replace (_ >? 4) with true by (symmetry; apply Z.gtb_lt; lia).
      reflexivity.
    + pose proof (is_gz_length suf Hz) as Hl.
      rewrite (gz_no_zip stem suf Hz).
      assert (E : ending 3 (stem ++ suf) = suf)
        by (rewrite <- Hl; apply ending_suffix).
      rewrite E, Hz, strlen_append. unfold strlen in *. rewrite Hl.
      replace (_ >? 3) with true by (symmetry; apply Z.gtb_lt; lia).
      reflexivity.
    + pose proof (is_z_length suf Hz) as Hl.
      rewrite (z_no_zip stem suf Hz), (z_no_gz stem suf Hz).
      assert (E : ending 2 (stem ++ suf) = suf)
        by (rewrite <- Hl; apply ending_suffix).
      rewrite E, Hz, strlen_append. unfold strlen in *. rewrite Hl.
      replace (_ >? 2) with true by (symmetry; apply Z.gtb_lt; lia).
      reflexivity.
  - rewrite compressed_suffix_tests.
    destruct ((strlen nm >? 4) && is_zip (ending 4 nm)) eqn:E4.
    { intros _. apply andb_true_iff in E4 as (Hgt & Hz).
      apply (suffix_found 4 nm Hgt). apply suffixes_cases. auto. }
    destruct ((strlen nm >? 3) && is_gz (ending 3 nm)) eqn:E3.
    { intros _. apply andb_true_iff in E3 as (Hgt & Hz).
      apply (suffix_found 3 nm Hgt). apply suffixes_cases. auto. }
    destruct ((strlen nm >? 2) && is_z (ending 2 nm)) eqn:E2.
    { intros _. apply andb_true_iff in E2 as (Hgt & Hz).
      apply (suffix_found 2 nm Hgt). apply suffixes_cases. auto. }
    congruence.
  - intros H. unfold suffixes in H. cbn [In] in H.
    repeat (destruct H as [<-|H]; [reflexivity|]). destruct H.
Qed.

Lemma justname_scan_spec path : forall k,
  let r := justname_scan path k in
  (r <= k)%nat /\
  (r = 0%nat \/ String.get (r - 1) path = Some "/"%char) /\
  forall i, (r <= i < k)%nat -> String.get i path <> Some "/"%char.
Proof.
  induction k as [|k (IH1 & IH2 & IH3)]; cbv zeta; cbn [justname_scan].
  - split; [lia|]. split; [now left|]. intros i Hi. lia.
  - destruct (String.get k path) as [c|] eqn:Hc.
    + destruct (Ascii.eqb_spec c "/") as [->|Hne].
      * split; [lia|]. split.
        -- right. now replace (S k - 1)%nat with k by lia.
        -- intros i Hi. lia.
      * split; [lia|]. split; [exact IH2|]. intros i Hi.
        destruct (Nat.eq_dec i k) as [->|Hik]; [congruence|].
        apply IH3. lia.
    + split; [lia|]. split; [exact IH2|]. intros i Hi.
      destruct (Nat.eq_dec i k) as [->|Hik]; [congruence|].
      apply IH3. lia.
Qed.

Lemma get_append_l : forall a b i,
  (i < String.length a)%nat -> String.get i (a ++ b) = String.get i a.
Proof.
  induction a as [|c a IH]; intros b i Hi; [cbn in Hi; lia|].
  destruct i as [|i]; [reflexivity|]. cbn. apply IH. cbn in Hi. lia.
Qed.

Lemma get_append_r : forall a b i,
  String.get (String.length a + i) (a ++ b) = String.get i b.
Proof. induction a as [|c a IH]; intros b i; [reflexivity|]. apply IH. Qed.

Lemma no_slash_get : forall s i,
  no_slash s = true -> String.get i s <> Some "/"%char.
Proof.
  induction s as [|c s IH]; intros i H; [now destruct i|].
  cbn [no_slash] in H. apply andb_true_iff in H as (Hc & Hs).
  destruct i as [|i]; cbn.
  - intros E. injection E as ->. discriminate Hc.
  - now apply IH.
Qed.

Lemma append_assoc a b c : (a ++ b) ++ c = a ++ b ++ c.
Proof. induction a as [|x a IH]; [reflexivity|cbn; now rewrite IH]. Qed.

(** X25.  [justname] gives the part of the path after its last slash: the whole
    path if there is no slash in it, and what follows [dir/] if nothing
    after that slash is a slash -- nothing, if the path ends in a slash. *)
Theorem justname_spec path :
  (no_slash path = true -> justname path = path) /\
  (forall dir nm, path = dir ++ "/" ++ nm -> no_slash nm = true ->
                  justname path = nm).
Proof.
  unfold justname.
  destruct (justname_scan_spec path (String.length path)) as (H1 & H2 & H3).
  cbv zeta in H1, H2, H3. set (r := justname_scan path _) in *. split.
  - intros Hno. destruct H2 as [->|H2]; [reflexivity|].
    destruct (no_slash_get path (r - 1) Hno H2).
  - intros dir nm -> Hno.
    assert (Hlen : String.length (dir ++ "/" ++ nm) =
                   (String.length dir + 1 + String.length nm)%nat).
    { rewrite !length_append. cbn. lia. }
    assert (Hr : r = (String.length dir + 1)%nat).
    { destruct (Nat.lt_trichotomy r (String.length dir + 1)) as [Hlt|[E|Hgt]];
        [|exact E|].
      - destruct (H3 (String.length dir) ltac:(lia)).
        rewrite <- (Nat.add_0_r (String.length dir)) at 1.
        now rewrite get_append_r.
      - destruct H2 as [H2|H2]; [lia|].
        replace (r - 1)%nat
          with (String.length dir + S (r - 1 - String.length dir - 1))%nat
          in H2 by lia.
        rewrite get_append_r in H2. cbn in H2.
        destruct (no_slash_get nm _ Hno H2). }
    rewrite Hr, <- append_assoc.
    replace (String.length dir + 1)%nat with (String.length (dir ++ "/"))
      by (rewrite length_append; reflexivity).
    apply advance_app.
Qed.

End NameFacts.


(** ** The options *)

Section OptionFacts.
Import Options.
Local Open Scope string_scope.
Local Open Scope Z_scope.

Ltac split_ifs :=
  repeat match goal with
         | |- context [if ?b then _ else _] => destruct b eqn:?
         end.

(** A letter leaves the block size and the number of threads alone, and the
    pool too unless it sets the level. *)
Lemma short_option_keeps e c s o s' :
  short_option e c s = (o, s') ->
  size s' = size s /\ procs s' = procs s /\
  (jobs s' = None \/ jobs s' = jobs s /\ level s' = level s) /\
  forall r, o <> Some (Returns r).
Proof.
  unfold short_option, help, jobs_free. cbv zeta. split_ifs;
    intros H; injection H as <- <-; cbn;
    (split; [reflexivity|]); (split; [reflexivity|]);
    (split; [auto|discriminate]).
Qed.

Lemma short_options_keep e : forall arg s r s',
  short_options e arg s = (Returns r, s') ->
  r = 0 /\ size s' = size s /\ procs s' = procs s /\
  (jobs s' = None \/ jobs s' = jobs s /\ level s' = level s).
Proof.
  induction arg as [|c rest IH]; intros s r s' H; [discriminate H|].
  cbn [short_options] in H.
  destruct (short_option e c s) as [[o|] s1] eqn:E.
  - apply short_option_keeps in E as (Hs & Hp & Hj & Ho).
    injection H as -> <-. now destruct (Ho r).
  - apply short_option_keeps in E as (Hs & Hp & Hj & _).
    destruct rest as [|c' rest'].
    + injection H as <- <-. auto.
    + destruct (IH _ _ _ H) as (-> & Hs' & Hp' & Hj').
      split; [reflexivity|]. split; [congruence|]. split; [congruence|].
      destruct Hj' as [Hn|(E1 & E2)]; [now left|].
      destruct Hj as [Hn|(E3 & E4)]; [left; congruence|right].
      split; congruence.
Qed.

Lemma ulong_range x : 0 <= ulong x < 2 ^ 64.
Proof. unfold ulong. apply Z.mod_pos_bound. reflexivity. Qed.

Lemma parameter_keeps e arg s r s' :
  Deflate.DICT <= size s < 2 ^ 64 -> 1 <= procs s ->
  parameter e arg s = (Returns r, s') ->
  r = 0 /\ get s' = 0 /\
  (Deflate.DICT <= size s' < 2 ^ 64 /\ 1 <= procs s') /\
  (jobs s' = None \/
   jobs s' = jobs s /\ level s' = level s /\
   size s' = size s /\ procs s' = procs s).
Proof.
  intros Hs Hp. unfold parameter, jobs_free. cbv zeta.
  destruct (negb (get s =? 1) && negb (get s =? 2) && negb (get s =? 4));
    [discriminate|].
  destruct (get s =? 1).
  - cbn [size set_size]. 
    destruct (Z.ltb_spec (ulong (Z.shiftl (ulong (atol e arg)) 10))
                Deflate.DICT) as [Hlt|Hge]; [discriminate|].
    intros H. injection H as <- <-. cbn.
    pose proof (ulong_range (Z.shiftl (ulong (atol e arg)) 10)).
    repeat split; auto; lia.
  - destruct (get s =? 2).
    + cbn [procs set_procs].
      destruct (Z.ltb_spec (atoi e arg) 1) as [Hlt|Hge]; [discriminate|].
      intros H. injection H as <- <-. cbn. repeat split; auto; lia.
    + intros H. injection H as <- <-. cbn. repeat split; auto; lia.
Qed.

(** X26.  A call of [option] that returns keeps the block size at [DICT] or more
    and the number of threads at one or more, as [defaults] sets them; and
    the pool of work units is kept only if the level, the block size and
    the number of threads are as they were when it was made. *)
Theorem option_keeps_bounds e arg s r s' :
  Deflate.DICT <= size s < 2 ^ 64 -> 1 <= procs s ->
  option e arg s = (Returns r, s') ->
  (Deflate.DICT <= size s' < 2 ^ 64 /\ 1 <= procs s') /\
  (jobs s' = None \/
   jobs s' = jobs s /\ level s' = level s /\
   size s' = size s /\ procs s' = procs s) /\
  (Deflate.DICT <= size (defaults s) < 2 ^ 64 /\ 1 <= procs (defaults s)).
Proof.
  intros Hs Hp H.
  assert (Hd : Deflate.DICT <= size (defaults s) < 2 ^ 64 /\
               1 <= procs (defaults s)) by (cbn; unfold Deflate.DICT; lia).
  assert (Hsame : (Deflate.DICT <= size s < 2 ^ 64 /\ 1 <= procs s) /\
                  (jobs s = None \/
                   jobs s = jobs s /\ level s = level s /\
                   size s = size s /\ procs s = procs s))
    by (split; [split; assumption|right; repeat split]).
  assert (Hshort : forall a, short_options e a s = (Returns r, s') ->
            (Deflate.DICT <= size s' < 2 ^ 64 /\ 1 <= procs s') /\
            (jobs s' = None \/
             jobs s' = jobs s /\ level s' = level s /\
             size s' = size s /\ procs s' = procs s)).
  { intros a Ha. apply short_options_keep in Ha as (_ & E1 & E2 & Hj).
    rewrite E1, E2. split; [auto|]. destruct Hj as [Hn|(E3 & E4)]; auto. }
  assert (Hop : forall a, operand e a s = (Returns r, s') ->
            (Deflate.DICT <= size s' < 2 ^ 64 /\ 1 <= procs s') /\
            (jobs s' = None \/
             jobs s' = jobs s /\ level s' = level s /\
             size s' = size s /\ procs s' = procs s)).
  { intros a Ha. unfold operand in Ha. destruct (negb (get s =? 0)).
    - apply (parameter_keeps e a s r s' Hs Hp) in Ha. tauto.
    - injection Ha as <- <-. exact Hsame. }
  cut ((Deflate.DICT <= size s' < 2 ^ 64 /\ 1 <= procs s') /\
       (jobs s' = None \/
        jobs s' = jobs s /\ level s' = level s /\
        size s' = size s /\ procs s' = procs s)); [tauto|].
  unfold option in H. destruct arg as [[|c rest]|].
  - now apply (Hop "").
  - destruct (c =? "-")%char; [|now apply (Hop (String c rest))].
    destruct (negb (get s =? 0)); [discriminate|].
    destruct rest as [|c' long]; [injection H as <- <-; exact Hsame|].
    destruct (c' =? "-")%char; [|now apply (Hshort (String c' long))].
    destruct (find _ _) as [o|]; [|discriminate].
    now apply (Hshort (snd o)).
  - destruct (negb (get s =? 0)); [discriminate|].
    injection H as <- <-. exact Hsame.
Qed.

(** X27.  [option] returns 1, for a file name, exactly on an argument that is [-]
    or does not start with [-], while no parameter of [-b], [-p] or [-s] is
    waited for; the options are then as they were.  Every other call that
    returns, returns 0; and while a parameter is waited for, the end of the
    arguments and an argument that starts with [-] make it bail. *)
Theorem option_file_name e arg s :
  (forall r s', option e arg s = (Returns r, s') -> r = 0 \/ r = 1) /\
  (forall s', option e arg s = (Returns 1, s') <->
     s' = s /\ get s = 0 /\
     exists a, arg = Some a /\ (a = "-" \/ forall rest, a <> String "-" rest))
  /\
  (get s <> 0 ->
   arg = None \/ (exists rest, arg = Some (String "-" rest)) ->
   exists why, option e arg s = (Bails why (pending (get s)), s)).
Proof.
  assert (Hop : forall a r s',
            operand e a s = (Returns r, s') ->
            (r = 0 /\ get s <> 0) \/ (r = 1 /\ s' = s /\ get s = 0)).
  { intros a r s' H. unfold operand in H.
    destruct (Z.eqb_spec (get s) 0) as [E|E]; cbn [negb] in H.
    - injection H as <- <-. auto.
    - unfold parameter in H. cbv zeta in H.
      destruct (negb (get s =? 1) && negb (get s =? 2) && negb (get s =? 4));
        [discriminate|].
      repeat match type of H with
             | context [if ?b then _ else _] => destruct b
             end; try discriminate; injection H as <- <-; auto. }
  split; [|split].
  - intros r s' H. unfold option in H. destruct arg as [[|c rest]|].
    + apply Hop in H. tauto.
    + destruct (c =? "-")%char; [|apply Hop in H; tauto].
      destruct (negb (get s =? 0)); [discriminate|].
      destruct rest as [|c' long]; [injection H as <- <-; auto|].
      destruct (c' =? "-")%char.
      * destruct (find _ _) as [o|]; [|discriminate].
        apply short_options_keep in H. tauto.
      * apply short_options_keep in H. tauto.
    + destruct (negb (get s =? 0)); [discriminate|].
      injection H as <- <-. auto.
  - intros s'. split.
    + intros H. unfold option in H. destruct arg as [[|c rest]|].
      * apply Hop in H as [(Hr & _)|(_ & -> & Hg)]; [discriminate|].
        repeat split; auto. exists "". split; [reflexivity|].
        right. discriminate.
      * destruct (Ascii.eqb_spec c "-") as [->|Hc].
        -- destruct (Z.eqb_spec (get s) 0) as [Hg|Hg]; [|discriminate].
           cbn [negb] in H. destruct rest as [|c' long].
           ++ injection H as <-. repeat split; auto.
              exists "-". auto.
           ++ destruct (c' =? "-")%char.
              ** destruct (find _ _) as [o|]; [|discriminate].
                 apply short_options_keep in H as (Hr & _). discriminate.
              ** apply short_options_keep in H as (Hr & _). discriminate.
        -- apply Hop in H as [(Hr & _)|(_ & -> & Hg)]; [discriminate|].
           repeat split; auto. exists (String c rest).
           split; [reflexivity|]. right. intros rest' E. congruence.
      * destruct (negb (get s =? 0)); discriminate.
    + intros (-> & Hg & a & -> & Ha). unfold option, operand.
      rewrite Hg. cbn [Z.eqb negb].
      destruct Ha as [->|Ha]; [reflexivity|].
      destruct a as [|c rest]; [reflexivity|].
      destruct (Ascii.eqb_spec c "-") as [->|Hc]; [|reflexivity].
      now destruct (Ha rest).
  - intros Hg Harg. apply Z.eqb_neq in Hg. unfold option.
    destruct Harg as [->|(rest & ->)]; rewrite ?Ascii.eqb_refl, Hg;
      cbn [negb]; eauto.
Qed.

End OptionFacts.

Lemma option_keeps_bounds_witness :
  let s' := snd (Options.option some_env (Some "64"%string)
                   (Options.set_get 1 (Options.defaults no_options))) in
  (Options.size s' = 65536 /\ Options.jobs s' = None) /\
  (Deflate.DICT <= Options.size s' < 2 ^ 64 /\ 1 <= Options.procs s').
Proof.
  split; [split; reflexivity|].
  exact (proj1 (option_keeps_bounds some_env (Some "64"%string)
                  (Options.set_get 1 (Options.defaults no_options)) 0 _
                  ltac:(vm_compute; split; [discriminate|reflexivity])
                  ltac:(vm_compute; discriminate) eq_refl)).
Defined.


(** ** The pipeline: one pool for many files *)

Section PoolReuse.
Import Deflate Pipeline Ring.
Context (w : world) (g : globals) (input : list Z).
Context (Hprocs : (1 < procs g)%nat) (Hdict : DICT <= size g).

Local Abbreviation B := (blocks (size g) input).
Local Abbreviation HN := (ring_procs_pos g Hprocs).
Local Abbreviation Hsize := (ring_size_pos g Hdict).

(** When [write_thread] has finished, the units are idle and without
    threads, and the units of the last [procs] blocks have their buffers. *)
Lemma finished_pool pool n s :
  pool_ok g pool -> steps w g n (init g pool input) s ->
  wpc s = W_finished ->
  pool_ok g (Some (jobs s)) /\
  ((procs g <= length B)%nat ->
   exists b i data,
     pool_last_buf g (Some (jobs s)) = Some b /\
     (i < length B <= i + procs g)%nat /\
     B !! i = Some data /\ take (length data) b = data).
Proof.
  intros Hpool Hsteps Hw.
  destruct (steps_ring w g input (pool_last_buf g pool) Hprocs Hdict
              pool n s Hpool) as (R & W & rs & I & _ & (K & _) & _);
    [|exact Hsteps|].
  { intros j Hj. unfold pool_last_buf. now rewrite Hj. }
  pose proof (inv_writer _ _ _ _ _ _ _ I) as Hwr. unfold writer_inv in Hwr.
  rewrite Hw in Hwr. destruct Hwr as (HW & _).
  destruct (inv_RW _ _ _ _ _ _ _ I) as (HRW & _).
  assert (HR : R = length B) by lia.
  pose proof (inv_reader _ _ _ _ _ _ _ I) as Hrd. unfold reader_inv in Hrd.
  pose proof (blocks_nonempty g input HN Hsize) as Hne.
  assert (Hpc : rpc s = R_join \/ rpc s = R_done).
  { destruct (rpc s); auto; exfalso; lia. }
  split.
  - split; [exact (inv_jobs _ _ _ _ _ _ _ I)|].
    apply Forall_lookup. intros k j Hj.
    pose proof (inv_slots _ _ _ _ _ _ _ I _ _ Hj) as Hok.
    unfold phase_of in Hok. replace (R - W)%nat with 0%nat in Hok by lia.
    cbn [holder] in Hok.
    destruct Hpc as [E|E]; rewrite E in Hok; exact Hok.
  - intros Hmany. set (p := procs g) in *.
    set (i := ((R / p) * p - 1)%nat).
    pose proof (Nat.div_mod_eq R p) as Hdm.
    pose proof (Nat.mod_upper_bound R p ltac:(lia)) as Hmod.
    assert (Hq : (1 <= R / p)%nat).
    { apply Nat.div_le_lower_bound; lia. }
    assert (Hi : (i < R /\ R <= i + p)%nat) by (unfold i; nia).
    assert (Hri : read_in R (rpc s) = R) by (destruct Hpc as [E|E]; now rewrite E).
    destruct (K i) as (j & b & data & Hj & Hb & HB & Ht); [lia|fold p; lia|].
    assert (Hslot : slot_of g i = (p - 1)%nat).
    { rewrite (slot_of_mod g HN). fold p.
      symmetry. apply (Nat.mod_unique _ _ (R / p - 1)); [lia|].
      unfold i. nia. }
    rewrite Hslot in Hj. exists b, i, data. unfold pool_last_buf.
    cbn [jobs_new]. fold p. rewrite Hj. repeat split; auto; lia.
Qed.

End PoolReuse.

Section TwoFiles.
Import Deflate Pipeline Ring.
Context (w : world) (g g2 : globals) (input input2 : list Z).
Context (Hprocs : (1 < procs g)%nat) (Hdict : DICT <= size g).
Context (Hsame : procs g2 = procs g) (Hdict2 : DICT <= size g2).

Lemma same_procs : (1 < procs g2)%nat.
Proof. rewrite Hsame. exact Hprocs. Qed.

Lemma next_pool pool n s :
  pool_ok g pool -> steps w g n (init g pool input) s ->
  wpc s = W_finished ->
  pool_ok g2 (Some (jobs s)) /\
  ((procs g <= length (blocks (size g) input))%nat ->
   exists b i data,
     pool_last_buf g2 (Some (jobs s)) = Some b /\
     (i < length (blocks (size g) input) <= i + procs g)%nat /\
     blocks (size g) input !! i = Some data /\
     take (length data) b = data).
Proof.
  intros Hpool Hsteps Hw.
  destruct (finished_pool w g input Hprocs Hdict pool n s Hpool Hsteps Hw)
    as (Hok & Hbuf).
  split.
  - destruct Hok as (Hlen & Hall). split; [congruence|exact Hall].
  - intros Hmany. destruct (Hbuf Hmany) as (b & i & data & Hb & H).
    exists b, i, data. split; [|exact H].
    unfold pool_last_buf in *. cbn [jobs_new] in *.
    rewrite Hsame. exact Hb.
Qed.

(** X28.  The pool that a file leaves behind serves the next file: when
    [write_thread] has finished all units are idle and without a thread, so
    the run on the next file (with the same number of threads) starts in a
    good state, cannot block and comes to its end. *)
Theorem pipeline_pool_reusable pool n s :
  pool_ok g pool -> steps w g n (init g pool input) s ->
  wpc s = W_finished ->
  pool_ok g2 (Some (jobs s)) /\
  exists m s2,
    steps w g2 m (init g2 (Some (jobs s)) input2) s2 /\
    rpc s2 = R_done /\ wpc s2 = W_finished.
Proof.
  intros Hpool Hsteps Hw.
  destruct (next_pool pool n s Hpool Hsteps Hw) as (Hok & _).
  split; [exact Hok|].
  destruct (steps_continue w g2 input2 same_procs Hdict2 (Some (jobs s)) Hok
              _ 0%nat _ (Nat.le_refl _) (steps_O _ _ _))
    as (m & s2 & Hm & Hdone).
  exists m, s2. split; [exact Hm|]. split; [exact Hdone|].
  destruct (steps_inv w g2 input2 (ring_procs_pos _ same_procs)
              (ring_size_pos _ Hdict2) (Some (jobs s)) _ s2 Hok Hm)
    as (R & W & rs & I & _).
  exact (done_finished w g2 input2 R W rs s2 I Hdone).
Qed.

(** X29.  Two files in one run: if the first file has at least [procs] blocks,
    the last unit of the pool keeps the buffer that one of the last [procs]
    blocks of that file was read into, and the first block of the second
    file, if [dict] is on and the file is not empty, is compressed with
    [DICT] bytes of that buffer as dictionary. *)
Theorem second_file_dictionary pool n s n2 s2 :
  pool_ok g pool -> steps w g n (init g pool input) s ->
  wpc s = W_finished ->
  (procs g <= length (blocks (size g) input))%nat ->
  dict g2 = true -> input2 <> [] ->
  steps w g2 n2 (init g2 (Some (jobs s)) input2) s2 ->
  wpc s2 = W_finished ->
  exists rs r0 b i data,
    outd s2 = stream_of w g2 rs /\ rs !! 0%nat = Some r0 /\
    dictionaries (strm r0) =
      [take (Z.to_nat DICT) (drop (Z.to_nat (size g2 - DICT)) b)] /\
    (i < length (blocks (size g) input) <= i + procs g)%nat /\
    blocks (size g) input !! i = Some data /\
    take (length data) b = data.
Proof.
  intros Hpool Hsteps Hw Hmany Hd Hin Hsteps2 Hw2.
  destruct (next_pool pool n s Hpool Hsteps Hw) as (Hok & Hbuf).
  destruct (Hbuf Hmany) as (b & i & data & Hb & Hi & HBi & Ht).
  destruct (finished_ring w g2 input2 same_procs Hdict2 (Some (jobs s))
              n2 s2 Hok Hsteps2 Hw2) as (rs & Ho & Hc & Hdi).
  pose proof (blocks_nonempty g2 input2 (ring_procs_pos _ same_procs)
                (ring_size_pos _ Hdict2)) as Hne.
  destruct (blocks (size g2) input2 !! 0%nat) as [data0|] eqn:HB;
    [|apply lookup_ge_None in HB; lia].
  destruct (Forall2_lookup_l _ _ _ _ _ Hc HB) as (r0 & Hr0 & H0).
  destruct (Hdi 0%nat r0 Hr0) as (pb & Hpb & E).
  assert (Hl : len r0 <> 0).
  { destruct H0 as (Hl & _). rewrite Hl. intros Hz.
    apply (first_block_nonempty g2 input2 same_procs Hdict2 data0 Hin HB).
    apply length_zero_iff_nil. unfold zlen in Hz. lia. }
  apply Z.eqb_neq in Hl.
  assert (Epb : pb = Some b) by (destruct Hpb as [E1|(E1 & _)]; congruence).
  rewrite Epb in E. unfold dictionary_from in E.
  rewrite Hd, Hl in E. cbn [negb andb] in E.
  exists rs, r0, b, i, data. auto 10.
Qed.

End TwoFiles.

Lemma pipeline_pool_reusable_witness :
  exists s m s2,
    Pipeline.wpc s = Pipeline.W_finished /\
    Pipeline.steps some_world default_globals m
      (Pipeline.init default_globals (Some (Pipeline.jobs s)) zero_block) s2 /\
    Pipeline.wpc s2 = Pipeline.W_finished.
Proof.
  destruct (complete_run some_world default_globals two_blocks_schedule
              short_tail complete_short_tail) as (s & Hrun & Hw).
  destruct (pipeline_pool_reusable some_world default_globals default_globals
              short_tail zero_block
              ltac:(vm_compute; lia) ltac:(vm_compute; discriminate)
              eq_refl ltac:(vm_compute; discriminate)
              None _ s I (run_steps _ _ _ _ _ Hrun) Hw)
    as (_ & m & s2 & Hm & _ & Hw2).
  exists s, m, s2. auto.
Defined.

Lemma second_file_dictionary_witness :
  exists s2 rs r0 b,
    Pipeline.outd s2 = Ring.stream_of some_world default_globals rs /\
    rs !! 0%nat = Some r0 /\
    dictionaries (Pipeline.strm r0) =
      [take (Z.to_nat Deflate.DICT)
         (drop (Z.to_nat (size default_globals - Deflate.DICT)) b)].
Proof.
  assert (Hp : (1 < procs default_globals)%nat) by (vm_compute; lia).
  assert (Hd : Deflate.DICT <= size default_globals)
    by (vm_compute; discriminate).
  destruct (complete_run some_world default_globals two_blocks_schedule
              short_tail complete_short_tail) as (s & Hrun & Hw).
  pose proof (run_steps _ _ _ _ _ Hrun) as Hsteps.
  destruct (next_pool some_world default_globals default_globals short_tail
              Hp Hd eq_refl None _ s I Hsteps Hw) as (Hok & _).
  destruct (steps_continue some_world default_globals [1; 2; 3] Hp Hd
              (Some (Pipeline.jobs s)) Hok _ 0%nat _ (Nat.le_refl _)
              (Pipeline.steps_O _ _ _)) as (m & s2 & Hm & Hdone).
  destruct (steps_inv some_world default_globals [1; 2; 3]
              (ring_procs_pos _ Hp) (ring_size_pos _ Hd)
              (Some (Pipeline.jobs s)) _ s2 Hok Hm) as (R & W & rs0 & Hinv & _).
  pose proof (done_finished some_world default_globals [1; 2; 3]
                R W rs0 s2 Hinv Hdone) as Hw2.
  destruct (second_file_dictionary some_world default_globals default_globals
              short_tail [1; 2; 3] Hp Hd eq_refl Hd None _ s _ s2
              I Hsteps Hw ltac:(vm_compute; lia) eq_refl ltac:(discriminate)
              Hm Hw2)
    as (rs & r0 & b & _ & _ & Ho & Hr0 & Hdi & _).
  exists s2, rs, r0, b. auto.
Defined.


(** ** Concatenated streams *)

Section ManyStreams.
Import Framing Inflate.

(** The header of a gzip stream that follows another: [get_header(0)] takes
    it off the input and keeps the name and the time stamp of the first. *)
Lemma get_header_next_gzip c c' g s rest :
  form g = 0 -> (forall nm, name g = Some nm -> c_string nm) ->
  in_eof s = false -> ind s = fst (put_header c g) ++ rest ->
  get_header c' false s =
  (Go 8, set_ind rest (set_glob (set_form 0 (glob s)) s)).
Proof.
  intros Hf Hname He Hi. rewrite (put_header_gzip c g Hf) in Hi.
  cbn [fst] in Hi.
  destruct (le32_value (mtime g)) as (b0 & b1 & b2 & b3 & Eb & Ev).
  cbv zeta in Eb. rewrite Eb in Hi. clear Eb.
  destruct s as [gl i eof ot oc st hn zc zl zu od rm se so].
  fields_in. subst i eof. unfold get_header, when.
  destruct (name g) as [nm|] eqn:En; cbn [app] in *.
  - rewrite <- app_assoc. cbn [app].
    repeat run_step. repeat (eval_if || run_step).
    erewrite (bind_Go skip_string)
      by (eapply skip_string_cons; [reflexivity|reflexivity|now apply Hname]).
    repeat (eval_if || run_step). unfold ret. fields_in.
    reflexivity.
  - repeat run_step. repeat (eval_if || run_step).
    unfold ret. reflexivity.
Qed.

(** One gzip stream of [infchk] with the trailer that [put_trailer] writes,
    and [rest] behind it. *)
Lemma infchk_gzip_stream c0 g ib sched cont s chunks clen head rest :
  form g = 0 -> form (glob s) = 0 -> listing (glob s) = 0 ->
  in_eof s = false ->
  ib (ind s) =
    (chunks,
     Some (put_trailer c0 g (ulong (zlen (concat chunks))) clen
             (CHECK g (CHECK_init g) (concat chunks)) head ++ rest)) ->
  exists s3,
    infchk_stream ib sched cont s = (Go cont, s3) /\
    ind s3 = rest /\ in_eof s3 = false /\ glob s3 = glob s /\
    stderr s3 = stderr s /\ removed s3 = removed s /\
    outd s3 = outd s ++ (if decode (glob s) =? 1 then concat chunks else []).
Proof.
  intros Hg Hf Hl He Hib. set (data := concat chunks) in *.
  rewrite (put_trailer_gzip c0 g _ _ _ _ Hg), le32_ulong in Hib.
  assert (Ecrc : CHECK g (CHECK_init g) data = Comb.crc32 0 data).
  { unfold CHECK, CHECK_init. now rewrite Hg. }
  rewrite Ecrc in Hib.
  set (s0 := set_out_check (CHECK_init (glob s)) (set_out_tot 0 s)).
  destruct (fold_outb_accumulates chunks s0 (CHECK_init (glob s0)) [])
    as (_ & Ht & Hc & Ho).
  { subst s0. cbn [out_check set_out_check]. now rewrite CHECK_empty. }
  cbv zeta in Ht, Hc, Ho.
  rewrite <- (outb_all_fold sched chunks 0%nat) in Ht, Hc, Ho.
  change (out_tot s0) with 0 in Ht. rewrite Z.add_0_l in Ht.
  rewrite app_nil_l in Hc. fold data in Ht, Hc, Ho.
  destruct (outb_all_same sched chunks 0 s0) as ((Hr & Hs & Hgl) & He1 & Hi1).
  set (s1 := outb_all sched 0 chunks s0) in *.
  assert (Hgl0 : glob s0 = glob s) by now destruct s.
  rewrite Hgl0 in *.
  assert (Hc1 : out_check s1 = Comb.crc32 0 data).
  { rewrite Hc. unfold CHECK, CHECK_init. now rewrite Hf. }
  set (tr := (le32 (Comb.crc32 0 data) ++ le32 (zlen data)) ++ rest) in *.
  set (s2 := set_ind tr s1).
  assert (Htr : read_trailer (zlen (ind s) - zlen tr) s2 =
                (Go (Comb.crc32 0 data), set_ind rest s2)).
  { pose proof (read_trailer_gzip (zlen (ind s) - zlen tr) s2 s2) as H.
    assert (C : (8 <=? zlen (ind s2)) && (stored32 (ind s2) =? out_check s2)
                && (stored32 (drop 4 (ind s2)) =? out_tot s2 mod 2 ^ 32)
                = true).
    { subst s2. cbn [ind set_ind out_check out_tot]. subst tr.
      rewrite <- !app_assoc. rewrite stored32_le32, drop_le32, stored32_le32.
      assert (E8 : (8 <=? zlen (le32 (Comb.crc32 0 data) ++
                               le32 (zlen data) ++ rest)) = true).
      { apply Z.leb_le. unfold zlen, le32. cbn [length app]. lia. }
      rewrite E8, Hc1, Ht. pose proof (crc32_word data) as Hw.
      unfold word in Hw.
      rewrite (Z.mod_small (Comb.crc32 0 data)) by lia.
      rewrite !Z.eqb_refl. reflexivity. }
    rewrite C in H. rewrite H.
    - subst s2 tr. cbn [ind set_ind]. rewrite <- !app_assoc.
      rewrite stored32_le32.
      pose proof (crc32_word data) as Hw. unfold word in Hw.
      rewrite Z.mod_small by lia. reflexivity.
    - subst s2. cbn [glob set_ind]. congruence.
    - subst s2. cbn [in_eof set_ind]. subst s0. now rewrite He1.
    - repeat split. }
  exists (set_ind rest s2). split.
  - apply (infchk_stream_go ib sched cont s chunks tr (Comb.crc32 0 data)).
    + exact Hib.
    + exact Htr.
    + subst s2. cbn [glob set_ind]. congruence.
  - subst s2. cbn [ind in_eof glob stderr removed outd set_ind].
    rewrite He1, Hgl, Hs, Hr, Ho. subst s0.
    cbn [removed stderr outd glob in_eof set_out_check set_out_tot]. auto 10.
Qed.

(** The loop of [infchk] goes on to the next stream after a header. *)
Lemma infchk_loop_next n c ib sched cont s cont' s3 s4 :
  infchk_stream ib sched cont s = (Go cont', s3) ->
  (form (glob s3) <? 2) = true ->
  get_header c false s3 = (Go 8, s4) ->
  (form (glob s4) <? 2) = true ->
  infchk_loop (S n) c ib sched cont s = infchk_loop n c ib sched cont' s4.
Proof.
  intros Hst Hf Hh Hf4. cbn [infchk_loop].
  rewrite (bind_Go _ _ _ _ _ Hst), bind_get, Hf.
  assert (Ecall : do_call (get_header c false) s3 = (Go 8, s4))
    by (unfold do_call, call; now rewrite Hh).
  rewrite (bind_Go _ _ _ _ _ Ecall), bind_get, Hf4. reflexivity.
Qed.

(** The loop ends after a stream behind which the input ends. *)
Lemma infchk_loop_last n c ib sched cont s cont' s3 :
  infchk_stream ib sched cont s = (Go cont', s3) ->
  (form (glob s3) <? 2) = true -> in_eof s3 = false -> ind s3 = [] ->
  infchk_loop (S n) c ib sched cont s =
  (Go (Some (-1)), set_in_eof true (set_glob (set_form 0 (glob s3)) s3)).
Proof.
  intros Hst Hf He Hi. cbn [infchk_loop].
  rewrite (bind_Go _ _ _ _ _ Hst), bind_get, Hf.
  assert (Ecall : do_call (get_header c false) s3 =
                  (Go (-1), set_in_eof true
                              (set_glob (set_form 0 (glob s3)) s3))).
  { unfold do_call, call. now rewrite get_header_eof. }
  rewrite (bind_Go _ _ _ _ _ Ecall), bind_get. reflexivity.
Qed.

(** X30.  Two gzip streams one after the other, each with the trailer that
    [put_trailer] writes for its data and the second with the header that
    [put_header] writes: [infchk] takes both without a message, and when
    decompressing it has written the data of the first and then the data
    of the second. *)
Theorem infchk_concatenated_gzip c c1 c2 g1 g2 ib sched s
    chunks1 chunks2 clen1 clen2 head1 head2 body2 :
  form g1 = 0 -> form g2 = 0 ->
  (forall nm, name g2 = Some nm -> c_string nm) ->
  form (glob s) = 0 -> listing (glob s) = 0 -> in_eof s = false ->
  ind s <> [] ->
  ib (ind s) =
    (chunks1,
     Some (put_trailer c1 g1 (ulong (zlen (concat chunks1))) clen1
             (CHECK g1 (CHECK_init g1) (concat chunks1)) head1 ++
           fst (put_header c2 g2) ++ body2)) ->
  ib body2 =
    (chunks2,
     Some (put_trailer c2 g2 (ulong (zlen (concat chunks2))) clen2
             (CHECK g2 (CHECK_init g2) (concat chunks2)) head2)) ->
  exists s',
    infchk c ib sched s = Some (Returned, s') /\
    stderr s' = stderr s /\ removed s' = removed s /\
    outd s' =
      outd s ++ (if decode (glob s) =? 1
                 then concat chunks1 ++ concat chunks2 else []).
Proof.
  intros Hg1 Hg2 Hname Hf Hl He Hne Hib1 Hib2.
  destruct (infchk_gzip_stream c1 g1 ib sched 0 s chunks1 clen1 head1 _
              Hg1 Hf Hl He Hib1)
    as (s3 & Hst1 & Hi3 & He3 & Hgl3 & Hse3 & Hrm3 & Ho3).
  pose proof (get_header_next_gzip c2 c g2 s3 body2 Hg2 Hname He3 Hi3) as Hh.
  set (s4 := set_ind body2 (set_glob (set_form 0 (glob s3)) s3)) in *.
  assert (Hgl4 : glob s4 = glob s).
  { subst s4. destruct s3. cbn [glob set_ind set_glob] in *. subst.
    destruct (Inflate.glob s). cbn in Hf |- *. now subst. }
  assert (Hib2' : ib (ind s4) =
            (chunks2,
             Some (put_trailer c2 g2 (ulong (zlen (concat chunks2))) clen2
                     (CHECK g2 (CHECK_init g2) (concat chunks2)) head2 ++ [])))
    by (rewrite app_nil_r; subst s4; destruct s3; exact Hib2).
  destruct (infchk_gzip_stream c2 g2 ib sched 0 s4 chunks2 clen2 head2 []
              Hg2 ltac:(congruence) ltac:(congruence)
              ltac:(subst s4; destruct s3; exact He3) Hib2')
    as (s5 & Hst2 & Hi5 & He5 & Hgl5 & Hse5 & Hrm5 & Ho5).
  assert (Hf3 : (form (glob s3) <? 2) = true) by (rewrite Hgl3, Hf; reflexivity).
  assert (Hf4 : (form (glob s4) <? 2) = true) by (rewrite Hgl4, Hf; reflexivity).
  assert (Hf5 : (form (glob s5) <? 2) = true)
    by (rewrite Hgl5, Hgl4, Hf; reflexivity).
  eexists. split.
  - unfold infchk. destruct (ind s) as [|b0 l] eqn:Ei; [congruence|].
    cbn [length]. rewrite <- Ei in *.
    rewrite (infchk_loop_next _ c ib sched 0 s 0 s3 s4 Hst1 Hf3 Hh Hf4).
    rewrite (infchk_loop_last _ c ib sched 0 s4 0 s5 Hst2 Hf5 He5 Hi5).
    change (negb (-1 =? -1)) with false. cbn [andb]. reflexivity.
  - cbn [stderr removed outd set_in_eof set_glob].
    rewrite Hse5, Hrm5, Ho5. subst s4.
    assert (E1 : stderr (set_ind body2 (set_glob (set_form 0 (glob s3)) s3))
                 = stderr s3) by now destruct s3.
    assert (E2 : removed (set_ind body2 (set_glob (set_form 0 (glob s3)) s3))
                 = removed s3) by now destruct s3.
    assert (E3 : outd (set_ind body2 (set_glob (set_form 0 (glob s3)) s3))
                 = outd s3) by now destruct s3.
    rewrite E1, E2, E3, Hse3, Hrm3, Ho3, Hgl4.
    repeat split; auto.
    rewrite <- app_assoc. destruct (decode (glob s) =? 1); [reflexivity|].
    now rewrite !app_nil_r.
Qed.

End ManyStreams.

Lemma infchk_concatenated_gzip_witness :
  exists s',
    Inflate.infchk some_clock literal_inflater (fun _ => false)
      (inflate_start (set_decode 1 default_globals) two_streams)
    = Some (Inflate.Returned, s') /\
    Inflate.stderr s' = [] /\ Inflate.outd s' = [1; 2; 3; 4; 5].
Proof.
  destruct (infchk_concatenated_gzip some_clock some_clock some_clock
              default_globals default_globals literal_inflater
              (fun _ => false)
              (inflate_start (set_decode 1 default_globals) two_streams)
              [[1; 2]] [[3; 4; 5]] 0 0 10 10
              ([3; 3; 4; 5] ++
               Framing.put_trailer some_clock default_globals 3 0
                 (Comb.crc32 0 [3; 4; 5]) 10)
              eq_refl eq_refl ltac:(discriminate) eq_refl eq_refl eq_refl
              ltac:(discriminate) eq_refl eq_refl)
    as (s' & H1 & H2 & _ & H3).
  exists s'. split; [exact H1|]. split; [exact H2|exact H3].
Defined.
